(** * Tile processing core of mapbox-gl-js: buckets, worker tile, feature tree

    A shallow embedding of the parts of the tile-processing pipeline that the
    specification makes claims about:

    - [Bucket]       : element groups and [makeRoomFor]
                       (js/data/bucket.js and its two later revisions)
    - [CircleBucket] : circle tessellation
                       (the circle bucket, third file of js/render/draw_circle.js)
    - [Geometry]     : narrow-phase query primitives (js/data/feature_tree.js)
    - [MarkerSearch] : the binary-search bucket fast path (the worker tile)
    - [WorkerTile]   : dependency barrier and deferred placement (the worker tile)
    - [FeatureTree]  : serialisation of the spatial index (js/data/feature_tree.js)

    - [PlainObject]  : objects used as maps: own properties in creation
                       order, inherited names, the order of [for-in]
    - [Double]       : IEEE 754 binary64 arithmetic
    - [Rounded]      : the narrow-phase primitives with every operation
                       rounded to binary64
    - [RoundedKeys]  : the binary search with its keys rounded to binary64

    JavaScript numbers that hold counts and indices are modelled as [Z].
    The narrow-phase geometry is given twice: in [Geometry] over exact
    rationals [Q], which is what the code computes where no operation
    rounds, and in [Rounded] over [Double.Number], where every operation is
    rounded as the engine rounds it.  A JavaScript exception ([TypeError],
    [RangeError]) is modelled by [None] in an [option] result. *)

From Stdlib Require Import ZArith QArith Qabs Qround Qpower Qreduction Lia Lqa Bool
  Ascii String.
From stdpp Require Import gmap strings list fin_maps sorting.

Local Open Scope Z_scope.

(** ** Bucket: element groups (js/data/bucket.js) *)

Module Bucket.

(** [Bucket.EXTENT = 8192] *)
Definition EXTENT : Z := 8192.

(** The part of a [Buffer] that [makeRoomFor] reads. *)
Record Buffer := mkBuffer {
  buf_length : Z;
  itemSize : Z
}.

(** An element group.  [elementBuffer && elementBuffer.length] is
    [undefined] when the bucket has no such buffer; [undefined] is modelled by
    [None].  The three offsets are set by the object literal of
    js/data/bucket.js; the constructor [ElementGroup] of the two later
    revisions of the file sets the first six fields only, and the offsets of
    a group it built are [undefined]. *)
Record ElementGroup := mkElementGroup {
  vertexStartIndex : Z;
  elementStartIndex : option Z;
  secondElementStartIndex : option Z;
  elementLength : Z;
  vertexLength : Z;
  secondElementLength : Z;
  elementOffset : option Z;
  secondElementOffset : option Z;
  vertexOffset : option Z
}.

(** The two ways in which the revisions of the file build a new group. *)
Inductive Revision :=
  | ObjectLiteral   (* js/data/bucket.js *)
  | Constructor.    (* the revisions with [function ElementGroup] *)

(** The mutable part of a bucket that the group logic touches:
    [this.elementGroups] and [this.buffers], both keyed by name. *)
Record State := mkState {
  elementGroups : gmap string (list ElementGroup);
  buffers : gmap string Buffer
}.

(** [string.charAt(0).toUpperCase() + string.slice(1)], on ASCII. *)
Definition toUpperCase (c : ascii) : ascii :=
  let n := nat_of_ascii c in
  if ((97 <=? n)%nat && (n <=? 122)%nat)%bool then ascii_of_nat (n - 32) else c.

Definition capitalize (s : string) : string :=
  match s with
  | EmptyString => EmptyString
  | String c rest => String (toUpperCase c) rest
  end.

Definition getBufferName (shaderName type : string) : string :=
  shaderName +:+ capitalize type.

(** The group appended by [makeRoomFor] of js/data/bucket.js when the
    current one has no room. *)
Definition freshGroup (vertexBuffer : Buffer)
    (elementBuffer secondElementBuffer : option Buffer) : ElementGroup :=
  {| vertexStartIndex := buf_length vertexBuffer;
     elementStartIndex := buf_length <$> elementBuffer;
     secondElementStartIndex := buf_length <$> secondElementBuffer;
     elementLength := 0;
     vertexLength := 0;
     secondElementLength := 0;
     elementOffset := (fun e => buf_length e * itemSize e) <$> elementBuffer;
     secondElementOffset :=
       (fun e => buf_length e * itemSize e) <$> secondElementBuffer;
     vertexOffset := Some (buf_length vertexBuffer * itemSize vertexBuffer) |}.

(** [new ElementGroup(vertexStartIndex, elementStartIndex,
    secondElementStartIndex)] of the later revisions. *)
Definition newElementGroup (vertexStartIndex : Z)
    (elementStartIndex secondElementStartIndex : option Z) : ElementGroup :=
  {| vertexStartIndex := vertexStartIndex;
     elementStartIndex := elementStartIndex;
     secondElementStartIndex := secondElementStartIndex;
     elementLength := 0;
     vertexLength := 0;
     secondElementLength := 0;
     elementOffset := None;
     secondElementOffset := None;
     vertexOffset := None |}.

Definition openGroup (rev : Revision) (vertexBuffer : Buffer)
    (elementBuffer secondElementBuffer : option Buffer) : ElementGroup :=
  match rev with
  | ObjectLiteral => freshGroup vertexBuffer elementBuffer secondElementBuffer
  | Constructor =>
      newElementGroup (buf_length vertexBuffer) (buf_length <$> elementBuffer)
                      (buf_length <$> secondElementBuffer)
  end.

(** [var currentGroup = groups.length && groups[groups.length - 1]]:
    falsy ([0]) for an empty list, the last group otherwise.  The test
    [!currentGroup || currentGroup.vertexLength + numVertices > 65535]. *)
Definition needsNewGroup (groups : list ElementGroup) (numVertices : Z) : bool :=
  match last groups with
  | None => true
  | Some currentGroup => bool_decide (vertexLength currentGroup + numVertices > 65535)
  end.

(** [Bucket.prototype.makeRoomFor].  The returned group is an alias of the
    last element of [elementGroups[shaderName]]; the model returns its index
    in that list together with the new state.  [None] is the [TypeError] of
    [groups.length] on a missing group list or of [vertexBuffer.length] on a
    missing vertex buffer. *)
Definition makeRoomFor (rev : Revision) (shaderName : string) (numVertices : Z)
    (b : State) : option (nat * State) :=
  groups ← elementGroups b !! shaderName;
  if needsNewGroup groups numVertices then
    vertexBuffer ← buffers b !! getBufferName shaderName "vertex";
    let elementBuffer := buffers b !! getBufferName shaderName "element" in
    let secondElementBuffer := buffers b !! getBufferName shaderName "secondElement" in
    let currentGroup := openGroup rev vertexBuffer elementBuffer secondElementBuffer in
    Some (length groups,
          {| elementGroups := <[shaderName := groups ++ [currentGroup]]> (elementGroups b);
             buffers := buffers b |})
  else Some (pred (length groups), b).

(** What every caller of [makeRoomFor] does next: push [nv] vertices and
    [ne] elements, then [group.vertexLength += nv; group.elementLength += ne]
    on the returned (aliased) group. *)
Definition growGroup (nv ne : Z) (g : ElementGroup) : ElementGroup :=
  {| vertexStartIndex := vertexStartIndex g;
     elementStartIndex := elementStartIndex g;
     secondElementStartIndex := secondElementStartIndex g;
     elementLength := elementLength g + ne;
     vertexLength := vertexLength g + nv;
     secondElementLength := secondElementLength g;
     elementOffset := elementOffset g;
     secondElementOffset := secondElementOffset g;
     vertexOffset := vertexOffset g |}.

Definition pushItems (n : Z) (buf : Buffer) : Buffer :=
  {| buf_length := buf_length buf + n; itemSize := itemSize buf |}.

Definition addToGroup (shaderName : string) (idx : nat) (nv ne : Z) (b : State) : State :=
  {| elementGroups := alter (alter (growGroup nv ne) idx) shaderName (elementGroups b);
     buffers :=
       alter (pushItems ne) (getBufferName shaderName "element")
         (alter (pushItems nv) (getBufferName shaderName "vertex") (buffers b)) |}.

(** One tessellation step: reserve room for [nv] vertices, then add them. *)
Record Op := mkOp { op_shader : string; op_vertices : Z; op_elements : Z }.

Definition step (rev : Revision) (o : Op) (b : State) : option State :=
  '(idx, b1) ← makeRoomFor rev (op_shader o) (op_vertices o) b;
  Some (addToGroup (op_shader o) idx (op_vertices o) (op_elements o) b1).

Fixpoint run (rev : Revision) (ops : list Op) (b : State) : option State :=
  match ops with
  | [] => Some b
  | o :: rest => b1 ← step rev o b; run rev rest b1
  end.

(** The shape of one entry of [shaderInterfaces] as [createBuffers] reads it.
    The item sizes are computed by the [Buffer] constructor (data/buffer, not
    part of the modelled sources) from the attribute layout; they are carried
    here as data. *)
Record ShaderInterface := mkShaderInterface {
  vertexBuffer : bool;
  elementBuffer : bool;
  secondElementBuffer : bool;
  vertexItemSize : Z;
  elementItemSize : Z;
  secondElementItemSize : Z
}.

Definition createBuffersFor (shaderName : string) (si : ShaderInterface)
    (bufs : gmap string Buffer) : gmap string Buffer :=
  let bufs1 :=
    if vertexBuffer si
    then <[getBufferName shaderName "vertex" := mkBuffer 0 (vertexItemSize si)]> bufs
    else bufs in
  let bufs2 :=
    if elementBuffer si
    then <[getBufferName shaderName "element" := mkBuffer 0 (elementItemSize si)]> bufs1
    else bufs1 in
  if secondElementBuffer si
  then <[getBufferName shaderName "secondElement" := mkBuffer 0 (secondElementItemSize si)]> bufs2
  else bufs2.

(** [Bucket.prototype.createBuffers]: one empty group list per shader
    interface, and fresh empty buffers. *)
Definition createBuffers (shaderInterfaces : gmap string ShaderInterface) : State :=
  {| elementGroups := (fun _ => []) <$> shaderInterfaces;
     buffers := map_fold createBuffersFor ∅ shaderInterfaces |}.

(** Every element group of every shader holds at most 65535 vertices. *)
Definition groupsBounded (b : State) : Prop :=
  ∀ name groups g,
    elementGroups b !! name = Some groups → g ∈ groups → vertexLength g <= 65535.

(** A shader is ready when [makeRoomFor] cannot raise on it: its group list
    and its vertex buffer exist. *)
Definition ready (name : string) (b : State) : Prop :=
  is_Some (elementGroups b !! name) ∧
  is_Some (buffers b !! getBufferName name "vertex").

(** A concrete bucket with one shader, and two steps on it: the first fills
    a group to the brim, the second has to open a new one. *)
Definition circleInterfaces : gmap string ShaderInterface :=
  {[ "circle" := mkShaderInterface true true false 4 6 0 ]}.

Definition fillThenOverflow : list Op :=
  [mkOp "circle" 65535 2; mkOp "circle" 4 2].

End Bucket.

(** ** Circle bucket (third file of js/render/draw_circle.js) *)

Module CircleBucket.

Record Point := mkPoint { px : Z; py : Z }.

(** The typed views a struct array writes through. *)
Definition toInt16 (v : Z) : Z := (v + 32768) mod 65536 - 32768.
Definition toUint16 (v : Z) : Z := v mod 65536.

(** The state [addFeature] works on: the element groups, the two struct
    arrays [this.arrays.circleVertex] (one [a_pos] pair of [Int16] per vertex)
    and [this.arrays.circleElement] (three [Uint16] per triangle), and the
    calls made to [addPaintAttributes], recorded as index ranges. *)
Record State := mkState {
  elementGroups : gmap string (list Bucket.ElementGroup);
  circleVertex : list (Z * Z);
  circleElement : list (Z * Z * Z);
  paintCalls : list (Z * Z)
}.

Definition withGroups (gs : gmap string (list Bucket.ElementGroup)) (s : State) : State :=
  {| elementGroups := gs; circleVertex := circleVertex s;
     circleElement := circleElement s; paintCalls := paintCalls s |}.

(** Modelled from the spec: [StructArray.emplaceBack] (util/struct_array is
    not among the sources) appends one record to the array, each member
    written through its typed view, and returns the index of the new record. *)
Definition emplaceBackVertex (a b : Z) (s : State) : Z * State :=
  (Z.of_nat (length (circleVertex s)),
   {| elementGroups := elementGroups s;
      circleVertex := circleVertex s ++ [(toInt16 a, toInt16 b)];
      circleElement := circleElement s; paintCalls := paintCalls s |}).

Definition emplaceBackElement (a b c : Z) (s : State) : Z * State :=
  (Z.of_nat (length (circleElement s)),
   {| elementGroups := elementGroups s;
      circleVertex := circleVertex s;
      circleElement := circleElement s ++ [(toUint16 a, toUint16 b, toUint16 c)];
      paintCalls := paintCalls s |}).

(** [CircleBucket.prototype.addCircleVertex].  [/] is JavaScript's real
    division; the callers pass extrusions -1 and 1 only, for which
    [(extrude + 1) / 2] is the integer 0 or 1 and [Z] division agrees. *)
Definition addCircleVertex (x y extrudeX extrudeY : Z) (s : State) : Z * State :=
  emplaceBackVertex ((x * 2) + ((extrudeX + 1) / 2))
                    ((y * 2) + ((extrudeY + 1) / 2)) s.

(** The item sizes of the two arrays: two [Int16], three [Uint16]. *)
Definition vertexItemSize : Z := 4.
Definition elementItemSize : Z := 6.

(** The bucket as [Bucket.makeRoomFor] sees it: the group lists, and the
    lengths of the arrays of the [circle] program.  The revision of [Bucket]
    that this file belongs to keeps struct arrays in [this.arrays] where the
    revisions among the sources keep buffers in [this.buffers]; [makeRoomFor]
    is that of the latest of them, reading the lengths of the arrays. *)
Definition asBucket (s : State) : Bucket.State :=
  {| Bucket.elementGroups := elementGroups s;
     Bucket.buffers :=
       {[ Bucket.getBufferName "circle" "vertex" :=
            Bucket.mkBuffer (Z.of_nat (length (circleVertex s))) vertexItemSize;
          Bucket.getBufferName "circle" "element" :=
            Bucket.mkBuffer (Z.of_nat (length (circleElement s))) elementItemSize ]} |}.

Definition makeRoomFor (programName : string) (numVertices : Z) (s : State)
    : option (nat * State) :=
  '(idx, b1) ← Bucket.makeRoomFor Bucket.Constructor programName numVertices
                 (asBucket s);
  Some (idx, withGroups (Bucket.elementGroups b1) s).

(** [group.vertexLength += nv; group.elementLength += ne] on the group that
    [makeRoomFor] returned. *)
Definition growReturned (programName : string) (idx : nat) (nv ne : Z) (s : State) : State :=
  withGroups
    (alter (alter (Bucket.growGroup nv ne) idx) programName (elementGroups s)) s.

(** [x < 0 || x >= EXTENT || y < 0 || y >= EXTENT] *)
Definition outsideTile (p : Point) : bool :=
  (px p <? 0) || (px p >=? Bucket.EXTENT) || (py p <? 0) || (py p >=? Bucket.EXTENT).

(** The body of the inner loop of [addFeature] for one point. *)
Definition addPoint (p : Point) (s : State) : option State :=
  let x := px p in
  let y := py p in
  if outsideTile p then Some s
  else
    '(idx, s0) ← makeRoomFor "circle" 4 s;
    group ← (elementGroups s0 !! "circle") ≫= (fun gs => gs !! idx);
    let '(i0, s1) := addCircleVertex x y (-1) (-1) s0 in
    let index := i0 - Bucket.vertexStartIndex group in
    let '(_, s2) := addCircleVertex x y 1 (-1) s1 in
    let '(_, s3) := addCircleVertex x y 1 1 s2 in
    let '(_, s4) := addCircleVertex x y (-1) 1 s3 in
    let s5 := growReturned "circle" idx 4 0 s4 in
    let '(_, s6) := emplaceBackElement index (index + 1) (index + 2) s5 in
    let '(_, s7) := emplaceBackElement index (index + 3) (index + 2) s6 in
    Some (growReturned "circle" idx 0 2 s7).

Fixpoint addRing (ring : list Point) (s : State) : option State :=
  match ring with
  | [] => Some s
  | p :: rest => s1 ← addPoint p s; addRing rest s1
  end.

Fixpoint addRings (geometries : list (list Point)) (s : State) : option State :=
  match geometries with
  | [] => Some s
  | ring :: rest => s1 ← addRing ring s; addRings rest s1
  end.

(** [CircleBucket.prototype.addFeature] on the geometry that [loadGeometry]
    returned for the feature.  [addPaintAttributes] (not among the sources)
    is recorded by the vertex range it is called with. *)
Definition addFeature (geometries : list (list Point)) (s : State) : option State :=
  let startIndex := Z.of_nat (length (circleVertex s)) in
  s1 ← addRings geometries s;
  Some {| elementGroups := elementGroups s1;
          circleVertex := circleVertex s1;
          circleElement := circleElement s1;
          paintCalls := paintCalls s1 ++
            [(startIndex, Z.of_nat (length (circleVertex s1)))] |}.

(** The four corners a point is turned into, in emission order. *)
Definition encode (coordinate extrusion : Z) : Z := coordinate * 2 + (extrusion + 1) / 2.

Definition quad (p : Point) : list (Z * Z) :=
  [ (encode (px p) (-1), encode (py p) (-1));
    (encode (px p) 1,    encode (py p) (-1));
    (encode (px p) 1,    encode (py p) 1);
    (encode (px p) (-1), encode (py p) 1) ].

(** Totals over all groups of the [circle] program. *)
Definition circleGroups (s : State) : list Bucket.ElementGroup :=
  default [] (elementGroups s !! "circle").

Definition totalVertexLength (s : State) : Z :=
  foldr Z.add 0 (Bucket.vertexLength <$> circleGroups s).

Definition totalElementLength (s : State) : Z :=
  foldr Z.add 0 (Bucket.elementLength <$> circleGroups s).

(** A point that lies inside the tile. *)
Definition insideTile (p : Point) : bool := negb (outsideTile p).

(** The bucket right after [createBuffers]: no group, empty arrays. *)
Definition created : State :=
  {| elementGroups := {[ "circle" := [] ]}; circleVertex := [];
     circleElement := []; paintCalls := [] |}.

(** What [makeRoomFor('circle', 4)] does to the group list of the program:
    it hands back the last group when that has room, or a fresh group
    appended to the list. *)
Inductive Reserved (s : State) (groups : list Bucket.ElementGroup)
    : nat → list Bucket.ElementGroup → Bucket.ElementGroup → Prop :=
  | ReservedLast g :
      last groups = Some g → Bucket.vertexLength g + 4 <= 65535 →
      Reserved s groups (pred (length groups)) groups g
  | ReservedFresh g :
      Bucket.vertexLength g = 0 → Bucket.elementLength g = 0 →
      Bucket.vertexStartIndex g = Z.of_nat (length (circleVertex s)) →
      Bucket.elementStartIndex g = Some (Z.of_nat (length (circleElement s))) →
      Reserved s groups (length groups) (groups ++ [g]) g.

(** The two triangles of a quad whose first vertex has index [index] in its
    group, as stored in the element array. *)
Definition triangles (index : Z) : list (Z * Z * Z) :=
  [ (toUint16 index, toUint16 (index + 1), toUint16 (index + 2));
    (toUint16 index, toUint16 (index + 3), toUint16 (index + 2)) ].

(** The points of a geometry that lie inside the tile, in order. *)
Definition insidePoints (geometries : list (list Point)) : list Point :=
  filter (fun p => insideTile p = true) (concat geometries).

(** [s'] has [k] more quads than [s]. *)
Definition grownBy (k : Z) (s s' : State) : Prop :=
  Z.of_nat (length (circleVertex s')) = Z.of_nat (length (circleVertex s)) + 4 * k ∧
  Z.of_nat (length (circleElement s')) = Z.of_nat (length (circleElement s)) + 2 * k ∧
  totalVertexLength s' = totalVertexLength s + 4 * k ∧
  totalElementLength s' = totalElementLength s + 2 * k.

End CircleBucket.

(** ** Narrow-phase geometry of the feature query (js/data/feature_tree.js) *)

Module Geometry.

Local Open Scope Q_scope.

(** A [Point] of the point-geometry package with the methods used here. *)
Record Point := mkPoint { x : Q; y : Q }.

(** [this.distSqr(p)]: [dx = p.x - this.x], [dy = p.y - this.y],
    [dx * dx + dy * dy]. *)
Definition distSqr (this p : Point) : Q :=
  let dx := x p - x this in
  let dy := y p - y this in
  dx * dx + dy * dy.

Definition sub (this p : Point) : Point := mkPoint (x this - x p) (y this - y p).
Definition mult (this : Point) (k : Q) : Point := mkPoint (x this * k) (y this * k).
Definition add (this p : Point) : Point := mkPoint (x this + x p) (y this + y p).

(** Comparison and division of numbers.  A quotient by zero is no rational
    number (JavaScript yields an infinity or [NaN]); it is [None] here, and
    a comparison with it is [false], as a comparison with [NaN] is. *)
Definition Qltb (a b : Q) : bool := negb (Qle_bool b a).

Definition divide (a b : Q) : option Q :=
  if Qeq_bool b 0 then None else Some (a / b).

Definition lessThan (a : option Q) (b : Q) : bool :=
  match a with
  | Some d => Qltb d b
  | None => false
  end.

(** [distToSegmentSquared(p, v, w)] *)
Definition distToSegmentSquared (p v w : Point) : option Q :=
  let l2 := distSqr v w in
  if Qeq_bool l2 0 then Some (distSqr p v)
  else
    t ← divide ((x p - x v) * (x w - x v) + (y p - y v) * (y w - y v)) l2;
    if Qltb t 0 then Some (distSqr p v)
    else if Qltb 1 t then Some (distSqr p w)
    else Some (distSqr p (add (mult (sub w v) t) v)).

(** The loop of [pointIntersectsBufferedLine]: [i] runs from 1, the segment
    is [line[i - 1]], [line[i]]. *)
Fixpoint anySegmentWithin (p : Point) (line : list Point) (radiusSquared : Q) : bool :=
  match line with
  | v :: (w :: _) as rest =>
      if lessThan (distToSegmentSquared p v w) radiusSquared then true
      else anySegmentWithin p rest radiusSquared
  | _ => false
  end.

(** [pointIntersectsBufferedLine(p, line, radius)] *)
Definition pointIntersectsBufferedLine (p : Point) (line : list Point) (radius : Q) : bool :=
  let radiusSquared := radius * radius in
  match line with
  | [q] => Qltb (distSqr p q) radiusSquared
  | _ => anySegmentWithin p line radiusSquared
  end.

(** [q] lies on the closed segment from [v] to [w]. *)
Definition onSegment (v w q : Point) : Prop :=
  ∃ s : Q, 0 <= s ∧ s <= 1 ∧
    x q == x v + s * (x w - x v) ∧ y q == y v + s * (y w - y v).

(** [v], [w] are consecutive points of [line]. *)
Definition segmentOf (line : list Point) (v w : Point) : Prop :=
  ∃ i : nat, line !! i = Some v ∧ line !! S i = Some w.

(** The test of one edge in the ray casting of [polygonContainsPoint]:
    [((p1.y > p.y) !== (p2.y > p.y)) &&
     (p.x < (p2.x - p1.x) * (p.y - p1.y) / (p2.y - p1.y) + p1.x)]. *)
Definition edgeCrosses (p p1 p2 : Point) : bool :=
  if negb (eqb (Qltb (y p) (y p1)) (Qltb (y p) (y p2))) then
    match divide ((x p2 - x p1) * (y p - y p1)) (y p2 - y p1) with
    | Some q => Qltb (x p) (q + x p1)
    | None => false
    end
  else false.

(** The loop [for (i = 0, j = ring.length - 1; i < ring.length; j = i++)]:
    [prev] is [ring[j]], the parity [c] is carried along. *)
Fixpoint crossings (p prev : Point) (ring : list Point) (c : bool) : bool :=
  match ring with
  | [] => c
  | p1 :: rest => crossings p p1 rest (if edgeCrosses p p1 prev then negb c else c)
  end.

Definition ringCrossings (p : Point) (ring : list Point) (c : bool) : bool :=
  match last ring with
  | Some prev => crossings p prev ring c
  | None => c
  end.

(** [polygonContainsPoint(ring, p)] *)
Definition polygonContainsPoint (ring : list Point) (p : Point) : bool :=
  ringCrossings p ring false.

(** [multiPolygonContainsPoint(rings, p)] *)
Definition multiPolygonContainsPoint (rings : list (list Point)) (p : Point) : bool :=
  foldl (fun c ring => ringCrossings p ring c) false rings.

(** [isCounterClockwise(a, b, c)] *)
Definition isCounterClockwise (a b c : Point) : bool :=
  Qltb ((y b - y a) * (x c - x a)) ((y c - y a) * (x b - x a)).

(** [lineSegmentIntersectsLineSegment(a0, a1, b0, b1)] *)
Definition lineSegmentIntersectsLineSegment (a0 a1 b0 b1 : Point) : bool :=
  negb (eqb (isCounterClockwise a0 b0 b1) (isCounterClockwise a1 b0 b1)) &&
  negb (eqb (isCounterClockwise a0 a1 b0) (isCounterClockwise a0 a1 b1)).

(** The consecutive pairs [line[i]], [line[i + 1]]. *)
Fixpoint segments (line : list Point) : list (Point * Point) :=
  match line with
  | v :: (w :: _) as rest => (v, w) :: segments rest
  | _ => []
  end.

(** [lineIntersectsLine(lineA, lineB)] *)
Definition lineIntersectsLine (lineA lineB : list Point) : bool :=
  existsb (fun a =>
    existsb (fun b => lineSegmentIntersectsLineSegment a.1 a.2 b.1 b.2)
            (segments lineB))
    (segments lineA).

(** [lineIntersectsBufferedLine(lineA, lineB, radius)] *)
Definition lineIntersectsBufferedLine (lineA lineB : list Point) (radius : Q) : bool :=
  (if (1 <? length lineA)%nat then
     lineIntersectsLine lineA lineB ||
     existsb (fun q => pointIntersectsBufferedLine q lineA radius) lineB
   else false) ||
  existsb (fun q => pointIntersectsBufferedLine q lineB radius) lineA.

(** [polygonIntersectsBufferedMultiLine(polygon, multiLine, radius)] *)
Definition polygonIntersectsBufferedMultiLine (polygon : list Point)
    (multiLine : list (list Point)) (radius : Q) : bool :=
  existsb (fun line =>
    (if (3 <=? length polygon)%nat
     then existsb (polygonContainsPoint polygon) line else false) ||
    lineIntersectsBufferedLine polygon line radius) multiLine.

(** [polygonIntersectsMultiPolygon(polygon, multiPolygon)] *)
Definition polygonIntersectsMultiPolygon (polygon : list Point)
    (multiPolygon : list (list Point)) : bool :=
  match polygon with
  | [q] => multiPolygonContainsPoint multiPolygon q
  | _ =>
      existsb (fun ring => existsb (polygonContainsPoint polygon) ring) multiPolygon ||
      existsb (multiPolygonContainsPoint multiPolygon) polygon ||
      existsb (lineIntersectsLine polygon) multiPolygon
  end.

(** [polygonIntersectsBufferedMultiPoint(polygon, rings, radius)] *)
Definition polygonIntersectsBufferedMultiPoint (polygon : list Point)
    (rings : list (list Point)) (radius : Q) : bool :=
  existsb (fun ring =>
    existsb (fun point =>
      polygonContainsPoint polygon point ||
      pointIntersectsBufferedLine point polygon radius) ring) rings.

End Geometry.

(** ** The binary-search bucket fast path of the worker tile *)

Module MarkerSearch.

(** [var COLOR_OFFSET = 10000000000] *)
Definition COLOR_OFFSET : Z := 10000000000.

(** A feature of the [markers] layer: [properties.c] (colour index),
    [properties.d] (close date), and a tag that tells features apart. *)
Record Feature := mkFeature { c : Z; d : Z; tag : nat }.

(** A vector-tile layer: [layer.length] and [layer.feature(i)]. *)
Abbreviation Layer := (list Feature).

(** An index or [null]. *)
Abbreviation Index := (option nat).

(** A value that may be [undefined]; arithmetic on [undefined] gives [NaN],
    and every comparison with [NaN] is false. *)
Abbreviation Maybe := (option Z).

(** [time + color * COLOR_OFFSET] *)
Definition compositeKey (color time : Maybe) : Maybe :=
  match color, time with
  | Some cl, Some t => Some (t + cl * COLOR_OFFSET)
  | _, _ => None
  end.

(** [(properties.d + properties.c * COLOR_OFFSET) - find < 0] *)
Definition keyBelow (f : Feature) (find : Maybe) : bool :=
  match find with
  | Some k => (d f + c f * COLOR_OFFSET) - k <? 0
  | None => false
  end.

(** The [while (low !== high)] loop of [featuresFind].  The recursion is on
    [fuel]; [None] is an exhausted fuel or an index outside the layer. *)
Fixpoint featuresFindLoop (fuel : nat) (layer : Layer) (find : Maybe)
    (low high : nat) : option nat :=
  if (low =? high)%nat then Some low
  else
    match fuel with
    | O => None
    | S fuel' =>
        let mid := ((low + high) / 2)%nat in
        feature ← layer !! mid;
        if keyBelow feature find
        then featuresFindLoop fuel' layer find (mid + 1)%nat high
        else featuresFindLoop fuel' layer find low mid
    end.

(** [featuresFind(layer, color, time)]: the index of the first feature whose
    key is not below the searched one, [null] when there is none. *)
Definition featuresFind (layer : Layer) (color time : Maybe) : option Index :=
  let find := compositeKey color time in
  low ← featuresFindLoop (length layer) layer find 0 (length layer);
  Some (if (low =? length layer)%nat then None else Some low).

(** [null] counts as 0 in arithmetic. *)
Definition toNumber (i : Index) : Z :=
  match i with
  | Some n => Z.of_nat n
  | None => 0
  end.

(** JavaScript truthiness of an index: [null] and [0] are falsy. *)
Definition truthy (i : Index) : bool :=
  match i with
  | Some (S _) => true
  | _ => false
  end.

(** [featuresSlice(layer, begin, end)]: [n = end - begin]; [new Array(n)]
    raises a [RangeError] for a negative [n]; then [slice[k] = layer.feature(k
    + begin)] for [k] below [n]. *)
Definition featuresSlice (layer : Layer) (begin end_ : Index) : option (list Feature) :=
  let n := toNumber end_ - toNumber begin in
  if n <? 0 then None
  else mapM (fun k => layer !! Z.to_nat (Z.of_nat k + toNumber begin))
            (seq 0 (Z.to_nat n)).

(** One clause [[op, key, value]] of a style filter, and a filter
    [[operator, clause, ...]]; [getFilters] starts at index 1. *)
Record Clause := mkClause { op : string; key : string; value : Z }.
Record Filter := mkFilter { operator : string; clauses : list Clause }.

Record FilterValues := mkFilterValues {
  colorIdx : Maybe;
  startTime : Maybe;
  endTime : Maybe
}.

(** [filterSpec[0].charAt(0) === '>'] *)
Definition startsWithGreater (s : string) : bool :=
  match s with
  | String ch _ => bool_decide (ch = ">"%char)
  | EmptyString => false
  end.

Definition getFiltersStep (values : FilterValues) (filterSpec : Clause) : FilterValues :=
  if bool_decide (key filterSpec = "c") then
    mkFilterValues (Some (value filterSpec)) (startTime values) (endTime values)
  else if bool_decide (key filterSpec = "d") then
    if startsWithGreater (op filterSpec)
    then mkFilterValues (colorIdx values) (Some (value filterSpec)) (endTime values)
    else mkFilterValues (colorIdx values) (startTime values) (Some (value filterSpec))
  else values.

(** [getFilters(filter)] *)
Definition getFilters (filter : Filter) : FilterValues :=
  foldl getFiltersStep (mkFilterValues None None None) (clauses filter).

(** The body of the loop of [sortLayerIntoBucketsBinarySearch] for one
    bucket: the features the bucket receives. *)
Definition bucketFeatures (layer : Layer) (filter : Filter) : option (list Feature) :=
  let filterValues := getFilters filter in
  startIdx ← featuresFind layer (colorIdx filterValues) (startTime filterValues);
  endIdx ← featuresFind layer (colorIdx filterValues) (endTime filterValues);
  let endIdx := if truthy startIdx && negb (truthy endIdx)
                then Some (length layer) else endIdx in
  featuresSlice layer startIdx endIdx.

(** [sortLayerIntoBucketsBinarySearch(layer, buckets)]: every bucket, in
    enumeration order, gets its slice as its feature list. *)
Definition sortLayerIntoBucketsBinarySearch (layer : Layer)
    (buckets : list (string * Filter)) : option (list (string * list Feature)) :=
  mapM (fun b => fs ← bucketFeatures layer (snd b); Some (fst b, fs)) buckets.

(** A one-feature markers layer, and the filter
    [["all", ["==", "c", 1], [">=", "d", 0], ["<", "d", 10]]]
    that the feature satisfies. *)
Definition oneMarker : Layer := [mkFeature 1 5 0].

Definition firstTenDays : Filter :=
  mkFilter "all" [mkClause "==" "c" 1; mkClause ">=" "d" 0; mkClause "<" "d" 10].

(** A three-feature layer sorted by key, and a filter whose start key lies
    after the first feature and whose end key lies after the last. *)
Definition threeMarkers : Layer :=
  [mkFeature 1 5 0; mkFeature 1 20 1; mkFeature 1 30 2].

Definition fromDayTen : Filter :=
  mkFilter "all" [mkClause "==" "c" 1; mkClause ">=" "d" 10; mkClause "<" "d" 100].

(** A filter that all three features satisfy. *)
Definition firstHundredDays : Filter :=
  mkFilter "all" [mkClause "==" "c" 1; mkClause ">=" "d" 0; mkClause "<" "d" 100].

End MarkerSearch.

(** ** Worker tile: dependency barrier and deferred placement *)

Module WorkerTile.

(** [this.status]: unset before [parse], then ['parsing'], then ['done']. *)
Inductive Status := Unparsed | Parsing | Done.

Global Instance Status_eq_dec : EqDecision Status.
Proof. solve_decision. Defined.

(** What the tile processor reads of a bucket: its id and type, how many
    features were sorted into it, the icons [updateIcons] asks for, and
    whether its tessellator leaves a non-empty buffer ([isBucketEmpty], which
    despite its name is true for a bucket with data). *)
Record Bucket := mkBucket {
  id : string;
  type : string;
  featureCount : nat;
  iconNames : list string;
  hasData : bool
}.

(** An error value passed to a callback (truthy). *)
Abbreviation Error := string.

(** The two dependencies of symbol buckets. *)
Inductive Dependency := Glyphs | Icons.

Global Instance Dependency_eq_dec : EqDecision Dependency.
Proof. solve_decision. Defined.

(** The effects of the tile processor, in the order they happen.
    [GotDependency dep err] records a call of [gotDependency(err)] and the
    request it answers; [Callback err result] a call of the [callback] of
    [parse], the result being the ids of the serialized buckets. *)
Inductive Action :=
  | NewCollisionTile (angle pitch : Q)
  | SendGetGlyphs
  | SendGetIcons (icons : list string)
  | GotDependency (dep : Dependency) (err : option Error)
  | PopulateBuffers (bucket : Bucket)
  | PlaceFeatures (bucket : Bucket) (showCollisionBoxes : option bool)
  | Callback (err : option Error) (result : option (list string)).

(** The fields of the [WorkerTile] object that [parse] and [redoPlacement]
    share. *)
Record Tile := mkTile {
  status : Status;
  angle : Q;
  pitch : Q;
  redoPlacementAfterDone : bool;
  symbolBuckets : list Bucket
}.

(** The tile together with the variables of the closure of one [parse] call
    and the effects so far. *)
Record Parse := mkParse {
  tile : Tile;
  deps : nat;
  buckets : list Bucket;
  log : list Action
}.

Definition emit (acts : list Action) (m : Parse) : Parse :=
  {| tile := tile m; deps := deps m; buckets := buckets m; log := log m ++ acts |}.

Definition withTile (t : Tile) (m : Parse) : Parse :=
  {| tile := t; deps := deps m; buckets := buckets m; log := log m |}.

(** [buckets.filter(isBucketEmpty).map(serializeBucket)] *)
Definition serialized (bs : list Bucket) : list string :=
  id <$> filter (fun b => hasData b = true) bs.

(** What [redoPlacement] returns: [{}], or the re-placed symbol buckets. *)
Inductive Placement := EmptyResult | Placed (buckets : list string).

(** [WorkerTile.prototype.redoPlacement]: the returned value, the tile
    afterwards, and the effects. *)
Definition redoPlacement (angle' pitch' : Q) (showCollisionBoxes : option bool)
    (t : Tile) : Placement * Tile * list Action :=
  if bool_decide (status t ≠ Done) then
    (EmptyResult,
     {| status := status t; angle := angle'; pitch := pitch t;
        redoPlacementAfterDone := true; symbolBuckets := symbolBuckets t |},
     [])
  else
    (Placed (serialized (symbolBuckets t)),
     t,
     NewCollisionTile angle' pitch' ::
       ((fun b => PlaceFeatures b showCollisionBoxes) <$> rev (symbolBuckets t))).

(** [done()] inside [parse]. *)
Definition done (m : Parse) : Parse :=
  let t1 := {| status := Done; angle := angle (tile m); pitch := pitch (tile m);
               redoPlacementAfterDone := redoPlacementAfterDone (tile m);
               symbolBuckets := symbolBuckets (tile m) |} in
  let '(t2, acts) :=
    if redoPlacementAfterDone t1 then
      let '(_, t', acts) := redoPlacement (angle t1) (pitch t1) None t1 in
      ({| status := status t'; angle := angle t'; pitch := pitch t';
          redoPlacementAfterDone := false; symbolBuckets := symbolBuckets t' |},
       acts)
    else (t1, []) in
  emit (acts ++ [Callback None (Some (serialized (buckets m)))]) (withTile t2 m).

(** [parseBucket(tile, bucket)], as far as the effects go. *)
Definition parseBucket (m : Parse) (b : Bucket) : Parse := emit [PopulateBuffers b] m.

(** The loop [for (i = bs.length - 1; i >= 0; i--) parseBucket(tile, bs[i])]. *)
Definition parseBuckets (bs : list Bucket) (m : Parse) : Parse :=
  foldl parseBucket m (rev bs).

(** [gotDependency(err)], called for the dependency [dep]. *)
Definition gotDependency (dep : Dependency) (err : option Error) (m : Parse) : Parse :=
  let m1 := emit [GotDependency dep err] m in
  match err with
  | Some e => emit [Callback (Some e) None] m1
  | None =>
      let m2 := {| tile := tile m1; deps := S (deps m1);
                   buckets := buckets m1; log := log m1 |} in
      if (deps m2 =? 2)%nat
      then done (parseBuckets (symbolBuckets (tile m2)) m2)
      else m2
  end.

Definition isSymbol (b : Bucket) : bool := bool_decide (type b = "symbol").

(** The icons collected by [updateIcons], most recent symbol bucket first;
    [Object.keys] lists each once. *)
Definition collectIcons (symbols : list Bucket) : list string :=
  remove_dups (concat (iconNames <$> rev symbols)).

(** The synchronous part of [parse], from the loop over [bucketsById] on;
    [bucketsById] is given in enumeration order with the features already
    sorted in. *)
Definition parse (bucketsById : list Bucket) (t : Tile) : Parse :=
  let nonEmpty := filter (fun b => featureCount b ≠ 0%nat) bucketsById in
  let symbols := filter (fun b => isSymbol b = true) nonEmpty in
  let others := filter (fun b => isSymbol b = false) nonEmpty in
  let t1 := {| status := Parsing; angle := angle t; pitch := pitch t;
               redoPlacementAfterDone := redoPlacementAfterDone t;
               symbolBuckets := symbols |} in
  let m0 := {| tile := t1; deps := 0; buckets := nonEmpty;
               log := [NewCollisionTile (angle t) (pitch t)] |} in
  let m1 :=
    match symbols with
    | [] => m0
    | _ :: _ =>
        let icons := collectIcons symbols in
        let m := emit [SendGetGlyphs] m0 in
        match icons with
        | [] => gotDependency Icons None m
        | _ :: _ => emit [SendGetIcons icons] m
        end
    end in
  let m2 := parseBuckets others m1 in
  match symbols with
  | [] => done m2
  | _ :: _ => m2
  end.

(** What can happen after the synchronous part: the answer to either
    request, or a call of [redoPlacement] from outside. *)
Inductive Event :=
  | GlyphsResponse (err : option Error)
  | IconsResponse (err : option Error)
  | RedoPlacementRequest (angle pitch : Q) (showCollisionBoxes : option bool).

Definition handle (m : Parse) (ev : Event) : Parse :=
  match ev with
  | GlyphsResponse err => gotDependency Glyphs err m
  | IconsResponse err => gotDependency Icons err m
  | RedoPlacementRequest a p s =>
      let '(_, t', acts) := redoPlacement a p s (tile m) in
      emit acts (withTile t' m)
  end.

Definition run (m : Parse) (evs : list Event) : Parse := foldl handle m evs.

(** The callback contract of the actor: every request that was sent is
    answered at most once, and nothing else is answered. *)
Definition answers (dep : Dependency) (ev : Event) : bool :=
  match dep, ev with
  | Glyphs, GlyphsResponse _ => true
  | Icons, IconsResponse _ => true
  | _, _ => false
  end.

Definition requests (dep : Dependency) (a : Action) : bool :=
  match dep, a with
  | Glyphs, SendGetGlyphs => true
  | Icons, SendGetIcons _ => true
  | _, _ => false
  end.

(** How many elements of a list pass a test. *)
Definition countb {A} (f : A → bool) (l : list A) : nat :=
  length (filter (fun a => f a = true) l).

Definition sent (dep : Dependency) (l : list Action) : nat := countb (requests dep) l.

Definition answered (dep : Dependency) (evs : list Event) : nat :=
  countb (answers dep) evs.

Definition respectsContract (m : Parse) (evs : list Event) : Prop :=
  (answered Glyphs evs <= sent Glyphs (log m))%nat ∧
  (answered Icons evs <= sent Icons (log m))%nat.

(** The symbol buckets tessellated in a log, in order. *)
Definition symbolPopulates (l : list Action) : list Bucket :=
  omap (fun a => match a with
                 | PopulateBuffers b => if isSymbol b then Some b else None
                 | _ => None
                 end) l.

(** The completions of dependencies in a log. *)
Definition isCompletion (a : Action) : bool :=
  match a with
  | GotDependency _ None => true
  | _ => false
  end.

Definition completions (l : list Action) : nat := countb isCompletion l.

(** The collision structures built in a log. *)
Definition collisionTiles (l : list Action) : list (Q * Q) :=
  omap (fun a => match a with
                 | NewCollisionTile a p => Some (a, p)
                 | _ => None
                 end) l.

(** The calls of [gotDependency] for [dep] in a log. *)
Definition isGot (dep : Dependency) (a : Action) : bool :=
  match a with
  | GotDependency dep' _ => bool_decide (dep' = dep)
  | _ => false
  end.

Definition gotCount (dep : Dependency) (l : list Action) : nat := countb (isGot dep) l.

(** The successful calls of [gotDependency] for [dep]. *)
Definition isCompleted (dep : Dependency) (a : Action) : bool :=
  isCompletion a && isGot dep a.

(** Every tessellation of a symbol bucket in the log comes after the
    completion of both dependencies. *)
Definition gated (l : list Action) : Prop :=
  ∀ before b after,
    l = before ++ PopulateBuffers b :: after → isSymbol b = true →
    GotDependency Glyphs None ∈ before ∧ GotDependency Icons None ∈ before.

(** The symbol and the other non-empty buckets of [parse]. *)
Definition symbolsOf (bucketsById : list Bucket) : list Bucket :=
  filter (fun b => isSymbol b = true)
    (filter (fun b => featureCount b ≠ 0%nat) bucketsById).

Definition isResult (a : Action) : bool :=
  match a with
  | Callback None (Some _) => true
  | _ => false
  end.

(** Sample buckets and a sample tile. *)
Definition roads : Bucket := mkBucket "roads" "line" 2 [] true.
Definition labels : Bucket := mkBucket "labels" "symbol" 3 [] true.
Definition shields : Bucket := mkBucket "shields" "symbol" 1 ["shield"] false.
Definition fresh : Tile := mkTile Unparsed 0 0 false [].

(** Actions of a placement run: a collision structure and [placeFeatures]. *)
Definition isPlacement (a : Action) : bool :=
  match a with
  | NewCollisionTile _ _ | PlaceFeatures _ _ => true
  | _ => false
  end.

(** What holds of a parse with symbol buckets [symbols] between events, when
    [evs] are the events still to come. *)
Record Invariant (symbols : list Bucket) (m : Parse) (evs : list Event) : Prop := {
  inv_glyphs : (gotCount Glyphs (log m) + answered Glyphs evs <= 1)%nat;
  inv_icons : (gotCount Icons (log m) + answered Icons evs <= 1)%nat;
  inv_deps : deps m = completions (log m);
  inv_symbols : symbolBuckets (tile m) = symbols;
  inv_gated : gated (log m);
  inv_populates :
    symbolPopulates (log m) = if (deps m =? 2)%nat then rev symbols else [];
  inv_result : countb isResult (log m) = if (deps m =? 2)%nat then 1%nat else 0%nat;
  inv_status : status (tile m) = if (deps m =? 2)%nat then Done else Parsing
}.

(** A successful answer. *)
Definition succeeds (ev : Event) : bool :=
  match ev with
  | GlyphsResponse None | IconsResponse None => true
  | _ => false
  end.

(** The completion that [parse] itself counts: one when no icon is asked
    for, none otherwise. *)
Definition immediateCompletions (bucketsById : list Bucket) : nat :=
  match collectIcons (symbolsOf bucketsById) with
  | [] => 1%nat
  | _ :: _ => 0%nat
  end.

Definition isRedoRequest (ev : Event) : bool :=
  match ev with
  | RedoPlacementRequest _ _ _ => true
  | _ => false
  end.

(** The calls of [placeFeatures] in a log. *)
Definition placements (l : list Action) : list (Bucket * option bool) :=
  omap (fun a => match a with
                 | PlaceFeatures b s => Some (b, s)
                 | _ => None
                 end) l.

End WorkerTile.

(** ** Feature tree (js/data/feature_tree.js) *)

Module FeatureTree.

Import Geometry.
Local Open Scope Q_scope.

(** A number that may be infinite: the bounding boxes start from
    [Infinity] and [-Infinity]. *)
Inductive Num := NegInfinity | Finite (q : Q) | Infinity.

(** [Math.min(n, q)] and [Math.max(n, q)] for a finite [q]. *)
Definition numMin (n : Num) (q : Q) : Num :=
  match n with
  | NegInfinity => NegInfinity
  | Finite m => Finite (if Qle_bool m q then m else q)
  | Infinity => Finite q
  end.

Definition numMax (n : Num) (q : Q) : Num :=
  match n with
  | NegInfinity => Finite q
  | Finite m => Finite (if Qle_bool m q then q else m)
  | Infinity => Infinity
  end.

(** [n + q] for a finite [q]. *)
Definition numPlus (n : Num) (q : Q) : Num :=
  match n with
  | Finite m => Finite (m + q)
  | _ => n
  end.

(** One record of [FeatureIndexArray]; the members are declared [Uint32],
    [Uint16], [Uint16]. *)
Record IndexRecord := mkIndexRecord {
  featureIndex : Z;
  sourceLayerIndex : Z;
  bucketIndex : Z
}.

Record Coord := mkCoord { cx : Z; cy : Z; cz : Z }.

(** [array[i]] for a number [i]: [undefined] outside the array. *)
Definition at_ {A} (l : list A) (i : Z) : option A :=
  if (i <? 0)%Z then None else l !! Z.to_nat i.

(** Paint values read by the query. *)
Record Paint := mkPaint {
  lineWidth : Q;
  lineGapWidth : Q;
  lineOffset : Q;
  lineTranslate : Q * Q;
  lineTranslateAnchor : string;
  fillTranslate : Q * Q;
  fillTranslateAnchor : string;
  circleRadius : Q;
  circleTranslate : Q * Q;
  circleTranslateAnchor : string
}.

Record StyleLayer := mkStyleLayer { layerType : string; paint : Paint }.

(** The helper classes and packages that the feature tree calls and that
    are not among the sources, with the operations it uses of them. *)
Record World := mkWorld {
  (** util/grid: [new Grid(n, extent, padding)], [insert], [query],
      [toArrayBuffer], and [new Grid(arrayBuffer)] *)
  Grid : Type;
  GridBuffer : Type;
  newGrid : Z → Z → Z → Grid;
  gridInsert : Z → Num → Num → Num → Num → Grid → Grid;
  gridQuery : Num → Num → Num → Num → Grid → list Z;
  gridToArrayBuffer : Grid → GridBuffer;
  gridFromArrayBuffer : GridBuffer → Grid;
  (** util/struct_array: [serialize()] and the constructor from a serialized
      array, for [FeatureIndexArray] *)
  IndexBuffer : Type;
  indexSerialize : list IndexRecord → IndexBuffer;
  indexDeserialize : IndexBuffer → list IndexRecord;
  (** vector-tile and pbf: the raw bytes, the decoded layers
      ([new vt.VectorTile(new Protobuf(new Uint8Array(raw))).layers], which
      raises on corrupt bytes), [Object.keys(layers).sort()], [layers[name]]
      and [layer.feature(i)] *)
  RawTile : Type;
  VtLayers : Type;
  Layer : Type;
  Feature : Type;
  decodeTile : option RawTile → option VtLayers;
  layerNames : VtLayers → list string;
  layerOf : VtLayers → string → option Layer;
  featureOf : Layer → Z → option Feature;
  (** data/load_geometry and feature-filter *)
  loadGeometry : Feature → list (list Point);
  FilterSpec : Type;
  featureFilter : option FilterSpec → Feature → bool;
  (** symbol/collision_tile: [queryRenderedSymbols] and
      [collisionBoxArray.get] *)
  CollisionTile : Type;
  queryRenderedSymbols : CollisionTile → Num → Num → Num → Num → Q → list Z;
  collisionBoxArray : CollisionTile → Z → option IndexRecord;
  (** [Math.sqrt], [Math.log(v) / Math.LN2], [Point._rotate], the default
      [Array.prototype.sort], and [offsetLine] (which works by in-place
      updates of shared points and reads nothing of the tree) *)
  sqrt : Q → Q;
  log2 : Q → Q;
  rotate : Point → Q → Point;
  defaultSort : list Z → list Z;
  offsetLine : list (list Point) → Q → list (list Point)
}.

Section Model.

Context (W : World).

(** The fields of a [FeatureTree].  [rawTileData] and [bucketLayerIDs] are
    set by the constructor from serialized data only (or from outside);
    [vtLayers], with the source layer coder derived from it, is the lazily
    decoded tile. *)
Record Tree := mkTree {
  coord : Coord;
  overscaling : Q;
  tx : Z;
  ty : Z;
  tz : Q;
  grid : Grid W;
  featureIndexArray : list IndexRecord;
  rawTileData : option (RawTile W);
  bucketLayerIDs : option (gmap Z (list string));
  collisionTile : option (CollisionTile W);
  vtLayers : option (VtLayers W)
}.

(** The [data] object built by [serialize]. *)
Record Serialized := mkSerialized {
  s_coord : Coord;
  s_overscaling : Q;
  s_grid : GridBuffer W;
  s_featureIndexArray : IndexBuffer W;
  s_bucketLayerIDs : option (gmap Z (list string))
}.

(** [this.z = coord.z - Math.log(overscaling) / Math.LN2] *)
Definition zoomOf (c : Coord) (overscaling : Q) : Q :=
  inject_Z (cz c) - log2 W overscaling.

(** [new FeatureTree(coord, overscaling, collisionTile)] *)
Definition create (c : Coord) (overscaling : Q)
    (collisionTile : option (CollisionTile W)) : Tree :=
  {| coord := c; overscaling := overscaling;
     tx := cx c; ty := cy c; tz := zoomOf c overscaling;
     grid := newGrid W 16 Bucket.EXTENT 0;
     featureIndexArray := [];
     rawTileData := None;
     bucketLayerIDs := None;
     collisionTile := collisionTile;
     vtLayers := None |}.

(** [new FeatureTree(serialized, rawTileData, collisionTile)]: the branch
    taken when the first argument has a [grid]. *)
Definition fromSerialized (serialized : Serialized)
    (rawTileData : option (RawTile W))
    (collisionTile : option (CollisionTile W)) : Tree :=
  {| coord := s_coord serialized; overscaling := s_overscaling serialized;
     tx := cx (s_coord serialized); ty := cy (s_coord serialized);
     tz := zoomOf (s_coord serialized) (s_overscaling serialized);
     grid := gridFromArrayBuffer W (s_grid serialized);
     featureIndexArray := indexDeserialize W (s_featureIndexArray serialized);
     rawTileData := rawTileData;
     bucketLayerIDs := s_bucketLayerIDs serialized;
     collisionTile := collisionTile;
     vtLayers := None |}.

(** [FeatureTree.prototype.setCollisionTile] *)
Definition setCollisionTile (collisionTile : option (CollisionTile W)) (t : Tree) : Tree :=
  {| coord := coord t; overscaling := overscaling t;
     tx := tx t; ty := ty t; tz := tz t; grid := grid t;
     featureIndexArray := featureIndexArray t;
     rawTileData := rawTileData t; bucketLayerIDs := bucketLayerIDs t;
     collisionTile := collisionTile; vtLayers := vtLayers t |}.

(** [FeatureTree.prototype.serialize], the [data] part. *)
Definition serialize (t : Tree) : Serialized :=
  {| s_coord := coord t;
     s_overscaling := overscaling t;
     s_grid := gridToArrayBuffer W (grid t);
     s_featureIndexArray := indexSerialize W (featureIndexArray t);
     s_bucketLayerIDs := bucketLayerIDs t |}.

(** The bounding box of a ring, from
    [[Infinity, Infinity, -Infinity, -Infinity]]. *)
Definition boundingBox (ring : list Point) : Num * Num * Num * Num :=
  foldl (fun bbox p =>
           let '(x0, y0, x1, y1) := bbox in
           (numMin x0 (x p), numMin y0 (y p), numMax x1 (x p), numMax y1 (y p)))
        (Infinity, Infinity, NegInfinity, NegInfinity) ring.

(** [featureIndexArray.emplaceBack(...)] through the typed views. *)
Definition emplaceBack (featureIndex sourceLayerIndex bucketIndex : Z)
    (a : list IndexRecord) : list IndexRecord :=
  a ++ [mkIndexRecord (featureIndex mod 2 ^ 32)%Z (sourceLayerIndex mod 2 ^ 16)%Z
                      (bucketIndex mod 2 ^ 16)%Z].

(** [FeatureTree.prototype.insert] *)
Definition insert (feature : Feature W) (featureIndex sourceLayerIndex bucketIndex : Z)
    (t : Tree) : Tree :=
  let key := Z.of_nat (length (featureIndexArray t)) in
  let geometry := loadGeometry W feature in
  {| coord := coord t; overscaling := overscaling t;
     tx := tx t; ty := ty t; tz := tz t;
     grid := foldl (fun g ring =>
                      let '(x0, y0, x1, y1) := boundingBox ring in
                      gridInsert W key x0 y0 x1 y1 g) (grid t) geometry;
     featureIndexArray :=
       emplaceBack featureIndex sourceLayerIndex bucketIndex (featureIndexArray t);
     rawTileData := rawTileData t; bucketLayerIDs := bucketLayerIDs t;
     collisionTile := collisionTile t; vtLayers := vtLayers t |}.

(** [translateDistance(translate)] *)
Definition translateDistance (translate : Q * Q) : Q :=
  sqrt W (translate.1 * translate.1 + translate.2 * translate.2).

(** [getLineWidth(paint)] *)
Definition getLineWidth (p : Paint) : Q :=
  if Qltb 0 (lineGapWidth p) then lineGapWidth p + 2 * lineWidth p else lineWidth p.

Definition Qmax (a b : Q) : Q := if Qle_bool a b then b else a.

(** The distance by which one style layer widens the search. *)
Definition styleLayerDistance (sl : StyleLayer) : Q :=
  let p := paint sl in
  if bool_decide (layerType sl = "line") then
    getLineWidth p / 2 + Qabs (lineOffset p) + translateDistance (lineTranslate p)
  else if bool_decide (layerType sl = "fill") then
    translateDistance (fillTranslate p)
  else if bool_decide (layerType sl = "circle") then
    circleRadius p + translateDistance (circleTranslate p)
  else 0.

(** [translate(queryGeometry, translate, translateAnchor, bearing,
    pixelsToTileUnits)].  [translate._mult(pixelsToTileUnits)] scales the
    point in place at every turn of the loop. *)
Fixpoint translateLoop (queryGeometry : list Point) (translate : Point)
    (pixelsToTileUnits : Q) : list Point :=
  match queryGeometry with
  | [] => []
  | q :: rest =>
      let translate' := mult translate pixelsToTileUnits in
      sub q translate' :: translateLoop rest translate' pixelsToTileUnits
  end.

Definition translate (queryGeometry : list Point) (translate : Q * Q)
    (translateAnchor : string) (bearing pixelsToTileUnits : Q) : list Point :=
  if Qeq_bool translate.1 0 && Qeq_bool translate.2 0 then queryGeometry
  else
    let t0 := mkPoint translate.1 translate.2 in
    let t1 := if bool_decide (translateAnchor = "viewport")
              then rotate W t0 (- bearing) else t0 in
    translateLoop queryGeometry t1 pixelsToTileUnits.

(** A result entry: [new GeoJSONFeature(feature, z, x, y)] with its
    [layer]. *)
Record GeoJSONFeature := mkGeoJSONFeature {
  g_feature : Feature W;
  g_z : Q;
  g_x : Z;
  g_y : Z;
  g_layer : StyleLayer
}.

Abbreviation Result := (gmap string (list GeoJSONFeature)).

(** Modelled from the spec: [arraysIntersect] of util/util (not among the
    sources) tells whether the caller's layer filter and the fused layer ids
    of a bucket have an id in common; on an [undefined] second array it
    raises as soon as the first has an element. *)
Definition arraysIntersect (a : list string) (b : option (list string)) : option bool :=
  match a, b with
  | [], _ => Some false
  | _ :: _, None => None
  | _ :: _, Some b' => Some (existsb (fun s => bool_decide (s ∈ b')) a)
  end.

(** The narrow phase for one style layer that is not a symbol layer: the
    geometry afterwards (an offset line replaces it) and whether the feature
    is hit. *)
Definition narrowPhase (sl : StyleLayer) (queryGeometry : list Point)
    (geometry : list (list Point)) (bearing pixelsToTileUnits : Q)
    : list (list Point) * bool :=
  let p := paint sl in
  if bool_decide (layerType sl = "line") then
    let translatedPolygon :=
      translate queryGeometry (lineTranslate p) (lineTranslateAnchor p)
                bearing pixelsToTileUnits in
    let halfWidth := getLineWidth p / 2 * pixelsToTileUnits in
    let geometry' :=
      if Qeq_bool (lineOffset p) 0 then geometry
      else offsetLine W geometry (lineOffset p * pixelsToTileUnits) in
    (geometry', polygonIntersectsBufferedMultiLine translatedPolygon geometry' halfWidth)
  else if bool_decide (layerType sl = "fill") then
    let translatedPolygon :=
      translate queryGeometry (fillTranslate p) (fillTranslateAnchor p)
                bearing pixelsToTileUnits in
    (geometry, polygonIntersectsMultiPolygon translatedPolygon geometry)
  else if bool_decide (layerType sl = "circle") then
    let translatedPolygon :=
      translate queryGeometry (circleTranslate p) (circleTranslateAnchor p)
                bearing pixelsToTileUnits in
    let circleRadius := circleRadius p * pixelsToTileUnits in
    (geometry, polygonIntersectsBufferedMultiPoint translatedPolygon geometry circleRadius)
  else (geometry, true).

(** The loop over [layerIDs] in [filterMatching] for one feature;
    [geometry] is loaded at the first layer that needs it and kept. *)
Fixpoint matchLayers (t : Tree) (feature : Feature W) (layerIDs : list string)
    (geometry : option (list (list Point))) (queryGeometry : list Point)
    (filterLayerIDs : option (list string)) (styleLayers : gmap string StyleLayer)
    (bearing pixelsToTileUnits : Q) (result : Result) : Result :=
  match layerIDs with
  | [] => result
  | layerID :: rest =>
      let continue g r :=
        matchLayers t feature rest g queryGeometry filterLayerIDs styleLayers
                    bearing pixelsToTileUnits r in
      let excluded :=
        match filterLayerIDs with
        | Some ids => negb (bool_decide (layerID ∈ ids))
        | None => false
        end in
      if excluded then continue geometry result
      else
        match styleLayers !! layerID with
        | None => continue geometry result
        | Some styleLayer =>
            let '(geometry', hit) :=
              if bool_decide (layerType styleLayer = "symbol")
              then (geometry, true)
              else
                let g := default (loadGeometry W feature) geometry in
                let '(g', hit) :=
                  narrowPhase styleLayer queryGeometry g bearing pixelsToTileUnits in
                (Some g', hit) in
            if hit then
              let geojsonFeature :=
                mkGeoJSONFeature feature (tz t) (tx t) (ty t) styleLayer in
              continue geometry'
                (<[layerID := default [] (result !! layerID) ++ [geojsonFeature]]> result)
            else continue geometry' result
        end
  end.

(** [FeatureTree.prototype.filterMatching]; [None] is a raised error.
    [layers] is the decoded tile, [array] the [get] of the record array. *)
Fixpoint filterMatching (t : Tree) (layers : VtLayers W) (result : Result)
    (matching : list Z) (previousIndex : option Z) (array : Z → option IndexRecord)
    (queryGeometry : list Point) (filter : Feature W → bool)
    (filterLayerIDs : option (list string)) (styleLayers : gmap string StyleLayer)
    (bearing pixelsToTileUnits : Q) : option Result :=
  match matching with
  | [] => Some result
  | index :: rest =>
      let continue r :=
        filterMatching t layers r rest (Some index) array queryGeometry filter
                       filterLayerIDs styleLayers bearing pixelsToTileUnits in
      if bool_decide (previousIndex = Some index) then continue result
      else
        match_ ← array index;
        ids ← bucketLayerIDs t;
        let layerIDs := ids !! bucketIndex match_ in
        excluded ← match filterLayerIDs with
                   | Some f => negb <$> arraysIntersect f layerIDs
                   | None => Some false
                   end;
        if (excluded : bool) then continue result
        else
          sourceLayerName ← at_ (layerNames W layers) (sourceLayerIndex match_);
          sourceLayer ← layerOf W layers sourceLayerName;
          feature ← featureOf W sourceLayer (featureIndex match_);
          if negb (filter feature) then continue result
          else
            layerIDs' ← layerIDs;
            continue (matchLayers t feature layerIDs' None queryGeometry
                        filterLayerIDs styleLayers bearing pixelsToTileUnits result)
  end.

(** The arguments of [query]. *)
Record Args := mkArgs {
  filterParam : option (FilterSpec W);
  layersParam : option (list string);
  tileSize : Q;
  scale : Q;
  bearing : Q;
  queryGeometry : list Point
}.

(** [matching.sort(topDownFeatureComparator)]: descending. *)
Definition sortTopDown (matching : list Z) : list Z :=
  merge_sort Z.ge matching.

(** [FeatureTree.prototype.query]: the result ([None] for a raised error)
    and the tree afterwards, which has the decoded tile cached. *)
Definition query (args : Args) (styleLayers : gmap string StyleLayer) (t : Tree)
    : option Result * Tree :=
  let decoded :=
    match vtLayers t with
    | Some layers => Some layers
    | None => decodeTile W (rawTileData t)
    end in
  match decoded with
  | None => (None, t)
  | Some layers =>
      let t' := {| coord := coord t; overscaling := overscaling t;
                   tx := tx t; ty := ty t; tz := tz t; grid := grid t;
                   featureIndexArray := featureIndexArray t;
                   rawTileData := rawTileData t;
                   bucketLayerIDs := bucketLayerIDs t;
                   collisionTile := collisionTile t;
                   vtLayers := Some layers |} in
      let pixelsToTileUnits := inject_Z Bucket.EXTENT / tileSize args / scale args in
      let filter := featureFilter W (filterParam args) in
      let additionalRadius :=
        map_fold (fun _ sl r => Qmax r (styleLayerDistance sl * pixelsToTileUnits))
                 0 styleLayers in
      let '(minX, minY, maxX, maxY) := boundingBox (queryGeometry args) in
      let matching :=
        sortTopDown
          (gridQuery W (numPlus minX (- additionalRadius))
                       (numPlus minY (- additionalRadius))
                       (numPlus maxX additionalRadius)
                       (numPlus maxY additionalRadius) (grid t)) in
      let result :=
        r1 ← filterMatching t' layers ∅ matching None
               (at_ (featureIndexArray t))
               (queryGeometry args) filter (layersParam args) styleLayers
               (bearing args) pixelsToTileUnits;
        ct ← collisionTile t;
        let matchingSymbols :=
          defaultSort W (queryRenderedSymbols W ct minX minY maxX maxY (scale args)) in
        filterMatching t' layers r1 matchingSymbols None (collisionBoxArray W ct)
          (queryGeometry args) filter (layersParam args) styleLayers
          (bearing args) pixelsToTileUnits in
      (result, t')
  end.

(** A tree populated by a sequence of [insert] calls. *)
Record Insertion := mkInsertion {
  i_feature : Feature W;
  i_featureIndex : Z;
  i_sourceLayerIndex : Z;
  i_bucketIndex : Z
}.

Definition populate (inserts : list Insertion) (t : Tree) : Tree :=
  foldl (fun t i => insert (i_feature i) (i_featureIndex i)
                           (i_sourceLayerIndex i) (i_bucketIndex i) t) t inserts.

(** The results of a sequence of queries, the cache being kept between
    them. *)
Fixpoint queries (qs : list (Args * gmap string StyleLayer)) (t : Tree)
    : list (option Result) :=
  match qs with
  | [] => []
  | (args, styleLayers) :: rest =>
      let '(r, t') := query args styleLayers t in
      r :: queries rest t'
  end.

(** The decoded tile a tree holds, if any, is the decoding of its raw
    bytes. *)
Definition cacheFaithful (t : Tree) : Prop :=
  match vtLayers t with
  | Some layers => decodeTile W (rawTileData t) = Some layers
  | None => True
  end.

(** The derived fields of a tree are those its constructor computed, and
    its cache is faithful. *)
Definition wellFormed (t : Tree) : Prop :=
  tx t = cx (coord t) ∧ ty t = cy (coord t) ∧
  tz t = zoomOf (coord t) (overscaling t) ∧ cacheFaithful t.

(** Two trees that a query cannot tell apart. *)
Record sameView (t t' : Tree) : Prop := {
  view_coord : coord t = coord t';
  view_overscaling : overscaling t = overscaling t';
  view_x : tx t = tx t';
  view_y : ty t = ty t';
  view_z : tz t = tz t';
  view_grid : ∀ x0 y0 x1 y1,
    gridQuery W x0 y0 x1 y1 (grid t) = gridQuery W x0 y0 x1 y1 (grid t');
  view_index : featureIndexArray t = featureIndexArray t';
  view_raw : rawTileData t = rawTileData t';
  view_ids : bucketLayerIDs t = bucketLayerIDs t';
  view_collision : collisionTile t = collisionTile t';
  view_cache : cacheFaithful t;
  view_cache' : cacheFaithful t'
}.

End Model.

(** A small world to run the model in: the grid keeps its entries in a list
    and answers every query with all keys (a coarse broad phase), buffers are
    the data themselves, a raw tile is the list of its layers, a feature is
    its geometry, and the collision tile holds no symbol. *)
Definition listWorld : World :=
  {| Grid := list Z;
     GridBuffer := list Z;
     newGrid := fun _ _ _ => [];
     gridInsert := fun key _ _ _ _ g => g ++ [key];
     gridQuery := fun _ _ _ _ g => g;
     gridToArrayBuffer := fun g => g;
     gridFromArrayBuffer := fun b => b;
     IndexBuffer := list IndexRecord;
     indexSerialize := fun a => a;
     indexDeserialize := fun b => b;
     RawTile := list (string * list (list (list Point)));
     VtLayers := list (string * list (list (list Point)));
     Layer := list (list (list Point));
     Feature := list (list Point);
     decodeTile := fun raw => Some (default [] raw);
     layerNames := fun layers => layers.*1;
     layerOf := fun layers name =>
       snd <$> List.find (fun l => bool_decide (l.1 = name)) layers;
     featureOf := fun layer i => at_ layer i;
     loadGeometry := fun f => f;
     FilterSpec := unit;
     featureFilter := fun _ _ => true;
     CollisionTile := unit;
     queryRenderedSymbols := fun _ _ _ _ _ _ => [];
     collisionBoxArray := fun _ _ => None;
     sqrt := fun q => q;
     log2 := fun _ => 0;
     rotate := fun p _ => p;
     defaultSort := fun l => l;
     offsetLine := fun g _ => g |}.

(** A tile with one layer holding one point feature, a tree for it with the
    feature inserted and the bucket's layer ids set, and a query around the
    point against a circle layer. *)
Definition poiTile : RawTile listWorld :=
  [("poi", [ [[mkPoint 10 10]] ])].

Definition poiTree : Tree listWorld :=
  let t := insert listWorld [[mkPoint 10 10]] 0 0 0
             (create listWorld (mkCoord 0 0 0) 1 (Some tt)) in
  {| coord := coord listWorld t; overscaling := overscaling listWorld t;
     tx := tx listWorld t; ty := ty listWorld t; tz := tz listWorld t;
     grid := grid listWorld t;
     featureIndexArray := featureIndexArray listWorld t;
     rawTileData := Some poiTile;
     bucketLayerIDs := Some {[ 0%Z := ["poi-circles"] ]};
     collisionTile := collisionTile listWorld t;
     vtLayers := None |}.

Definition noPaint : Paint :=
  mkPaint 0 0 0 (0, 0) "map" (0, 0) "map" 5 (0, 0) "map".

Definition circleLayers : gmap string StyleLayer :=
  {[ "poi-circles" := mkStyleLayer "circle" noPaint ]}.

Definition aroundPoi : Args listWorld :=
  mkArgs listWorld None None 512 1 0 [mkPoint 11 11].

(** An empty tree that has a collision tile. *)
Definition emptyTree : Tree listWorld :=
  create listWorld (mkCoord 0 0 0) 1 (Some tt).

End FeatureTree.

(** ** Shapes and positions used to state the narrow-phase properties *)

Module Shapes.

Import Geometry.
Local Open Scope Q_scope.

(** Two points at the same position. *)
Definition samePoint (p q : Point) : Prop := x p == x q ∧ y p == y q.

(** The point at parameter [s] on the line from [v] to [w]. *)
Definition along (v w : Point) (s : Q) : Point :=
  mkPoint (x v + s * (x w - x v)) (y v + s * (y w - y v)).

(** The directions of the two segments are parallel (or one is zero). *)
Definition parallel (a0 a1 b0 b1 : Point) : Prop :=
  (x a1 - x a0) * (y b1 - y b0) == (y a1 - y a0) * (x b1 - x b0).

(** The orientation determinant of [a], [b], [c]: positive when they turn
    one way, negative the other, zero when they are collinear. *)
Definition orient (a b c : Point) : Q :=
  (y c - y a) * (x b - x a) - (y b - y a) * (x c - x a).

(** The corners of an axis-aligned rectangle, as a ring. *)
Definition rectangle (x0 y0 x1 y1 : Q) : list Point :=
  [mkPoint x0 y0; mkPoint x1 y0; mkPoint x1 y1; mkPoint x0 y1].

End Shapes.

(** ** The markers layer: order, time windows, and the two sorting paths *)

Module MarkerLayer.

Import MarkerSearch.

(** The key the search compares: [properties.d + properties.c * COLOR_OFFSET]. *)
Definition keyOf (f : Feature) : Z := d f + c f * COLOR_OFFSET.

(** The layer is in ascending order of key. *)
Fixpoint sortedByKey (layer : Layer) : bool :=
  match layer with
  | f :: (g :: _) as rest => (keyOf f <=? keyOf g) && sortedByKey rest
  | _ => true
  end.

(** The feature's key lies in the window from [ks] (included) to [ke]
    (excluded). *)
Definition inWindow (ks ke : Z) (f : Feature) : bool :=
  (ks <=? keyOf f) && (keyOf f <? ke).

(** The value of the last clause that passes a test. *)
Definition lastValue (test : Clause → bool) (cls : list Clause) : Maybe :=
  value <$> last (filter (fun cl => test cl = true) cls).

Definition onColor (cl : Clause) : bool := bool_decide (key cl = "c").

Definition onStart (cl : Clause) : bool :=
  bool_decide (key cl = "d") && startsWithGreater (op cl).

Definition onEnd (cl : Clause) : bool :=
  bool_decide (key cl = "d") && negb (startsWithGreater (op cl)).





(** A filter whose window ends before it starts, and two buckets for the
    sorting paths: one that takes every feature, one that takes the features
    of colour 2. *)
Definition lateToEarly : Filter :=
  mkFilter "all" [mkClause "==" "c" 1; mkClause ">=" "d" 25; mkClause "<" "d" 10].



End MarkerLayer.

(** ** Notions used to state the properties of the feature query *)

Module TreeQueries.

Import Geometry FeatureTree.
Local Open Scope Q_scope.

(** [k] multiplied [n] times into 1. *)
Fixpoint Qpow (k : Q) (n : nat) : Q :=
  match n with
  | O => 1
  | S n' => k * Qpow k n'
  end.

(** A list of keys with every key that repeats its predecessor removed;
    [previous] is the key before the list, if any. *)
Fixpoint dedupAdjacent (previous : option Z) (l : list Z) : list Z :=
  match l with
  | [] => []
  | k :: rest =>
      if bool_decide (previous = Some k) then dedupAdjacent previous rest
      else k :: dedupAdjacent (Some k) rest
  end.

(** Two lists hold the same keys, in whatever order and number. *)
Definition sameKeys (l l' : list Z) : Prop := ∀ k, k ∈ l ↔ k ∈ l'.

(** What holds of every entry of a result: it is filed under a layer that
    has a style and that the caller asked for, it is not empty, and each of
    its features carries that style layer and the tile position. *)
Definition labelled (W : World) (t : Tree W) (styleLayers : gmap string StyleLayer)
    (filterLayerIDs : option (list string))
    (r : gmap string (list (GeoJSONFeature W))) : Prop :=
  ∀ layerID fs, r !! layerID = Some fs →
    fs ≠ [] ∧
    (∀ ids, filterLayerIDs = Some ids → layerID ∈ ids) ∧
    Forall (fun g => styleLayers !! layerID = Some (g_layer W g) ∧
                     g_z W g = tz W t ∧ g_x W g = tx W t ∧ g_y W g = ty W t) fs.



End TreeQueries.

(** ** Notions used to state the properties of a whole parse *)

Module ParseTrace.

Import WorkerTile.

(** The buckets tessellated in a log, in order. *)
Definition populates (l : list Action) : list Bucket :=
  omap (fun a => match a with
                 | PopulateBuffers b => Some b
                 | _ => None
                 end) l.

(** The buckets that [parse] keeps (those with a feature), and among them
    those that are not symbol buckets. *)
Definition nonEmptyOf (bucketsById : list Bucket) : list Bucket :=
  filter (fun b => featureCount b ≠ 0%nat) bucketsById.

Definition othersOf (bucketsById : list Bucket) : list Bucket :=
  filter (fun b => isSymbol b = false) (nonEmptyOf bucketsById).

(** An answer that carries an error. *)
Definition fails (ev : Event) : bool :=
  match ev with
  | GlyphsResponse (Some _) | IconsResponse (Some _) => true
  | _ => false
  end.

(** A bucket that has no feature. *)
Definition parks : Bucket := mkBucket "parks" "fill" 0 [] true.

End ParseTrace.

(** ** Plain JavaScript objects used as maps *)

Module PlainObject.

(** The own properties of an object [{}] that is used as a map, in the order
    of their creation. *)
Abbreviation Properties V := (list (string * V)).

(** The names that every plain object inherits from [Object.prototype].
    Each holds a function, or for [__proto__] the prototype itself: a truthy
    value that is none of the values stored in the map.  None of them is
    enumerable. *)
Definition inherited : list string :=
  ["constructor"; "toString"; "toLocaleString"; "valueOf"; "hasOwnProperty";
   "isPrototypeOf"; "propertyIsEnumerable"; "__defineGetter__";
   "__defineSetter__"; "__lookupGetter__"; "__lookupSetter__"; "__proto__"].

(** [o[k] = v] for a name other than [__proto__]: an own property keeps its
    place and takes the new value, a new one is created last. *)
Fixpoint assign {V} (k : string) (v : V) (o : Properties V) : Properties V :=
  match o with
  | [] => [(k, v)]
  | (k', v') :: rest =>
      if bool_decide (k' = k) then (k, v) :: rest else (k', v') :: assign k v rest
  end.

Fixpoint ownProperty {V} (k : string) (o : Properties V) : option V :=
  match o with
  | [] => None
  | (k', v) :: rest => if bool_decide (k' = k) then Some v else ownProperty k rest
  end.

(** What [o[k]] evaluates to. *)
Inductive Value (V : Type) :=
  | Own (v : V)
  | Inherited
  | Undefined.

Arguments Own {V}.
Arguments Inherited {V}.
Arguments Undefined {V}.

Definition get {V} (k : string) (o : Properties V) : Value V :=
  match ownProperty k o with
  | Some v => Own v
  | None => if bool_decide (k ∈ inherited) then Inherited else Undefined
  end.

(** An array index: the decimal numeral, without leading zero, of an integer
    from 0 to [2^32 - 2]. *)
Definition digit (ch : ascii) : option N :=
  let n := N_of_ascii ch in
  if ((48 <=? n) && (n <=? 57))%N then Some (n - 48)%N else None.

Fixpoint numeral (s : string) (acc : N) : option N :=
  match s with
  | EmptyString => Some acc
  | String ch rest => d ← digit ch; numeral rest (acc * 10 + d)%N
  end.

Definition arrayIndex (k : string) : option N :=
  match k with
  | EmptyString => None
  | String ch rest =>
      if bool_decide (ch = "0"%char) then
        if bool_decide (rest = EmptyString) then Some 0%N else None
      else
        n ← numeral k 0;
        if (n <? 2 ^ 32 - 1)%N then Some n else None
  end.

(** The order in which [for (k in o)] visits the own properties: those whose
    name is an array index first, in ascending numeric order, then the others
    in the order of their creation. *)
Fixpoint insertByIndex {V} (e : N * (string * V)) (l : list (N * (string * V)))
    : list (N * (string * V)) :=
  match l with
  | [] => [e]
  | e' :: rest =>
      if (e.1 <? e'.1)%N then e :: l else e' :: insertByIndex e rest
  end.

Definition indexed {V} (o : Properties V) : list (N * (string * V)) :=
  omap (fun kv => n ← arrayIndex kv.1; Some (n, kv)) o.

Definition named {V} (o : Properties V) : Properties V :=
  filter (fun kv => arrayIndex kv.1 = None) o.

Definition forIn {V} (o : Properties V) : Properties V :=
  (snd <$> foldr insertByIndex [] (indexed o)) ++ named o.

End PlainObject.

(** ** Worker tile: from style layers to buckets *)

Module TileLayers.

Import PlainObject.

Local Open Scope Q_scope.

(** A style layer as the first two loops of [parse] read it.  [None] is an
    [undefined] property; [l_visibility] is [layer.layout &&
    layer.layout.visibility]. *)
Record Layer := mkLayer {
  l_id : string;
  l_type : string;
  l_source : option string;
  l_ref : option string;
  l_minzoom : option Q;
  l_maxzoom : option Q;
  l_visibility : option string
}.

(** The bucket that [Bucket.create] returns, as far as the loops go: its
    style layer and [bucket.layers], which the constructor sets to
    [[layer.id]]. *)
Record TileBucket := mkTileBucket {
  tb_layer : Layer;
  tb_layers : list string
}.

(** Truthiness of a number and of a string that may be [undefined]. *)
Definition truthyNumber (n : option Q) : bool :=
  match n with
  | Some q => negb (Qeq_bool q 0)
  | None => false
  end.

Definition truthyString (s : option string) : bool :=
  match s with
  | Some s' => negb (bool_decide (s' = ""))
  | None => false
  end.

(** [layer.minzoom && this.zoom < layer.minzoom] and
    [layer.maxzoom && this.zoom >= layer.maxzoom] *)
Definition belowMinzoom (zoom : Q) (layer : Layer) : bool :=
  truthyNumber (l_minzoom layer) &&
  match l_minzoom layer with
  | Some q => Geometry.Qltb zoom q
  | None => false
  end.

Definition atOrAboveMaxzoom (zoom : Q) (layer : Layer) : bool :=
  truthyNumber (l_maxzoom layer) &&
  match l_maxzoom layer with
  | Some q => Qle_bool q zoom
  | None => false
  end.

(** The five [continue] tests of the first loop: the layer gets a bucket
    when none of them fires. *)
Definition wanted (source : string) (zoom : Q) (layer : Layer) : bool :=
  if negb (bool_decide (l_source layer = Some source)) then false
  else if truthyString (l_ref layer) then false
  else if belowMinzoom zoom layer then false
  else if atOrAboveMaxzoom zoom layer then false
  else if bool_decide (l_visibility layer = Some "none") then false
  else true.

(** [Bucket.create] and the call of [bucket.createFilter()] that follows it.
    For a type that has no class [Classes[options.layer.type]] is
    [undefined], or a member of [Object.prototype] that is no constructor,
    and [new] raises a [TypeError]; for the type ['constructor'] it is
    [Object], [new Object(options)] returns [options], and [createFilter],
    which [options] lacks, raises the [TypeError]. *)
Definition create (layer : Layer) : option TileBucket :=
  if bool_decide (l_type layer ∈ ["fill"; "line"; "circle"; "symbol"])
  then Some (mkTileBucket layer [l_id layer])
  else None.

(** How the two loops at the head of [parse] end: with [bucketsById], with a
    [TypeError], or at the assignment [bucketsById[layer.id] = bucket] for a
    layer called [__proto__], which creates no property but makes the bucket
    the prototype of [bucketsById]; what the code does from there on is not
    described here. *)
Inductive Outcome (A : Type) :=
  | Returns (a : A)
  | Throws
  | ReplacesPrototype.

Arguments Returns {A}.
Arguments Throws {A}.
Arguments ReplacesPrototype {A}.

(** The first loop: "Map non-ref layers to buckets". *)
Fixpoint mapLayers (source : string) (zoom : Q) (layers : list Layer)
    (bucketsById : Properties TileBucket) : Outcome (Properties TileBucket) :=
  match layers with
  | [] => Returns bucketsById
  | layer :: rest =>
      if wanted source zoom layer then
        match create layer with
        | Some bucket =>
            if bool_decide (l_id layer = "__proto__") then ReplacesPrototype
            else mapLayers source zoom rest (assign (l_id layer) bucket bucketsById)
        | None => Throws
        end
      else mapLayers source zoom rest bucketsById
  end.

Definition pushLayer (id : string) (b : TileBucket) : TileBucket :=
  mkTileBucket (tb_layer b) (tb_layers b ++ [id]).

(** The ref of a layer that passes the first two tests of the second loop,
    [layer.source === this.source && layer.ref]. *)
Definition refOf (source : string) (layer : Layer) : option string :=
  if bool_decide (l_source layer = Some source) && truthyString (l_ref layer)
  then l_ref layer else None.

(** The second loop: "Index ref layers".  For a ref that is the id of a
    bucket the id of the layer is pushed to the [layers] of that bucket.  A
    ref that is an inherited name finds a truthy value that has no [layers]:
    [.layers.push] raises a [TypeError]. *)
Fixpoint indexRefLayers (source : string) (layers : list Layer)
    (bucketsById : Properties TileBucket) : Outcome (Properties TileBucket) :=
  match layers with
  | [] => Returns bucketsById
  | layer :: rest =>
      match refOf source layer with
      | Some ref =>
          match get ref bucketsById with
          | Own bucket =>
              indexRefLayers source rest
                (assign ref (pushLayer (l_id layer) bucket) bucketsById)
          | Inherited => Throws
          | Undefined => indexRefLayers source rest bucketsById
          end
      | None => indexRefLayers source rest bucketsById
      end
  end.

(** Both loops: [bucketsById] as the rest of [parse] finds it. *)
Definition bucketsOf (source : string) (zoom : Q) (layers : list Layer)
    : Outcome (Properties TileBucket) :=
  match mapLayers source zoom layers [] with
  | Returns bucketsById => indexRefLayers source layers bucketsById
  | Throws => Throws
  | ReplacesPrototype => ReplacesPrototype
  end.

(** The layers of this source that refer to the layer [id]. *)
Definition refsTo (source id : string) (layers : list Layer) : list Layer :=
  filter (fun layer => l_source layer = Some source ∧
                       truthyString (l_ref layer) = true ∧
                       l_ref layer = Some id) layers.

(** A small style: a road layer shown from zoom 5 up to zoom 12, a casing
    that refers to it and is hidden, and a layer of another source. *)
Definition roadLayer : Layer :=
  mkLayer "road" "line" (Some "streets") None (Some 5) (Some 12) None.

Definition casingLayer : Layer :=
  mkLayer "road-casing" "line" (Some "streets") (Some "road") None None (Some "none").

Definition hillLayer : Layer :=
  mkLayer "hills" "fill" (Some "terrain") None None None None.

(** What the rest of [parse] reads of a bucket once the features are sorted
    in, by the id of the bucket: the number of its features, the icons it
    asks for, and whether its tessellation leaves data. *)
Record Sorted := mkSorted {
  featuresOf : string → nat;
  iconsOf : string → list string;
  dataOf : string → bool
}.

(** The bucket of a style layer: the constructor sets [this.id = layer.id]
    and [this.type = layer.type]. *)
Definition bucketOfLayer (sorted : Sorted) (layer : Layer) : WorkerTile.Bucket :=
  WorkerTile.mkBucket (l_id layer) (l_type layer) (featuresOf sorted (l_id layer))
    (iconsOf sorted (l_id layer)) (dataOf sorted (l_id layer)).

(** The buckets in the order in which [for (var id in bucketsById)] visits
    them. *)
Definition enumerated (sorted : Sorted) (bucketsById : Properties TileBucket)
    : list WorkerTile.Bucket :=
  (fun kv => bucketOfLayer sorted (tb_layer kv.2)) <$> forIn bucketsById.

(** The layers that get a bucket, in the order of their declaration. *)
Definition wantedLayers (source : string) (zoom : Q) (layers : list Layer)
    : list Layer :=
  filter (fun layer => wanted source zoom layer = true) layers.

(** A layer that refers to a name that every object inherits. *)
Definition strayLayer : Layer :=
  mkLayer "stray" "line" (Some "streets") (Some "toString") None None None.

(** Two symbol layers whose ids are array indices, two with one id and one
    between them, and a sorting that gives every bucket one feature. *)
Definition stopTen : Layer :=
  mkLayer "10" "symbol" (Some "streets") None None None None.

Definition stopNine : Layer :=
  mkLayer "9" "symbol" (Some "streets") None None None None.

Definition townLabel : Layer :=
  mkLayer "label" "symbol" (Some "streets") None None None None.

Definition townLabelBold : Layer :=
  mkLayer "label" "symbol" (Some "streets") None None (Some 14) None.

Definition peakLabel : Layer :=
  mkLayer "peak" "symbol" (Some "streets") None None None None.

Definition oneEach : Sorted := mkSorted (fun _ => 1%nat) (fun _ => []) (fun _ => true).

End TileLayers.

(** ** Notions used to state the layout of the element groups *)

Module GroupLayout.

Import Bucket.

(** The groups cover the vertex buffer without gap or overlap: the first
    starts at [start], each next one where its predecessor ends, and the
    last ends at [total]. *)
Fixpoint tilesVertices (start : Z) (groups : list ElementGroup) (total : Z) : Prop :=
  match groups with
  | [] => start = total
  | g :: rest =>
      vertexStartIndex g = start ∧ tilesVertices (start + vertexLength g) rest total
  end.

(** The same for the element buffer. *)
Fixpoint tilesElements (start : Z) (groups : list ElementGroup) (total : Z) : Prop :=
  match groups with
  | [] => start = total
  | g :: rest =>
      elementStartIndex g = Some start ∧
      tilesElements (start + elementLength g) rest total
  end.

(** The groups of every shader cover its vertex buffer, and its element
    buffer when it has one. *)
Definition contiguous (b : State) : Prop :=
  ∀ name groups, elementGroups b !! name = Some groups →
    (∀ vb, buffers b !! getBufferName name "vertex" = Some vb →
           tilesVertices 0 groups (buf_length vb)) ∧
    (∀ eb, buffers b !! getBufferName name "element" = Some eb →
           tilesElements 0 groups (buf_length eb)).

(** Two shaders, one with a vertex buffer only, and three steps. *)
Definition twoInterfaces : gmap string ShaderInterface :=
  {[ "fill" := mkShaderInterface true true false 4 6 0;
     "outline" := mkShaderInterface true false false 4 0 0 ]}.

Definition threeSteps : list Op :=
  [mkOp "fill" 65000 3; mkOp "outline" 10 0; mkOp "fill" 1000 5].

End GroupLayout.

(** ** Notions used to state the indexing of the circle triangles *)

Module CircleLayout.

Import CircleBucket.

(** The last group of the [circle] program ends where the vertex array
    ends. *)
Definition aligned (s : State) : Prop :=
  ∀ groups g, elementGroups s !! "circle" = Some groups → last groups = Some g →
    0 <= Bucket.vertexLength g ∧
    Bucket.vertexStartIndex g + Bucket.vertexLength g =
      Z.of_nat (length (circleVertex s)).

(** The three indices of a triangle fit an unsigned 16-bit integer. *)
Definition fitsUint16 (t : Z * Z * Z) : Prop :=
  let '(a, b, c) := t in
  0 <= a < 65536 ∧ 0 <= b < 65536 ∧ 0 <= c < 65536.

End CircleLayout.

(** ** Style functions (js/style/style_function.js and its other versions) *)

Module StyleFunction.

Local Open Scope Z_scope.

(** [ToInt32] of a finite number, as [input | 0] computes it: the number
    is truncated towards zero, then wrapped into the signed 32-bit range. *)
Definition truncate (q : Q) : Z := Z.quot (Qnum q) (Z.pos (Qden q)).

Definition toInt32 (q : Q) : Z := (truncate q + 2 ^ 31) mod 2 ^ 32 - 2 ^ 31.

(** The largest integer that is not above [q]. *)
Definition wholePart (q : Q) : Z := Qnum q / Z.pos (Qden q).

(** [exports.categorical(parameters)(globalProperties, featureProperties)]
    for a feature property that is a finite number or [undefined] ([None];
    then [input | 0] is 0).  [stops[k]] is [undefined] outside the array, and
    reading [[1]] of it raises a [TypeError] ([None]). *)
Definition categorical {A B : Type} (stops : list (A * B)) (input : option Q)
    : option B :=
  let k := match input with
           | Some q => toInt32 q
           | None => 0
           end in
  if k <? 0 then None else snd <$> stops !! Z.to_nat k.

(** A function definition as [migrate] reads it; [stops] may be missing. *)
Record Parameters (A B : Type) := mkParameters {
  stops : option (list (A * B));
  base : option Q;
  property : option string
}.

Arguments mkParameters {A B}.
Arguments stops {A B}.
Arguments base {A B}.
Arguments property {A B}.

(** What [migrate] is given: a function definition, or any other value
    (a constant, [null], [undefined]), which it hands back. *)
Inductive Input (A B V : Type) :=
  | Definitions (p : Parameters A B)
  | Other (v : V).

Arguments Definitions {A B V}.
Arguments Other {A B V}.

(** What [migrate] returns: its argument, or the migrated definition. *)
Inductive Migrated (A B V : Type) :=
  | Unchanged (input : Input A B V)
  | Output (base : option Q) (property : option string)
           (domain : list A) (range : list B) (type : string).

Arguments Unchanged {A B V}.
Arguments Output {A B V}.

(** [migrate(reference, input)]; [fn] is [reference.function].
    [domain.shift()] removes the first element, and does nothing to an empty
    array. *)
Definition migrate {A B V : Type} (fn : option string) (input : Input A B V)
    : Migrated A B V :=
  match input with
  | Definitions p =>
      match stops p with
      | Some st =>
          let domain := fst <$> st in
          let range := snd <$> st in
          if bool_decide (fn = Some "interpolated")
          then Output (base p) (property p) domain range "exponential"
          else Output (base p) (property p) (tail domain) range "interval"
      | None => Unchanged input
      end
  | Other _ => Unchanged input
  end.

End StyleFunction.

(** ** JavaScript numbers: IEEE 754 binary64 *)

Module Double.

Local Open Scope Q_scope.

(** A number: a finite value, an infinity, or [NaN].  A finite value is the
    rational it stands for; the two zeros are one value, so the sign of a
    zero, which only a division by zero can tell, is not represented. *)
Inductive Number :=
  | Finite (q : Q)
  | Infinity (negative : bool)
  | NaN.

(** The exponent of [q ≠ 0]: [2 ^ exponent q <= |q| < 2 ^ (exponent q + 1)]. *)
Definition exponent (q : Q) : Z :=
  let e := (Z.log2 (Z.abs (Qnum q)) - Z.log2 (Z.pos (Qden q)))%Z in
  if Qle_bool (2 ^ e) (Qabs q) then e else (e - 1)%Z.

(** The integer nearest to [q]; of two that are equally near, the even one. *)
Definition nearestEven (q : Q) : Z :=
  let f := Qfloor q in
  match Qcompare (q - inject_Z f) (1 # 2) with
  | Lt => f
  | Gt => (f + 1)%Z
  | Eq => if Z.even f then f else (f + 1)%Z
  end.

(** The exponent of the unit in the last place of the binary64 numbers
    around [q]: 53 significant bits, and no exponent below -1022. *)
Definition ulp (q : Q) : Z := (Z.max (exponent q) (-1022) - 52)%Z.

(** Rounding to the nearest binary64 number, ties to even; what reaches
    [2 ^ 1024] becomes an infinity. *)
Definition round (q : Q) : Number :=
  if Qeq_bool q 0 then Finite 0
  else
    let r := Qred q in
    let v := Qred (inject_Z (nearestEven (r / 2 ^ ulp r)) * 2 ^ ulp r) in
    if Qle_bool (2 ^ 1024) (Qabs v) then Infinity (negb (Qle_bool 0 v))
    else Finite v.

(** An integer as a number (exact below [2 ^ 53]). *)
Definition ofZ (z : Z) : Number := Finite (inject_Z z).

Definition isZero (a : Number) : bool :=
  match a with
  | Finite x => Qeq_bool x 0
  | _ => false
  end.

Definition negative (a : Number) : bool :=
  match a with
  | Finite x => Geometry.Qltb x 0
  | Infinity s => s
  | NaN => false
  end.

Definition neg (a : Number) : Number :=
  match a with
  | Finite x => Finite (- x)
  | Infinity s => Infinity (negb s)
  | NaN => NaN
  end.

(** [a + b] *)
Definition add (a b : Number) : Number :=
  match a, b with
  | NaN, _ | _, NaN => NaN
  | Finite x, Finite y => round (x + y)
  | Infinity s, Infinity s' => if eqb s s' then Infinity s else NaN
  | Infinity s, Finite _ | Finite _, Infinity s => Infinity s
  end.

(** [a - b] *)
Definition sub (a b : Number) : Number := add a (neg b).

(** [a * b] *)
Definition mul (a b : Number) : Number :=
  match a, b with
  | NaN, _ | _, NaN => NaN
  | Finite x, Finite y => round (x * y)
  | _, _ =>
      if isZero a || isZero b then NaN
      else Infinity (xorb (negative a) (negative b))
  end.

(** [a / b] for a divisor that is no zero; the quotient by a zero depends on
    the sign of the zero and is [None]. *)
Definition div (a b : Number) : option Number :=
  if isZero b then None
  else Some
    match a, b with
    | NaN, _ | _, NaN => NaN
    | Finite x, Finite y => round (x / y)
    | Finite _, Infinity _ => Finite 0
    | Infinity s, Finite _ => Infinity (xorb s (negative b))
    | Infinity _, Infinity _ => NaN
    end.

(** [a < b]; every comparison with [NaN] is false. *)
Definition lt (a b : Number) : bool :=
  match a, b with
  | NaN, _ | _, NaN => false
  | Finite x, Finite y => Geometry.Qltb x y
  | Finite _, Infinity s => negb s
  | Infinity s, Finite _ => s
  | Infinity s, Infinity s' => s && negb s'
  end.

(** [a > b] *)
Definition gt (a b : Number) : bool := lt b a.

(** [a >= b] *)
Definition ge (a b : Number) : bool :=
  match a, b with
  | NaN, _ | _, NaN => false
  | Finite x, Finite y => Qle_bool y x
  | Finite _, Infinity s => s
  | Infinity s, Finite _ => negb s
  | Infinity s, Infinity s' => negb s || s'
  end.

(** [a === b] *)
Definition equals (a b : Number) : bool :=
  match a, b with
  | Finite x, Finite y => Qeq_bool x y
  | Infinity s, Infinity s' => eqb s s'
  | _, _ => false
  end.

End Double.

(** ** The narrow-phase geometry as the engine computes it: every operation
       rounded to binary64 *)

Module Rounded.

Import Double.

(** A [Point] whose coordinates are numbers. *)
Record Point := mkPoint { x : Number; y : Number }.

(** [this.distSqr(p)]: [dx = p.x - this.x], [dy = p.y - this.y],
    [dx * dx + dy * dy]. *)
Definition distSqr (this p : Point) : Number :=
  let dx := sub (x p) (x this) in
  let dy := sub (y p) (y this) in
  add (mul dx dx) (mul dy dy).

Definition psub (this p : Point) : Point :=
  mkPoint (sub (x this) (x p)) (sub (y this) (y p)).
Definition pmult (this : Point) (k : Number) : Point :=
  mkPoint (mul (x this) k) (mul (y this) k).
Definition padd (this p : Point) : Point :=
  mkPoint (add (x this) (x p)) (add (y this) (y p)).

(** A comparison with a quotient that does not exist is false. *)
Definition lessThan (a : option Number) (b : Number) : bool :=
  match a with
  | Some d => lt d b
  | None => false
  end.

(** [distToSegmentSquared(p, v, w)] *)
Definition distToSegmentSquared (p v w : Point) : option Number :=
  let l2 := distSqr v w in
  if equals l2 (ofZ 0) then Some (distSqr p v)
  else
    t ← div (add (mul (sub (x p) (x v)) (sub (x w) (x v)))
                 (mul (sub (y p) (y v)) (sub (y w) (y v)))) l2;
    if lt t (ofZ 0) then Some (distSqr p v)
    else if gt t (ofZ 1) then Some (distSqr p w)
    else Some (distSqr p (padd (pmult (psub w v) t) v)).

(** The loop of [pointIntersectsBufferedLine]. *)
Fixpoint anySegmentWithin (p : Point) (line : list Point) (radiusSquared : Number)
    : bool :=
  match line with
  | v :: (w :: _) as rest =>
      if lessThan (distToSegmentSquared p v w) radiusSquared then true
      else anySegmentWithin p rest radiusSquared
  | _ => false
  end.

(** [pointIntersectsBufferedLine(p, line, radius)] *)
Definition pointIntersectsBufferedLine (p : Point) (line : list Point)
    (radius : Number) : bool :=
  let radiusSquared := mul radius radius in
  match line with
  | [q] => lt (distSqr p q) radiusSquared
  | _ => anySegmentWithin p line radiusSquared
  end.

(** [v], [w] are consecutive points of [line]. *)
Definition segmentOf (line : list Point) (v w : Point) : Prop :=
  ∃ i : nat, line !! i = Some v ∧ line !! S i = Some w.

(** The test of one edge in the ray casting of [polygonContainsPoint]:
    [((p1.y > p.y) !== (p2.y > p.y)) &&
     (p.x < (p2.x - p1.x) * (p.y - p1.y) / (p2.y - p1.y) + p1.x)]. *)
Definition edgeCrosses (p p1 p2 : Point) : bool :=
  if negb (eqb (gt (y p1) (y p)) (gt (y p2) (y p))) then
    match div (mul (sub (x p2) (x p1)) (sub (y p) (y p1))) (sub (y p2) (y p1)) with
    | Some q => lt (x p) (add q (x p1))
    | None => false
    end
  else false.

(** The loop [for (i = 0, j = ring.length - 1; i < ring.length; j = i++)]. *)
Fixpoint crossings (p prev : Point) (ring : list Point) (c : bool) : bool :=
  match ring with
  | [] => c
  | p1 :: rest => crossings p p1 rest (if edgeCrosses p p1 prev then negb c else c)
  end.

Definition ringCrossings (p : Point) (ring : list Point) (c : bool) : bool :=
  match last ring with
  | Some prev => crossings p prev ring c
  | None => c
  end.

(** [polygonContainsPoint(ring, p)] *)
Definition polygonContainsPoint (ring : list Point) (p : Point) : bool :=
  ringCrossings p ring false.

(** [isCounterClockwise(a, b, c)] *)
Definition isCounterClockwise (a b c : Point) : bool :=
  gt (mul (sub (y c) (y a)) (sub (x b) (x a)))
     (mul (sub (y b) (y a)) (sub (x c) (x a))).

(** [lineSegmentIntersectsLineSegment(a0, a1, b0, b1)] *)
Definition lineSegmentIntersectsLineSegment (a0 a1 b0 b1 : Point) : bool :=
  negb (eqb (isCounterClockwise a0 b0 b1) (isCounterClockwise a1 b0 b1)) &&
  negb (eqb (isCounterClockwise a0 a1 b0) (isCounterClockwise a0 a1 b1)).

(** The consecutive pairs [line[i]], [line[i + 1]]. *)
Fixpoint segments (line : list Point) : list (Point * Point) :=
  match line with
  | v :: (w :: _) as rest => (v, w) :: segments rest
  | _ => []
  end.

(** [lineIntersectsLine(lineA, lineB)] *)
Definition lineIntersectsLine (lineA lineB : list Point) : bool :=
  existsb (fun a =>
    existsb (fun b => lineSegmentIntersectsLineSegment a.1 a.2 b.1 b.2)
            (segments lineB))
    (segments lineA).

(** [lineIntersectsBufferedLine(lineA, lineB, radius)] *)
Definition lineIntersectsBufferedLine (lineA lineB : list Point) (radius : Number)
    : bool :=
  (if (1 <? length lineA)%nat then
     lineIntersectsLine lineA lineB ||
     existsb (fun q => pointIntersectsBufferedLine q lineA radius) lineB
   else false) ||
  existsb (fun q => pointIntersectsBufferedLine q lineB radius) lineA.

(** [polygonIntersectsBufferedMultiPoint(polygon, rings, radius)] *)
Definition polygonIntersectsBufferedMultiPoint (polygon : list Point)
    (rings : list (list Point)) (radius : Number) : bool :=
  existsb (fun ring =>
    existsb (fun point =>
      polygonContainsPoint polygon point ||
      pointIntersectsBufferedLine point polygon radius) ring) rings.

(** A point with integer coordinates, as the geometry of a vector tile has
    them, the same point in exact arithmetic, and a bound on the
    coordinates. *)
Definition integral (a b : Z) : Point := mkPoint (ofZ a) (ofZ b).

Definition exact (p : Z * Z) : Geometry.Point :=
  Geometry.mkPoint (inject_Z p.1) (inject_Z p.2).

Definition rounded (p : Z * Z) : Point := integral p.1 p.2.

Definition within (bound : Z) (p : Z * Z) : Prop :=
  Z.abs p.1 <= bound ∧ Z.abs p.2 <= bound.

(** The number a decimal literal of the source text stands for. *)
Definition literal (q : Q) : Number := round q.

End Rounded.

(** ** The binary search of the markers layer with the keys as the engine
       computes them *)

Module RoundedKeys.

Import Double MarkerSearch.

(** The number an integer property holds (the nearest one, from [2 ^ 53]
    on), and [NaN] for [undefined] in arithmetic. *)
Definition number (v : Maybe) : Number :=
  match v with
  | Some z => round (inject_Z z)
  | None => NaN
  end.

(** [time + color * COLOR_OFFSET] *)
Definition compositeKey (color time : Maybe) : Number :=
  add (number time) (mul (number color) (number (Some COLOR_OFFSET))).

(** [(properties.d + properties.c * COLOR_OFFSET) - find < 0] *)
Definition keyBelow (f : Feature) (find : Number) : bool :=
  lt (sub (add (number (Some (d f)))
               (mul (number (Some (c f))) (number (Some COLOR_OFFSET))))
          find)
     (ofZ 0).

(** The [while (low !== high)] loop of [featuresFind]. *)
Fixpoint featuresFindLoop (fuel : nat) (layer : Layer) (find : Number)
    (low high : nat) : option nat :=
  if (low =? high)%nat then Some low
  else
    match fuel with
    | O => None
    | S fuel' =>
        let mid := ((low + high) / 2)%nat in
        feature ← layer !! mid;
        if keyBelow feature find
        then featuresFindLoop fuel' layer find (mid + 1)%nat high
        else featuresFindLoop fuel' layer find low mid
    end.

(** [featuresFind(layer, color, time)] *)
Definition featuresFind (layer : Layer) (color time : Maybe) : option Index :=
  let find := compositeKey color time in
  low ← featuresFindLoop (length layer) layer find 0 (length layer);
  Some (if (low =? length layer)%nat then None else Some low).

(** The body of the loop of [sortLayerIntoBucketsBinarySearch] for one
    bucket. *)
Definition bucketFeatures (layer : Layer) (filter : Filter) : option (list Feature) :=
  let filterValues := getFilters filter in
  startIdx ← featuresFind layer (colorIdx filterValues) (startTime filterValues);
  endIdx ← featuresFind layer (colorIdx filterValues) (endTime filterValues);
  let endIdx := if truthy startIdx && negb (truthy endIdx)
                then Some (length layer) else endIdx in
  featuresSlice layer startIdx endIdx.

(** A colour and a time whose key, and the product in it, stay below
    [2 ^ 52] in magnitude: the key and the difference of two such keys are
    then computed exactly. *)
Definition exactKey (color time : Z) : Prop :=
  Z.abs (color * COLOR_OFFSET) < 2 ^ 52 ∧
  Z.abs (time + color * COLOR_OFFSET) < 2 ^ 52.

Definition exactFeature (f : Feature) : Prop := exactKey (c f) (d f).

(** Two features of colour 1000000, of times 0 and 1: their keys differ,
    and both are [10 ^ 16] once rounded. *)
Definition farMarkers : Layer := [mkFeature 1000000 0 0; mkFeature 1000000 1 1].

End RoundedKeys.

(** * Properties *)

(** ** Element groups never exceed 65535 vertices *)

Section BucketFacts.
Import Bucket.

Lemma needsNewGroup_false groups n :
  needsNewGroup groups n = false →
  ∃ g, last groups = Some g ∧ vertexLength g + n <= 65535.
Proof.
  unfold needsNewGroup. destruct (last groups) as [g|]; [|done].
  intros H. apply bool_decide_eq_false in H. exists g. split; [done|lia].
Qed.

Lemma last_lookup_pred {A} (l : list A) (x : A) :
  last l = Some x → l !! pred (length l) = Some x.
Proof. rewrite last_lookup. done. Qed.

(** When [makeRoomFor] succeeds, the group it returns is in the list of the
    shader, and adding [n] vertices to it keeps it within the bound. *)
Lemma makeRoomFor_returned rev name n b idx b1 :
  makeRoomFor rev name n b = Some (idx, b1) →
  n <= 65535 →
  ∃ groups g,
    elementGroups b1 !! name = Some groups ∧
    groups !! idx = Some g ∧
    vertexLength g + n <= 65535 ∧
    buffers b1 = buffers b ∧
    (∀ name', name' ≠ name → elementGroups b1 !! name' = elementGroups b !! name') ∧
    (∀ g', g' ∈ groups → vertexLength g' = 0 ∨
       ∃ old, elementGroups b !! name = Some old ∧ g' ∈ old).
Proof.
  unfold makeRoomFor. intros H Hn.
  destruct (elementGroups b !! name) as [groups|] eqn:Hg; simpl in H; [|done].
  destruct (needsNewGroup groups n) eqn:Hnew.
  - destruct (buffers b !! getBufferName name "vertex") as [vb|] eqn:Hvb;
      simpl in H; [|done].
    injection H as <- <-. simpl.
    eexists _, _. split; [apply lookup_insert_eq|].
    split; [apply list_lookup_middle; done|].
    split; [destruct rev; simpl; lia|]. split; [done|]. split.
    + intros name' Hne. by rewrite lookup_insert_ne.
    + intros g' Hin. apply elem_of_app in Hin as [Hin|Hin].
      * right. eauto.
      * left. apply list_elem_of_singleton in Hin. subst g'. by destruct rev.
  - injection H as <- <-.
    apply needsNewGroup_false in Hnew as (g & Hlast & Hroom).
    exists groups, g. split; [done|].
    split; [by apply last_lookup_pred|].
    split; [done|]. split; [done|]. split; [done|].
    intros g' Hin. right. eauto.
Qed.

Lemma step_groupsBounded rev o b b' :
  groupsBounded b → op_vertices o <= 65535 → step rev o b = Some b' →
  groupsBounded b'.
Proof.
  intros Hinv Hn. unfold step.
  destruct (makeRoomFor rev (op_shader o) (op_vertices o) b) as [[idx b1]|] eqn:Hm;
    simpl; [|done].
  intros [= <-].
  destruct (makeRoomFor_returned _ _ _ _ _ _ Hm Hn)
    as (groups & g & Hgs & Hidx & Hroom & _ & Hother & Hmem).
  intros name gs g' Hlook Hin. unfold addToGroup in Hlook. simpl in Hlook.
  destruct (decide (name = op_shader o)) as [->|Hne].
  - rewrite lookup_alter_eq, Hgs in Hlook. simpl in Hlook.
    injection Hlook as <-.
    apply list_elem_of_lookup in Hin as [i Hi].
    destruct (decide (i = idx)) as [->|Hi'].
    + rewrite list_lookup_alter_eq, Hidx in Hi. simpl in Hi.
      injection Hi as <-. simpl. lia.
    + rewrite list_lookup_alter_ne in Hi by done.
      assert (Hin : g' ∈ groups) by (apply list_elem_of_lookup; eauto).
      destruct (Hmem _ Hin) as [Hz|(old & Hold & Hin')].
      * lia.
      * eapply Hinv; eauto.
  - rewrite lookup_alter_ne in Hlook by done.
    rewrite Hother in Hlook by done. eapply Hinv; eauto.
Qed.

Lemma run_groupsBounded rev ops : ∀ b b',
  groupsBounded b →
  Forall (fun o => op_vertices o <= 65535) ops →
  run rev ops b = Some b' → groupsBounded b'.
Proof.
  induction ops as [|o ops IH]; intros b b' Hinv Hall Hrun; simpl in Hrun.
  - by injection Hrun as <-.
  - apply Forall_cons in Hall as [Ho Hall].
    destruct (step rev o b) as [b1|] eqn:Hs; simpl in Hrun; [|done].
    eapply IH; [|done..]. eapply step_groupsBounded; eauto.
Qed.

Lemma insert_is_Some_mono {A} (bufs : gmap string A) k k' v :
  is_Some (bufs !! k) → is_Some (<[k' := v]> bufs !! k).
Proof. intros H. apply lookup_insert_is_Some. destruct (decide (k' = k)); auto. Qed.

Lemma createBuffersFor_mono name si bufs k :
  is_Some (bufs !! k) → is_Some (createBuffersFor name si bufs !! k).
Proof.
  intros H. unfold createBuffersFor.
  destruct (vertexBuffer si), (elementBuffer si), (secondElementBuffer si);
    repeat apply insert_is_Some_mono; done.
Qed.

Lemma createBuffersFor_vertex name si bufs :
  vertexBuffer si = true →
  is_Some (createBuffersFor name si bufs !! getBufferName name "vertex").
Proof.
  intros Hv. unfold createBuffersFor. rewrite Hv.
  destruct (elementBuffer si), (secondElementBuffer si);
    repeat (apply lookup_insert_is_Some'; first [left; reflexivity | right]).
Qed.

Lemma createBuffers_ready shaderInterfaces name si :
  shaderInterfaces !! name = Some si → vertexBuffer si = true →
  ready name (createBuffers shaderInterfaces).
Proof.
  intros Hsi Hv. split; simpl.
  - rewrite lookup_fmap, Hsi. done.
  - revert name si Hsi Hv.
    apply (map_fold_weak_ind (fun r m => ∀ name si, m !! name = Some si →
      vertexBuffer si = true → is_Some (r !! getBufferName name "vertex"))).
    + intros name si H. by rewrite lookup_empty in H.
    + intros i x m r Hi IH name si Hlook Hv.
      destruct (decide (i = name)) as [->|Hne].
      * rewrite lookup_insert_eq in Hlook. injection Hlook as ->.
        by apply createBuffersFor_vertex.
      * rewrite lookup_insert_ne in Hlook by done.
        apply createBuffersFor_mono. eauto.
Qed.

Lemma createBuffers_groupsBounded shaderInterfaces :
  groupsBounded (createBuffers shaderInterfaces).
Proof.
  intros name groups g Hlook Hin. simpl in Hlook.
  rewrite lookup_fmap in Hlook.
  destruct (shaderInterfaces !! name); simpl in Hlook; [|done].
  injection Hlook as <-. by apply elem_of_nil in Hin.
Qed.

Lemma makeRoomFor_ready rev name n b :
  ready name b → ∃ idx b1, makeRoomFor rev name n b = Some (idx, b1).
Proof.
  intros [[groups Hg] [vb Hvb]]. unfold makeRoomFor. rewrite Hg. simpl.
  destruct (needsNewGroup groups n); [rewrite Hvb; simpl|]; eauto.
Qed.

Lemma step_ready rev o b b' name :
  step rev o b = Some b' → ready name b → ready name b'.
Proof.
  unfold step, makeRoomFor. intros Hs [Hg Hvb].
  destruct (elementGroups b !! op_shader o) as [groups|] eqn:Hgs;
    simpl in Hs; [|done].
  destruct (needsNewGroup groups (op_vertices o)).
  - destruct (buffers b !! getBufferName (op_shader o) "vertex") as [vb|];
      simpl in Hs; [|done].
    injection Hs as <-. split; simpl.
    + apply lookup_alter_is_Some. by apply insert_is_Some_mono.
    + by do 2 apply lookup_alter_is_Some.
  - simpl in Hs. injection Hs as <-. split; simpl.
    + by apply lookup_alter_is_Some.
    + by do 2 apply lookup_alter_is_Some.
Qed.

Lemma run_ready rev ops : ∀ b,
  Forall (fun o => ready (op_shader o) b) ops → ∃ b', run rev ops b = Some b'.
Proof.
  induction ops as [|o ops IH]; intros b Hall; simpl; [eauto|].
  apply Forall_cons in Hall as [Ho Hall].
  destruct (makeRoomFor_ready rev _ (op_vertices o) _ Ho) as (idx & b1 & Hm).
  assert (Hs : step rev o b = Some
    (addToGroup (op_shader o) idx (op_vertices o) (op_elements o) b1)).
  { unfold step. rewrite Hm. done. }
  rewrite Hs. simpl. apply IH.
  eapply Forall_impl; [exact Hall|]. intros o' Hr. simpl in Hr.
  eapply step_ready; eauto.
Qed.

(** [makeRoomFor] returns the current last group when it has room for [n]
    more vertices (the bucket is unchanged), and otherwise, also when there
    is no group yet, appends a fresh group with [vertexLength] 0 that starts
    at the current lengths of the vertex and element buffers. *)
Lemma makeRoomFor_cases rev name n b groups :
  elementGroups b !! name = Some groups →
  (∀ g, last groups = Some g → vertexLength g + n <= 65535 →
     makeRoomFor rev name n b = Some (pred (length groups), b) ∧
     groups !! pred (length groups) = Some g) ∧
  (∀ vb, (last groups = None ∨ ∃ g, last groups = Some g ∧ vertexLength g + n > 65535) →
     buffers b !! getBufferName name "vertex" = Some vb →
     ∃ fresh,
       makeRoomFor rev name n b =
         Some (length groups,
               {| elementGroups := <[name := groups ++ [fresh]]> (elementGroups b);
                  buffers := buffers b |}) ∧
       (groups ++ [fresh]) !! length groups = Some fresh ∧
       vertexLength fresh = 0 ∧ elementLength fresh = 0 ∧
       secondElementLength fresh = 0 ∧
       vertexStartIndex fresh = buf_length vb ∧
       elementStartIndex fresh =
         buf_length <$> (buffers b !! getBufferName name "element") ∧
       secondElementStartIndex fresh =
         buf_length <$> (buffers b !! getBufferName name "secondElement")).
Proof.
  intros Hg. split.
  - intros g Hlast Hroom. split; [|by apply last_lookup_pred].
    unfold makeRoomFor, needsNewGroup. rewrite Hg. simpl. rewrite Hlast.
    rewrite bool_decide_eq_false_2 by lia. done.
  - intros vb Hfull Hvb.
    assert (Hnew : needsNewGroup groups n = true).
    { unfold needsNewGroup. destruct Hfull as [->|(g & -> & Hgt)]; [done|].
      by apply bool_decide_eq_true_2. }
    unfold makeRoomFor. rewrite Hg. simpl. rewrite Hnew, Hvb. simpl.
    eexists. split; [reflexivity|].
    split; [by apply list_lookup_middle|]. destruct rev; repeat split.
Qed.

(** C1.  After [createBuffers], and from any bucket whose groups are within
    the bound, every sequence of [makeRoomFor(name, n)] calls with
    [n <= 65535], each followed by the caller adding [n] vertices to the
    returned group, leaves every element group of every shader with
    [vertexLength <= 65535]; such a sequence does not raise when the named
    shaders have a vertex buffer.  [makeRoomFor] returns the current last
    group when it has room for [n] more vertices and otherwise appends a
    fresh group with [vertexLength] 0 starting at the current buffer
    lengths. *)
Theorem makeRoomFor_keeps_groups_bounded :
  (∀ rev b ops b',
     groupsBounded b →
     Forall (fun o => op_vertices o <= 65535) ops →
     run rev ops b = Some b' → groupsBounded b') ∧
  (∀ rev shaderInterfaces ops,
     Forall (fun o => op_vertices o <= 65535) ops →
     Forall (fun o => ∃ si, shaderInterfaces !! op_shader o = Some si ∧
                            vertexBuffer si = true) ops →
     ∃ b', run rev ops (createBuffers shaderInterfaces) = Some b' ∧
           groupsBounded b') ∧
  (∀ rev name n b groups,
     elementGroups b !! name = Some groups →
     (∀ g, last groups = Some g → vertexLength g + n <= 65535 →
        makeRoomFor rev name n b = Some (pred (length groups), b) ∧
        groups !! pred (length groups) = Some g) ∧
     (∀ vb, (last groups = None ∨
             ∃ g, last groups = Some g ∧ vertexLength g + n > 65535) →
        buffers b !! getBufferName name "vertex" = Some vb →
        ∃ fresh,
          makeRoomFor rev name n b =
            Some (length groups,
                  {| elementGroups := <[name := groups ++ [fresh]]> (elementGroups b);
                     buffers := buffers b |}) ∧
          (groups ++ [fresh]) !! length groups = Some fresh ∧
          vertexLength fresh = 0 ∧ elementLength fresh = 0 ∧
          secondElementLength fresh = 0 ∧
          vertexStartIndex fresh = buf_length vb ∧
          elementStartIndex fresh =
            buf_length <$> (buffers b !! getBufferName name "element") ∧
          secondElementStartIndex fresh =
            buf_length <$> (buffers b !! getBufferName name "secondElement"))).
Proof.
  split; [|split].
  - intros rev b ops b'. apply run_groupsBounded.
  - intros rev sis ops Hn Hsi.
    destruct (run_ready rev ops (createBuffers sis)) as [b' Hrun].
    { eapply Forall_impl; [exact Hsi|]. intros o (si & Hlook & Hv). simpl.
      eapply createBuffers_ready; eauto. }
    exists b'. split; [done|].
    eapply run_groupsBounded; [apply createBuffers_groupsBounded|done..].
  - apply makeRoomFor_cases.
Qed.

Lemma makeRoomFor_keeps_groups_bounded_witness :
  ∃ b', run ObjectLiteral fillThenOverflow (createBuffers circleInterfaces) = Some b' ∧
        groupsBounded b' ∧
        vertexLength <$> (elementGroups b' !!! "circle") = [65535; 4].
Proof.
  destruct (proj1 (proj2 makeRoomFor_keeps_groups_bounded)
              ObjectLiteral circleInterfaces fillThenOverflow) as (b' & Hrun & Hb).
  - repeat constructor; simpl; lia.
  - repeat constructor; simpl; eexists; (split; [vm_compute; reflexivity|reflexivity]).
  - exists b'. split; [exact Hrun|]. split; [exact Hb|].
    vm_compute in Hrun. injection Hrun as <-. vm_compute. reflexivity.
Defined.

End BucketFacts.

(** ** Circle tessellation *)

Section CircleFacts.
Import CircleBucket.

Lemma asBucket_vertex s :
  Bucket.buffers (asBucket s) !! Bucket.getBufferName "circle" "vertex" =
  Some (Bucket.mkBuffer (Z.of_nat (length (circleVertex s))) vertexItemSize).
Proof. simpl. apply lookup_insert_eq. Qed.

Lemma asBucket_element s :
  Bucket.buffers (asBucket s) !! Bucket.getBufferName "circle" "element" =
  Some (Bucket.mkBuffer (Z.of_nat (length (circleElement s))) elementItemSize).
Proof. simpl. rewrite lookup_insert_ne by done. apply lookup_insert_eq. Qed.

Lemma Reserved_lookup s groups idx groups' g :
  Reserved s groups idx groups' g → groups' !! idx = Some g.
Proof.
  destruct 1.
  - by apply last_lookup_pred.
  - by apply list_lookup_middle.
Qed.

Lemma circle_makeRoomFor s groups :
  elementGroups s !! "circle" = Some groups →
  ∃ idx groups' g,
    Reserved s groups idx groups' g ∧
    makeRoomFor "circle" 4 s =
      Some (idx, withGroups (<["circle" := groups']> (elementGroups s)) s).
Proof.
  intros Hg. unfold makeRoomFor, Bucket.makeRoomFor.
  change (Bucket.elementGroups (asBucket s)) with (elementGroups s).
  rewrite Hg. cbn [mbind option_bind].
  destruct (Bucket.needsNewGroup groups 4) eqn:Hnew.
  - rewrite asBucket_vertex, asBucket_element. cbn [mbind option_bind].
    eexists _, _, _. split; [|reflexivity].
    apply ReservedFresh; reflexivity.
  - apply needsNewGroup_false in Hnew as (g & Hlast & Hroom).
    exists (pred (length groups)), groups, g. split; [by constructor|].
    cbn. rewrite insert_id by done. by destruct s.
Qed.

Lemma outsideTile_false p :
  outsideTile p = false ↔
  0 <= px p < Bucket.EXTENT ∧ 0 <= py p < Bucket.EXTENT.
Proof.
  unfold outsideTile. rewrite !orb_false_iff.
  rewrite !Z.ltb_ge, !Z.geb_leb, !Z.leb_gt. lia.
Qed.

(** Inside the tile the [Int16] view stores the encoded position as it is. *)
Lemma toInt16_encode c e :
  0 <= c < Bucket.EXTENT → e = -1 ∨ e = 1 →
  toInt16 (c * 2 + (e + 1) / 2) = encode c e ∧
  (encode c e = c * 2 ∨ encode c e = c * 2 + 1).
Proof.
  unfold Bucket.EXTENT, toInt16, encode. intros Hc [-> | ->].
  - change ((-1 + 1) / 2) with 0. split; [|lia].
    rewrite Z.mod_small by lia. lia.
  - change ((1 + 1) / 2) with 1. split; [|lia].
    rewrite Z.mod_small by lia. lia.
Qed.

Lemma grow_twice g :
  Bucket.growGroup 0 2 (Bucket.growGroup 4 0 g) = Bucket.growGroup 4 2 g.
Proof. destruct g. unfold Bucket.growGroup. simpl. f_equal; lia. Qed.

Lemma addPoint_outside p s : outsideTile p = true → addPoint p s = Some s.
Proof. intros H. unfold addPoint. by rewrite H. Qed.

Lemma addPoint_inside p s groups :
  insideTile p = true →
  elementGroups s !! "circle" = Some groups →
  ∃ idx groups' g,
    Reserved s groups idx groups' g ∧
    addPoint p s = Some
      {| elementGroups :=
           <["circle" := alter (Bucket.growGroup 4 2) idx groups']> (elementGroups s);
         circleVertex := circleVertex s ++ quad p;
         circleElement := circleElement s ++
           triangles (Z.of_nat (length (circleVertex s)) - Bucket.vertexStartIndex g);
         paintCalls := paintCalls s |}.
Proof.
  intros Hin Hg. unfold insideTile in Hin. apply negb_true_iff in Hin.
  destruct (circle_makeRoomFor s groups Hg) as (idx & groups' & g & Hres & Hm).
  exists idx, groups', g. split; [done|].
  pose proof (Reserved_lookup _ _ _ _ _ Hres) as Hidx.
  apply outsideTile_false in Hin as Hrange. destruct Hrange as [Hx Hy].
  unfold addPoint. rewrite Hin, Hm. cbn [mbind option_bind].
  cbn [elementGroups withGroups]. rewrite lookup_insert_eq.
  cbn [mbind option_bind]. rewrite Hidx. cbn [mbind option_bind].
  unfold addCircleVertex, emplaceBackVertex, emplaceBackElement, growReturned,
    withGroups. cbn [elementGroups circleVertex circleElement paintCalls].
  destruct (toInt16_encode (px p) (-1) Hx) as [-> _]; [by left|].
  destruct (toInt16_encode (px p) 1 Hx) as [-> _]; [by right|].
  destruct (toInt16_encode (py p) (-1) Hy) as [-> _]; [by left|].
  destruct (toInt16_encode (py p) 1 Hy) as [-> _]; [by right|].
  f_equal. f_equal.
  - rewrite !alter_insert_eq. f_equal.
    rewrite list_alter_alter_eq. apply list_alter_ext; [|done].
    intros x _. apply grow_twice.
  - rewrite <- !app_assoc. reflexivity.
  - rewrite <- !app_assoc. reflexivity.
Qed.

Lemma sum_alter (proj : Bucket.ElementGroup → Z) h d :
  ∀ (l : list Bucket.ElementGroup) idx g,
    l !! idx = Some g → proj (h g) = proj g + d →
    foldr Z.add 0 (proj <$> alter h idx l) = foldr Z.add 0 (proj <$> l) + d.
Proof.
  induction l as [|a l IH]; intros [|idx] g Hl Hp; csimpl in *; try done.
  - injection Hl as ->. lia.
  - specialize (IH idx g Hl Hp). lia.
Qed.

Lemma sum_snoc (proj : Bucket.ElementGroup → Z) l g :
  foldr Z.add 0 (proj <$> (l ++ [g])) = foldr Z.add 0 (proj <$> l) + proj g.
Proof. induction l as [|a l IH]; csimpl in *; lia. Qed.

Lemma Reserved_totals s groups idx groups' g :
  Reserved s groups idx groups' g →
  foldr Z.add 0 (Bucket.vertexLength <$> groups') =
    foldr Z.add 0 (Bucket.vertexLength <$> groups) ∧
  foldr Z.add 0 (Bucket.elementLength <$> groups') =
    foldr Z.add 0 (Bucket.elementLength <$> groups).
Proof.
  destruct 1 as [g|g Hv He]; [done|].
  rewrite !sum_snoc, Hv, He. lia.
Qed.

Lemma addPoint_inside_grown p s groups :
  insideTile p = true →
  elementGroups s !! "circle" = Some groups →
  ∃ s', addPoint p s = Some s' ∧
        is_Some (elementGroups s' !! "circle") ∧
        grownBy 1 s s' ∧
        circleVertex s' = circleVertex s ++ quad p ∧
        paintCalls s' = paintCalls s.
Proof.
  intros Hin Hg.
  destruct (addPoint_inside p s groups Hin Hg) as (idx & groups' & g & Hres & ->).
  eexists. split; [reflexivity|]. cbn [elementGroups circleVertex paintCalls].
  split; [rewrite lookup_insert_eq; eauto|].
  split; [|done].
  pose proof (Reserved_lookup _ _ _ _ _ Hres) as Hidx.
  destruct (Reserved_totals _ _ _ _ _ Hres) as [Hv He].
  unfold grownBy, totalVertexLength, totalElementLength, circleGroups.
  cbn [elementGroups circleVertex circleElement].
  rewrite lookup_insert_eq, Hg. cbn [default].
  rewrite !length_app. cbn [quad triangles length].
  unfold id.
  rewrite (sum_alter Bucket.vertexLength _ 4 _ _ _ Hidx) by reflexivity.
  rewrite (sum_alter Bucket.elementLength _ 2 _ _ _ Hidx) by reflexivity.
  lia.
Qed.

Lemma grownBy_refl s : grownBy 0 s s.
Proof. unfold grownBy. lia. Qed.

Lemma grownBy_trans j k s1 s2 s3 :
  grownBy j s1 s2 → grownBy k s2 s3 → grownBy (j + k) s1 s3.
Proof. unfold grownBy. lia. Qed.

Lemma addRing_grown ring : ∀ s,
  is_Some (elementGroups s !! "circle") →
  ∃ s', addRing ring s = Some s' ∧
        is_Some (elementGroups s' !! "circle") ∧
        grownBy (Z.of_nat (length (filter (fun p => insideTile p = true) ring))) s s' ∧
        circleVertex s' =
          circleVertex s ++ concat (quad <$> filter (fun p => insideTile p = true) ring) ∧
        paintCalls s' = paintCalls s.
Proof.
  induction ring as [|p ring IH]; intros s Hs; simpl.
  - exists s. rewrite app_nil_r. auto using grownBy_refl.
  - destruct (outsideTile p) eqn:Hout.
    + rewrite (addPoint_outside p s Hout). cbn [mbind option_bind].
      rewrite filter_cons_False; [by apply IH|].
      unfold insideTile. rewrite Hout. done.
    + assert (Hin : insideTile p = true) by (unfold insideTile; by rewrite Hout).
      destruct Hs as [groups Hg].
      destruct (addPoint_inside_grown p s groups Hin Hg)
        as (s1 & -> & Hs1 & Hgrow1 & Hcv1 & Hpc1).
      cbn [mbind option_bind].
      destruct (IH s1 Hs1) as (s' & -> & Hs' & Hgrow & Hcv & Hpc).
      exists s'. split; [done|]. split; [done|].
      rewrite filter_cons_True by done. cbn [length fmap list_fmap concat].
      split; [|split].
      * replace (Z.of_nat (S (length (filter (fun p => insideTile p = true) ring))))
          with (1 + Z.of_nat (length (filter (fun p => insideTile p = true) ring)))
          by lia.
        eapply grownBy_trans; eauto.
      * rewrite Hcv, Hcv1, <- app_assoc. done.
      * congruence.
Qed.

Lemma addRings_grown geometries : ∀ s,
  is_Some (elementGroups s !! "circle") →
  ∃ s', addRings geometries s = Some s' ∧
        is_Some (elementGroups s' !! "circle") ∧
        grownBy (Z.of_nat (length (insidePoints geometries))) s s' ∧
        circleVertex s' = circleVertex s ++ concat (quad <$> insidePoints geometries) ∧
        paintCalls s' = paintCalls s.
Proof.
  unfold insidePoints.
  induction geometries as [|ring rest IH]; intros s Hs; simpl.
  - exists s. rewrite app_nil_r. auto using grownBy_refl.
  - destruct (addRing_grown ring s Hs) as (s1 & -> & Hs1 & Hgrow1 & Hcv1 & Hpc1).
    cbn [mbind option_bind].
    destruct (IH s1 Hs1) as (s' & -> & Hs' & Hgrow & Hcv & Hpc).
    exists s'. split; [done|]. split; [done|].
    rewrite filter_app, fmap_app, concat_app, length_app, Nat2Z.inj_add.
    split; [|split].
    + eapply grownBy_trans; eauto.
    + rewrite Hcv, Hcv1, <- app_assoc. done.
    + congruence.
Qed.

Lemma addRing_outside_only ring : ∀ s,
  addRing ring s = addRing (filter (fun p => insideTile p = true) ring) s.
Proof.
  induction ring as [|p ring IH]; intros s; [done|].
  destruct (outsideTile p) eqn:Hout.
  - rewrite filter_cons_False by (unfold insideTile; rewrite Hout; done).
    simpl. rewrite (addPoint_outside p s Hout). apply IH.
  - rewrite filter_cons_True by (unfold insideTile; rewrite Hout; done).
    simpl. destruct (addPoint p s); simpl; [apply IH|done].
Qed.

Lemma addRings_outside_only geometries : ∀ s,
  addRings geometries s =
  addRings (filter (fun p => insideTile p = true) <$> geometries) s.
Proof.
  induction geometries as [|ring rest IH]; intros s; [done|].
  simpl. rewrite <- addRing_outside_only.
  destruct (addRing ring s); simpl; [apply IH|done].
Qed.

Lemma insideTile_true p :
  insideTile p = true ↔
  0 <= px p < Bucket.EXTENT ∧ 0 <= py p < Bucket.EXTENT.
Proof. unfold insideTile. rewrite negb_true_iff. apply outsideTile_false. Qed.

Lemma outsideTile_true p :
  outsideTile p = true ↔
  px p < 0 ∨ px p >= Bucket.EXTENT ∨ py p < 0 ∨ py p >= Bucket.EXTENT.
Proof.
  unfold outsideTile. rewrite !orb_true_iff.
  rewrite !Z.ltb_lt, !Z.geb_leb, !Z.leb_le. lia.
Qed.

Lemma addFeature_grown geometries s :
  is_Some (elementGroups s !! "circle") →
  ∃ s', addFeature geometries s = Some s' ∧
        is_Some (elementGroups s' !! "circle") ∧
        grownBy (Z.of_nat (length (insidePoints geometries))) s s' ∧
        circleVertex s' = circleVertex s ++ concat (quad <$> insidePoints geometries) ∧
        paintCalls s' = paintCalls s ++
          [(Z.of_nat (length (circleVertex s)), Z.of_nat (length (circleVertex s')))].
Proof.
  intros Hs. unfold addFeature.
  destruct (addRings_grown geometries s Hs) as (s1 & -> & Hs1 & Hgrow & Hcv & Hpc).
  cbn [mbind option_bind]. eexists. split; [reflexivity|].
  cbn [elementGroups circleVertex paintCalls]. rewrite Hpc.
  repeat split; try done; apply Hgrow.
Qed.

(** C5.  A geometry point with both coordinates in [[0, EXTENT)] makes
    [addFeature] append exactly the four vertices of its quad, each position
    stored as [coordinate * 2 + (extrusion + 1) / 2] for the extrusions
    (-1,-1), (1,-1), (1,1), (-1,1), and exactly two triangles (six indices);
    the group returned by [makeRoomFor] gets [vertexLength + 4] and
    [elementLength + 2].  Over a whole feature the vertex array grows by 4,
    the element array by 2, the [vertexLength] total by 4 and the
    [elementLength] total by 2 for every such point. *)
Theorem circle_point_adds_one_quad :
  (∀ p s groups,
     0 <= px p < Bucket.EXTENT ∧ 0 <= py p < Bucket.EXTENT →
     elementGroups s !! "circle" = Some groups →
     ∃ idx groups' g s',
       Reserved s groups idx groups' g ∧
       addPoint p s = Some s' ∧
       circleVertex s' = circleVertex s ++
         [ (px p * 2 + (-1 + 1) / 2, py p * 2 + (-1 + 1) / 2);
           (px p * 2 + (1 + 1) / 2,  py p * 2 + (-1 + 1) / 2);
           (px p * 2 + (1 + 1) / 2,  py p * 2 + (1 + 1) / 2);
           (px p * 2 + (-1 + 1) / 2, py p * 2 + (1 + 1) / 2) ] ∧
       (∃ t1 t2, circleElement s' = circleElement s ++ [t1; t2]) ∧
       (∃ g', elementGroups s' !! "circle" = Some (<[idx := g']> groups') ∧
              Bucket.vertexLength g' = Bucket.vertexLength g + 4 ∧
              Bucket.elementLength g' = Bucket.elementLength g + 2)) ∧
  (∀ geometries s,
     is_Some (elementGroups s !! "circle") →
     ∃ s', addFeature geometries s = Some s' ∧
           grownBy (Z.of_nat (length (insidePoints geometries))) s s').
Proof.
  split.
  - intros p s groups Hrange Hg. apply insideTile_true in Hrange.
    destruct (addPoint_inside p s groups Hrange Hg)
      as (idx & groups' & g & Hres & Hadd).
    eexists idx, groups', g, _. split; [exact Hres|].
    split; [exact Hadd|]. cbn [circleVertex circleElement elementGroups].
    split; [reflexivity|]. split; [unfold triangles; eauto|].
    exists (Bucket.growGroup 4 2 g). rewrite lookup_insert_eq.
    split; [|done]. f_equal.
    pose proof (Reserved_lookup _ _ _ _ _ Hres) as Hidx.
    apply list_eq. intros i. destruct (decide (i = idx)) as [->|Hne].
    + rewrite list_lookup_alter_eq, Hidx, list_lookup_insert_eq; [done|].
      by eapply lookup_lt_Some.
    + rewrite list_lookup_alter_ne, list_lookup_insert_ne by done. done.
  - intros geometries s Hs.
    destruct (addFeature_grown geometries s Hs) as (s' & H & _ & Hgrow & _).
    eauto.
Qed.

Lemma circle_point_adds_one_quad_witness :
  ∃ s', addPoint (mkPoint 10 20) created = Some s' ∧
        circleVertex s' = [(20, 40); (21, 40); (21, 41); (20, 41)] ∧
        length (circleElement s') = 2%nat.
Proof.
  destruct (proj1 circle_point_adds_one_quad (mkPoint 10 20) created [])
    as (idx & groups' & g & s' & _ & Hadd & Hcv & (t1 & t2 & Hce) & _).
  - unfold Bucket.EXTENT. simpl. lia.
  - reflexivity.
  - exists s'. split; [exact Hadd|]. split; [exact Hcv|].
    rewrite Hce. reflexivity.
Defined.

(** C6.  A geometry point with [x < 0], [x >= EXTENT], [y < 0] or
    [y >= EXTENT] is skipped: [addPoint] returns the bucket unchanged and
    raises nothing, whatever the bucket.  [addFeature] on a geometry equals
    [addFeature] on the geometry with those points removed, and in a bucket
    whose buffers were created it succeeds and appends the quads of exactly
    the remaining points, in order. *)
Theorem circle_point_outside_dropped :
  (∀ p s,
     px p < 0 ∨ px p >= Bucket.EXTENT ∨ py p < 0 ∨ py p >= Bucket.EXTENT →
     addPoint p s = Some s) ∧
  (∀ geometries s,
     addFeature geometries s =
     addFeature (filter (fun p => insideTile p = true) <$> geometries) s) ∧
  (∀ geometries s,
     is_Some (elementGroups s !! "circle") →
     ∃ s', addFeature geometries s = Some s' ∧
           circleVertex s' =
             circleVertex s ++ concat (quad <$> insidePoints geometries) ∧
           length (circleElement s') =
             (length (circleElement s) + 2 * length (insidePoints geometries))%nat).
Proof.
  split; [|split].
  - intros p s H. apply addPoint_outside. by apply outsideTile_true.
  - intros geometries s. unfold addFeature.
    by rewrite <- addRings_outside_only.
  - intros geometries s Hs.
    destruct (addFeature_grown geometries s Hs) as (s' & H & _ & Hgrow & Hcv & _).
    exists s'. split; [done|]. split; [done|].
    destruct Hgrow as (_ & He & _). lia.
Qed.

Lemma circle_point_outside_dropped_witness :
  addPoint (mkPoint (-1) 5) created = Some created ∧
  ∃ s', addFeature [[mkPoint 10 20; mkPoint (-1) 5; mkPoint 8192 0]] created = Some s' ∧
        circleVertex s' = [(20, 40); (21, 40); (21, 41); (20, 41)].
Proof.
  split.
  - apply (proj1 circle_point_outside_dropped). simpl. lia.
  - destruct (proj2 (proj2 circle_point_outside_dropped)
                [[mkPoint 10 20; mkPoint (-1) 5; mkPoint 8192 0]] created)
      as (s' & Hadd & Hcv & _).
    + simpl. rewrite lookup_singleton_eq. eauto.
    + exists s'. split; [exact Hadd|]. rewrite Hcv. reflexivity.
Defined.
End CircleFacts.

(** ** Narrow-phase geometry *)

Section GeometryFacts.
Import Geometry.
Local Open Scope Q_scope.

Lemma Qltb_lt a b : Qltb a b = true ↔ a < b.
Proof.
  unfold Qltb. rewrite negb_true_iff. split.
  - intros H. apply Qnot_le_lt. intros Hle.
    apply Qle_bool_iff in Hle. congruence.
  - intros H. destruct (Qle_bool b a) eqn:E; [|done].
    apply Qle_bool_iff in E. lra.
Qed.

Lemma Qltb_ge a b : Qltb a b = false ↔ b <= a.
Proof.
  unfold Qltb. rewrite negb_false_iff. apply Qle_bool_iff.
Qed.

Lemma Qsq_nonneg (a : Q) : 0 <= a * a.
Proof. nra. Qed.

Lemma Qsq_zero (a : Q) : a * a == 0 → a == 0.
Proof. intros H. by destruct (Qmult_integral _ _ H). Qed.

Lemma distSqr_nonneg a b : 0 <= distSqr a b.
Proof.
  unfold distSqr. cbv zeta.
  pose proof (Qsq_nonneg (x b - x a)). pose proof (Qsq_nonneg (y b - y a)). lra.
Qed.

Lemma distSqr_zero_iff v w :
  distSqr v w == 0 ↔ x w == x v ∧ y w == y v.
Proof.
  unfold distSqr. cbv zeta. split.
  - intros H.
    pose proof (Qsq_nonneg (x w - x v)). pose proof (Qsq_nonneg (y w - y v)).
    assert (Hx : x w - x v == 0) by (apply Qsq_zero; lra).
    assert (Hy : y w - y v == 0) by (apply Qsq_zero; lra).
    split; lra.
  - intros [Hx Hy]. rewrite Hx, Hy. ring.
Qed.

Lemma divide_nonzero a b : ¬ b == 0 → divide a b = Some (a / b).
Proof.
  intros H. unfold divide. destruct (Qeq_bool b 0) eqn:E; [|done].
  apply Qeq_bool_iff in E. done.
Qed.


(** The three cases of the distance to a segment, over the differences
    [a, b] = p - v and [c, e] = w - v. *)
Lemma before_start_min a b c e s :
  a * c + b * e <= 0 → 0 <= s →
  a * a + b * b <= (s * c - a) * (s * c - a) + (s * e - b) * (s * e - b).
Proof.
  intros HD Hs.
  pose proof (Qsq_nonneg (s * c)). pose proof (Qsq_nonneg (s * e)).
  assert (0 <= s * - (a * c + b * e)) by (apply Qmult_le_0_compat; lra).
  lra.
Qed.

Lemma past_end_min a b c e s :
  c * c + e * e <= a * c + b * e → s <= 1 →
  (c - a) * (c - a) + (e - b) * (e - b) <=
  (s * c - a) * (s * c - a) + (s * e - b) * (s * e - b).
Proof.
  intros HD Hs.
  pose proof (Qsq_nonneg ((1 - s) * c)). pose proof (Qsq_nonneg ((1 - s) * e)).
  assert (0 <= (1 - s) * ((a * c + b * e) - (c * c + e * e)))
    by (apply Qmult_le_0_compat; lra).
  lra.
Qed.

Lemma projection_min a b c e s t :
  t * (c * c + e * e) == a * c + b * e →
  (c * t - a) * (c * t - a) + (e * t - b) * (e * t - b) <=
  (s * c - a) * (s * c - a) + (s * e - b) * (s * e - b).
Proof.
  intros HD.
  pose proof (Qsq_nonneg ((s - t) * c)). pose proof (Qsq_nonneg ((s - t) * e)).
  assert (K : (t - s) * (t * (c * c + e * e)) == (t - s) * (a * c + b * e))
    by (rewrite HD; reflexivity).
  lra.
Qed.

(** The four exits of [distToSegmentSquared]. *)
Lemma distToSegmentSquared_cases p v w :
  let l2 := distSqr v w in
  let t := ((x p - x v) * (x w - x v) + (y p - y v) * (y w - y v)) / l2 in
  (l2 == 0 ∧ distToSegmentSquared p v w = Some (distSqr p v)) ∨
  (¬ l2 == 0 ∧ t < 0 ∧ distToSegmentSquared p v w = Some (distSqr p v)) ∨
  (¬ l2 == 0 ∧ 1 < t ∧ distToSegmentSquared p v w = Some (distSqr p w)) ∨
  (¬ l2 == 0 ∧ 0 <= t ∧ t <= 1 ∧
   distToSegmentSquared p v w = Some (distSqr p (add (mult (sub w v) t) v))).
Proof.
  intros l2 t. unfold distToSegmentSquared. fold l2.
  destruct (Qeq_bool l2 0) eqn:E.
  - left. split; [by apply Qeq_bool_iff|done].
  - right. assert (Hl2 : ¬ l2 == 0).
    { intros H. apply Qeq_bool_iff in H. congruence. }
    rewrite divide_nonzero by done. cbn [mbind option_bind]. fold t.
    destruct (Qltb t 0) eqn:E0.
    + left. apply Qltb_lt in E0. done.
    + right. apply Qltb_ge in E0. destruct (Qltb 1 t) eqn:E1.
      * left. apply Qltb_lt in E1. done.
      * right. apply Qltb_ge in E1. done.
Qed.

Lemma distToSegmentSquared_total p v w :
  ∃ d, distToSegmentSquared p v w = Some d.
Proof.
  destruct (distToSegmentSquared_cases p v w)
    as [[_ H]|[(_ & _ & H)|[(_ & _ & H)|(_ & _ & _ & H)]]]; eauto.
Qed.

Lemma onSegment_start v w : onSegment v w v.
Proof. exists 0. repeat split; lra. Qed.

Lemma onSegment_end v w : onSegment v w w.
Proof. exists 1. repeat split; lra. Qed.

Lemma distSqr_onSegment p v w q s :
  x q == x v + s * (x w - x v) → y q == y v + s * (y w - y v) →
  distSqr p q ==
    (s * (x w - x v) - (x p - x v)) * (s * (x w - x v) - (x p - x v)) +
    (s * (y w - y v) - (y p - y v)) * (s * (y w - y v) - (y p - y v)).
Proof. intros Hx Hy. unfold distSqr. cbv zeta. rewrite Hx, Hy. ring. Qed.

(** [distToSegmentSquared] is the least squared distance from [p] to a point
    of the segment, and some point of the segment attains it. *)
Lemma distToSegmentSquared_least p v w d :
  distToSegmentSquared p v w = Some d →
  (∀ q, onSegment v w q → d <= distSqr p q) ∧
  (∃ q, onSegment v w q ∧ d == distSqr p q).
Proof.
  intros Hd.
  pose proof (distSqr_nonneg v w) as Hl2.
  pose proof (distToSegmentSquared_cases p v w) as Hcases. cbv zeta in Hcases.
  set (a := x p - x v) in *. set (b := y p - y v) in *.
  set (c := x w - x v) in *. set (e := y w - y v) in *.
  assert (Hl2eq : distSqr v w == c * c + e * e) by reflexivity.
  assert (Hpv : distSqr p v == a * a + b * b).
  { unfold distSqr, a, b. cbv zeta. ring. }
  assert (Hpw : distSqr p w == (c - a) * (c - a) + (e - b) * (e - b)).
  { unfold distSqr, a, b, c, e. cbv zeta. ring. }
  destruct Hcases
    as [[Hz H]|[(Hnz & Ht & H)|[(Hnz & Ht & H)|(Hnz & Ht0 & Ht1 & H)]]];
    rewrite H in Hd; injection Hd as <-.
  - (* zero-length segment *)
    apply distSqr_zero_iff in Hz as [Hx Hy].
    split; [|exists v; split; [apply onSegment_start|reflexivity]].
    intros q (s & Hs0 & Hs1 & Hqx & Hqy).
    rewrite (distSqr_onSegment p v w q s Hqx Hqy), Hpv. fold a b c e.
    apply before_start_min; [|done].
    assert (Hc : c == 0) by (unfold c; lra).
    assert (He : e == 0) by (unfold e; lra).
    rewrite Hc, He. lra.
  - (* the projection falls before [v] *)
    split; [|exists v; split; [apply onSegment_start|reflexivity]].
    intros q (s & Hs0 & Hs1 & Hqx & Hqy).
    rewrite (distSqr_onSegment p v w q s Hqx Hqy), Hpv. fold a b c e.
    apply before_start_min; [|done].
    assert (Hpos : 0 < distSqr v w) by (apply Qle_lteq in Hl2 as [?|Heq]; [done|]; symmetry in Heq; done).
    set (t := (a * c + b * e) / distSqr v w) in *.
    assert (HD : a * c + b * e == t * distSqr v w)
      by (unfold t; field; done).
    rewrite HD.
    assert (0 <= (- t) * distSqr v w) by (apply Qmult_le_0_compat; lra).
    lra.
  - (* the projection falls past [w] *)
    split; [|exists w; split; [apply onSegment_end|reflexivity]].
    intros q (s & Hs0 & Hs1 & Hqx & Hqy).
    rewrite (distSqr_onSegment p v w q s Hqx Hqy), Hpw. fold a b c e.
    apply past_end_min; [|done].
    set (t := (a * c + b * e) / distSqr v w) in *.
    assert (HD : a * c + b * e == t * distSqr v w)
      by (unfold t; field; done).
    rewrite HD, <- Hl2eq.
    assert (0 <= (t - 1) * distSqr v w) by (apply Qmult_le_0_compat; lra).
    lra.
  - (* the projection falls on the segment *)
    set (t := (a * c + b * e) / distSqr v w) in *.
    assert (HD : t * (c * c + e * e) == a * c + b * e).
    { rewrite <- Hl2eq. unfold t. field. done. }
    assert (Hproj : distSqr p (add (mult (sub w v) t) v) ==
                    (c * t - a) * (c * t - a) + (e * t - b) * (e * t - b)).
    { unfold distSqr, add, mult, sub, a, b, c, e. cbn [x y]. ring. }
    split.
    + intros q (s & Hs0 & Hs1 & Hqx & Hqy).
      rewrite (distSqr_onSegment p v w q s Hqx Hqy), Hproj. fold a b c e.
      by apply projection_min.
    + exists (add (mult (sub w v) t) v). split; [|reflexivity].
      exists t. unfold add, mult, sub. cbn [x y]. repeat split; try done; ring.
Qed.

Lemma segmentOf_cons u line v w :
  segmentOf (u :: line) v w ↔
  (u = v ∧ head line = Some w) ∨ segmentOf line v w.
Proof.
  unfold segmentOf. split.
  - intros ([|i] & Hv & Hw); simpl in *.
    + left. injection Hv as ->. split; [done|]. by destruct line.
    + right. eauto.
  - intros [[-> Hw]|(i & Hv & Hw)].
    + exists 0%nat. split; [done|]. by destruct line.
    + exists (S i). done.
Qed.

Lemma anySegmentWithin_iff p r2 line :
  anySegmentWithin p line r2 = true ↔
  ∃ v w, segmentOf line v w ∧ lessThan (distToSegmentSquared p v w) r2 = true.
Proof.
  induction line as [|u line IH].
  - split; [done|]. intros (v & w & (i & Hv & _) & _). done.
  - destruct line as [|u' line].
    + split; [done|]. intros (v & w & ([|i] & Hv & Hw) & _); done.
    + cbn [anySegmentWithin].
      destruct (lessThan (distToSegmentSquared p u u') r2) eqn:E.
      * split; [|done]. intros _. exists u, u'. split; [|done].
        apply segmentOf_cons. by left.
      * change (anySegmentWithin p (u' :: line) r2 = true ↔
          ∃ v w, segmentOf (u :: u' :: line) v w ∧
                 lessThan (distToSegmentSquared p v w) r2 = true).
        rewrite IH. split.
        -- intros (v & w & Hseg & Hlt). exists v, w. split; [|done].
           apply segmentOf_cons. by right.
        -- intros (v & w & Hseg & Hlt). exists v, w. split; [|done].
           apply segmentOf_cons in Hseg as [[-> Hw]|Hseg]; [|done].
           simpl in Hw. injection Hw as ->. congruence.
Qed.

Lemma lessThan_true a b :
  lessThan a b = true ↔ ∃ d, a = Some d ∧ d < b.
Proof.
  destruct a as [d|]; simpl.
  - rewrite Qltb_lt. split; [eauto|]. by intros (d' & [= ->] & H).
  - split; [done|]. by intros (d' & ? & _).
Qed.

Lemma pointIntersectsBufferedLine_segments p line radius :
  pointIntersectsBufferedLine p line radius = true ↔
  (∃ q, line = [q] ∧ distSqr p q < radius * radius) ∨
  (∃ v w d, segmentOf line v w ∧ distToSegmentSquared p v w = Some d ∧
            d < radius * radius).
Proof.
  unfold pointIntersectsBufferedLine.
  assert (Hany : anySegmentWithin p line (radius * radius) = true ↔
    ∃ v w d, segmentOf line v w ∧ distToSegmentSquared p v w = Some d ∧
             d < radius * radius).
  { rewrite anySegmentWithin_iff. split.
    - intros (v & w & Hseg & Hlt). apply lessThan_true in Hlt as (d & Hd & Hlt).
      eauto 10.
    - intros (v & w & d & Hseg & Hd & Hlt). exists v, w. split; [done|].
      apply lessThan_true. eauto. }
  destruct line as [|q [|q' line]].
  - rewrite Hany. split; [by right|]. by intros [(q & ? & _)|H].
  - rewrite Qltb_lt. split.
    + intros H. left. eauto.
    + intros [(q' & [= <-] & H)|(v & w & d & ([|i] & Hv & Hw) & _)]; done.
  - rewrite Hany. split; [by right|]. by intros [(q0 & ? & _)|H].
Qed.

(** C10.  [distToSegmentSquared] always returns a number.  For a zero-length
    segment ([v] and [w] have equal coordinates, which is exactly when the
    squared length [l2] is 0) it returns the squared distance from [p] to
    [v]; whenever a division by [l2] would have no value the function has
    already returned through that exit, so the division is only ever
    performed with a non-zero [l2]. *)
Theorem distToSegmentSquared_never_divides_by_zero p v w :
  (∃ d, distToSegmentSquared p v w = Some d) ∧
  (x w == x v ∧ y w == y v →
     distToSegmentSquared p v w = Some (distSqr p v)) ∧
  (distSqr v w == 0 ↔ x w == x v ∧ y w == y v) ∧
  (∀ a, divide a (distSqr v w) = None →
     distSqr v w == 0 ∧ distToSegmentSquared p v w = Some (distSqr p v)) ∧
  (¬ distSqr v w == 0 →
     divide ((x p - x v) * (x w - x v) + (y p - y v) * (y w - y v)) (distSqr v w) =
     Some (((x p - x v) * (x w - x v) + (y p - y v) * (y w - y v)) / distSqr v w)).
Proof.
  assert (Hzero : distSqr v w == 0 →
                  distToSegmentSquared p v w = Some (distSqr p v)).
  { intros Hz. unfold distToSegmentSquared.
    apply Qeq_bool_iff in Hz. by rewrite Hz. }
  split; [apply distToSegmentSquared_total|].
  split; [intros H; apply Hzero; by apply distSqr_zero_iff|].
  split; [apply distSqr_zero_iff|]. split.
  - intros a Hdiv. unfold divide in Hdiv.
    destruct (Qeq_bool (distSqr v w) 0) eqn:E; [|done].
    apply Qeq_bool_iff in E. auto.
  - apply divide_nonzero.
Qed.

Lemma distToSegmentSquared_never_divides_by_zero_witness :
  distToSegmentSquared (mkPoint 3 4) (mkPoint 0 0) (mkPoint 0 0) =
  Some (distSqr (mkPoint 3 4) (mkPoint 0 0)).
Proof.
  apply (proj1 (proj2 (distToSegmentSquared_never_divides_by_zero
           (mkPoint 3 4) (mkPoint 0 0) (mkPoint 0 0)))).
  split; reflexivity.
Defined.
End GeometryFacts.

(** ** The binary-search fast path *)

Section MarkerFacts.
Import MarkerSearch.
Local Open Scope nat_scope.

Lemma featuresFindLoop_total layer find : ∀ fuel low high,
  low <= high → high <= length layer → high - low <= fuel →
  ∃ r, featuresFindLoop fuel layer find low high = Some r ∧ low <= r <= high.
Proof.
  induction fuel as [|fuel IH]; intros low high Hlh Hlen Hfuel.
  - assert (low = high) as -> by lia. simpl. rewrite Nat.eqb_refl.
    exists high. split; [done|lia].
  - cbn [featuresFindLoop]. cbv zeta. destruct (low =? high) eqn:E.
    + apply Nat.eqb_eq in E as ->. exists high. split; [done|lia].
    + apply Nat.eqb_neq in E.
      assert (Hmid : low <= (low + high) / 2 < high).
      { split.
        - apply Nat.div_le_lower_bound; lia.
        - apply Nat.Div0.div_lt_upper_bound; lia. }
      destruct (lookup_lt_is_Some_2 layer ((low + high) / 2)) as [f Hf]; [lia|].
      rewrite Hf. cbn [mbind option_bind].
      destruct (keyBelow f find).
      * destruct (IH ((low + high) / 2 + 1) high) as (r & Hr & Hb); [lia..|].
        exists r. split; [done|lia].
      * destruct (IH low ((low + high) / 2)) as (r & Hr & Hb); [lia..|].
        exists r. split; [done|lia].
Qed.

Lemma featuresFind_total layer color time :
  ∃ i, featuresFind layer color time = Some i ∧
       ∀ n, i = Some n → n < length layer.
Proof.
  unfold featuresFind.
  destruct (featuresFindLoop_total layer (compositeKey color time)
              (length layer) 0 (length layer)) as (r & -> & Hr); [lia..|].
  cbn [mbind option_bind]. eexists. split; [reflexivity|].
  intros n. destruct (r =? length layer) eqn:E; [done|].
  apply Nat.eqb_neq in E. intros [= <-]. lia.
Qed.

Lemma mapM_lookup_seq (layer : Layer) (a : nat) : ∀ n s,
  s + a + n <= length layer →
  mapM (fun k => layer !! Z.to_nat (Z.of_nat k + Z.of_nat a)) (seq s n) =
  Some (take n (drop (s + a) layer)).
Proof.
  induction n as [|n IH]; intros s Hlen; [done|].
  cbn [seq mapM].
  replace (Z.to_nat (Z.of_nat s + Z.of_nat a)) with (s + a) by lia.
  destruct (lookup_lt_is_Some_2 layer (s + a)) as [f Hf]; [lia|].
  rewrite Hf. cbn [mbind option_bind].
  rewrite (IH (S s)) by lia. cbn [mbind option_bind mret option_ret].
  f_equal. rewrite (drop_S _ _ _ Hf). done.
Qed.

Lemma featuresSlice_range layer a b :
  a <= b <= length layer →
  featuresSlice layer (Some a) (Some b) = Some (take (b - a) (drop a layer)).
Proof.
  intros H. unfold featuresSlice. cbn [toNumber].
  destruct (Z.of_nat b - Z.of_nat a <? 0)%Z eqn:E; [apply Z.ltb_lt in E; lia|].
  replace (Z.to_nat (Z.of_nat b - Z.of_nat a)) with (b - a) by lia.
  rewrite (mapM_lookup_seq layer a (b - a) 0) by lia. done.
Qed.

(** With the start found at a positive index and no end found, the slice
    runs to the end of the layer; with the start found at index 0 the test
    [startIdx && !endIdx] is falsy and the slice is empty. *)
Lemma bucketFeatures_end_missing layer filter a :
  featuresFind layer (colorIdx (getFilters filter)) (startTime (getFilters filter))
    = Some (Some a) →
  featuresFind layer (colorIdx (getFilters filter)) (endTime (getFilters filter))
    = Some None →
  bucketFeatures layer filter =
    Some (match a with O => [] | S _ => drop a layer end).
Proof.
  intros Hs He. unfold bucketFeatures. rewrite Hs, He.
  cbn [mbind option_bind].
  destruct (featuresFind_total layer (colorIdx (getFilters filter))
              (startTime (getFilters filter))) as (i & Hi & Hlt).
  rewrite Hs in Hi. injection Hi as <-. specialize (Hlt a eq_refl).
  destruct a as [|a]; cbn [truthy negb andb].
  - reflexivity.
  - rewrite featuresSlice_range by lia.
    rewrite take_ge; [done|]. rewrite length_drop. lia.
Qed.

(** C9 at the failing input.  On the layer [oneMarker] and the filter
    [firstTenDays] the start index is found (it is 0) and no end index is
    found, yet the bucket receives no feature at all, where the fall-back
    [endIdx = layer.length] would have given it the whole layer; likewise on
    [threeMarkers] with [firstHundredDays].  With the start found at index 1
    ([fromDayTen]) the bucket receives the layer from there to its end. *)
Theorem markers_start_at_zero_gets_nothing :
  featuresFind oneMarker (colorIdx (getFilters firstTenDays))
     (startTime (getFilters firstTenDays)) = Some (Some 0) ∧
  featuresFind oneMarker (colorIdx (getFilters firstTenDays))
     (endTime (getFilters firstTenDays)) = Some None ∧
  sortLayerIntoBucketsBinarySearch oneMarker [("markers-red", firstTenDays)] =
     Some [("markers-red", [])] ∧
  drop 0 oneMarker = [mkFeature 1 5 0] ∧
  featuresFind threeMarkers (colorIdx (getFilters firstHundredDays))
     (startTime (getFilters firstHundredDays)) = Some (Some 0) ∧
  featuresFind threeMarkers (colorIdx (getFilters firstHundredDays))
     (endTime (getFilters firstHundredDays)) = Some None ∧
  bucketFeatures threeMarkers firstHundredDays = Some [] ∧
  bucketFeatures threeMarkers fromDayTen = Some (drop 1 threeMarkers).
Proof. repeat split. Qed.

End MarkerFacts.

(** ** Worker tile *)

Section WorkerTileFacts.
Import WorkerTile.
Local Open Scope nat_scope.

Lemma countb_cons {A} (f : A → bool) a l :
  countb f (a :: l) = (if f a then 1 else 0) + countb f l.
Proof.
  unfold countb. destruct (f a) eqn:E.
  - by rewrite filter_cons_True.
  - rewrite filter_cons_False; [done|]. congruence.
Qed.

Lemma countb_nil {A} (f : A → bool) : countb f [] = 0.
Proof. done. Qed.

Lemma countb_app {A} (f : A → bool) l l' :
  countb f (l ++ l') = countb f l + countb f l'.
Proof. unfold countb. by rewrite filter_app, length_app. Qed.

Lemma countb_pos {A} (f : A → bool) l :
  0 < countb f l → ∃ a, a ∈ l ∧ f a = true.
Proof.
  induction l as [|a l IH]; [unfold countb; simpl; lia|].
  rewrite countb_cons. destruct (f a) eqn:E.
  - intros _. exists a. split; [by left|done].
  - intros H. destruct IH as (a' & Hin & Hf); [lia|].
    exists a'. split; [by right|done].
Qed.

Lemma countb_zero {A} (f : A → bool) l :
  (∀ a, a ∈ l → f a = false) → countb f l = 0.
Proof.
  induction l as [|a l IH]; intros H; [done|].
  rewrite countb_cons, (H a) by (by left). rewrite IH; [done|].
  intros a' Hin. apply H. by right.
Qed.

Lemma symbolPopulates_app l l' :
  symbolPopulates (l ++ l') = symbolPopulates l ++ symbolPopulates l'.
Proof. unfold symbolPopulates. apply omap_app. Qed.

Lemma completions_split l :
  completions l = countb (isCompleted Glyphs) l + countb (isCompleted Icons) l.
Proof.
  unfold completions. induction l as [|a l IH]; [done|].
  rewrite !countb_cons, IH.
  destruct a as [| | |[|] [e|]| | |]; simpl; lia.
Qed.

Lemma completed_le_got dep l :
  countb (isCompleted dep) l <= gotCount dep l.
Proof.
  unfold gotCount. induction l as [|a l IH]; [done|].
  rewrite !countb_cons. unfold isCompleted at 1.
  destruct (isCompletion a), (isGot dep a); simpl; lia.
Qed.

Lemma completed_in dep l :
  0 < countb (isCompleted dep) l → GotDependency dep None ∈ l.
Proof.
  intros H. apply countb_pos in H as (a & Hin & Ha).
  unfold isCompleted in Ha. apply andb_true_iff in Ha as [Hc Hg].
  destruct a as [| | |dep' [e|]| | |]; try done.
  simpl in Hg. apply bool_decide_eq_true in Hg as ->. done.
Qed.

(** With each dependency answered at most once, there are at most two
    completions, and two completions mean that both dependencies completed. *)
Lemma two_completions l :
  gotCount Glyphs l <= 1 → gotCount Icons l <= 1 →
  completions l <= 2 ∧
  (completions l = 2 →
   GotDependency Glyphs None ∈ l ∧ GotDependency Icons None ∈ l).
Proof.
  intros Hg Hi. rewrite completions_split.
  pose proof (completed_le_got Glyphs l). pose proof (completed_le_got Icons l).
  split; [lia|]. intros H2. split; apply completed_in; lia.
Qed.

Lemma gated_app l l' :
  gated l →
  symbolPopulates l' = [] ∨
    (GotDependency Glyphs None ∈ l ∧ GotDependency Icons None ∈ l) →
  gated (l ++ l').
Proof.
  intros Hl Hl' before b after Heq Hsym.
  assert (Hin' : ∀ k, l' = k ++ PopulateBuffers b :: after →
                 GotDependency Glyphs None ∈ l ∧ GotDependency Icons None ∈ l).
  { intros k Hk. destruct Hl' as [Hnone|H]; [|done]. exfalso.
    rewrite Hk, symbolPopulates_app in Hnone.
    apply app_eq_nil in Hnone as [_ Hnone].
    simpl in Hnone. by rewrite Hsym in Hnone. }
  apply app_eq_inv in Heq as [(k & Hk1 & Hk2)|(k & Hk1 & Hk2)].
  - destruct k as [|a k]; simpl in Hk2.
    + rewrite app_nil_r in Hk1. subst before. by apply (Hin' []).
    + injection Hk2 as <- ->.
      apply (Hl before b k) in Hsym; done.
  - destruct (Hin' k Hk2) as [HG HI]. subst before.
    split; apply elem_of_app; by left.
Qed.


Lemma placement_quiet acts :
  Forall (fun a => isPlacement a = true) acts →
  symbolPopulates acts = [] ∧ completions acts = 0 ∧
  gotCount Glyphs acts = 0 ∧ gotCount Icons acts = 0 ∧
  countb isResult acts = 0.
Proof.
  induction 1 as [|a acts Ha _ IH]; [done|].
  unfold completions, gotCount in *. rewrite !countb_cons.
  destruct IH as (IH1 & -> & -> & -> & ->).
  destruct a; try discriminate Ha; simpl; rewrite ?IH1; done.
Qed.

Lemma redoPlacement_placement a p s t :
  Forall (fun a => isPlacement a = true) (redoPlacement a p s t).2.
Proof.
  unfold redoPlacement. destruct (bool_decide (status t ≠ Done)); simpl.
  - constructor.
  - constructor; [done|]. apply Forall_fmap, Forall_true. done.
Qed.

Lemma redoPlacement_symbolBuckets a p s t :
  symbolBuckets (redoPlacement a p s t).1.2 = symbolBuckets t.
Proof. unfold redoPlacement. by destruct (bool_decide (status t ≠ Done)). Qed.

Lemma redoPlacement_status a p s t :
  status (redoPlacement a p s t).1.2 = status t.
Proof. unfold redoPlacement. by destruct (bool_decide (status t ≠ Done)). Qed.

Lemma parseBuckets_spec bs m :
  parseBuckets bs m = emit (PopulateBuffers <$> rev bs) m.
Proof.
  unfold parseBuckets. generalize (rev bs). intros l. revert m.
  induction l as [|b l IH]; intros m; simpl.
  - unfold emit. rewrite app_nil_r. by destruct m.
  - rewrite IH. unfold parseBucket, emit. simpl. by rewrite <- app_assoc.
Qed.

(** The effects of [done()]: a placement run if one was deferred, then the
    result callback. *)
Lemma done_spec m :
  ∃ acts,
    Forall (fun a => isPlacement a = true) acts ∧
    log (done m) = log m ++ acts ++ [Callback None (Some (serialized (buckets m)))] ∧
    deps (done m) = deps m ∧ buckets (done m) = buckets m ∧
    status (tile (done m)) = Done ∧
    symbolBuckets (tile (done m)) = symbolBuckets (tile m) ∧
    redoPlacementAfterDone (tile (done m)) = false ∧
    (redoPlacementAfterDone (tile m) = false → acts = []) ∧
    (redoPlacementAfterDone (tile m) = true →
       acts = NewCollisionTile (angle (tile m)) (pitch (tile m)) ::
              ((fun b => PlaceFeatures b None) <$> rev (symbolBuckets (tile m)))).
Proof.
  unfold done. cbn [redoPlacementAfterDone].
  destruct (redoPlacementAfterDone (tile m)) eqn:Hflag.
  - unfold redoPlacement. cbn [status angle pitch symbolBuckets].
    rewrite bool_decide_eq_false_2 by (intros H; by apply H).
    exists (NewCollisionTile (angle (tile m)) (pitch (tile m)) ::
            ((fun b => PlaceFeatures b None) <$> rev (symbolBuckets (tile m)))).
    split; [|cbn; repeat split; congruence].
    constructor; [done|]. apply Forall_fmap, Forall_true. done.
  - exists []. cbn. repeat split; done.
Qed.

Lemma symbolPopulates_populate bs :
  Forall (fun b => isSymbol b = true) bs →
  symbolPopulates (PopulateBuffers <$> bs) = bs.
Proof.
  induction 1 as [|b bs Hb _ IH]; [done|].
  unfold symbolPopulates in *. cbn [fmap list_fmap omap list_omap].
  rewrite Hb. cbn. f_equal. exact IH.
Qed.

Lemma symbolPopulates_others bs :
  Forall (fun b => isSymbol b = false) bs →
  symbolPopulates (PopulateBuffers <$> bs) = [].
Proof.
  induction 1 as [|b bs Hb _ IH]; [done|].
  unfold symbolPopulates in *. cbn [fmap list_fmap omap list_omap].
  rewrite Hb. cbn. exact IH.
Qed.

Lemma countb_populate (f : Action → bool) bs :
  (∀ b, f (PopulateBuffers b) = false) → countb f (PopulateBuffers <$> bs) = 0.
Proof.
  intros Hf. apply countb_zero. intros a Hin.
  apply list_elem_of_fmap in Hin as (b & -> & _). apply Hf.
Qed.

Lemma answered_cons dep ev evs :
  answered dep (ev :: evs) = (if answers dep ev then 1 else 0) + answered dep evs.
Proof. apply countb_cons. Qed.

(** Appending effects that complete nothing, tessellate no symbol bucket and
    deliver no result keeps the invariant. *)
Lemma Invariant_emit symbols m evs evs' acts :
  Invariant symbols m evs →
  symbolPopulates acts = [] → completions acts = 0 → countb isResult acts = 0 →
  gotCount Glyphs (log m) + gotCount Glyphs acts + answered Glyphs evs' <= 1 →
  gotCount Icons (log m) + gotCount Icons acts + answered Icons evs' <= 1 →
  Invariant symbols (emit acts m) evs'.
Proof.
  intros [Hg Hi Hd Hs Hgt Hp Hr Hst] Hpop Hcomp Hres Hg' Hi'.
  split; cbn [emit log deps tile].
  - unfold gotCount in *. rewrite countb_app. lia.
  - unfold gotCount in *. rewrite countb_app. lia.
  - unfold completions in *. rewrite countb_app. lia.
  - done.
  - apply gated_app; [done|by left].
  - by rewrite symbolPopulates_app, Hpop, app_nil_r.
  - rewrite countb_app. lia.
  - done.
Qed.

Lemma Invariant_withTile symbols m evs t :
  Invariant symbols m evs →
  symbolBuckets t = symbols → status t = status (tile m) →
  Invariant symbols (withTile t m) evs.
Proof.
  intros [Hg Hi Hd Hs Hgt Hp Hr Hst] Hsym Hstat.
  split; cbn [withTile log deps tile]; try done. by rewrite Hstat.
Qed.

Ltac count :=
  unfold gotCount, completions in *;
  rewrite ?countb_app, ?countb_cons, ?countb_nil;
  cbn [isGot isCompletion isResult bool_decide decide_rel Dependency_eq_dec
       Dependency_rect Dependency_rec Dependency_sind];
  simpl bool_decide; cbv iota.

Lemma gotDependency_step symbols dep err m evs0 evs :
  Forall (fun b => isSymbol b = true) symbols →
  Invariant symbols m evs0 →
  (∀ d, gotCount d (log m) + (if bool_decide (d = dep) then 1 else 0) +
        answered d evs <= 1) →
  Invariant symbols (gotDependency dep err m) evs.
Proof.
  intros Hsym Hinv Hbudget.
  pose proof (Hbudget Glyphs) as HbG. pose proof (Hbudget Icons) as HbI.
  assert (Hg1 : ∀ d e, gotCount d (log m ++ [GotDependency dep e]) +
                       answered d evs <= 1).
  { intros d e. destruct d, dep; revert HbG HbI; count; lia. }
  destruct err as [e|]; cbn [gotDependency].
  - (* an error: the callback gets it *)
    pose proof (Hg1 Glyphs (Some e)) as HG. pose proof (Hg1 Icons (Some e)) as HI.
    apply (Invariant_emit symbols _ evs); try done.
    + apply (Invariant_emit symbols _ evs0); try done.
      * revert HG. count. lia.
      * revert HI. count. lia.
    + cbn [emit log]. revert HG. count. lia.
    + cbn [emit log]. revert HI. count. lia.
  - (* a completion *)
    cbn [emit tile deps buckets log].
    set (l1 := log m ++ [GotDependency dep None]).
    destruct Hinv as [Hg Hi Hd Hs Hgt Hp Hr Hst].
    assert (Hc1 : completions l1 = S (deps m)).
    { unfold l1. count. lia. }
    assert (Hcnt : ∀ d, gotCount d l1 + answered d evs <= 1)
      by (intros d; apply Hg1).
    destruct (two_completions l1) as [Hle Hboth].
    { specialize (Hcnt Glyphs). lia. }
    { specialize (Hcnt Icons). lia. }
    assert (Hgl1 : gated l1) by (apply gated_app; [done|by left]).
    assert (Hold : (deps m =? 2) = false) by (apply Nat.eqb_neq; lia).
    rewrite Hold in Hp, Hr, Hst.
    destruct (S (deps m) =? 2) eqn:E2.
    + apply Nat.eqb_eq in E2.
      rewrite parseBuckets_spec. cbn [tile symbolBuckets]. rewrite Hs.
      set (m3 := emit _ _).
      destruct (done_spec m3) as (acts & Hacts & Hlog & Hdeps & _ & Hstat & Hsb & _).
      destruct (placement_quiet acts Hacts) as (Ha1 & Ha2 & Ha3 & Ha4 & Ha5).
      assert (Hl3 : log m3 = l1 ++ (PopulateBuffers <$> rev symbols)) by done.
      rewrite Hl3 in Hlog.
      assert (Hrev : Forall (fun b => isSymbol b = true) (rev symbols)).
      { by apply List.Forall_rev. }
      destruct (Hboth (eq_trans Hc1 E2)) as [HG HI].
      split; rewrite ?Hlog, ?Hdeps; cbn [m3 emit deps].
      * specialize (Hcnt Glyphs). unfold gotCount in *.
        rewrite !countb_app, Ha3, countb_populate by done. count. lia.
      * specialize (Hcnt Icons). unfold gotCount in *.
        rewrite !countb_app, Ha4, countb_populate by done. count. lia.
      * unfold completions in *.
        rewrite !countb_app, Ha2, countb_populate by done. count. lia.
      * by rewrite Hsb.
      * rewrite <- app_assoc. apply gated_app; [done|by right].
      * rewrite E2, Nat.eqb_refl. rewrite !symbolPopulates_app, Ha1.
        rewrite symbolPopulates_populate by done.
        unfold l1. rewrite symbolPopulates_app, Hp. cbn. by rewrite app_nil_r.
      * rewrite E2, Nat.eqb_refl. rewrite !countb_app, Ha5.
        rewrite countb_populate by done. unfold l1. rewrite countb_app, Hr.
        count. done.
      * rewrite E2, Nat.eqb_refl. done.
    + split; cbn [tile deps log]; fold l1; rewrite ?E2.
      * apply (Hcnt Glyphs).
      * apply (Hcnt Icons).
      * by rewrite Hc1.
      * done.
      * done.
      * unfold l1. by rewrite symbolPopulates_app, Hp.
      * unfold l1. rewrite countb_app, Hr. count. done.
      * done.
Qed.

Lemma handle_step symbols m ev evs :
  Forall (fun b => isSymbol b = true) symbols →
  Invariant symbols m (ev :: evs) →
  Invariant symbols (handle m ev) evs.
Proof.
  intros Hsym Hinv.
  pose proof (inv_glyphs _ _ _ Hinv) as Hg.
  pose proof (inv_icons _ _ _ Hinv) as Hi.
  rewrite answered_cons in Hg, Hi.
  destruct ev as [err|err|a p s]; cbn [handle answers] in *.
  - eapply gotDependency_step; [done..|]. intros [|]; simpl; lia.
  - eapply gotDependency_step; [done..|]. intros [|]; simpl; lia.
  - pose proof (redoPlacement_placement a p s (tile m)) as Hq.
    pose proof (redoPlacement_symbolBuckets a p s (tile m)) as Hsb.
    pose proof (redoPlacement_status a p s (tile m)) as Hst.
    destruct (redoPlacement a p s (tile m)) as [[r t'] acts].
    cbn [fst snd] in *.
    destruct (placement_quiet acts Hq) as (Ha1 & Ha2 & Ha3 & Ha4 & Ha5).
    apply (Invariant_emit symbols _ (RedoPlacementRequest a p s :: evs));
      cbn [withTile log]; try done; try lia.
    apply Invariant_withTile; [done| |done].
    rewrite Hsb. apply (inv_symbols _ _ _ Hinv).
Qed.

Lemma run_invariant symbols rest evs : ∀ m,
  Forall (fun b => isSymbol b = true) symbols →
  Invariant symbols m (evs ++ rest) →
  Invariant symbols (run m evs) rest.
Proof.
  induction evs as [|ev evs IH]; intros m Hsym Hinv; [done|].
  cbn [run foldl]. apply IH; [done|]. by apply handle_step.
Qed.

Lemma gotDependency_log dep err m :
  ∃ acts, log (gotDependency dep err m) = log m ++ GotDependency dep err :: acts ∧
          (∀ e, err = Some e → acts = [Callback (Some e) None]).
Proof.
  destruct err as [e|]; cbn [gotDependency emit log tile deps buckets].
  - exists [Callback (Some e) None]. rewrite <- app_assoc. split; [done|].
    by intros ? [= <-].
  - destruct (S (deps m) =? 2).
    + rewrite parseBuckets_spec. set (m3 := emit _ _).
      destruct (done_spec m3) as (acts & _ & -> & _).
      cbn [m3 emit log]. rewrite <- !app_assoc. eexists. split; [reflexivity|done].
    + exists []. split; [done|done].
Qed.

Lemma handle_log m ev : ∃ acts, log (handle m ev) = log m ++ acts.
Proof.
  destruct ev as [err|err|a p s]; cbn [handle].
  - destruct (gotDependency_log Glyphs err m) as (acts & -> & _). eauto.
  - destruct (gotDependency_log Icons err m) as (acts & -> & _). eauto.
  - destruct (redoPlacement a p s (tile m)) as [[r t'] acts]. eauto.
Qed.

Lemma run_log evs : ∀ m, ∃ acts, log (run m evs) = log m ++ acts.
Proof.
  induction evs as [|ev evs IH]; intros m; cbn [run foldl].
  - exists []. by rewrite app_nil_r.
  - destruct (handle_log m ev) as [acts1 H1].
    destruct (IH (handle m ev)) as [acts2 H2].
    exists (acts1 ++ acts2). unfold run in H2. rewrite H2, H1, app_assoc. done.
Qed.

(** An error answer reaches the callback. *)
Lemma run_error_reported evs : ∀ m dep e,
  (dep = Glyphs ∧ GlyphsResponse (Some e) ∈ evs) ∨
  (dep = Icons ∧ IconsResponse (Some e) ∈ evs) →
  GotDependency dep (Some e) ∈ log (run m evs) ∧
  Callback (Some e) None ∈ log (run m evs).
Proof.
  induction evs as [|ev evs IH]; intros m dep e Hin.
  - destruct Hin as [[_ H]|[_ H]]; by apply elem_of_nil in H.
  - cbn [run foldl].
    assert (Hhere : (dep = Glyphs ∧ ev = GlyphsResponse (Some e)) ∨
                    (dep = Icons ∧ ev = IconsResponse (Some e)) ∨
                    ((dep = Glyphs ∧ GlyphsResponse (Some e) ∈ evs) ∨
                     (dep = Icons ∧ IconsResponse (Some e) ∈ evs))).
    { destruct Hin as [[-> H]|[-> H]]; apply elem_of_cons in H as [<-|H]; auto. }
    destruct Hhere as [[-> ->]|[[-> ->]|Hrest]]; [| |by apply IH].
    + destruct (gotDependency_log Glyphs (Some e) m) as (acts & Hlog & Hacts).
      destruct (run_log evs (handle m (GlyphsResponse (Some e)))) as [rest Hrest].
      unfold run in Hrest. rewrite Hrest. cbn [handle].
      rewrite Hlog, (Hacts e eq_refl).
      split; apply elem_of_app; left; apply elem_of_app; right.
      * by left.
      * right. by left.
    + destruct (gotDependency_log Icons (Some e) m) as (acts & Hlog & Hacts).
      destruct (run_log evs (handle m (IconsResponse (Some e)))) as [rest Hrest].
      unfold run in Hrest. rewrite Hrest. cbn [handle].
      rewrite Hlog, (Hacts e eq_refl).
      split; apply elem_of_app; left; apply elem_of_app; right.
      * by left.
      * right. by left.
Qed.

Lemma symbolsOf_symbols bucketsById :
  Forall (fun b => isSymbol b = true) (symbolsOf bucketsById).
Proof.
  apply Forall_forall. intros b Hb. unfold symbolsOf in Hb.
  by apply list_elem_of_filter in Hb as [Hb _].
Qed.

(** After the synchronous part of a parse with symbol buckets: the glyph
    request is out, the icon request is out or counted as completed, no
    symbol bucket is tessellated and no result is delivered. *)
Lemma parse_invariant bucketsById t evs :
  symbolsOf bucketsById ≠ [] →
  respectsContract (parse bucketsById t) evs →
  Invariant (symbolsOf bucketsById) (parse bucketsById t) evs.
Proof.
  unfold respectsContract, parse, symbolsOf.
  set (nonEmpty := filter (fun b => featureCount b ≠ 0) bucketsById).
  set (symbols := filter (fun b => isSymbol b = true) nonEmpty).
  set (others := filter (fun b => isSymbol b = false) nonEmpty).
  assert (Hothers : symbolPopulates (PopulateBuffers <$> rev others) = []).
  { apply symbolPopulates_others, List.Forall_rev, Forall_forall.
    intros b Hb. by apply list_elem_of_filter in Hb as [Hb _]. }
  intros Hne. destruct symbols as [|s0 symbols'] eqn:Hsym; [done|].
  rewrite !parseBuckets_spec.
  destruct (collectIcons (s0 :: symbols')) as [|i0 icons] eqn:Hicons.
  - (* no icon: [gotDependency()] is called at once *)
    cbn [gotDependency emit tile deps buckets log Nat.eqb].
    unfold sent. intros [HG HI]. revert HG HI.
    count. rewrite !countb_populate by done. cbn [requests]. intros HG HI.
    split; cbn [emit tile deps log symbolBuckets status Nat.eqb].
    + count. rewrite countb_populate by done. lia.
    + count. rewrite countb_populate by done. lia.
    + count. rewrite countb_populate by done. lia.
    + done.
    + apply gated_app; [|by left].
      intros [|? [|? [|? [|? before]]]] b after Heq; done.
    + by rewrite !symbolPopulates_app, Hothers.
    + count. rewrite countb_populate by done. done.
    + done.
  - (* icons: the second request is sent *)
    cbn [emit tile deps buckets log].
    unfold sent. intros [HG HI]. revert HG HI.
    count. rewrite !countb_populate by done. cbn [requests]. intros HG HI.
    split; cbn [emit tile deps log symbolBuckets status Nat.eqb].
    + count. rewrite countb_populate by done. lia.
    + count. rewrite countb_populate by done. lia.
    + count. rewrite countb_populate by done. lia.
    + done.
    + apply gated_app; [|by left].
      intros [|? [|? [|? [|? before]]]] b after Heq; done.
    + by rewrite !symbolPopulates_app, Hothers.
    + count. rewrite countb_populate by done. done.
    + done.
Qed.

Lemma gotDependency_deps dep err m :
  deps (gotDependency dep err m) =
  match err with Some _ => deps m | None => S (deps m) end.
Proof.
  destruct err as [e|]; cbn [gotDependency emit deps tile log buckets]; [done|].
  destruct (S (deps m) =? 2); [|done].
  destruct (done_spec (parseBuckets (symbolBuckets (tile m))
     {| tile := tile m; deps := S (deps m); buckets := buckets m;
        log := log m ++ [GotDependency dep None] |}))
    as (acts & _ & _ & -> & _).
  by rewrite parseBuckets_spec.
Qed.

Lemma run_deps evs : ∀ m, deps (run m evs) = deps m + countb succeeds evs.
Proof.
  induction evs as [|ev evs IH]; intros m; cbn [run foldl].
  - rewrite countb_nil. lia.
  - unfold run in IH. rewrite IH, countb_cons.
    destruct ev as [[e|]|[e|]|a p s]; cbn [handle succeeds];
      rewrite ?gotDependency_deps; try lia.
    destruct (redoPlacement a p s (tile m)) as [[r t'] acts]. cbn. lia.
Qed.

Lemma parse_deps bucketsById t :
  symbolsOf bucketsById ≠ [] →
  deps (parse bucketsById t) = immediateCompletions bucketsById.
Proof.
  unfold parse, immediateCompletions, symbolsOf.
  set (nonEmpty := filter (fun b => featureCount b ≠ 0) bucketsById).
  destruct (filter (fun b => isSymbol b = true) nonEmpty) as [|s0 symbols']; [done|].
  intros _. rewrite !parseBuckets_spec.
  by destruct (collectIcons (s0 :: symbols')).
Qed.

(** With no icon to ask for, [parse] sends no icon request and calls
    [gotDependency()] itself. *)
Lemma parse_without_icons bucketsById t :
  symbolsOf bucketsById ≠ [] →
  collectIcons (symbolsOf bucketsById) = [] →
  sent Icons (log (parse bucketsById t)) = 0 ∧
  GotDependency Icons None ∈ log (parse bucketsById t).
Proof.
  unfold parse, symbolsOf, sent.
  set (nonEmpty := filter (fun b => featureCount b ≠ 0) bucketsById).
  destruct (filter (fun b => isSymbol b = true) nonEmpty) as [|s0 symbols']; [done|].
  intros _ ->. rewrite parseBuckets_spec.
  cbn [gotDependency emit tile deps buckets log Nat.eqb]. split.
  - count. rewrite countb_populate by done. done.
  - apply elem_of_app. left. apply elem_of_app. right. by left.
Qed.

(** In a parse with at least one non-empty symbol bucket, under the
    callback contract of the actor, every [populateBuffers] of a symbol
    bucket comes after the completion of the glyph request and of the icon
    request.  The completions counted are the successful answers plus one
    counted by [parse] itself when no icon is asked for (no icon request is
    sent then); the symbol buckets are tessellated exactly when that count is
    two, and then once each, in reverse order of the list of symbol
    buckets. *)
Lemma parse_gates_symbol_buckets bucketsById t evs :
  symbolsOf bucketsById ≠ [] →
  respectsContract (parse bucketsById t) evs →
  gated (log (run (parse bucketsById t) evs)) ∧
  completions (log (run (parse bucketsById t) evs)) =
    immediateCompletions bucketsById + countb succeeds evs ∧
  completions (log (run (parse bucketsById t) evs)) <= 2 ∧
  symbolPopulates (log (run (parse bucketsById t) evs)) =
    (if completions (log (run (parse bucketsById t) evs)) =? 2
     then rev (symbolsOf bucketsById) else []) ∧
  (collectIcons (symbolsOf bucketsById) = [] →
     sent Icons (log (parse bucketsById t)) = 0 ∧
     GotDependency Icons None ∈ log (parse bucketsById t)).
Proof.
  intros Hne Hcontract.
  pose proof (parse_invariant bucketsById t evs Hne Hcontract) as Hinv0.
  assert (Hinv : Invariant (symbolsOf bucketsById) (run (parse bucketsById t) evs) []).
  { apply run_invariant; [apply symbolsOf_symbols|]. by rewrite app_nil_r. }
  destruct Hinv as [Hg Hi Hd Hs Hgt Hp Hr Hst].
  split; [done|]. rewrite <- Hd. split; [|split; [|split; [done|]]].
  - rewrite run_deps, parse_deps by done. done.
  - rewrite Hd. apply two_completions; lia.
  - by apply parse_without_icons.
Qed.

Lemma countb_in {A} (f : A → bool) a l :
  a ∈ l → f a = true → 0 < countb f l.
Proof.
  intros Hin Hf. apply list_elem_of_split in Hin as (l1 & l2 & ->).
  rewrite countb_app, countb_cons, Hf. lia.
Qed.

Lemma countb_placement (f : Action → bool) acts :
  Forall (fun a => isPlacement a = true) acts →
  (∀ a, isPlacement a = true → f a = false) →
  countb f acts = 0.
Proof.
  intros Hacts Hf. apply countb_zero. intros a Hin.
  apply Hf. by eapply Forall_forall in Hacts.
Qed.

(** A dependency that was answered by an error, and only once, never
    completed. *)
Lemma error_never_completes dep e l :
  GotDependency dep (Some e) ∈ l → gotCount dep l <= 1 →
  countb (isCompleted dep) l = 0.
Proof.
  intros Hin Hcount. apply list_elem_of_split in Hin as (l1 & l2 & ->).
  pose proof (completed_le_got dep l1). pose proof (completed_le_got dep l2).
  revert Hcount. unfold gotCount in *. rewrite !countb_app, !countb_cons.
  unfold isCompleted at 2. cbn [isCompletion isGot andb].
  rewrite bool_decide_eq_true_2 by done. lia.
Qed.

(** Without symbol buckets [parse] sends no request. *)
Lemma parse_sends_nothing bucketsById t dep :
  symbolsOf bucketsById = [] → sent dep (log (parse bucketsById t)) = 0.
Proof.
  unfold parse, symbolsOf, sent.
  set (nonEmpty := filter (fun b => featureCount b ≠ 0) bucketsById).
  intros ->. rewrite parseBuckets_spec. set (m2 := emit _ _).
  destruct (done_spec m2) as (acts & Hacts & -> & _).
  cbn [m2 emit log]. rewrite !countb_app, !countb_cons, !countb_nil.
  rewrite countb_populate by (intros; by destruct dep).
  rewrite (countb_placement _ acts Hacts) by (intros [] ?; by destruct dep).
  by destruct dep.
Qed.

(** C3.  Under the callback contract, if the glyph request or the icon
    request is answered by an error, [parse] calls its callback with that
    error, never calls it with a result, and tessellates no symbol bucket. *)
Theorem dependency_error_fails_the_parse bucketsById t evs e :
  respectsContract (parse bucketsById t) evs →
  GlyphsResponse (Some e) ∈ evs ∨ IconsResponse (Some e) ∈ evs →
  Callback (Some e) None ∈ log (run (parse bucketsById t) evs) ∧
  (∀ result, Callback None (Some result) ∉ log (run (parse bucketsById t) evs)) ∧
  symbolPopulates (log (run (parse bucketsById t) evs)) = [].
Proof.
  intros Hcontract Herr.
  assert (Hdep : ∃ dep, (dep = Glyphs ∧ GlyphsResponse (Some e) ∈ evs) ∨
                        (dep = Icons ∧ IconsResponse (Some e) ∈ evs)).
  { destruct Herr; [exists Glyphs|exists Icons]; auto. }
  destruct Hdep as [dep Hdep].
  destruct (decide (symbolsOf bucketsById = [])) as [Hnone|Hne].
  - (* no request was sent, so nothing can be answered *)
    exfalso. destruct Hcontract as [HG HI].
    rewrite parse_sends_nothing in HG, HI by done.
    destruct Hdep as [[_ Hin]|[_ Hin]].
    + pose proof (countb_in (answers Glyphs) _ _ Hin eq_refl). unfold answered in HG. lia.
    + pose proof (countb_in (answers Icons) _ _ Hin eq_refl). unfold answered in HI. lia.
  - pose proof (parse_invariant bucketsById t evs Hne Hcontract) as Hinv0.
    assert (Hinv : Invariant (symbolsOf bucketsById) (run (parse bucketsById t) evs) []).
    { apply run_invariant; [apply symbolsOf_symbols|]. by rewrite app_nil_r. }
    destruct (run_error_reported evs (parse bucketsById t) dep e Hdep) as [Hgot Hcb].
    split; [done|].
    destruct Hinv as [Hg Hi Hd Hs Hgt Hp Hr Hst].
    assert (Hlow : (deps (run (parse bucketsById t) evs) =? 2) = false).
    { apply Nat.eqb_neq. rewrite Hd, completions_split.
      pose proof (completed_le_got Glyphs (log (run (parse bucketsById t) evs))).
      pose proof (completed_le_got Icons (log (run (parse bucketsById t) evs))).
      assert (countb (isCompleted dep) (log (run (parse bucketsById t) evs)) = 0).
      { apply (error_never_completes dep e); [done|]. destruct dep; lia. }
      destruct dep; lia. }
    rewrite Hlow in Hp, Hr. split; [|done].
    intros result Hin.
    pose proof (countb_in isResult _ _ Hin eq_refl). lia.
Qed.

Lemma dependency_error_fails_the_parse_witness :
  Callback (Some "no glyphs") None ∈
    log (run (parse [labels; roads; shields] fresh)
           [IconsResponse None; GlyphsResponse (Some "no glyphs")]) ∧
  ∀ result, Callback None (Some result) ∉
    log (run (parse [labels; roads; shields] fresh)
           [IconsResponse None; GlyphsResponse (Some "no glyphs")]).
Proof.
  destruct (dependency_error_fails_the_parse [labels; roads; shields] fresh
              [IconsResponse None; GlyphsResponse (Some "no glyphs")] "no glyphs")
    as (H1 & H2 & _).
  - split; vm_compute; lia.
  - left. right. by left.
  - split; [exact H1|exact H2].
Defined.

Lemma collisionTiles_app l l' :
  collisionTiles (l ++ l') = collisionTiles l ++ collisionTiles l'.
Proof. unfold collisionTiles. apply omap_app. Qed.

Lemma placements_app l l' : placements (l ++ l') = placements l ++ placements l'.
Proof. unfold placements. apply omap_app. Qed.

Lemma collisionTiles_populate bs : collisionTiles (PopulateBuffers <$> bs) = [].
Proof. induction bs as [|b bs IH]; [done|exact IH]. Qed.

Lemma placements_populate bs : placements (PopulateBuffers <$> bs) = [].
Proof. induction bs as [|b bs IH]; [done|exact IH]. Qed.

Lemma collisionTiles_place s bs :
  collisionTiles ((fun b => PlaceFeatures b s) <$> bs) = [].
Proof. induction bs as [|b bs IH]; [done|exact IH]. Qed.

Lemma placements_place s bs :
  placements ((fun b => PlaceFeatures b s) <$> bs) = (fun b => (b, s)) <$> bs.
Proof.
  induction bs as [|b bs IH]; [done|].
  unfold placements in *. cbn. by rewrite IH.
Qed.

(** The tile and the log after [gotDependency]. *)
Lemma gotDependency_cases dep err m :
  (tile (gotDependency dep err m) = tile m ∧
   collisionTiles (log (gotDependency dep err m)) = collisionTiles (log m) ∧
   placements (log (gotDependency dep err m)) = placements (log m) ∧
   (err = None → S (deps m) ≠ 2)) ∨
  (err = None ∧ S (deps m) = 2 ∧
   ∃ m3, gotDependency dep err m = done m3 ∧ tile m3 = tile m ∧
         collisionTiles (log m3) = collisionTiles (log m) ∧
         placements (log m3) = placements (log m)).
Proof.
  destruct err as [e|]; cbn [gotDependency emit deps tile log buckets].
  - left. rewrite !collisionTiles_app, !placements_app, !app_nil_r. done.
  - destruct (S (deps m) =? 2) eqn:E.
    + right. apply Nat.eqb_eq in E. split; [done|]. split; [done|].
      eexists. split; [reflexivity|]. rewrite parseBuckets_spec.
      cbn [emit tile log].
      rewrite !collisionTiles_app, !placements_app, collisionTiles_populate,
        placements_populate, !app_nil_r. done.
    + left. apply Nat.eqb_neq in E. cbn [tile log].
      rewrite !collisionTiles_app, !placements_app, !app_nil_r. done.
Qed.

Lemma done_tile m :
  status (tile (done m)) = Done ∧
  pitch (tile (done m)) = pitch (tile m) ∧
  angle (tile (done m)) = angle (tile m) ∧
  redoPlacementAfterDone (tile (done m)) = false.
Proof.
  unfold done, redoPlacement. cbn [redoPlacementAfterDone status angle pitch].
  destruct (redoPlacementAfterDone (tile m)); [|done].
  rewrite bool_decide_eq_false_2 by (intros H; by apply H). done.
Qed.

Lemma handle_tile m ev :
  pitch (tile (handle m ev)) = pitch (tile m) ∧
  (status (tile m) = Done → status (tile (handle m ev)) = Done).
Proof.
  assert (Hgot : ∀ dep err,
    pitch (tile (gotDependency dep err m)) = pitch (tile m) ∧
    (status (tile m) = Done → status (tile (gotDependency dep err m)) = Done)).
  { intros dep err.
    destruct (gotDependency_cases dep err m)
      as [(-> & _)|(_ & _ & m3 & -> & <- & _)]; [done|].
    destruct (done_tile m3) as (? & ? & _). done. }
  destruct ev as [err|err|a p s]; cbn [handle]; [apply Hgot..|].
  unfold redoPlacement. by destruct (bool_decide (status (tile m) ≠ Done)).
Qed.

Lemma run_tile evs : ∀ m,
  pitch (tile (run m evs)) = pitch (tile m) ∧
  (status (tile m) = Done → status (tile (run m evs)) = Done).
Proof.
  induction evs as [|ev evs IH]; intros m; [done|]. cbn [run foldl].
  destruct (handle_tile m ev) as [Hp Hs].
  destruct (IH (handle m ev)) as [Hp' Hs']. unfold run in *.
  rewrite Hp', Hp. auto.
Qed.

Lemma parse_tile bucketsById t :
  pitch (tile (parse bucketsById t)) = pitch t ∧
  (symbolsOf bucketsById = [] → status (tile (parse bucketsById t)) = Done).
Proof.
  unfold parse, symbolsOf.
  set (nonEmpty := filter (fun b => featureCount b ≠ 0) bucketsById).
  destruct (filter (fun b => isSymbol b = true) nonEmpty) as [|s0 symbols'].
  - rewrite parseBuckets_spec. set (m2 := emit _ _).
    destruct (done_tile m2) as (-> & -> & _). done.
  - rewrite parseBuckets_spec. split; [|done].
    destruct (collectIcons (s0 :: symbols')); done.
Qed.

Lemma no_more_events symbols m evs :
  Invariant symbols m evs → deps m = 2 →
  Forall (fun ev => isRedoRequest ev = false) evs → evs = [].
Proof.
  intros [Hg Hi Hd _ _ _ _ _] H2 Hnoredo.
  rewrite Hd, completions_split in H2.
  pose proof (completed_le_got Glyphs (log m)).
  pose proof (completed_le_got Icons (log m)).
  destruct evs as [|ev evs]; [done|]. exfalso.
  apply Forall_cons in Hnoredo as [Hev _].
  rewrite answered_cons in Hg, Hi.
  destruct ev; cbn [answers isRedoRequest] in *; try done; lia.
Qed.

(** A deferred placement runs when, and only when, the parse completes: once,
    at the stored angle and the pitch of the tile, on the symbol buckets in
    reverse order, with [null] for the debug flag. *)
Lemma deferred_run symbols a p0 tiles placed : ∀ evs m,
  Forall (fun b => isSymbol b = true) symbols →
  Forall (fun ev => isRedoRequest ev = false) evs →
  Invariant symbols m evs →
  status (tile m) ≠ Done →
  redoPlacementAfterDone (tile m) = true →
  angle (tile m) = a → pitch (tile m) = p0 →
  collisionTiles (log m) = tiles → placements (log m) = placed →
  (status (tile (run m evs)) = Done →
     collisionTiles (log (run m evs)) = tiles ++ [(a, p0)] ∧
     placements (log (run m evs)) = placed ++ ((fun b => (b, None)) <$> rev symbols) ∧
     redoPlacementAfterDone (tile (run m evs)) = false) ∧
  (status (tile (run m evs)) ≠ Done →
     collisionTiles (log (run m evs)) = tiles ∧
     placements (log (run m evs)) = placed ∧
     redoPlacementAfterDone (tile (run m evs)) = true ∧
     angle (tile (run m evs)) = a).
Proof.
  induction evs as [|ev evs IH];
    intros m Hsym Hnoredo Hinv Hstat Hflag Hangle Hpitch Htiles Hplaced.
  - cbn [run foldl]. split; [done|]. intros _. done.
  - cbn [run foldl].
    pose proof (handle_step symbols m ev evs Hsym Hinv) as Hinv'.
    apply Forall_cons in Hnoredo as [Hev Hnoredo].
    assert (Hgot : ∃ dep err, handle m ev = gotDependency dep err m).
    { destruct ev; try done; cbn [handle]; eauto. }
    destruct Hgot as (dep & err & Hh). rewrite Hh in *.
    destruct (gotDependency_cases dep err m)
      as [(Ht & Hc & Hpl & _)|(_ & H2 & m3 & Hm3 & Ht3 & Hc3 & Hpl3)].
    + (* not the last completion: nothing changes *)
      apply IH; try done; congruence.
    + (* the last completion: [done()] runs the deferred placement *)
      assert (Hdeps : deps (gotDependency dep err m) = 2).
      { rewrite Hm3. destruct (done_spec m3) as (_ & _ & _ & -> & _).
        rewrite Hm3 in Hinv'. pose proof (inv_status _ _ _ Hinv') as Hs.
        destruct (done_tile m3) as (Hd & _). rewrite Hd in Hs.
        destruct (done_spec m3) as (_ & _ & _ & Hdd & _). rewrite Hdd in Hs.
        destruct (deps m3 =? 2) eqn:E; [by apply Nat.eqb_eq|done]. }
      rewrite (no_more_events symbols _ evs Hinv' Hdeps Hnoredo).
      cbn [foldl]. rewrite Hm3.
      destruct (done_spec m3)
        as (acts & _ & Hlog & _ & _ & Hdone & _ & Hclear & _ & Hacts).
      rewrite Ht3 in Hacts. specialize (Hacts Hflag). subst acts.
      split; [|by rewrite Hdone].
      intros _. rewrite Hlog, Hclear.
      rewrite !collisionTiles_app, !placements_app, Hc3, Hpl3.
      cbn [collisionTiles placements omap list_omap app].
      fold (collisionTiles ((fun b => PlaceFeatures b None) <$> rev (symbolBuckets (tile m)))).
      fold (placements ((fun b => PlaceFeatures b None) <$> rev (symbolBuckets (tile m)))).
      rewrite collisionTiles_place, placements_place.
      rewrite (inv_symbols _ _ _ Hinv), Htiles, Hplaced, Hangle, Hpitch.
      cbn. rewrite !app_nil_r. done.
Qed.

Lemma redoPlacement_not_done a p s t :
  status t ≠ Done →
  redoPlacement a p s t =
    (EmptyResult,
     {| status := status t; angle := a; pitch := pitch t;
        redoPlacementAfterDone := true; symbolBuckets := symbolBuckets t |},
     []).
Proof. intros H. unfold redoPlacement. by rewrite bool_decide_eq_true_2. Qed.

(** C4.  On a tile whose status is not ['done'], [redoPlacement] returns the
    empty result, stores the angle, sets the pending flag, and has no effect:
    no collision structure, no bucket touched.  When [done()] finds the flag
    set it runs the placement at the stored angle and clears the flag.  In a
    parse, a request that arrives before completion has no effect of its own;
    if the parse then completes, exactly one more collision structure is
    built, at the requested angle and the pitch of the tile, the symbol
    buckets are placed once each in reverse order, and the flag is clear. *)
Theorem redoPlacement_deferred_until_done :
  (∀ t a p s,
     status t ≠ Done →
     redoPlacement a p s t =
       (EmptyResult,
        {| status := status t; angle := a; pitch := pitch t;
           redoPlacementAfterDone := true; symbolBuckets := symbolBuckets t |},
        [])) ∧
  (∀ m,
     redoPlacementAfterDone (tile m) = true →
     log (done m) =
       log m ++
       (NewCollisionTile (angle (tile m)) (pitch (tile m)) ::
          ((fun b => PlaceFeatures b None) <$> rev (symbolBuckets (tile m)))) ++
       [Callback None (Some (serialized (buckets m)))] ∧
     status (tile (done m)) = Done ∧
     redoPlacementAfterDone (tile (done m)) = false) ∧
  (∀ bucketsById t evs a p s evs',
     respectsContract (parse bucketsById t)
       (evs ++ RedoPlacementRequest a p s :: evs') →
     status (tile (run (parse bucketsById t) evs)) ≠ Done →
     Forall (fun ev => isRedoRequest ev = false) evs' →
     log (handle (run (parse bucketsById t) evs) (RedoPlacementRequest a p s)) =
       log (run (parse bucketsById t) evs) ∧
     (status (tile (run (run (parse bucketsById t) evs)
                        (RedoPlacementRequest a p s :: evs'))) = Done →
      collisionTiles (log (run (run (parse bucketsById t) evs)
                             (RedoPlacementRequest a p s :: evs'))) =
        collisionTiles (log (run (parse bucketsById t) evs)) ++ [(a, pitch t)] ∧
      placements (log (run (run (parse bucketsById t) evs)
                         (RedoPlacementRequest a p s :: evs'))) =
        placements (log (run (parse bucketsById t) evs)) ++
        ((fun b => (b, None)) <$> rev (symbolsOf bucketsById)) ∧
      redoPlacementAfterDone
        (tile (run (run (parse bucketsById t) evs)
                 (RedoPlacementRequest a p s :: evs'))) = false)).
Proof.
  split; [|split].
  - intros t a p s. apply redoPlacement_not_done.
  - intros m Hflag.
    destruct (done_spec m) as (acts & _ & Hlog & _ & _ & Hdone & _ & Hclear & _ & Hacts).
    rewrite Hlog, (Hacts Hflag). done.
  - intros bucketsById t evs a p s evs' Hcontract Hstat Hnoredo.
    set (before := run (parse bucketsById t) evs) in *.
    assert (Hlog : log (handle before (RedoPlacementRequest a p s)) = log before).
    { cbn [handle]. rewrite redoPlacement_not_done by done.
      cbn [emit withTile log]. apply app_nil_r. }
    split; [exact Hlog|].
    destruct (decide (symbolsOf bucketsById = [])) as [Hnone|Hne].
    { exfalso. apply Hstat. unfold before. apply run_tile.
      by apply parse_tile. }
    pose proof (parse_invariant bucketsById t _ Hne Hcontract) as Hinv0.
    pose proof (symbolsOf_symbols bucketsById) as Hsym.
    pose proof (run_invariant _ _ evs _ Hsym Hinv0) as Hinv1. fold before in Hinv1.
    pose proof (handle_step _ _ _ _ Hsym Hinv1) as Hinv2.
    cbn [run foldl].
    destruct (deferred_run (symbolsOf bucketsById) a (pitch t)
                (collisionTiles (log before)) (placements (log before)) evs'
                (handle before (RedoPlacementRequest a p s)))
      as [Hdone _]; try done.
    + cbn [handle]. rewrite redoPlacement_not_done by done. done.
    + cbn [handle]. rewrite redoPlacement_not_done by done. done.
    + cbn [handle]. rewrite redoPlacement_not_done by done. done.
    + cbn [handle]. rewrite redoPlacement_not_done by done.
      cbn [withTile emit tile pitch]. unfold before.
      destruct (run_tile evs (parse bucketsById t)) as [-> _].
      apply parse_tile.
    + by rewrite Hlog.
    + by rewrite Hlog.
Qed.

Lemma redoPlacement_deferred_until_done_witness :
  redoPlacement 1 2 (Some true) (tile (parse [labels; roads] fresh)) =
    (EmptyResult, mkTile Parsing 1 0 true [labels], []) ∧
  collisionTiles
    (log (run (run (parse [labels; roads] fresh) [])
            [RedoPlacementRequest 1 2 (Some true); GlyphsResponse None])) =
    [(0%Q, 0%Q); (1%Q, 0%Q)].
Proof.
  split.
  - apply (proj1 redoPlacement_deferred_until_done). done.
  - destruct (proj2 (proj2 redoPlacement_deferred_until_done)
                [labels; roads] fresh [] 1%Q 2%Q (Some true) [GlyphsResponse None])
      as [_ H].
    + split; vm_compute; lia.
    + done.
    + repeat constructor.
    + destruct H as (-> & _); reflexivity.
Defined.
End WorkerTileFacts.

(** ** Feature tree serialisation *)

Section FeatureTreeFacts.
Import FeatureTree.

Context (W : World).

Lemma matchLayers_ext (t1 t2 : Tree W) feature layerIDs :
  tx W t1 = tx W t2 → ty W t1 = ty W t2 → tz W t1 = tz W t2 →
  ∀ geometry queryGeometry filterLayerIDs styleLayers bearing p2t result,
    matchLayers W t1 feature layerIDs geometry queryGeometry filterLayerIDs
      styleLayers bearing p2t result =
    matchLayers W t2 feature layerIDs geometry queryGeometry filterLayerIDs
      styleLayers bearing p2t result.
Proof.
  intros Hx Hy Hz.
  induction layerIDs as [|layerID rest IH]; intros; [done|].
  cbn [matchLayers]. rewrite Hx, Hy, Hz.
  repeat (case_match; rewrite ?IH; try done).
Qed.

Lemma filterMatching_ext (t1 t2 : Tree W) layers matching :
  tx W t1 = tx W t2 → ty W t1 = ty W t2 → tz W t1 = tz W t2 →
  bucketLayerIDs W t1 = bucketLayerIDs W t2 →
  ∀ result previousIndex array queryGeometry filter filterLayerIDs styleLayers
    bearing p2t,
    filterMatching W t1 layers result matching previousIndex array queryGeometry
      filter filterLayerIDs styleLayers bearing p2t =
    filterMatching W t2 layers result matching previousIndex array queryGeometry
      filter filterLayerIDs styleLayers bearing p2t.
Proof.
  intros Hx Hy Hz Hids.
  induction matching as [|index rest IH]; intros; [done|].
  cbn [filterMatching]. rewrite Hids.
  destruct (bool_decide (previousIndex = Some index)); [apply IH|].
  destruct (array index) as [match_|]; [|done]. cbn [mbind option_bind].
  destruct (bucketLayerIDs W t2) as [ids|]; [|done]. cbn [mbind option_bind].
  destruct (match filterLayerIDs with
            | Some f => negb <$> arraysIntersect f (ids !! bucketIndex match_)
            | None => Some false
            end) as [[|]|]; cbn [mbind option_bind]; [apply IH| |done].
  destruct (at_ (layerNames W layers) (sourceLayerIndex match_)) as [name|];
    [|done]. cbn [mbind option_bind].
  destruct (layerOf W layers name) as [layer|]; [|done]. cbn [mbind option_bind].
  destruct (featureOf W layer (featureIndex match_)) as [feature|]; [|done].
  cbn [mbind option_bind].
  destruct (negb (filter feature)); [apply IH|].
  destruct (ids !! bucketIndex match_) as [layerIDs|]; [|done].
  cbn [mbind option_bind].
  rewrite (matchLayers_ext t1 t2) by done. apply IH.
Qed.

(** Trees that look the same answer a query the same, and still look the
    same afterwards. *)
Lemma query_sameView (t t' : Tree W) args styleLayers :
  sameView W t t' →
  (query W args styleLayers t).1 = (query W args styleLayers t').1 ∧
  sameView W (query W args styleLayers t).2 (query W args styleLayers t').2.
Proof.
  intros [Hc Ho Hx Hy Hz Hg Hi Hr Hids Hct Hcache Hcache'].
  assert (Hdec : match vtLayers W t with
                 | Some layers => Some layers
                 | None => decodeTile W (rawTileData W t)
                 end = decodeTile W (rawTileData W t)).
  { unfold cacheFaithful in Hcache. by destruct (vtLayers W t). }
  assert (Hdec' : match vtLayers W t' with
                  | Some layers => Some layers
                  | None => decodeTile W (rawTileData W t')
                  end = decodeTile W (rawTileData W t)).
  { unfold cacheFaithful in Hcache'. rewrite <- Hr in *. by destruct (vtLayers W t'). }
  unfold query. rewrite Hdec, Hdec'.
  destruct (decodeTile W (rawTileData W t)) as [layers|] eqn:Hlayers.
  - destruct (boundingBox (queryGeometry W args)) as [[[minX minY] maxX] maxY].
    cbn [fst snd]. split.
    + rewrite !Hg, Hi, Hct.
      set (t1 := mkTree W _ _ _ _ _ (grid W t) _ _ _ _ _).
      set (t2 := mkTree W _ _ _ _ _ (grid W t') _ _ _ _ _).
      assert (Hext : ∀ result matching array,
        filterMatching W t1 layers result matching None array
          (queryGeometry W args) (featureFilter W (filterParam W args))
          (layersParam W args) styleLayers (bearing W args)
          (inject_Z Bucket.EXTENT / tileSize W args / scale W args) =
        filterMatching W t2 layers result matching None array
          (queryGeometry W args) (featureFilter W (filterParam W args))
          (layersParam W args) styleLayers (bearing W args)
          (inject_Z Bucket.EXTENT / tileSize W args / scale W args)).
      { intros. apply filterMatching_ext; done. }
      rewrite Hext. destruct (filterMatching W t2 _ _ _ _ _ _ _ _ _ _ _); [|done].
      cbn [mbind option_bind]. destruct (collisionTile W t'); [|done].
      cbn [mbind option_bind]. apply Hext.
    + split; cbn; try done. by rewrite <- Hr.
  - cbn [fst snd]. split; [done|]. by split.
Qed.

Lemma queries_sameView qs : ∀ t t' : Tree W,
  sameView W t t' → queries W qs t = queries W qs t'.
Proof.
  induction qs as [|[args styleLayers] qs IH]; intros t t' Hview; [done|].
  cbn [queries].
  destruct (query_sameView t t' args styleLayers Hview) as [Hres Hview'].
  destruct (query W args styleLayers t) as [r t1].
  destruct (query W args styleLayers t') as [r' t1'].
  cbn [fst snd] in *. subst r'. f_equal. by apply IH.
Qed.

(** Without a collision tile every query raises, whatever else the tree
    holds. *)
Lemma query_without_collisionTile (t : Tree W) args styleLayers :
  collisionTile W t = None → (query W args styleLayers t).1 = None.
Proof.
  intros Hct. unfold query.
  destruct (match vtLayers W t with
            | Some layers => Some layers
            | None => decodeTile W (rawTileData W t)
            end) as [layers|]; [|done].
  destruct (boundingBox (queryGeometry W args)) as [[[minX minY] maxX] maxY].
  cbn [fst]. rewrite Hct.
  by destruct (filterMatching W _ _ _ _ _ _ _ _ _ _ _ _).
Qed.


Lemma create_wellFormed c o ct : wellFormed W (create W c o ct).
Proof. by repeat split. Qed.

Lemma insert_wellFormed f i j k (t : Tree W) :
  wellFormed W t → wellFormed W (insert W f i j k t).
Proof. intros (? & ? & ? & ?). by repeat split. Qed.

Lemma populate_wellFormed inserts : ∀ t : Tree W,
  wellFormed W t → wellFormed W (populate W inserts t).
Proof.
  induction inserts as [|i inserts IH]; intros t Ht; [done|].
  cbn [populate foldl]. apply IH. by apply insert_wellFormed.
Qed.

(** Modelled from the spec: [Grid] (util/grid) and [StructArray]
    (util/struct_array) are not among the sources; of their serialisation the
    specification says that grid and feature-index-record contents are
    preserved exactly.  A grid rebuilt from its array buffer answers every
    query as the grid did, and a record array rebuilt from its serialised
    form holds the same records. *)
Hypothesis grid_roundtrip : ∀ g x0 y0 x1 y1,
  gridQuery W x0 y0 x1 y1 (gridFromArrayBuffer W (gridToArrayBuffer W g)) =
  gridQuery W x0 y0 x1 y1 g.

Hypothesis index_roundtrip : ∀ a, indexDeserialize W (indexSerialize W a) = a.

Lemma roundtrip_sameView (t : Tree W) :
  wellFormed W t →
  sameView W (fromSerialized W (serialize W t) (rawTileData W t) (collisionTile W t)) t.
Proof.
  intros (Hx & Hy & Hz & Hcache).
  split; cbn [fromSerialized serialize coord overscaling tx ty tz grid
              featureIndexArray rawTileData bucketLayerIDs collisionTile
              s_coord s_overscaling s_grid s_featureIndexArray s_bucketLayerIDs];
    try reflexivity.
  - symmetry. exact Hx.
  - symmetry. exact Hy.
  - symmetry. exact Hz.
  - intros. apply grid_roundtrip.
  - apply index_roundtrip.
  - exact Hcache.
Qed.

(** C8, as amended.  For a tree whose derived fields are those of its
    constructor (every tree populated by [insert] calls is such a tree),
    serialising it and constructing a tree from the serialised data, the raw
    tile bytes of the original and the collision tile of the original gives a
    tree with the same feature-index records, the same answers of the grid,
    the same bucket layer ids, and the same results for every sequence of
    queries. *)
Theorem serialized_tree_answers_queries_alike :
  (∀ t : Tree W,
     wellFormed W t →
     featureIndexArray W
       (fromSerialized W (serialize W t) (rawTileData W t) (collisionTile W t)) =
       featureIndexArray W t ∧
     (∀ x0 y0 x1 y1,
        gridQuery W x0 y0 x1 y1
          (grid W (fromSerialized W (serialize W t) (rawTileData W t)
                     (collisionTile W t))) =
        gridQuery W x0 y0 x1 y1 (grid W t)) ∧
     bucketLayerIDs W
       (fromSerialized W (serialize W t) (rawTileData W t) (collisionTile W t)) =
       bucketLayerIDs W t ∧
     ∀ qs,
       queries W qs
         (fromSerialized W (serialize W t) (rawTileData W t) (collisionTile W t)) =
       queries W qs t) ∧
  (∀ c o ct inserts, wellFormed W (populate W inserts (create W c o ct))).
Proof.
  split.
  - intros t Ht. pose proof (roundtrip_sameView t Ht) as Hview.
    split; [apply (view_index _ _ _ Hview)|].
    split; [apply (view_grid _ _ _ Hview)|].
    split; [apply (view_ids _ _ _ Hview)|].
    intros qs. by apply queries_sameView.
  - intros. apply populate_wellFormed, create_wellFormed.
Qed.

End FeatureTreeFacts.

Lemma serialized_tree_answers_queries_alike_witness :
  FeatureTree.queries FeatureTree.listWorld
    [(FeatureTree.aroundPoi, FeatureTree.circleLayers)]
    (FeatureTree.fromSerialized FeatureTree.listWorld
       (FeatureTree.serialize FeatureTree.listWorld FeatureTree.poiTree)
       (Some FeatureTree.poiTile) (Some tt)) =
  FeatureTree.queries FeatureTree.listWorld
    [(FeatureTree.aroundPoi, FeatureTree.circleLayers)]
    FeatureTree.poiTree.
Proof.
  apply (proj1 (serialized_tree_answers_queries_alike FeatureTree.listWorld
                  (fun _ _ _ _ _ => eq_refl) (fun _ => eq_refl))
               FeatureTree.poiTree).
  by repeat split.
Defined.

(** C8 as stated fails: the collision tile is not in the serialised data.
    The tree [poiTree] answers the query [aroundPoi] with a result; the tree
    constructed from its serialised data and the raw tile bytes alone raises
    on the same query. *)
Lemma serialized_tree_lacks_collisionTile :
  is_Some (FeatureTree.query FeatureTree.listWorld FeatureTree.aroundPoi
             FeatureTree.circleLayers FeatureTree.poiTree).1 ∧
  (FeatureTree.query FeatureTree.listWorld FeatureTree.aroundPoi
     FeatureTree.circleLayers
     (FeatureTree.fromSerialized FeatureTree.listWorld
        (FeatureTree.serialize FeatureTree.listWorld FeatureTree.poiTree)
        (Some FeatureTree.poiTile) None)).1 = None ∧
  (FeatureTree.query FeatureTree.listWorld FeatureTree.aroundPoi
     FeatureTree.circleLayers
     (FeatureTree.fromSerialized FeatureTree.listWorld
        (FeatureTree.serialize FeatureTree.listWorld FeatureTree.poiTree)
        (Some FeatureTree.poiTile) None)).1 ≠
  (FeatureTree.query FeatureTree.listWorld FeatureTree.aroundPoi
     FeatureTree.circleLayers FeatureTree.poiTree).1.
Proof.
  assert (H1 : is_Some (FeatureTree.query FeatureTree.listWorld FeatureTree.aroundPoi
             FeatureTree.circleLayers FeatureTree.poiTree).1).
  { vm_compute. eauto. }
  assert (H2 : (FeatureTree.query FeatureTree.listWorld FeatureTree.aroundPoi
     FeatureTree.circleLayers
     (FeatureTree.fromSerialized FeatureTree.listWorld
        (FeatureTree.serialize FeatureTree.listWorld FeatureTree.poiTree)
        (Some FeatureTree.poiTile) None)).1 = None).
  { by apply query_without_collisionTile. }
  split; [exact H1|]. split; [exact H2|].
  rewrite H2. destruct H1 as [r ->]. discriminate.
Qed.

(** ** Narrow-phase geometry: segments, rings and buffered lines *)

Section SegmentFacts.
Import Geometry Shapes.
Local Open Scope Q_scope.

Lemma Qltb_proper a b a' b' : a == a' → b == b' → Qltb a b = Qltb a' b'.
Proof.
  intros Ha Hb. destruct (Qltb a' b') eqn:E.
  - apply Qltb_lt. apply Qltb_lt in E. lra.
  - apply Qltb_ge. apply Qltb_ge in E. lra.
Qed.

(** [isCounterClockwise a b c] is the sign test [0 < orient a b c]. *)
Lemma isCounterClockwise_orient a b c :
  isCounterClockwise a b c = Qltb 0 (orient a b c).
Proof.
  unfold isCounterClockwise, orient.
  destruct (Qltb 0 _) eqn:E.
  - apply Qltb_lt. apply Qltb_lt in E. lra.
  - apply Qltb_ge. apply Qltb_ge in E. lra.
Qed.

Lemma orient_rotate a b c : orient a b c == orient b c a.
Proof. unfold orient. ring. Qed.

Lemma isCounterClockwise_rotate a b c :
  isCounterClockwise a b c = isCounterClockwise b c a.
Proof.
  rewrite !isCounterClockwise_orient. apply Qltb_proper; [reflexivity|].
  apply orient_rotate.
Qed.

Lemma lineSegmentIntersectsLineSegment_swap a0 a1 b0 b1 :
  lineSegmentIntersectsLineSegment a0 a1 b0 b1 =
  lineSegmentIntersectsLineSegment b0 b1 a0 a1.
Proof.
  unfold lineSegmentIntersectsLineSegment.
  rewrite (isCounterClockwise_rotate a0 b0 b1), (isCounterClockwise_rotate a1 b0 b1).
  rewrite (isCounterClockwise_rotate b0 a0 a1), (isCounterClockwise_rotate b1 a0 a1).
  apply andb_comm.
Qed.

(** The sides differ: one value is positive, the other is not. *)
Lemma sides_differ u v :
  negb (eqb (Qltb 0 u) (Qltb 0 v)) = true ↔
  (0 < u ∧ v <= 0) ∨ (0 < v ∧ u <= 0).
Proof.
  destruct (Qltb 0 u) eqn:Eu, (Qltb 0 v) eqn:Ev; simpl;
    try apply Qltb_lt in Eu; try apply Qltb_lt in Ev;
    try apply Qltb_ge in Eu; try apply Qltb_ge in Ev.
  - split; [done|]. intros [[? ?]|[? ?]]; lra.
  - split; [auto|done].
  - split; [auto|done].
  - split; [done|]. intros [[? ?]|[? ?]]; lra.
Qed.

Lemma fraction_bounds u v :
  (0 < u ∧ v <= 0) ∨ (0 < v ∧ u <= 0) →
  ¬ u - v == 0 ∧ 0 <= u / (u - v) ∧ u / (u - v) <= 1.
Proof.
  intros [[Hu Hv]|[Hv Hu]].
  - split; [lra|]. split.
    + apply Qle_shift_div_l; lra.
    + apply Qle_shift_div_r; lra.
  - assert (Heq : u / (u - v) == (- u) / (v - u)) by (field; lra).
    split; [lra|]. rewrite Heq. split.
    + apply Qle_shift_div_l; lra.
    + apply Qle_shift_div_r; lra.
Qed.

Lemma lineSegmentIntersectsLineSegment_meet a0 a1 b0 b1 :
  lineSegmentIntersectsLineSegment a0 a1 b0 b1 = true →
  ∃ q, onSegment a0 a1 q ∧ onSegment b0 b1 q.
Proof.
  unfold lineSegmentIntersectsLineSegment.
  rewrite !isCounterClockwise_orient, andb_true_iff, !sides_differ.
  intros [Ha Hb].
  apply fraction_bounds in Ha as (Hna & Hs0 & Hs1).
  apply fraction_bounds in Hb as (Hnb & Ht0 & Ht1).
  set (s := orient a0 b0 b1 / (orient a0 b0 b1 - orient a1 b0 b1)) in *.
  set (t := orient a0 a1 b0 / (orient a0 a1 b0 - orient a0 a1 b1)) in *.
  exists (along a0 a1 s). split.
  - exists s. unfold along. cbn [x y]. repeat split; try done; reflexivity.
  - exists t. unfold along. cbn [x y]. split; [done|]. split; [done|].
    unfold s, t, orient in *. split; field; split; done.
Qed.


Lemma orient_difference a0 a1 b0 b1 :
  orient a0 b0 b1 - orient a1 b0 b1 ==
  (x a1 - x a0) * (y b1 - y b0) - (y a1 - y a0) * (x b1 - x b0).
Proof. unfold orient. ring. Qed.

Lemma lineSegmentIntersectsLineSegment_parallel a0 a1 b0 b1 :
  parallel a0 a1 b0 b1 → lineSegmentIntersectsLineSegment a0 a1 b0 b1 = false.
Proof.
  unfold parallel. intros Hpar.
  unfold lineSegmentIntersectsLineSegment.
  rewrite (isCounterClockwise_orient a0 b0 b1), (isCounterClockwise_orient a1 b0 b1).
  rewrite (Qltb_proper 0 (orient a0 b0 b1) 0 (orient a1 b0 b1)); [|reflexivity|].
  - by rewrite eqb_reflx.
  - pose proof (orient_difference a0 a1 b0 b1). lra.
Qed.

(** A value that a convex combination with weights in (0, 1) takes to zero
    lies strictly on the other side of zero than its partner, unless both
    are zero. *)
Lemma opposite_signs u v s :
  0 < s → s < 1 → ¬ u - v == 0 → (1 - s) * u + s * v == 0 →
  (0 < u ∧ v <= 0) ∨ (0 < v ∧ u <= 0).
Proof.
  intros Hs0 Hs1 Hne Hz.
  destruct (Qlt_le_dec 0 u) as [Hu|Hu].
  - left. split; [done|]. apply Qnot_lt_le. intros Hv.
    assert (0 < (1 - s) * u) by (apply Qmult_lt_0_compat; lra).
    assert (0 < s * v) by (apply Qmult_lt_0_compat; lra). lra.
  - right. split; [|done]. apply Qnot_le_lt. intros Hv.
    assert (0 <= (1 - s) * (- u)) by (apply Qmult_le_0_compat; lra).
    assert (0 <= s * (- v)) by (apply Qmult_le_0_compat; lra).
    assert (Hsv : s * v == 0) by lra.
    assert (Hsu : (1 - s) * u == 0) by lra.
    destruct (Qmult_integral _ _ Hsv) as [?|Hv0]; [lra|].
    destruct (Qmult_integral _ _ Hsu) as [?|Hu0]; [lra|].
    apply Hne. lra.
Qed.

Lemma lineSegmentIntersectsLineSegment_crossing a0 a1 b0 b1 s t :
  0 < s → s < 1 → 0 < t → t < 1 →
  ¬ parallel a0 a1 b0 b1 →
  samePoint (along a0 a1 s) (along b0 b1 t) →
  lineSegmentIntersectsLineSegment a0 a1 b0 b1 = true.
Proof.
  unfold parallel, samePoint, along. cbn [x y].
  intros Hs0 Hs1 Ht0 Ht1 Hnp [Hx Hy].
  unfold lineSegmentIntersectsLineSegment.
  rewrite !isCounterClockwise_orient, andb_true_iff, !sides_differ. split.
  - apply (opposite_signs _ _ s); try done.
    + rewrite orient_difference. lra.
    + assert (Haff : (1 - s) * orient a0 b0 b1 + s * orient a1 b0 b1 ==
                     orient (along a0 a1 s) b0 b1)
        by (unfold orient, along; cbn [x y]; ring).
      rewrite Haff. unfold orient, along. cbn [x y]. rewrite Hx, Hy. ring.
  - apply (opposite_signs _ _ t); try done.
    + unfold orient. intros H. apply Hnp. lra.
    + assert (Haff : (1 - t) * orient a0 a1 b0 + t * orient a0 a1 b1 ==
                     orient a0 a1 (along b0 b1 t))
        by (unfold orient, along; cbn [x y]; ring).
      rewrite Haff. unfold orient, along. cbn [x y]. rewrite <- Hx, <- Hy. ring.
Qed.

End SegmentFacts.

Section LineFacts.
Import Geometry Shapes.
Local Open Scope Q_scope.

Lemma bool_eq_true_iff (a b : bool) : (a = true ↔ b = true) → a = b.
Proof. destruct a, b; intros [H1 H2]; auto; symmetry; auto. Qed.

Lemma existsb_elem_of {A} (f : A → bool) (l : list A) :
  existsb f l = true ↔ ∃ a, a ∈ l ∧ f a = true.
Proof.
  rewrite existsb_exists. split; intros (a & Hin & Hf); exists a;
    (split; [by apply list_elem_of_In|done]).
Qed.

Lemma segments_segmentOf line v w :
  (v, w) ∈ segments line ↔ segmentOf line v w.
Proof.
  induction line as [|u line IH].
  - split; [by intros ?%elem_of_nil|]. by intros ([|i] & ? & ?).
  - rewrite segmentOf_cons. destruct line as [|u' line].
    + split; [by intros ?%elem_of_nil|].
      intros [[_ ?]|([|i] & ? & ?)]; done.
    + change (segments (u :: u' :: line)) with ((u, u') :: segments (u' :: line)).
      rewrite elem_of_cons, IH. split.
      * intros [[= -> ->]|H]; [left|right]; done.
      * intros [[-> [= ->]]|H]; [left|right]; done.
Qed.

Lemma lineIntersectsLine_segments lineA lineB :
  lineIntersectsLine lineA lineB = true ↔
  ∃ a0 a1 b0 b1, segmentOf lineA a0 a1 ∧ segmentOf lineB b0 b1 ∧
                 lineSegmentIntersectsLineSegment a0 a1 b0 b1 = true.
Proof.
  unfold lineIntersectsLine. rewrite existsb_elem_of. split.
  - intros ([a0 a1] & Ha & Hb). apply existsb_elem_of in Hb as ([b0 b1] & Hb & H).
    exists a0, a1, b0, b1. by rewrite <- !segments_segmentOf.
  - intros (a0 & a1 & b0 & b1 & Ha & Hb & H). exists (a0, a1).
    split; [by apply segments_segmentOf|]. apply existsb_elem_of.
    exists (b0, b1). split; [by apply segments_segmentOf|done].
Qed.

Lemma lineIntersectsLine_swap lineA lineB :
  lineIntersectsLine lineA lineB = lineIntersectsLine lineB lineA.
Proof.
  apply bool_eq_true_iff. rewrite !lineIntersectsLine_segments.
  split; intros (a0 & a1 & b0 & b1 & Ha & Hb & H); exists b0, b1, a0, a1;
    (split; [done|]; split; [done|]);
    by rewrite lineSegmentIntersectsLineSegment_swap.
Qed.

Lemma segmentOf_length line v w : segmentOf line v w → (1 < length line)%nat.
Proof.
  intros (i & Hv & Hw). apply lookup_lt_Some in Hw. lia.
Qed.

End LineFacts.

Section RingFacts.
Import Geometry Shapes.
Local Open Scope Q_scope.

(** The parity carried through a ring only accumulates: starting from [c]
    is starting from [false] and flipping by [c]. *)
Lemma crossings_xorb p ring : ∀ prev c,
  crossings p prev ring c = xorb c (crossings p prev ring false).
Proof.
  induction ring as [|p1 ring IH]; intros prev c; cbn [crossings].
  - by destruct c.
  - rewrite (IH p1 (if edgeCrosses p p1 prev then negb c else c)).
    rewrite (IH p1 (if edgeCrosses p p1 prev then negb false else false)).
    destruct (edgeCrosses p p1 prev), c, (crossings p p1 ring false); done.
Qed.

Lemma ringCrossings_xorb p ring c :
  ringCrossings p ring c = xorb c (polygonContainsPoint ring p).
Proof.
  unfold polygonContainsPoint, ringCrossings. destruct (last ring).
  - apply crossings_xorb.
  - by destruct c.
Qed.

Lemma multiPolygonContainsPoint_fold p rings : ∀ c,
  foldl (fun c ring => ringCrossings p ring c) c rings =
  xorb c (foldr xorb false ((fun ring => polygonContainsPoint ring p) <$> rings)).
Proof.
  induction rings as [|ring rings IH]; intros c; csimpl.
  - by destruct c.
  - rewrite IH, ringCrossings_xorb.
    destruct c, (polygonContainsPoint ring p), (foldr xorb false _); done.
Qed.

(** An edge whose ends are on the same side of the horizontal through [p]
    is not crossed. *)
Lemma edgeCrosses_same_side p p1 p2 :
  Qltb (y p) (y p1) = Qltb (y p) (y p2) → edgeCrosses p p1 p2 = false.
Proof. unfold edgeCrosses. intros ->. by rewrite eqb_reflx. Qed.

(** The abscissa at which a straddling edge meets the horizontal through
    [p] lies between the abscissas of its ends. *)
Lemma edge_abscissa p p1 p2 :
  Qltb (y p) (y p1) ≠ Qltb (y p) (y p2) →
  ∃ q l, divide ((x p2 - x p1) * (y p - y p1)) (y p2 - y p1) = Some q ∧
         0 <= l ∧ l <= 1 ∧ q + x p1 == x p1 + l * (x p2 - x p1).
Proof.
  intros Hne.
  assert (Hcases : (y p < y p1 ∧ y p2 <= y p) ∨ (y p < y p2 ∧ y p1 <= y p)).
  { destruct (Qltb (y p) (y p1)) eqn:E1, (Qltb (y p) (y p2)) eqn:E2; try done;
      try apply Qltb_lt in E1; try apply Qltb_lt in E2;
      try apply Qltb_ge in E1; try apply Qltb_ge in E2; auto. }
  assert (Hnz : ¬ y p2 - y p1 == 0) by (destruct Hcases; lra).
  rewrite divide_nonzero by done.
  exists ((x p2 - x p1) * (y p - y p1) / (y p2 - y p1)),
         ((y p - y p1) / (y p2 - y p1)).
  split; [done|]. split; [|split].
  - destruct Hcases as [[? ?]|[? ?]].
    + assert (Heq : (y p - y p1) / (y p2 - y p1) == (y p1 - y p) / (y p1 - y p2))
        by (field; lra).
      rewrite Heq. apply Qle_shift_div_l; lra.
    + apply Qle_shift_div_l; lra.
  - destruct Hcases as [[? ?]|[? ?]].
    + assert (Heq : (y p - y p1) / (y p2 - y p1) == (y p1 - y p) / (y p1 - y p2))
        by (field; lra).
      rewrite Heq. apply Qle_shift_div_r; lra.
    + apply Qle_shift_div_r; lra.
  - field. done.
Qed.

Lemma between_above a b l c :
  0 <= l → l <= 1 → c < a → c < b → c < a + l * (b - a).
Proof.
  intros Hl0 Hl1 Ha Hb.
  destruct (Qlt_le_dec a b) as [Hab|Hab].
  - assert (0 <= l * (b - a)) by (apply Qmult_le_0_compat; lra). lra.
  - assert (0 <= (1 - l) * (a - b)) by (apply Qmult_le_0_compat; lra). lra.
Qed.

Lemma between_below a b l c :
  0 <= l → l <= 1 → a <= c → b <= c → a + l * (b - a) <= c.
Proof.
  intros Hl0 Hl1 Ha Hb.
  assert (0 <= l * (c - b)) by (apply Qmult_le_0_compat; lra).
  assert (0 <= (1 - l) * (c - a)) by (apply Qmult_le_0_compat; lra). lra.
Qed.

(** An edge that lies on or to the left of [p] is not crossed. *)
Lemma edgeCrosses_left p p1 p2 :
  x p1 <= x p → x p2 <= x p → edgeCrosses p p1 p2 = false.
Proof.
  intros H1 H2. unfold edgeCrosses.
  destruct (eqb _ _) eqn:E; [done|]. cbn [negb].
  apply eqb_false_iff in E.
  destruct (edge_abscissa p p1 p2 E) as (q & l & -> & Hl0 & Hl1 & Hq).
  apply Qltb_ge. rewrite Hq. by apply between_below.
Qed.

(** An edge that lies strictly to the right of [p] is crossed exactly when
    its ends are on different sides of the horizontal through [p]. *)
Lemma edgeCrosses_right p p1 p2 :
  x p < x p1 → x p < x p2 →
  edgeCrosses p p1 p2 = xorb (Qltb (y p) (y p1)) (Qltb (y p) (y p2)).
Proof.
  intros H1 H2. unfold edgeCrosses.
  destruct (eqb _ _) eqn:E; cbn [negb].
  - apply eqb_prop in E. rewrite E. symmetry. apply xorb_nilpotent.
  - apply eqb_false_iff in E.
    destruct (edge_abscissa p p1 p2 E) as (q & l & -> & Hl0 & Hl1 & Hq).
    transitivity true.
    + apply Qltb_lt. rewrite Hq. by apply between_above.
    + by destruct (Qltb (y p) (y p1)), (Qltb (y p) (y p2)).
Qed.

Lemma crossings_none p ring : ∀ prev c,
  (∀ p1 p2, p1 ∈ prev :: ring → p2 ∈ prev :: ring → edgeCrosses p p1 p2 = false) →
  crossings p prev ring c = c.
Proof.
  induction ring as [|p1 ring IH]; intros prev c H; cbn [crossings]; [done|].
  rewrite H by (rewrite !elem_of_cons; auto).
  apply IH. intros p2 p3 H2 H3. apply H; rewrite elem_of_cons; auto.
Qed.

Lemma crossings_right p ring : ∀ prev c,
  Forall (fun q => x p < x q) (prev :: ring) →
  crossings p prev ring c =
  xorb c (xorb (Qltb (y p) (y prev))
               (Qltb (y p) (y (default prev (last ring))))).
Proof.
  induction ring as [|p1 ring IH]; intros prev c H; cbn [crossings].
  - cbn. by destruct c, (Qltb _ _).
  - apply Forall_cons in H as [Hprev H]. pose proof H as H'.
    apply Forall_cons in H' as [Hp1 _].
    rewrite IH by done. rewrite edgeCrosses_right by done.
    replace (default prev (last (p1 :: ring))) with (default p1 (last ring)).
    + destruct c, (Qltb (y p) (y p1)), (Qltb (y p) (y prev)),
        (Qltb (y p) (y (default p1 (last ring)))); done.
    + rewrite last_cons. by destruct (last ring).
Qed.

Lemma last_elem_of {A} (l : list A) a : last l = Some a → a ∈ l.
Proof.
  intros H. apply last_Some in H as [l' ->].
  apply elem_of_app. right. by left.
Qed.

End RingFacts.

Section QueryShapeFacts.
Import Geometry Shapes.
Local Open Scope Q_scope.

(** A vertical edge is crossed when its ends are on different sides of the
    horizontal through [p] and it lies strictly to the right of [p]. *)
Lemma edgeCrosses_vertical p p1 p2 :
  x p1 == x p2 →
  edgeCrosses p p1 p2 =
  negb (eqb (Qltb (y p) (y p1)) (Qltb (y p) (y p2))) && Qltb (x p) (x p1).
Proof.
  intros Hx. unfold edgeCrosses.
  destruct (eqb _ _) eqn:E; cbn [negb andb]; [done|].
  apply eqb_false_iff in E.
  destruct (edge_abscissa p p1 p2 E) as (q & l & -> & _ & _ & Hq).
  apply Qltb_proper; [reflexivity|]. rewrite Hq, Hx. ring.
Qed.

Lemma distToSegmentSquared_nonneg p v w d :
  distToSegmentSquared p v w = Some d → 0 <= d.
Proof.
  intros Hd. destruct (distToSegmentSquared_least p v w d Hd) as [_ (q & _ & ->)].
  apply distSqr_nonneg.
Qed.

Lemma pointIntersectsBufferedLine_wider p line r r' :
  r * r <= r' * r' →
  pointIntersectsBufferedLine p line r = true →
  pointIntersectsBufferedLine p line r' = true.
Proof.
  intros Hr. rewrite !pointIntersectsBufferedLine_segments.
  intros [(q & -> & H)|(v & w & d & Hseg & Hd & H)].
  - left. exists q. split; [done|lra].
  - right. exists v, w, d. split; [done|]. split; [done|lra].
Qed.

Lemma pointIntersectsBufferedLine_same p line r r' :
  r * r == r' * r' →
  pointIntersectsBufferedLine p line r = pointIntersectsBufferedLine p line r'.
Proof.
  intros Hr. apply bool_eq_true_iff.
  split; apply pointIntersectsBufferedLine_wider; lra.
Qed.

Lemma pointIntersectsBufferedLine_zero p line :
  pointIntersectsBufferedLine p line 0 = false.
Proof.
  apply not_true_is_false. rewrite pointIntersectsBufferedLine_segments.
  intros [(q & -> & H)|(v & w & d & Hseg & Hd & H)].
  - pose proof (distSqr_nonneg p q). lra.
  - pose proof (distToSegmentSquared_nonneg p v w d Hd). lra.
Qed.

Lemma existsb_false {A} (f : A → bool) (l : list A) :
  (∀ a, a ∈ l → f a = false) → existsb f l = false.
Proof.
  intros H. apply not_true_is_false. rewrite existsb_elem_of.
  intros (a & Ha & Hf). rewrite H in Hf; done.
Qed.

Lemma lineIntersectsLine_short lineA lineB :
  (length lineA <= 1)%nat ∨ (length lineB <= 1)%nat →
  lineIntersectsLine lineA lineB = false.
Proof.
  intros H. apply not_true_is_false. rewrite lineIntersectsLine_segments.
  intros (a0 & a1 & b0 & b1 & Ha%segmentOf_length & Hb%segmentOf_length & _). lia.
Qed.

Lemma narrow_phase_empty_query :
  (∀ rings radius, polygonIntersectsBufferedMultiPoint [] rings radius = false) ∧
  (∀ multiPolygon, polygonIntersectsMultiPolygon [] multiPolygon = false) ∧
  (∀ multiLine radius, polygonIntersectsBufferedMultiLine [] multiLine radius = false).
Proof.
  split; [|split].
  - intros rings radius. apply existsb_false. intros ring _.
    by apply existsb_false.
  - intros multiPolygon. unfold polygonIntersectsMultiPolygon.
    cbn [existsb]. rewrite orb_false_r. apply orb_false_iff. split.
    + apply existsb_false. intros ring _. by apply existsb_false.
    + apply existsb_false. intros ring _. apply lineIntersectsLine_short.
      left. simpl. lia.
  - intros multiLine radius. by apply existsb_false.
Qed.

Lemma narrow_phase_empty_feature polygon radius :
  polygonIntersectsBufferedMultiPoint polygon [] radius = false ∧
  polygonIntersectsMultiPolygon polygon [] = false ∧
  polygonIntersectsBufferedMultiLine polygon [] radius = false.
Proof.
  split; [done|]. split; [|done].
  unfold polygonIntersectsMultiPolygon.
  destruct polygon as [|q [|q' polygon]]; try done.
  cbn [existsb orb]. rewrite orb_false_r. by apply existsb_false.
Qed.

End QueryShapeFacts.

Section NarrowPhaseProperties.
Import Geometry Shapes.
Local Open Scope Q_scope.

(** In exact arithmetic [polygonContainsPoint(ring, p)] is false for every
    point outside the bounding box of the ring: on or right of its largest
    abscissa, strictly left of its smallest, on or above its largest
    ordinate, or strictly below its smallest. *)
Lemma polygonContainsPoint_outside ring p :
  Forall (fun q => x q <= x p) ring ∨ Forall (fun q => x p < x q) ring ∨
  Forall (fun q => y q <= y p) ring ∨ Forall (fun q => y p < y q) ring →
  polygonContainsPoint ring p = false.
Proof.
  unfold polygonContainsPoint, ringCrossings.
  destruct (last ring) as [prev|] eqn:Hlast; [|done].
  pose proof (last_elem_of _ _ Hlast) as Hprev.
  intros [H|[H|[H|H]]]; rewrite Forall_forall in H.
  - apply crossings_none. intros p1 p2 H1 H2.
    apply elem_of_cons in H1 as [->|H1]; apply elem_of_cons in H2 as [->|H2];
      apply edgeCrosses_left; by apply H.
  - rewrite crossings_right.
    + rewrite Hlast. cbn. by destruct (Qltb _ _).
    + apply Forall_forall. intros q Hq. apply H.
      by apply elem_of_cons in Hq as [->|Hq].
  - apply crossings_none. intros p1 p2 H1 H2. apply edgeCrosses_same_side.
    apply elem_of_cons in H1 as [->|H1]; apply elem_of_cons in H2 as [->|H2];
      (transitivity false; [|symmetry]); apply Qltb_ge; by apply H.
  - apply crossings_none. intros p1 p2 H1 H2. apply edgeCrosses_same_side.
    apply elem_of_cons in H1 as [->|H1]; apply elem_of_cons in H2 as [->|H2];
      (transitivity true; [|symmetry]); apply Qltb_lt; by apply H.
Qed.

(** X6.  [multiPolygonContainsPoint(rings, p)] is the exclusive or of
    [polygonContainsPoint(ring, p)] over the rings (the even-odd rule): a
    point inside an outer ring and inside a hole of it is not contained, and
    for a single ring the two functions agree. *)
Theorem multiPolygonContainsPoint_even_odd rings p :
  multiPolygonContainsPoint rings p =
  foldr xorb false ((fun ring => polygonContainsPoint ring p) <$> rings).
Proof.
  unfold multiPolygonContainsPoint. by rewrite multiPolygonContainsPoint_fold.
Qed.

(** X7.  For the ring of an axis-aligned rectangle with corners [(x0, y0)]
    and [(x1, y1)], [polygonContainsPoint] is true exactly for the points
    with [x0 <= x < x1] and [y0 <= y < y1]: the left and lower sides belong
    to the rectangle, the right and upper sides do not. *)
Theorem polygonContainsPoint_rectangle x0 y0 x1 y1 p :
  x0 < x1 → y0 < y1 →
  (polygonContainsPoint (rectangle x0 y0 x1 y1) p = true ↔
   x0 <= x p ∧ x p < x1 ∧ y0 <= y p ∧ y p < y1).
Proof.
  intros Hx Hy. unfold polygonContainsPoint, ringCrossings, rectangle.
  cbn [last crossings].
  rewrite (edgeCrosses_same_side p (mkPoint x1 y0) (mkPoint x0 y0)) by done.
  rewrite (edgeCrosses_same_side p (mkPoint x0 y1) (mkPoint x1 y1)) by done.
  rewrite (edgeCrosses_vertical p (mkPoint x0 y0) (mkPoint x0 y1)) by reflexivity.
  rewrite (edgeCrosses_vertical p (mkPoint x1 y1) (mkPoint x1 y0)) by reflexivity.
  cbn [x y].
  destruct (Qltb (y p) y0) eqn:E0, (Qltb (y p) y1) eqn:E1,
           (Qltb (x p) x0) eqn:F0, (Qltb (x p) x1) eqn:F1; cbn;
    try apply Qltb_lt in E0; try apply Qltb_lt in E1;
    try apply Qltb_lt in F0; try apply Qltb_lt in F1;
    try apply Qltb_ge in E0; try apply Qltb_ge in E1;
    try apply Qltb_ge in F0; try apply Qltb_ge in F1;
    (split; [try done; intros _; repeat split; lra
            |try done; intros (? & ? & ? & ?); lra]).
Qed.

Lemma polygonContainsPoint_rectangle_witness :
  polygonContainsPoint (rectangle 0 0 10 5) (mkPoint 0 0) = true ∧
  polygonContainsPoint (rectangle 0 0 10 5) (mkPoint 10 5) = false.
Proof.
  split.
  - apply (polygonContainsPoint_rectangle 0 0 10 5); [reflexivity|reflexivity|].
    cbn [x y]. repeat split; vm_compute; discriminate.
  - apply not_true_is_false. intros H.
    apply (polygonContainsPoint_rectangle 0 0 10 5) in H as (_ & H & _);
      [|reflexivity|reflexivity].
    vm_compute in H. discriminate.
Defined.

(** X8.  [pointIntersectsBufferedLine(p, line, radius)] is false for an empty
    line and for the radius 0, depends on the radius only through its
    square (so a negative radius acts as its absolute value), and once true
    stays true for every radius of larger square. *)
Theorem pointIntersectsBufferedLine_radius p line r r' :
  pointIntersectsBufferedLine p [] r = false ∧
  pointIntersectsBufferedLine p line 0 = false ∧
  pointIntersectsBufferedLine p line (- r) = pointIntersectsBufferedLine p line r ∧
  (r * r <= r' * r' →
   pointIntersectsBufferedLine p line r = true →
   pointIntersectsBufferedLine p line r' = true).
Proof.
  split; [done|]. split; [apply pointIntersectsBufferedLine_zero|]. split.
  - apply pointIntersectsBufferedLine_same. ring.
  - apply pointIntersectsBufferedLine_wider.
Qed.

Lemma pointIntersectsBufferedLine_radius_witness :
  pointIntersectsBufferedLine (mkPoint 0 5) [mkPoint (-3) 0; mkPoint 3 0] (-7) = true.
Proof.
  apply (pointIntersectsBufferedLine_radius
           (mkPoint 0 5) [mkPoint (-3) 0; mkPoint 3 0] 6 (-7)).
  - vm_compute. discriminate.
  - vm_compute. reflexivity.
Defined.

(** X10.  The narrow phase matches nothing when a geometry is empty: for an
    empty query polygon the three intersection tests are false whatever the
    feature, and for a feature without rings they are false whatever the
    query polygon. *)
Theorem narrow_phase_empty_geometry :
  (∀ rings radius, polygonIntersectsBufferedMultiPoint [] rings radius = false) ∧
  (∀ multiPolygon, polygonIntersectsMultiPolygon [] multiPolygon = false) ∧
  (∀ multiLine radius, polygonIntersectsBufferedMultiLine [] multiLine radius = false) ∧
  (∀ polygon radius,
     polygonIntersectsBufferedMultiPoint polygon [] radius = false ∧
     polygonIntersectsMultiPolygon polygon [] = false ∧
     polygonIntersectsBufferedMultiLine polygon [] radius = false).
Proof.
  destruct narrow_phase_empty_query as (H1 & H2 & H3).
  split; [done|]. split; [done|]. split; [done|].
  apply narrow_phase_empty_feature.
Qed.

End NarrowPhaseProperties.

(** ** The markers layer: binary search and time windows *)

Section MarkerLayerFacts.
Import MarkerSearch MarkerLayer.
Local Open Scope nat_scope.

(** The loop of [featuresFind] on a layer in which the features below the
    searched key come first: it stops at the first feature that is not
    below. *)
Lemma featuresFindLoop_partition layer find :
  (∀ i j fi fj, i <= j → layer !! i = Some fi → layer !! j = Some fj →
     keyBelow fj find = true → keyBelow fi find = true) →
  ∀ fuel low high,
    low <= high → high <= length layer → high - low <= fuel →
    (∀ i f, layer !! i = Some f → i < low → keyBelow f find = true) →
    (∀ i f, layer !! i = Some f → high <= i → keyBelow f find = false) →
    ∃ r, featuresFindLoop fuel layer find low high = Some r ∧ r <= length layer ∧
         ∀ i f, layer !! i = Some f → (i < r ↔ keyBelow f find = true).
Proof.
  intros Hmono.
  assert (Hstop : ∀ r, r <= length layer →
    (∀ i f, layer !! i = Some f → i < r → keyBelow f find = true) →
    (∀ i f, layer !! i = Some f → r <= i → keyBelow f find = false) →
    ∀ i f, layer !! i = Some f → (i < r ↔ keyBelow f find = true)).
  { intros r _ Hlo Hhi i f Hf. split; [by apply Hlo|].
    intros Hb. destruct (decide (i < r)); [done|].
    rewrite (Hhi i f) in Hb by (done || lia). done. }
  induction fuel as [|fuel IH]; intros low high Hlh Hlen Hfuel Hlo Hhi.
  - assert (low = high) as -> by lia. simpl. rewrite Nat.eqb_refl.
    exists high. split; [done|]. split; [done|]. by apply Hstop.
  - cbn [featuresFindLoop]. cbv zeta. destruct (low =? high) eqn:E.
    + apply Nat.eqb_eq in E as ->. exists high. split; [done|].
      split; [done|]. by apply Hstop.
    + apply Nat.eqb_neq in E.
      assert (Hmid : low <= (low + high) / 2 < high).
      { split.
        - apply Nat.div_le_lower_bound; lia.
        - apply Nat.Div0.div_lt_upper_bound; lia. }
      set (mid := (low + high) / 2) in *.
      destruct (lookup_lt_is_Some_2 layer mid) as [fm Hfm]; [lia|].
      rewrite Hfm. cbn [mbind option_bind].
      destruct (keyBelow fm find) eqn:Hb.
      * apply IH; [lia..| |done].
        intros i f Hf Hi. apply (Hmono i mid f fm); [lia|done..].
      * apply IH; [lia..|done|].
        intros i f Hf Hi. destruct (keyBelow f find) eqn:Hbf; [|done].
        rewrite (Hmono mid i fm f) in Hb; [done|lia|done..].
Qed.

Lemma sortedByKey_lookup layer :
  sortedByKey layer = true →
  ∀ i j fi fj, i <= j → layer !! i = Some fi → layer !! j = Some fj →
    (keyOf fi <= keyOf fj)%Z.
Proof.
  induction layer as [|f layer IH]; intros Hs i j fi fj Hij Hi Hj; [done|].
  assert (Hrest : sortedByKey layer = true).
  { destruct layer as [|g layer]; [done|].
    cbn [sortedByKey] in Hs. by apply andb_true_iff in Hs as [_ ?]. }
  assert (Hhead : ∀ k fk, layer !! k = Some fk → (keyOf f <= keyOf fk)%Z).
  { intros k fk Hk. destruct layer as [|g layer]; [done|].
    cbn [sortedByKey] in Hs. apply andb_true_iff in Hs as [Hfg _].
    apply Z.leb_le in Hfg.
    assert (keyOf g <= keyOf fk)%Z; [|lia].
    apply (IH Hrest 0 k g fk); [lia|done..]. }
  destruct i as [|i], j as [|j]; simpl in Hi, Hj.
  - injection Hi as <-. injection Hj as <-. lia.
  - injection Hi as <-. by eapply Hhead.
  - lia.
  - apply (IH Hrest i j); [lia|done..].
Qed.

Lemma keyBelow_lt f k : keyBelow f (Some k) = true ↔ (keyOf f < k)%Z.
Proof. unfold keyBelow, keyOf. rewrite Z.ltb_lt. lia. Qed.

(** The result of [featuresFind] in terms of the stopping index. *)
Lemma featuresFind_partition layer color time :
  (∀ i j fi fj, i <= j → layer !! i = Some fi → layer !! j = Some fj →
     keyBelow fj (compositeKey color time) = true →
     keyBelow fi (compositeKey color time) = true) →
  ∃ n, n <= length layer ∧
       featuresFind layer color time =
         Some (if n =? length layer then None else Some n) ∧
       ∀ i f, layer !! i = Some f →
         (i < n ↔ keyBelow f (compositeKey color time) = true).
Proof.
  intros Hmono. unfold featuresFind.
  destruct (featuresFindLoop_partition layer (compositeKey color time) Hmono
              (length layer) 0 (length layer)) as (r & -> & Hr & Hiff); [lia..| | |].
  - intros i f _ Hi. lia.
  - intros i f Hf Hi. apply lookup_lt_Some in Hf. lia.
  - exists r. done.
Qed.

Lemma featuresFind_sorted layer color time k :
  sortedByKey layer = true → compositeKey color time = Some k →
  ∃ n, n <= length layer ∧
       featuresFind layer color time =
         Some (if n =? length layer then None else Some n) ∧
       ∀ i f, layer !! i = Some f → (i < n ↔ (keyOf f < k)%Z).
Proof.
  intros Hs Hk.
  destruct (featuresFind_partition layer color time) as (n & Hn & Hfind & Hiff).
  - rewrite Hk. intros i j fi fj Hij Hi Hj. rewrite !keyBelow_lt.
    pose proof (sortedByKey_lookup layer Hs i j fi fj Hij Hi Hj). lia.
  - exists n. split; [done|]. split; [done|].
    intros i f Hf. rewrite (Hiff i f Hf), Hk. apply keyBelow_lt.
Qed.

Lemma featuresFind_undefined layer color time :
  compositeKey color time = None →
  featuresFind layer color time =
    Some (match layer with [] => None | _ :: _ => Some 0 end).
Proof.
  intros Hk.
  destruct (featuresFind_partition layer color time) as (n & Hn & -> & Hiff).
  - rewrite Hk. done.
  - rewrite Hk in Hiff. destruct layer as [|f layer].
    + simpl in Hn. by replace n with 0 by lia.
    + destruct n as [|n]; [done|].
      destruct (Hiff 0 f eq_refl) as [H _]. discriminate H. lia.
Qed.


Lemma filter_none {A} (P : A → Prop) `{∀ a, Decision (P a)} (l : list A) :
  (∀ a, a ∈ l → ¬ P a) → filter P l = [].
Proof.
  induction l as [|a l IH]; intros Hl; [done|].
  rewrite filter_cons_False by (apply Hl; by left).
  apply IH. intros b Hb. apply Hl. by right.
Qed.

(** In a list whose elements pass a test exactly at the indices from [a] up
    to [b], the elements that pass are the slice between them. *)
Lemma filter_slice {A} (P : A → Prop) `{∀ a, Decision (P a)} (l : list A) :
  ∀ a b, a <= b →
    (∀ i f, l !! i = Some f → (P f ↔ a <= i < b)) →
    filter P l = take (b - a) (drop a l).
Proof.
  induction l as [|f l IH]; intros a b Hab Hiff.
  - by rewrite drop_nil, take_nil.
  - destruct a as [|a].
    + destruct b as [|b].
      * rewrite filter_none; [done|]. intros g Hg HP.
        apply list_elem_of_lookup in Hg as [i Hi].
        apply (Hiff i g Hi) in HP. lia.
      * rewrite filter_cons_True by (apply (Hiff 0 f eq_refl); lia).
        rewrite (IH 0 b); [by rewrite Nat.sub_0_r|lia|].
        intros i g Hi. rewrite (Hiff (S i) g Hi). lia.
    + rewrite filter_cons_False.
      * rewrite (IH a (b - 1)); [|lia|].
        -- cbn [drop]. f_equal. lia.
        -- intros i g Hi. rewrite (Hiff (S i) g Hi). lia.
      * intros HP. apply (Hiff 0 f eq_refl) in HP. lia.
Qed.

Lemma inWindow_true ks ke f :
  inWindow ks ke f = true ↔ (ks <= keyOf f ∧ keyOf f < ke)%Z.
Proof. unfold inWindow. rewrite andb_true_iff, Z.leb_le, Z.ltb_lt. done. Qed.

(** The two stopping indices of a window on a sorted layer. *)
Lemma window_indices layer cl s e :
  sortedByKey layer = true → (s <= e)%Z →
  ∃ ns ne, ns <= ne ∧ ne <= length layer ∧
    featuresFind layer (Some cl) (Some s) =
      Some (if ns =? length layer then None else Some ns) ∧
    featuresFind layer (Some cl) (Some e) =
      Some (if ne =? length layer then None else Some ne) ∧
    (∀ i f, layer !! i = Some f → (i < ns ↔ (keyOf f < s + cl * COLOR_OFFSET)%Z)) ∧
    (∀ i f, layer !! i = Some f → (i < ne ↔ (keyOf f < e + cl * COLOR_OFFSET)%Z)).
Proof.
  intros Hs Hse.
  destruct (featuresFind_sorted layer (Some cl) (Some s) _ Hs eq_refl)
    as (ns & Hns & Hfs & His).
  destruct (featuresFind_sorted layer (Some cl) (Some e) _ Hs eq_refl)
    as (ne & Hne & Hfe & Hie).
  exists ns, ne. repeat split; try done; try apply His; try apply Hie; try done.
  destruct (decide (ns <= ne)) as [|Hgt]; [done|].
  destruct (lookup_lt_is_Some_2 layer ne) as [f Hf]; [lia|].
  assert (keyOf f < s + cl * COLOR_OFFSET)%Z by (apply (His ne f Hf); lia).
  assert (ne < ne); [|lia]. apply (Hie ne f Hf). lia.
Qed.

Lemma featuresSlice_null layer : ∀ a,
  featuresSlice layer a a = Some [].
Proof.
  intros a. unfold featuresSlice. rewrite Z.sub_diag. done.
Qed.

Lemma bucketFeatures_undefined_color layer spec :
  colorIdx (getFilters spec) = None → bucketFeatures layer spec = Some [].
Proof.
  intros Hc. unfold bucketFeatures. rewrite Hc.
  rewrite !featuresFind_undefined by done. cbn [mbind option_bind].
  destruct layer; cbn [truthy andb]; apply featuresSlice_null.
Qed.

Lemma lastValue_snoc test cls cl :
  lastValue test (cls ++ [cl]) =
  if test cl then Some (value cl) else lastValue test cls.
Proof.
  unfold lastValue. rewrite filter_app.
  destruct (test cl) eqn:E.
  - rewrite filter_cons_True, filter_nil by done. by rewrite last_snoc.
  - rewrite filter_cons_False, filter_nil by (by rewrite E).
    by rewrite app_nil_r.
Qed.



Lemma mapM_Forall2 {A B} (f : A → option B) (l : list A) (k : list B) :
  mapM f l = Some k → Forall2 (fun a b => f a = Some b) l k.
Proof. intros H. by apply mapM_Some_1. Qed.


(** X12.  When the colour or the time searched for is [undefined] the key is
    [NaN], no feature compares below it, and [featuresFind] returns index 0
    on every layer that has a feature and [null] on an empty one, whatever
    the order of the layer.  A bucket whose filter has no clause on [c]
    therefore receives no feature. *)
Theorem featuresFind_undefined_key layer color time spec :
  (color = None ∨ time = None →
   featuresFind layer color time =
     Some (match layer with [] => None | _ :: _ => Some 0 end)) ∧
  (colorIdx (getFilters spec) = None → bucketFeatures layer spec = Some []).
Proof.
  split.
  - intros H. apply featuresFind_undefined.
    destruct H as [-> | ->]; [done|by destruct color].
  - apply bucketFeatures_undefined_color.
Qed.

Lemma featuresFind_undefined_key_witness :
  featuresFind threeMarkers None (Some 10%Z) = Some (Some 0) ∧
  bucketFeatures threeMarkers
    (mkFilter "all" [mkClause ">=" "d" 0; mkClause "<" "d" 100]) = Some [].
Proof.
  split.
  - apply (featuresFind_undefined_key threeMarkers None (Some 10%Z) fromDayTen).
    by left.
  - apply (featuresFind_undefined_key threeMarkers None None
             (mkFilter "all" [mkClause ">=" "d" 0; mkClause "<" "d" 100])).
    reflexivity.
Defined.

(** With integer keys: on a layer in ascending order of key, a bucket whose
    filter gives a colour, a start time and an end time not before the start
    receives exactly the features whose key lies in the window from the
    start key (included) to the end key (excluded), in layer order, with the
    one exception of a layer all of whose features lie in the window, where
    it receives none. *)
Lemma bucketFeatures_window_slice layer spec cl s e :
  sortedByKey layer = true →
  colorIdx (getFilters spec) = Some cl →
  startTime (getFilters spec) = Some s →
  endTime (getFilters spec) = Some e →
  (s <= e)%Z →
  bucketFeatures layer spec =
    Some (if negb (bool_decide (layer = [])) &&
             forallb (inWindow (s + cl * COLOR_OFFSET) (e + cl * COLOR_OFFSET)) layer
          then []
          else filter (fun f => inWindow (s + cl * COLOR_OFFSET)
                                         (e + cl * COLOR_OFFSET) f = true) layer).
Proof.
  intros Hsorted Hc Hst Het Hse.
  destruct (window_indices layer cl s e Hsorted Hse)
    as (ns & ne & Hnn & Hne & Hfs & Hfe & His & Hie).
  set (ks := (s + cl * COLOR_OFFSET)%Z) in *.
  set (ke := (e + cl * COLOR_OFFSET)%Z) in *.
  assert (Hfilter : filter (fun f => inWindow ks ke f = true) layer =
                    take (ne - ns) (drop ns layer)).
  { apply filter_slice; [done|]. intros i f Hf.
    rewrite inWindow_true. pose proof (His i f Hf). pose proof (Hie i f Hf). lia. }
  unfold bucketFeatures. rewrite Hc, Hst, Het, Hfs, Hfe.
  cbn [mbind option_bind].
  destruct layer as [|f0 layer].
  { simpl in Hne. replace ne with 0 by lia. replace ns with 0 by lia. done. }
  rewrite bool_decide_eq_false_2 by done. cbn [negb andb].
  set (l := f0 :: layer) in *.
  assert (Hlen : 0 < length l) by (simpl; lia).
  destruct (forallb (inWindow ks ke) l) eqn:Hall.
  - (* every feature is in the window *)
    rewrite forallb_forall in Hall.
    assert (ns = 0) as ->.
    { destruct ns as [|ns]; [done|]. exfalso.
      assert (keyOf f0 < ks)%Z by (apply (His 0 f0 eq_refl); lia).
      assert (Hin : inWindow ks ke f0 = true) by (apply Hall; by left).
      apply inWindow_true in Hin. lia. }
    assert (ne = length l) as ->.
    { destruct (decide (ne = length l)) as [|Hlt]; [done|]. exfalso.
      destruct (lookup_lt_is_Some_2 l ne) as [f Hf]; [lia|].
      assert (Hin : inWindow ks ke f = true).
      { apply Hall. apply list_elem_of_In. by eapply list_elem_of_lookup_2. }
      apply inWindow_true in Hin.
      assert (ne < ne); [|lia]. apply (Hie ne f Hf). lia. }
    rewrite Nat.eqb_refl.
    destruct (0 =? length l) eqn:E; [apply Nat.eqb_eq in E; lia|].
    cbn [truthy andb]. apply featuresSlice_null with (a := Some 0) || done.
  - (* some feature is outside the window *)
    rewrite Hfilter.
    destruct (ns =? length l) eqn:Es; [apply Nat.eqb_eq in Es|apply Nat.eqb_neq in Es];
      (destruct (ne =? length l) eqn:Ee; [apply Nat.eqb_eq in Ee|apply Nat.eqb_neq in Ee]).
    + cbn [truthy andb]. rewrite featuresSlice_null.
      replace (ne - ns) with 0 by lia. done.
    + lia.
    + destruct ns as [|ns].
      * (* the start is found at index 0 and no end: all in the window *)
        exfalso. apply not_true_iff_false in Hall. apply Hall.
        apply forallb_forall. intros f Hf%list_elem_of_In.
        apply list_elem_of_lookup in Hf as [i Hi]. apply inWindow_true.
        pose proof (His i f Hi). pose proof (Hie i f Hi).
        apply lookup_lt_Some in Hi. lia.
      * cbn [truthy negb andb]. rewrite featuresSlice_range by lia.
        by rewrite Ee.
    + assert (Hend : (if truthy (Some ns) && negb (truthy (Some ne))
                      then Some (length l) else Some ne) = Some ne).
      { destruct ns as [|ns]; [done|]. destruct ne as [|ne]; [lia|done]. }
      rewrite Hend. by rewrite featuresSlice_range by lia.
Qed.

(** With integer keys: on a layer in ascending order of key, a filter whose
    end time lies before its start time makes the slice length negative as
    soon as the layer has a feature below the end key, one from the end key
    up to the start key, and one from the start key on. *)
Lemma bucketFeatures_inverted layer spec cl s e f1 f2 f3 :
  sortedByKey layer = true →
  colorIdx (getFilters spec) = Some cl →
  startTime (getFilters spec) = Some s →
  endTime (getFilters spec) = Some e →
  f1 ∈ layer → f2 ∈ layer → f3 ∈ layer →
  (keyOf f1 < e + cl * COLOR_OFFSET)%Z →
  (e + cl * COLOR_OFFSET <= keyOf f2)%Z → (keyOf f2 < s + cl * COLOR_OFFSET)%Z →
  (s + cl * COLOR_OFFSET <= keyOf f3)%Z →
  bucketFeatures layer spec = None.
Proof.
  intros Hsorted Hc Hst Het H1 H2 H3 Hk1 Hk2 Hk2' Hk3.
  destruct (featuresFind_sorted layer (Some cl) (Some s) _ Hsorted eq_refl)
    as (ns & Hns & Hfs & His).
  destruct (featuresFind_sorted layer (Some cl) (Some e) _ Hsorted eq_refl)
    as (ne & Hne & Hfe & Hie).
  apply list_elem_of_lookup in H1 as [i1 H1].
  apply list_elem_of_lookup in H2 as [i2 H2].
  apply list_elem_of_lookup in H3 as [i3 H3].
  pose proof (His i2 f2 H2). pose proof (His i3 f3 H3).
  pose proof (Hie i1 f1 H1). pose proof (Hie i2 f2 H2).
  pose proof (lookup_lt_Some _ _ _ H3).
  assert (0 < ne ∧ ne < ns ∧ ns < length layer) as (? & ? & ?) by lia.
  unfold bucketFeatures. rewrite Hc, Hst, Het, Hfs, Hfe.
  cbn [mbind option_bind].
  destruct (ns =? length layer) eqn:Es; [apply Nat.eqb_eq in Es; lia|].
  destruct (ne =? length layer) eqn:Ee; [apply Nat.eqb_eq in Ee; lia|].
  destruct ns as [|ns]; [lia|]. destruct ne as [|ne]; [lia|].
  cbn [truthy negb andb]. unfold featuresSlice. cbn [toNumber].
  destruct (Z.of_nat (S ne) - Z.of_nat (S ns) <? 0)%Z eqn:E; [done|].
  apply Z.ltb_ge in E. lia.
Qed.

(** X15.  [getFilters] reads the clauses from index 1 on and keeps, for the
    colour, the value of the last clause on [c]; for the start time, the
    value of the last clause on [d] whose operator begins with [>]; for the
    end time, the value of the last other clause on [d], whatever its
    operator.  Clauses on other keys are ignored, and a value no clause
    gives stays [undefined]. *)
Theorem getFilters_takes_last_values spec :
  getFilters spec =
  mkFilterValues (lastValue onColor (clauses spec))
                 (lastValue onStart (clauses spec))
                 (lastValue onEnd (clauses spec)).
Proof.
  unfold getFilters. induction (clauses spec) as [|cl cls IH] using rev_ind; [done|].
  rewrite foldl_app. cbn [foldl]. rewrite IH, !lastValue_snoc.
  unfold getFiltersStep, onColor, onStart, onEnd.
  cbn [colorIdx startTime endTime].
  destruct (bool_decide (key cl = "c")) eqn:Ec.
  - apply bool_decide_eq_true in Ec.
    rewrite (bool_decide_eq_false_2 (key cl = "d")) by (rewrite Ec; done). done.
  - destruct (bool_decide (key cl = "d")); [|done].
    by destruct (startsWithGreater (op cl)).
Qed.



End MarkerLayerFacts.

(** ** Feature tree: bounding boxes, translation, and the results of a query *)

Section BoundingBoxFacts.
Import Geometry FeatureTree.
Local Open Scope Q_scope.

Lemma Qle_bool_false a b : Qle_bool a b = false → b < a.
Proof.
  intros H. apply Qnot_le_lt. intros Hle. apply Qle_bool_iff in Hle. congruence.
Qed.

(** The box after one more point, when the box so far is finite. *)
Lemma boundingBox_step (x0 y0 x1 y1 : Q) (ring : list Point) :
  ∃ x0' y0' x1' y1' : Q,
    foldl (fun bbox p =>
             let '(x0, y0, x1, y1) := bbox in
             (numMin x0 (x p), numMin y0 (y p), numMax x1 (x p), numMax y1 (y p)))
          (Finite x0, Finite y0, Finite x1, Finite y1) ring =
      (Finite x0', Finite y0', Finite x1', Finite y1') ∧
    (x0' <= x0 ∧ y0' <= y0 ∧ x1 <= x1' ∧ y1 <= y1') ∧
    Forall (fun q => x0' <= x q ∧ x q <= x1' ∧ y0' <= y q ∧ y q <= y1') ring ∧
    (x0' = x0 ∨ ∃ q, q ∈ ring ∧ x q = x0') ∧
    (y0' = y0 ∨ ∃ q, q ∈ ring ∧ y q = y0') ∧
    (x1' = x1 ∨ ∃ q, q ∈ ring ∧ x q = x1') ∧
    (y1' = y1 ∨ ∃ q, q ∈ ring ∧ y q = y1').
Proof.
  revert x0 y0 x1 y1. induction ring as [|q ring IH]; intros x0 y0 x1 y1.
  - exists x0, y0, x1, y1. split; [done|]. split; [repeat split; lra|].
    split; [constructor|]. repeat split; by left.
  - cbn [foldl numMin numMax].
    destruct (IH (if Qle_bool x0 (x q) then x0 else x q)
                 (if Qle_bool y0 (y q) then y0 else y q)
                 (if Qle_bool x1 (x q) then x q else x1)
                 (if Qle_bool y1 (y q) then y q else y1))
      as (x0' & y0' & x1' & y1' & -> & (Hx0 & Hy0 & Hx1 & Hy1) & Hall &
          Ax0 & Ay0 & Ax1 & Ay1).
    exists x0', y0', x1', y1'. split; [done|].
    assert (Hone : ∀ a b : Q, (if Qle_bool a b then a else b) <= a ∧
                              (if Qle_bool a b then a else b) <= b).
    { intros a b. destruct (Qle_bool a b) eqn:E.
      - apply Qle_bool_iff in E. split; lra.
      - apply Qle_bool_false in E. split; lra. }
    assert (Htwo : ∀ a b : Q, a <= (if Qle_bool a b then b else a) ∧
                              b <= (if Qle_bool a b then b else a)).
    { intros a b. destruct (Qle_bool a b) eqn:E.
      - apply Qle_bool_iff in E. split; lra.
      - apply Qle_bool_false in E. split; lra. }
    pose proof (Hone x0 (x q)). pose proof (Hone y0 (y q)).
    pose proof (Htwo x1 (x q)). pose proof (Htwo y1 (y q)).
    split; [repeat split; lra|]. split.
    { constructor; [repeat split; lra|done]. }
    assert (Hin : ∀ P : Point → Prop, (∃ r, r ∈ ring ∧ P r) → ∃ r, r ∈ q :: ring ∧ P r).
    { intros P (r & Hr & HP). exists r. split; [by right|done]. }
    repeat split.
    + destruct Ax0 as [->|H']; [|right; by apply Hin].
      destruct (Qle_bool x0 (x q)); [by left|right]. exists q. split; [by left|done].
    + destruct Ay0 as [->|H']; [|right; by apply Hin].
      destruct (Qle_bool y0 (y q)); [by left|right]. exists q. split; [by left|done].
    + destruct Ax1 as [->|H']; [|right; by apply Hin].
      destruct (Qle_bool x1 (x q)); [right|by left]. exists q. split; [by left|done].
    + destruct Ay1 as [->|H']; [|right; by apply Hin].
      destruct (Qle_bool y1 (y q)); [right|by left]. exists q. split; [by left|done].
Qed.

(** X17.  The bounding box that [insert] gives to the grid for a ring, and
    [query] computes for the query geometry: for an empty ring it is
    [[Infinity, Infinity, -Infinity, -Infinity]]; for any other ring it is
    finite, holds every point of the ring, and each of its four sides
    passes through a point of the ring. *)
Theorem boundingBox_is_tight ring :
  boundingBox [] = (Infinity, Infinity, NegInfinity, NegInfinity) ∧
  (ring ≠ [] →
   ∃ x0 y0 x1 y1 : Q,
     boundingBox ring = (Finite x0, Finite y0, Finite x1, Finite y1) ∧
     Forall (fun q => x0 <= x q ∧ x q <= x1 ∧ y0 <= y q ∧ y q <= y1) ring ∧
     (∃ q, q ∈ ring ∧ x q = x0) ∧ (∃ q, q ∈ ring ∧ y q = y0) ∧
     (∃ q, q ∈ ring ∧ x q = x1) ∧ (∃ q, q ∈ ring ∧ y q = y1)).
Proof.
  split; [done|]. intros Hne. destruct ring as [|p ring]; [done|].
  unfold boundingBox. cbn [foldl numMin numMax].
  destruct (boundingBox_step (x p) (y p) (x p) (y p) ring)
    as (x0 & y0 & x1 & y1 & -> & (Hx0 & Hy0 & Hx1 & Hy1) & Hall &
        Ax0 & Ay0 & Ax1 & Ay1).
  exists x0, y0, x1, y1. split; [done|]. split.
  { constructor; [repeat split; lra|done]. }
  assert (Hin : ∀ P : Point → Prop, (∃ r, r ∈ ring ∧ P r) → ∃ r, r ∈ p :: ring ∧ P r).
  { intros P (r & Hr & HP). exists r. split; [by right|done]. }
  repeat split.
  - destruct Ax0 as [->|H']; [exists p; split; [by left|done]|by apply Hin].
  - destruct Ay0 as [->|H']; [exists p; split; [by left|done]|by apply Hin].
  - destruct Ax1 as [->|H']; [exists p; split; [by left|done]|by apply Hin].
  - destruct Ay1 as [->|H']; [exists p; split; [by left|done]|by apply Hin].
Qed.

Lemma boundingBox_is_tight_witness :
  ∃ x0 y0 x1 y1 : Q,
    boundingBox [mkPoint 3 1; mkPoint (-2) 7; mkPoint 0 0] =
      (Finite x0, Finite y0, Finite x1, Finite y1) ∧
    Forall (fun q => x0 <= x q ∧ x q <= x1 ∧ y0 <= y q ∧ y q <= y1)
           [mkPoint 3 1; mkPoint (-2) 7; mkPoint 0 0].
Proof.
  destruct (proj2 (boundingBox_is_tight [mkPoint 3 1; mkPoint (-2) 7; mkPoint 0 0]))
    as (x0 & y0 & x1 & y1 & H & Hall & _); [discriminate|].
  exists x0, y0, x1, y1. split; [exact H|exact Hall].
Defined.

End BoundingBoxFacts.

Section TreeQueryFacts.
Import Geometry FeatureTree TreeQueries.
Local Open Scope Q_scope.

Context (W : World).

Lemma translateLoop_lookup k : ∀ geom t i q,
  geom !! i = Some q →
  ∃ q', translateLoop geom t k !! i = Some q' ∧
        x q' == x q - x t * Qpow k (S i) ∧ y q' == y q - y t * Qpow k (S i).
Proof.
  induction geom as [|q0 rest IH]; intros t i q Hq; [done|].
  cbn [translateLoop]. destruct i as [|i].
  - injection Hq as ->. eexists. split; [reflexivity|].
    unfold sub, mult. cbn [x y Qpow]. split; ring.
  - destruct (IH (mult t k) i q Hq) as (q' & Hq' & Hx & Hy).
    exists q'. split; [done|]. rewrite Hx, Hy.
    unfold mult. cbn [x y Qpow]. split; ring.
Qed.

Lemma translateLoop_length k : ∀ geom t,
  length (translateLoop geom t k) = length geom.
Proof.
  induction geom as [|q0 rest IH]; intros t; [done|].
  cbn [translateLoop length]. by rewrite IH.
Qed.

(** X18.  [translate] returns the query geometry itself when both
    components of the translation are zero.  Otherwise it returns as many
    points as it was given, and, because [translate._mult(pixelsToTileUnits)]
    scales the translation in place at every turn of the loop, the point of
    index [i] is moved back by the translation (rotated by [-bearing] for the
    viewport anchor) times [pixelsToTileUnits] to the power [i + 1]; only for
    [pixelsToTileUnits = 1] are all points moved by the same vector. *)
Theorem translate_scales_in_place queryGeometry (tr : Q * Q) anchor bearing k :
  let t1 := if bool_decide (anchor = "viewport")
            then rotate W (mkPoint tr.1 tr.2) (- bearing)
            else mkPoint tr.1 tr.2 in
  (tr.1 == 0 → tr.2 == 0 →
   translate W queryGeometry tr anchor bearing k = queryGeometry) ∧
  (¬ (tr.1 == 0 ∧ tr.2 == 0) →
   length (translate W queryGeometry tr anchor bearing k) = length queryGeometry ∧
   ∀ i q, queryGeometry !! i = Some q →
     ∃ q', translate W queryGeometry tr anchor bearing k !! i = Some q' ∧
           x q' == x q - x t1 * Qpow k (S i) ∧
           y q' == y q - y t1 * Qpow k (S i)).
Proof.
  intros t1. unfold translate. split.
  - intros H1 H2. apply Qeq_bool_iff in H1, H2. by rewrite H1, H2.
  - intros Hnz.
    assert (Hz : Qeq_bool tr.1 0 && Qeq_bool tr.2 0 = false).
    { apply not_true_is_false. intros H. apply andb_true_iff in H as [H1 H2].
      apply Qeq_bool_iff in H1, H2. auto. }
    rewrite Hz. fold t1. split; [apply translateLoop_length|].
    intros i q Hq. by apply translateLoop_lookup.
Qed.

End TreeQueryFacts.

Lemma translate_scales_in_place_witness :
  ∃ q', FeatureTree.translate FeatureTree.listWorld
          [Geometry.mkPoint 10 10; Geometry.mkPoint 20 20] (1, 2)%Q "map" 0%Q 16%Q
          !! 1%nat = Some q' ∧
        (Geometry.x q' == 20 - 1 * TreeQueries.Qpow 16 2)%Q ∧
        (Geometry.y q' == 20 - 2 * TreeQueries.Qpow 16 2)%Q.
Proof.
  destruct (proj2 (translate_scales_in_place FeatureTree.listWorld
                     [Geometry.mkPoint 10 10; Geometry.mkPoint 20 20]
                     (1, 2)%Q "map" 0%Q 16%Q)) as [_ H].
  - intros [H _]. vm_compute in H. discriminate.
  - exact (H 1%nat (Geometry.mkPoint 20 20) eq_refl).
Defined.

Section QueryResultFacts.
Import Geometry FeatureTree TreeQueries.
Local Open Scope Q_scope.

Context (W : World).

Lemma matchLayers_labelled (t : Tree W) feature styleLayers filterLayerIDs
    queryGeometry bearing p2t layerIDs :
  ∀ geometry result,
    labelled W t styleLayers filterLayerIDs result →
    labelled W t styleLayers filterLayerIDs
      (matchLayers W t feature layerIDs geometry queryGeometry filterLayerIDs
         styleLayers bearing p2t result).
Proof.
  induction layerIDs as [|layerID rest IH]; intros geometry result Hr; [done|].
  cbn [matchLayers].
  destruct (match filterLayerIDs with
            | Some ids => negb (bool_decide (layerID ∈ ids))
            | None => false
            end) eqn:Hex; [by apply IH|].
  destruct (styleLayers !! layerID) as [styleLayer|] eqn:Hsl; [|by apply IH].
  destruct (if bool_decide (layerType styleLayer = "symbol") then (geometry, true)
            else let g := default (loadGeometry W feature) geometry in
                 let '(g', hit) := narrowPhase W styleLayer queryGeometry g bearing p2t in
                 (Some g', hit)) as [geometry' [|]]; [|by apply IH].
  apply IH. intros id fs Hfs.
  destruct (decide (id = layerID)) as [->|Hne].
  - rewrite lookup_insert_eq in Hfs. injection Hfs as <-.
    split; [by destruct (default [] (result !! layerID))|]. split.
    + intros ids ->. apply negb_false_iff in Hex. by apply bool_decide_eq_true in Hex.
    + apply Forall_app. split.
      * destruct (result !! layerID) as [old|] eqn:Hold; [|constructor].
        by destruct (Hr layerID old Hold) as (_ & _ & ?).
      * by repeat constructor.
  - rewrite lookup_insert_ne in Hfs by done. by apply Hr.
Qed.

Lemma filterMatching_labelled (t : Tree W) layers array queryGeometry filter
    filterLayerIDs styleLayers bearing p2t matching :
  ∀ result previousIndex r,
    labelled W t styleLayers filterLayerIDs result →
    filterMatching W t layers result matching previousIndex array queryGeometry
      filter filterLayerIDs styleLayers bearing p2t = Some r →
    labelled W t styleLayers filterLayerIDs r.
Proof.
  induction matching as [|index rest IH]; intros result previousIndex r Hr H.
  - injection H as <-. done.
  - cbn [filterMatching] in H.
    destruct (bool_decide (previousIndex = Some index)); [by eapply IH|].
    destruct (array index) as [match_|]; [|done]. cbn [mbind option_bind] in H.
    destruct (bucketLayerIDs W t) as [ids|]; [|done]. cbn [mbind option_bind] in H.
    destruct (match filterLayerIDs with
              | Some f => negb <$> arraysIntersect f (ids !! bucketIndex match_)
              | None => Some false
              end) as [[|]|]; cbn [mbind option_bind] in H; [by eapply IH| |done].
    destruct (at_ (layerNames W layers) (sourceLayerIndex match_)) as [name|];
      [|done]. cbn [mbind option_bind] in H.
    destruct (layerOf W layers name) as [layer|]; [|done].
    cbn [mbind option_bind] in H.
    destruct (featureOf W layer (featureIndex match_)) as [feature|]; [|done].
    cbn [mbind option_bind] in H.
    destruct (negb (filter feature)); [by eapply IH|].
    destruct (ids !! bucketIndex match_) as [layerIDs|]; [|done].
    cbn [mbind option_bind] in H.
    eapply IH; [|exact H]. by apply matchLayers_labelled.
Qed.

(** X19.  Whatever the helper classes do, a result that [query] returns
    lists features only under ids of style layers that were passed in
    [styleLayers] and, when [params.layers] is given, that are named there;
    no list in it is empty; and every feature in the list of a layer
    carries that style layer and the [z], [x], [y] of the tile. *)
Theorem query_reports_requested_layers args styleLayers (t : Tree W) r :
  (query W args styleLayers t).1 = Some r →
  ∀ layerID fs, r !! layerID = Some fs →
    fs ≠ [] ∧
    (∀ ids, layersParam W args = Some ids → layerID ∈ ids) ∧
    Forall (fun g => styleLayers !! layerID = Some (g_layer W g) ∧
                     g_z W g = tz W t ∧ g_x W g = tx W t ∧ g_y W g = ty W t) fs.
Proof.
  unfold query.
  destruct (match vtLayers W t with
            | Some layers => Some layers
            | None => decodeTile W (rawTileData W t)
            end) as [layers|]; [|done].
  destruct (boundingBox (queryGeometry W args)) as [[[minX minY] maxX] maxY].
  cbn [fst]. set (t' := mkTree W _ _ _ _ _ _ _ _ _ _ _).
  intros H.
  destruct (filterMatching W t' layers ∅ _ None (at_ (featureIndexArray W t)) _ _ _ _ _ _)
    as [r1|] eqn:H1; [|done].
  cbn [mbind option_bind] in H.
  destruct (collisionTile W t) as [ct|]; [|done]. cbn [mbind option_bind] in H.
  assert (Hr1 : labelled W t' styleLayers (layersParam W args) r1).
  { eapply filterMatching_labelled; [|exact H1]. intros id fs Hfs.
    by rewrite lookup_empty in Hfs. }
  exact (filterMatching_labelled _ _ _ _ _ _ _ _ _ _ _ _ _ Hr1 H).
Qed.

(** The loop of [filterMatching] passes over an index that repeats its
    predecessor. *)
Lemma filterMatching_dedup (t : Tree W) layers array queryGeometry filter
    filterLayerIDs styleLayers bearing p2t matching :
  ∀ result previousIndex,
    filterMatching W t layers result matching previousIndex array queryGeometry
      filter filterLayerIDs styleLayers bearing p2t =
    filterMatching W t layers result (dedupAdjacent previousIndex matching)
      previousIndex array queryGeometry filter filterLayerIDs styleLayers
      bearing p2t.
Proof.
  induction matching as [|index rest IH]; intros result previousIndex; [done|].
  cbn [dedupAdjacent].
  destruct (bool_decide (previousIndex = Some index)) eqn:Hprev.
  - apply bool_decide_eq_true in Hprev as ->.
    cbn [filterMatching]. rewrite bool_decide_eq_true_2 by done. apply IH.
  - cbn [filterMatching]. rewrite Hprev.
    destruct (array index) as [match_|]; [|done]. cbn [mbind option_bind].
    destruct (bucketLayerIDs W t) as [ids|]; [|done]. cbn [mbind option_bind].
    destruct (match filterLayerIDs with
              | Some f => negb <$> arraysIntersect f (ids !! bucketIndex match_)
              | None => Some false
              end) as [[|]|]; cbn [mbind option_bind]; [apply IH| |done].
    destruct (at_ (layerNames W layers) (sourceLayerIndex match_)) as [name|];
      [|done]. cbn [mbind option_bind].
    destruct (layerOf W layers name) as [layer|]; [|done]. cbn [mbind option_bind].
    destruct (featureOf W layer (featureIndex match_)) as [feature|]; [|done].
    cbn [mbind option_bind].
    destruct (negb (filter feature)); [apply IH|].
    destruct (ids !! bucketIndex match_) as [layerIDs|]; [|done].
    cbn [mbind option_bind]. apply IH.
Qed.

End QueryResultFacts.

Section SortedKeys.
Import FeatureTree TreeQueries.
Local Open Scope Z_scope.

#[local] Instance Zge_total : Total Z.ge.
Proof. intros a b. lia. Qed.

#[local] Instance Zge_trans : Transitive Z.ge.
Proof. intros a b c. lia. Qed.

(** On a list in descending order, dropping the repeats leaves a strictly
    descending list of the keys that differ from the one before the list. *)
Lemma dedupAdjacent_sorted l : ∀ previous,
  StronglySorted Z.ge l →
  (∀ p k, previous = Some p → k ∈ l → k <= p) →
  StronglySorted Z.gt (dedupAdjacent previous l) ∧
  ∀ k, k ∈ dedupAdjacent previous l ↔ k ∈ l ∧ previous ≠ Some k.
Proof.
  induction l as [|k0 rest IH]; intros previous Hs Hb.
  - split; [constructor|]. intros k. cbn. rewrite elem_of_nil. tauto.
  - apply StronglySorted_inv in Hs as [Hrest Hall].
    rewrite Forall_forall in Hall. cbn [dedupAdjacent].
    destruct (bool_decide (previous = Some k0)) eqn:E.
    + apply bool_decide_eq_true in E.
      destruct (IH previous Hrest) as [Hs' Hel].
      { intros p k Hp Hk. apply (Hb p k Hp). by right. }
      split; [done|]. intros k. rewrite Hel, elem_of_cons. split.
      * intros [? ?]. auto.
      * intros [[->|?] Hne]; [done|auto].
    + apply bool_decide_eq_false in E.
      destruct (IH (Some k0) Hrest) as [Hs' Hel].
      { intros p k [= <-] Hk. specialize (Hall k Hk). lia. }
      split.
      * constructor; [done|]. apply Forall_forall. intros k Hk.
        apply Hel in Hk as [Hk Hne]. specialize (Hall k Hk).
        assert (k ≠ k0) by congruence. lia.
      * intros k. rewrite !elem_of_cons, Hel. split.
        -- intros [->|[Hk Hne]]; [auto|]. split; [auto|].
           intros ->. specialize (Hall k Hk).
           assert (k <= k0) by lia. assert (k0 <= k) by (eapply Hb; [done|by left]).
           assert (k ≠ k0) by congruence. lia.
        -- intros [[->|Hk] Hne]; [auto|].
           destruct (decide (k = k0)) as [->|Hkk]; [auto|right].
           split; [done|congruence].
Qed.

(** Two strictly descending lists with the same elements are equal. *)
Lemma strictly_descending_unique l : ∀ l',
  StronglySorted Z.gt l → StronglySorted Z.gt l' →
  (∀ k, k ∈ l ↔ k ∈ l') → l = l'.
Proof.
  induction l as [|a l IH]; intros l' Hs Hs' Hel.
  - destruct l' as [|b l']; [done|].
    exfalso. eapply elem_of_nil. apply Hel. by left.
  - destruct l' as [|b l'].
    { exfalso. eapply elem_of_nil. apply Hel. by left. }
    apply StronglySorted_inv in Hs as [Hs Ha].
    apply StronglySorted_inv in Hs' as [Hs' Hb].
    rewrite Forall_forall in Ha, Hb.
    assert (a = b) as ->.
    { assert (Ha' : a ∈ b :: l') by (apply Hel; by left).
      assert (Hb' : b ∈ a :: l) by (apply Hel; by left).
      apply elem_of_cons in Ha' as [?|Ha']; [done|].
      apply elem_of_cons in Hb' as [?|Hb']; [done|].
      specialize (Ha b Hb'). specialize (Hb a Ha'). lia. }
    f_equal. apply IH; [done..|]. intros k. split; intros Hk.
    + assert (Hk' : k ∈ b :: l') by (apply Hel; by right).
      apply elem_of_cons in Hk' as [->|?]; [|done].
      specialize (Ha b Hk). lia.
    + assert (Hk' : k ∈ b :: l) by (apply Hel; by right).
      apply elem_of_cons in Hk' as [->|?]; [|done].
      specialize (Hb b Hk). lia.
Qed.

Lemma sortTopDown_dedup l l' :
  sameKeys l l' →
  dedupAdjacent None (sortTopDown l) = dedupAdjacent None (sortTopDown l').
Proof.
  intros Hsame. unfold sortTopDown.
  destruct (dedupAdjacent_sorted (merge_sort Z.ge l) None) as [Hs Hel].
  { apply (StronglySorted_merge_sort _). }
  { done. }
  destruct (dedupAdjacent_sorted (merge_sort Z.ge l') None) as [Hs' Hel'].
  { apply (StronglySorted_merge_sort _). }
  { done. }
  apply strictly_descending_unique; [done..|].
  intros k. rewrite Hel, Hel', !merge_sort_Permutation. split.
  - intros [Hk ?]. split; [by apply Hsame|done].
  - intros [Hk ?]. split; [by apply Hsame|done].
Qed.

End SortedKeys.

Section QueryOrderFacts.
Import Geometry FeatureTree TreeQueries.
Local Open Scope Q_scope.

Context (W : World).

(** X20.  [filterMatching] examines an index that repeats its predecessor
    only once; and since [query] sorts the keys that the grid returns in
    descending order, which brings equal keys together, the first pass of a
    query depends only on which keys the grid returns, not on their order or
    on how often each is returned (a feature is inserted once for each of
    its rings). *)
Theorem query_ignores_repeated_keys (t : Tree W) layers array queryGeometry filter
    filterLayerIDs styleLayers bearing p2t result :
  (∀ matching previousIndex,
     filterMatching W t layers result matching previousIndex array queryGeometry
       filter filterLayerIDs styleLayers bearing p2t =
     filterMatching W t layers result (dedupAdjacent previousIndex matching)
       previousIndex array queryGeometry filter filterLayerIDs styleLayers
       bearing p2t) ∧
  (∀ l l', sameKeys l l' →
     filterMatching W t layers result (sortTopDown l) None array queryGeometry
       filter filterLayerIDs styleLayers bearing p2t =
     filterMatching W t layers result (sortTopDown l') None array queryGeometry
       filter filterLayerIDs styleLayers bearing p2t).
Proof.
  split.
  - intros matching previousIndex. apply filterMatching_dedup.
  - intros l l' Hsame.
    rewrite (filterMatching_dedup W t layers array queryGeometry filter
               filterLayerIDs styleLayers bearing p2t (sortTopDown l)).
    rewrite (filterMatching_dedup W t layers array queryGeometry filter
               filterLayerIDs styleLayers bearing p2t (sortTopDown l')).
    by rewrite (sortTopDown_dedup l l' Hsame).
Qed.



End QueryOrderFacts.

Lemma query_reports_requested_layers_witness :
  ∃ r, (FeatureTree.query FeatureTree.listWorld FeatureTree.aroundPoi
          FeatureTree.circleLayers FeatureTree.poiTree).1 = Some r ∧
       ∀ layerID fs, r !! layerID = Some fs →
         fs ≠ [] ∧ is_Some (FeatureTree.circleLayers !! layerID).
Proof.
  destruct (FeatureTree.query FeatureTree.listWorld FeatureTree.aroundPoi
              FeatureTree.circleLayers FeatureTree.poiTree).1 as [r|] eqn:E.
  - exists r. split; [done|]. intros layerID fs Hfs.
    destruct (query_reports_requested_layers FeatureTree.listWorld _ _ _ _ E
                layerID fs Hfs) as (Hne & _ & Hall).
    split; [done|]. destruct fs as [|g fs]; [done|].
    apply Forall_cons in Hall as [[Hg _] _]. by rewrite Hg.
  - vm_compute in E. discriminate.
Defined.

Lemma query_ignores_repeated_keys_witness :
  FeatureTree.filterMatching FeatureTree.listWorld FeatureTree.poiTree
    FeatureTree.poiTile ∅ (FeatureTree.sortTopDown [0; 1; 0]%Z) None
    (FeatureTree.at_ (FeatureTree.featureIndexArray FeatureTree.listWorld
                        FeatureTree.poiTree))
    [Geometry.mkPoint 11 11] (fun _ => true) None FeatureTree.circleLayers 0%Q 16%Q =
  FeatureTree.filterMatching FeatureTree.listWorld FeatureTree.poiTree
    FeatureTree.poiTile ∅ (FeatureTree.sortTopDown [1; 0]%Z) None
    (FeatureTree.at_ (FeatureTree.featureIndexArray FeatureTree.listWorld
                        FeatureTree.poiTree))
    [Geometry.mkPoint 11 11] (fun _ => true) None FeatureTree.circleLayers 0%Q 16%Q.
Proof.
  apply (query_ignores_repeated_keys FeatureTree.listWorld).
  intros k. rewrite !elem_of_cons, !elem_of_nil. tauto.
Defined.


(** ** The worker tile: what a whole parse does *)

Section ParseTraceFacts.
Import WorkerTile ParseTrace.
Local Open Scope nat_scope.

Lemma populates_app l l' : populates (l ++ l') = populates l ++ populates l'.
Proof. apply omap_app. Qed.

Lemma populates_populate bs : populates (PopulateBuffers <$> bs) = bs.
Proof.
  unfold populates. induction bs as [|b bs IH]; [done|].
  cbn. f_equal. exact IH.
Qed.

Lemma populates_placement acts :
  Forall (fun a => isPlacement a = true) acts → populates acts = [].
Proof.
  induction 1 as [|a acts Ha _ IH]; [done|].
  destruct a; try done; cbn; exact IH.
Qed.

(** What one event adds to the log: of tessellations, symbol buckets only. *)
Lemma handle_populates m ev :
  Forall (fun b => isSymbol b = true) (symbolBuckets (tile m)) →
  ∃ acts, log (handle m ev) = log m ++ acts ∧
          populates acts = symbolPopulates acts ∧
          symbolBuckets (tile (handle m ev)) = symbolBuckets (tile m) ∧
          buckets (handle m ev) = buckets m ∧
          (∀ r, Callback None (Some r) ∈ acts → r = serialized (buckets m)).
Proof.
  intros Hsym.
  assert (Hgot : ∀ dep err,
    ∃ acts, log (gotDependency dep err m) = log m ++ acts ∧
            populates acts = symbolPopulates acts ∧
            symbolBuckets (tile (gotDependency dep err m)) = symbolBuckets (tile m) ∧
            buckets (gotDependency dep err m) = buckets m ∧
            (∀ r, Callback None (Some r) ∈ acts → r = serialized (buckets m))).
  { intros dep err. unfold gotDependency. destruct err as [e|].
    - exists [GotDependency dep (Some e); Callback (Some e) None].
      cbn [emit log tile buckets]. rewrite <- app_assoc.
      repeat split; try done.
      intros r Hr. repeat (apply elem_of_cons in Hr as [Hr|Hr]; [done|]).
      by apply elem_of_nil in Hr.
    - cbn [emit deps tile buckets log].
      destruct (S (deps m) =? 2).
      + rewrite parseBuckets_spec.
        set (m3 := emit _ _).
        destruct (done_spec m3) as (acts & Hacts & Hlog & _ & Hb & _ & Hs & _).
        exists ([GotDependency dep None] ++
                (PopulateBuffers <$> rev (symbolBuckets (tile m))) ++
                acts ++ [Callback None (Some (serialized (buckets m)))]).
        rewrite Hlog, Hs, Hb. cbn [m3 emit log tile buckets].
        rewrite <- !app_assoc. repeat split; try done.
        * rewrite !populates_app, !symbolPopulates_app.
          rewrite populates_populate, symbolPopulates_populate
            by (by apply Forall_rev).
          rewrite (populates_placement acts Hacts).
          by destruct (placement_quiet acts Hacts) as (-> & _).
        * intros r Hr. rewrite !elem_of_app in Hr.
          destruct Hr as [Hr|[Hr|[Hr|Hr]]].
          -- apply list_elem_of_singleton in Hr. done.
          -- apply list_elem_of_fmap in Hr as (b & ? & _). done.
          -- rewrite Forall_forall in Hacts. by specialize (Hacts _ Hr).
          -- apply list_elem_of_singleton in Hr. by injection Hr.
      + exists [GotDependency dep None]. cbn [log tile buckets].
        repeat split; try done.
        intros r Hr. by apply list_elem_of_singleton in Hr. }
  destruct ev as [err|err|a p s]; cbn [handle]; [apply Hgot..|].
  pose proof (redoPlacement_placement a p s (tile m)) as Hacts.
  pose proof (redoPlacement_symbolBuckets a p s (tile m)) as Hs.
  destruct (redoPlacement a p s (tile m)) as [[res t'] acts].
  cbn [fst snd] in *. exists acts. cbn [emit withTile log tile buckets].
  repeat split; try done.
  - rewrite (populates_placement acts Hacts).
    by destruct (placement_quiet acts Hacts) as (-> & _).
  - intros r Hr. rewrite Forall_forall in Hacts. by specialize (Hacts _ Hr).
Qed.

Lemma run_populates evs : ∀ m,
  Forall (fun b => isSymbol b = true) (symbolBuckets (tile m)) →
  ∃ acts, log (run m evs) = log m ++ acts ∧
          populates acts = symbolPopulates acts ∧
          buckets (run m evs) = buckets m ∧
          (∀ r, Callback None (Some r) ∈ acts → r = serialized (buckets m)).
Proof.
  induction evs as [|ev evs IH]; intros m Hsym.
  - exists []. cbn. rewrite app_nil_r. repeat split; try done.
    intros r Hr. by apply elem_of_nil in Hr.
  - destruct (handle_populates m ev Hsym) as (acts1 & Hlog1 & Hp1 & Hs1 & Hb1 & Hr1).
    destruct (IH (handle m ev)) as (acts2 & Hlog2 & Hp2 & Hb2 & Hr2).
    { by rewrite Hs1. }
    exists (acts1 ++ acts2).
    change (run m (ev :: evs)) with (run (handle m ev) evs).
    rewrite Hlog2, Hlog1, <- app_assoc, Hb2, Hb1.
    repeat split; try done.
    + by rewrite populates_app, symbolPopulates_app, Hp1, Hp2.
    + intros r Hr. apply elem_of_app in Hr as [Hr|Hr]; [by apply Hr1|].
      rewrite <- Hb1. by apply Hr2.
Qed.

(** The log of the synchronous part of [parse]. *)
Lemma parse_log bucketsById t :
  populates (log (parse bucketsById t)) = rev (othersOf bucketsById) ∧
  symbolPopulates (log (parse bucketsById t)) = [] ∧
  buckets (parse bucketsById t) = nonEmptyOf bucketsById ∧
  symbolBuckets (tile (parse bucketsById t)) = symbolsOf bucketsById ∧
  (∀ r, Callback None (Some r) ∈ log (parse bucketsById t) →
        r = serialized (nonEmptyOf bucketsById)) ∧
  countb isResult (log (parse bucketsById t)) =
    (if bool_decide (symbolsOf bucketsById = []) then 1 else 0) ∧
  status (tile (parse bucketsById t)) =
    (if bool_decide (symbolsOf bucketsById = []) then Done else Parsing).
Proof.
  unfold parse, othersOf, symbolsOf, nonEmptyOf.
  set (nonEmpty := filter (fun b => featureCount b ≠ 0) bucketsById).
  set (others := filter (fun b => isSymbol b = false) nonEmpty).
  assert (Hothers : Forall (fun b => isSymbol b = false) (rev others)).
  { apply Forall_rev. apply Forall_forall. intros b Hb.
    by apply list_elem_of_filter in Hb as [? _]. }
  destruct (filter (fun b => isSymbol b = true) nonEmpty) as [|s0 symbols'] eqn:Hsym.
  - rewrite parseBuckets_spec. set (m2 := emit _ _).
    destruct (done_spec m2) as (acts & Hacts & Hlog & _ & Hb & Hst & Hs & _).
    rewrite Hlog, Hb, Hs, Hst. cbn [m2 emit log tile buckets symbolBuckets].
    rewrite !populates_app, !symbolPopulates_app, populates_populate.
    rewrite (symbolPopulates_others _ Hothers), (populates_placement acts Hacts).
    destruct (placement_quiet acts Hacts) as (-> & _ & _ & _ & Hres).
    rewrite app_nil_r. repeat split; try done.
    + intros r Hr. rewrite !elem_of_app in Hr.
      destruct Hr as [[Hr|Hr]|[Hr|Hr]].
      * by apply list_elem_of_singleton in Hr.
      * by apply list_elem_of_fmap in Hr as (b & ? & _).
      * rewrite Forall_forall in Hacts. by specialize (Hacts _ Hr).
      * apply list_elem_of_singleton in Hr. by injection Hr.
    + rewrite !countb_app, Hres, countb_populate by done. done.
  - rewrite bool_decide_eq_false_2 by done.
    rewrite parseBuckets_spec.
    destruct (collectIcons (s0 :: symbols')) as [|i0 icons'];
      cbn [gotDependency emit log tile buckets symbolBuckets deps Nat.eqb status];
      rewrite !populates_app, !symbolPopulates_app, populates_populate,
        (symbolPopulates_others _ Hothers), !countb_app, countb_populate by done;
      (repeat split; try done);
      intros r Hr; apply elem_of_app in Hr as [Hr|Hr];
      try (by apply list_elem_of_fmap in Hr as (b & ? & _));
      cbn [app] in Hr;
      repeat (apply elem_of_cons in Hr as [Hr|Hr]; [done|]);
      by apply elem_of_nil in Hr.
Qed.


Lemma elem_of_rev_list {A} (l : list A) a : a ∈ rev l ↔ a ∈ l.
Proof. rewrite !list_elem_of_In. symmetry. apply in_rev. Qed.

(** Without symbol buckets no request is sent, so under the callback
    contract the events are requests for placement only, and what they add
    to the log are placement actions. *)
Lemma run_without_symbols bucketsById t evs :
  symbolsOf bucketsById = [] →
  respectsContract (parse bucketsById t) evs →
  ∃ acts, log (run (parse bucketsById t) evs) = log (parse bucketsById t) ++ acts ∧
          Forall (fun a => isPlacement a = true) acts.
Proof.
  intros Hnone [HG HI].
  rewrite parse_sends_nothing in HG, HI by done.
  assert (Hredo : Forall (fun ev => isRedoRequest ev = true) evs).
  { apply Forall_forall. intros ev Hev. destruct ev as [err|err|a p s]; [| |done].
    - pose proof (countb_in (answers Glyphs) _ _ Hev eq_refl).
      unfold answered in HG. lia.
    - pose proof (countb_in (answers Icons) _ _ Hev eq_refl).
      unfold answered in HI. lia. }
  clear HG HI. generalize (parse bucketsById t). intros m.
  revert m. induction Hredo as [|ev evs Hev _ IH]; intros m.
  - exists []. by rewrite app_nil_r.
  - destruct ev as [err|err|a p s]; try done.
    destruct (IH (handle m (RedoPlacementRequest a p s))) as (acts & Hlog & Hacts).
    change (run m (RedoPlacementRequest a p s :: evs))
      with (run (handle m (RedoPlacementRequest a p s)) evs).
    rewrite Hlog. cbn [handle].
    pose proof (redoPlacement_placement a p s (tile m)) as Hacts1.
    destruct (redoPlacement a p s (tile m)) as [[res t'] acts1].
    cbn [fst snd emit withTile log] in *.
    exists (acts1 ++ acts). rewrite <- app_assoc. split; [done|].
    by apply Forall_app.
Qed.

(** X22.  Under the callback contract, the buckets that a parse has
    tessellated are, in this order: the non-empty buckets that are not
    symbol buckets, in reverse enumeration order, tessellated by [parse]
    itself before any answer; then, once both dependencies have completed,
    the non-empty symbol buckets in reverse enumeration order.  No bucket is
    tessellated twice, and a bucket without features never is. *)
Theorem parse_populates_each_bucket_once bucketsById t evs :
  respectsContract (parse bucketsById t) evs →
  populates (log (run (parse bucketsById t) evs)) =
    rev (othersOf bucketsById) ++
    (if completions (log (run (parse bucketsById t) evs)) =? 2
     then rev (symbolsOf bucketsById) else []) ∧
  ∀ b, featureCount b = 0 → b ∉ populates (log (run (parse bucketsById t) evs)).
Proof.
  intros Hcontract.
  assert (Hpop : populates (log (run (parse bucketsById t) evs)) =
    rev (othersOf bucketsById) ++
    (if completions (log (run (parse bucketsById t) evs)) =? 2
     then rev (symbolsOf bucketsById) else [])).
  { destruct (parse_log bucketsById t) as (Hp & Hsp & _ & Hsb & _).
    destruct (run_populates evs (parse bucketsById t)) as (acts & Hlog & Hacts & _).
    { rewrite Hsb. apply symbolsOf_symbols. }
    assert (Hsplit : populates (log (run (parse bucketsById t) evs)) =
                     rev (othersOf bucketsById) ++
                     symbolPopulates (log (run (parse bucketsById t) evs))).
    { by rewrite Hlog, populates_app, symbolPopulates_app, Hp, Hsp, Hacts. }
    rewrite Hsplit. f_equal.
    destruct (decide (symbolsOf bucketsById = [])) as [Hnone|Hne].
    - destruct (run_without_symbols bucketsById t evs Hnone Hcontract)
        as (acts' & Hlog' & Hacts').
      rewrite Hlog', symbolPopulates_app, Hsp, Hnone.
      destruct (placement_quiet acts' Hacts') as (-> & _).
      by destruct (_ =? 2).
    - pose proof (parse_invariant bucketsById t evs Hne Hcontract) as Hinv0.
      assert (Hinv : Invariant (symbolsOf bucketsById)
                       (run (parse bucketsById t) evs) []).
      { apply run_invariant; [apply symbolsOf_symbols|]. by rewrite app_nil_r. }
      destruct Hinv as [_ _ Hd _ _ Hpops _ _]. by rewrite <- Hd. }
  split; [exact Hpop|].
  intros b Hb Hin. rewrite Hpop in Hin.
  assert (Hne : b ∈ nonEmptyOf bucketsById).
  { apply elem_of_app in Hin as [Hin|Hin].
    - apply (proj1 (elem_of_rev_list _ _)) in Hin. unfold othersOf in Hin.
      by apply list_elem_of_filter in Hin as [_ ?].
    - destruct (_ =? 2); [|by apply elem_of_nil in Hin].
      apply (proj1 (elem_of_rev_list _ _)) in Hin. unfold symbolsOf in Hin.
      by apply list_elem_of_filter in Hin as [_ ?]. }
  unfold nonEmptyOf in Hne. apply list_elem_of_filter in Hne as [Hne _]. done.
Qed.

Lemma parse_populates_each_bucket_once_witness :
  populates (log (run (parse [labels; parks; roads; shields] fresh)
                    [GlyphsResponse None; IconsResponse None])) =
    [roads; shields; labels].
Proof.
  destruct (parse_populates_each_bucket_once [labels; parks; roads; shields] fresh
              [GlyphsResponse None; IconsResponse None]) as [-> _].
  - split; vm_compute; lia.
  - reflexivity.
Defined.

(** X23.  Every call of the callback of [parse] with a result carries the
    ids of the buckets that have a feature and a non-empty buffer, in
    enumeration order, whatever the events.  Under the callback contract the
    result is delivered exactly once if the tile has reached ['done'] and
    not at all otherwise; and a parse without non-empty symbol buckets sends
    no request and delivers its result before [parse] returns. *)
Theorem result_is_delivered_once bucketsById t evs :
  (∀ r, Callback None (Some r) ∈ log (run (parse bucketsById t) evs) →
        r = serialized (nonEmptyOf bucketsById)) ∧
  (respectsContract (parse bucketsById t) evs →
   countb isResult (log (run (parse bucketsById t) evs)) =
     if bool_decide (status (tile (run (parse bucketsById t) evs)) = Done)
     then 1 else 0) ∧
  (symbolsOf bucketsById = [] →
   status (tile (parse bucketsById t)) = Done ∧
   sent Glyphs (log (parse bucketsById t)) = 0 ∧
   sent Icons (log (parse bucketsById t)) = 0 ∧
   Callback None (Some (serialized (nonEmptyOf bucketsById))) ∈
     log (parse bucketsById t)).
Proof.
  destruct (parse_log bucketsById t) as (_ & _ & Hb & Hsb & Hres & Hcount & Hst).
  split; [|split].
  - intros r Hr.
    destruct (run_populates evs (parse bucketsById t)) as (acts & Hlog & _ & _ & Hr').
    { rewrite Hsb. apply symbolsOf_symbols. }
    rewrite Hlog in Hr. apply elem_of_app in Hr as [Hr|Hr]; [by apply Hres|].
    rewrite <- Hb. by apply Hr'.
  - intros Hcontract.
    destruct (decide (symbolsOf bucketsById = [])) as [Hnone|Hne].
    + destruct (run_without_symbols bucketsById t evs Hnone Hcontract)
        as (acts & Hlog & Hacts).
      rewrite Hlog, countb_app, Hcount.
      destruct (placement_quiet acts Hacts) as (_ & _ & _ & _ & ->).
      rewrite bool_decide_eq_true_2 by done.
      rewrite bool_decide_eq_true_2; [done|].
      apply run_tile. rewrite Hst. by rewrite bool_decide_eq_true_2.
    + pose proof (parse_invariant bucketsById t evs Hne Hcontract) as Hinv0.
      assert (Hinv : Invariant (symbolsOf bucketsById)
                       (run (parse bucketsById t) evs) []).
      { apply run_invariant; [apply symbolsOf_symbols|]. by rewrite app_nil_r. }
      destruct Hinv as [_ _ _ _ _ _ Hr Hs]. rewrite Hr, Hs.
      by destruct (deps _ =? 2).
  - intros Hnone. rewrite !bool_decide_eq_true_2 in * by done.
    split; [done|]. split; [by apply parse_sends_nothing|].
    split; [by apply parse_sends_nothing|].
    destruct (countb_pos isResult (log (parse bucketsById t))) as (a & Ha & Hisr);
      [lia|].
    destruct a as [| | | | | |[e|] [r|]]; try done.
    by rewrite <- (Hres r Ha).
Qed.

Lemma result_is_delivered_once_witness :
  countb isResult
    (log (run (parse [labels; parks; roads; shields] fresh)
            [GlyphsResponse None; IconsResponse None;
             RedoPlacementRequest 1 0 None])) = 1 ∧
  Callback None (Some ["roads"; "labels"]) ∈
    log (parse [parks; roads; mkBucket "labels" "line" 1 [] true] fresh) ∧
  Callback None (Some ["roads"]) ∉
    log (run (parse [labels; parks; roads; shields] fresh)
           [GlyphsResponse None; IconsResponse None]).
Proof.
  split; [|split].
  - rewrite (proj1 (proj2 (result_is_delivered_once
                             [labels; parks; roads; shields] fresh
                             [GlyphsResponse None; IconsResponse None;
                              RedoPlacementRequest 1 0 None]))).
    + reflexivity.
    + split; vm_compute; lia.
  - pose proof (proj2 (proj2 (result_is_delivered_once
                  [parks; roads; mkBucket "labels" "line" 1 [] true] fresh []))
                  eq_refl) as (_ & _ & _ & H).
    vm_compute in H. vm_compute. exact H.
  - intros H.
    apply (proj1 (result_is_delivered_once [labels; parks; roads; shields] fresh
                    [GlyphsResponse None; IconsResponse None])) in H.
    vm_compute in H. discriminate.
Defined.

(** While the tile has not reached ['done'] nothing is placed and no
    collision structure is built. *)
Lemma run_before_done evs : ∀ m,
  status (tile (run m evs)) ≠ Done →
  placements (log (run m evs)) = placements (log m) ∧
  collisionTiles (log (run m evs)) = collisionTiles (log m).
Proof.
  induction evs as [|ev evs IH]; intros m Hst; [done|].
  change (run m (ev :: evs)) with (run (handle m ev) evs) in *.
  assert (Hst1 : status (tile (handle m ev)) ≠ Done).
  { intros H. apply Hst. by apply run_tile. }
  assert (Hst0 : status (tile m) ≠ Done).
  { intros H. apply Hst1. by apply handle_tile. }
  destruct (IH _ Hst) as [-> ->].
  destruct ev as [err|err|a p s]; cbn [handle] in *.
  - destruct (gotDependency_cases Glyphs err m)
      as [(_ & Hc & Hp & _)|(_ & _ & m3 & Heq & _)]; [done|].
    rewrite Heq in Hst1. by destruct (done_tile m3) as [? _].
  - destruct (gotDependency_cases Icons err m)
      as [(_ & Hc & Hp & _)|(_ & _ & m3 & Heq & _)]; [done|].
    rewrite Heq in Hst1. by destruct (done_tile m3) as [? _].
  - rewrite redoPlacement_not_done by done.
    cbn [emit withTile log]. by rewrite app_nil_r.
Qed.

(** X24.  Under the callback contract, once a dependency has been answered
    with an error the tile never reaches ['done']: at the end of any run
    with such an answer the status is still ['parsing'], and no
    [redoPlacement] request of the run has been carried out - no feature was
    placed and the only collision structure built is the one of [parse]. *)
Theorem dependency_error_leaves_tile_parsing bucketsById t evs ev :
  respectsContract (parse bucketsById t) evs →
  ev ∈ evs → fails ev = true →
  status (tile (run (parse bucketsById t) evs)) = Parsing ∧
  placements (log (run (parse bucketsById t) evs)) = [] ∧
  collisionTiles (log (run (parse bucketsById t) evs)) = [(angle t, pitch t)].
Proof.
  intros Hcontract Hev Hfails.
  assert (Hdep : ∃ dep e, (dep = Glyphs ∧ GlyphsResponse (Some e) ∈ evs) ∨
                          (dep = Icons ∧ IconsResponse (Some e) ∈ evs)).
  { destruct ev as [[e|]|[e|]|]; try done;
      [exists Glyphs, e|exists Icons, e]; auto. }
  destruct Hdep as (dep & e & Hdep).
  assert (Hne : symbolsOf bucketsById ≠ []).
  { intros Hnone. destruct Hcontract as [HG HI].
    rewrite parse_sends_nothing in HG, HI by done.
    destruct Hdep as [[_ Hin]|[_ Hin]].
    - pose proof (countb_in (answers Glyphs) _ _ Hin eq_refl).
      unfold answered in HG. lia.
    - pose proof (countb_in (answers Icons) _ _ Hin eq_refl).
      unfold answered in HI. lia. }
  pose proof (parse_invariant bucketsById t evs Hne Hcontract) as Hinv0.
  assert (Hinv : Invariant (symbolsOf bucketsById) (run (parse bucketsById t) evs) []).
  { apply run_invariant; [apply symbolsOf_symbols|]. by rewrite app_nil_r. }
  destruct (run_error_reported evs (parse bucketsById t) dep e Hdep) as [Hgot _].
  destruct Hinv as [Hg Hi Hd _ _ _ _ Hst].
  assert (Hdeps : deps (run (parse bucketsById t) evs) ≠ 2).
  { rewrite Hd, completions_split.
    pose proof (completed_le_got Glyphs (log (run (parse bucketsById t) evs))).
    pose proof (completed_le_got Icons (log (run (parse bucketsById t) evs))).
    unfold answered in Hg, Hi. rewrite countb_nil in Hg, Hi.
    assert (countb (isCompleted dep) (log (run (parse bucketsById t) evs)) = 0).
    { apply (error_never_completes dep e); [done|].
      destruct Hdep as [[-> _]|[-> _]]; lia. }
    destruct Hdep as [[-> _]|[-> _]]; lia. }
  assert (Hparsing : status (tile (run (parse bucketsById t) evs)) = Parsing).
  { rewrite Hst. destruct (_ =? 2) eqn:E; [|done].
    apply Nat.eqb_eq in E. done. }
  split; [done|].
  destruct (run_before_done evs (parse bucketsById t)) as [-> ->].
  { by rewrite Hparsing. }
  unfold parse, symbolsOf in *.
  set (nonEmpty := filter (fun b => featureCount b ≠ 0) bucketsById) in *.
  destruct (filter (fun b => isSymbol b = true) nonEmpty) as [|s0 symbols']; [done|].
  rewrite parseBuckets_spec.
  destruct (collectIcons (s0 :: symbols'));
    cbn [gotDependency emit log tile deps Nat.eqb];
    rewrite !placements_app, !collisionTiles_app,
      placements_populate, collisionTiles_populate; done.
Qed.

Lemma dependency_error_leaves_tile_parsing_witness :
  status (tile (run (parse [labels; roads; shields] fresh)
                  [RedoPlacementRequest 1 0 None; IconsResponse (Some "no icons");
                   GlyphsResponse None; RedoPlacementRequest 2 0 None])) = Parsing ∧
  placements (log (run (parse [labels; roads; shields] fresh)
                  [RedoPlacementRequest 1 0 None; IconsResponse (Some "no icons");
                   GlyphsResponse None; RedoPlacementRequest 2 0 None])) = [].
Proof.
  destruct (dependency_error_leaves_tile_parsing [labels; roads; shields] fresh
              [RedoPlacementRequest 1 0 None; IconsResponse (Some "no icons");
               GlyphsResponse None; RedoPlacementRequest 2 0 None]
              (IconsResponse (Some "no icons"))) as (H1 & H2 & _).
  - split; vm_compute; lia.
  - right. by left.
  - reflexivity.
  - split; [exact H1|exact H2].
Defined.

End ParseTraceFacts.

(** ** Plain objects *)

Section PlainObjectFacts.
Import PlainObject.
Context {V : Type}.
Implicit Types (o : Properties V) (k : string) (v : V).

Lemma ownProperty_assign_eq k v o : ownProperty k (assign k v o) = Some v.
Proof.
  induction o as [|[k' v'] o IH]; cbn.
  - by rewrite bool_decide_eq_true_2.
  - destruct (bool_decide (k' = k)) eqn:E; cbn.
    + by rewrite bool_decide_eq_true_2.
    + by rewrite E.
Qed.

Lemma ownProperty_assign_ne k k' v o :
  k ≠ k' → ownProperty k' (assign k v o) = ownProperty k' o.
Proof.
  intros Hne. induction o as [|[k0 v0] o IH]; cbn.
  - by rewrite bool_decide_eq_false_2.
  - destruct (bool_decide (k0 = k)) eqn:E; cbn.
    + apply bool_decide_eq_true in E as ->.
      by rewrite !bool_decide_eq_false_2.
    + by rewrite IH.
Qed.

Lemma ownProperty_None k o : ownProperty k o = None ↔ k ∉ o.*1.
Proof.
  induction o as [|[k' v'] o IH]; cbn.
  - split; [intros _ H; by apply elem_of_nil in H|done].
  - destruct (bool_decide (k' = k)) eqn:E;
      [apply bool_decide_eq_true in E as ->|apply bool_decide_eq_false in E].
    + split; [done|]. intros H. exfalso. apply H. by left.
    + rewrite IH. split.
      * intros H Hin. apply elem_of_cons in Hin as [?|?]; [congruence|done].
      * intros H Hin. apply H. by right.
Qed.

Lemma ownProperty_elem k v o : ownProperty k o = Some v → (k, v) ∈ o.
Proof.
  induction o as [|[k' v'] o IH]; cbn; [done|].
  destruct (bool_decide (k' = k)) eqn:E.
  - apply bool_decide_eq_true in E as ->. intros [= ->]. by left.
  - intros H. right. by apply IH.
Qed.

(** A new property is created last. *)
Lemma assign_new k v o : k ∉ o.*1 → assign k v o = o ++ [(k, v)].
Proof.
  induction o as [|[k' v'] o IH]; cbn; [done|]. intros H.
  rewrite bool_decide_eq_false_2.
  - rewrite IH; [done|]. intros Hin. apply H. by right.
  - intros ->. apply H. by left.
Qed.

(** An assignment to an own property leaves the names and their order. *)
Lemma assign_names k v o : k ∈ o.*1 → (assign k v o).*1 = o.*1.
Proof.
  induction o as [|[k' v'] o IH]; cbn.
  - intros H. by apply elem_of_nil in H.
  - intros H. destruct (bool_decide (k' = k)) eqn:E.
    + by apply bool_decide_eq_true in E as ->.
    + apply bool_decide_eq_false in E. cbn. f_equal. apply IH.
      apply elem_of_cons in H as [?|?]; [congruence|done].
Qed.

Lemma ownProperty_names k o : is_Some (ownProperty k o) ↔ k ∈ o.*1.
Proof.
  destruct (ownProperty k o) eqn:E.
  - split; [intros _|by eauto]. apply ownProperty_elem in E.
    apply list_elem_of_fmap. by exists (k, v).
  - apply ownProperty_None in E. split; [by intros [? ?]|done].
Qed.

(** Without a name that is an array index, the enumeration is in the order
    of creation. *)
Lemma forIn_named o :
  Forall (fun kv => arrayIndex kv.1 = None) o → forIn o = o.
Proof.
  intros H. unfold forIn, indexed, named.
  assert (H1 : omap (fun kv : string * V => n ← arrayIndex kv.1; Some (n, kv)) o = []).
  { induction H as [|kv o Hkv H IH]; [done|]. cbn. by rewrite Hkv, IH. }
  rewrite H1. cbn. clear H1.
  induction H as [|kv o Hkv H IH]; [done|].
  rewrite filter_cons_True by done. by rewrite IH.
Qed.

End PlainObjectFacts.

(** ** The worker tile: which layers get a bucket *)

Section TileLayerFacts.
Import TileLayers PlainObject.
Local Open Scope Q_scope.

Lemma wanted_iff source zoom layer :
  wanted source zoom layer = true ↔
  l_source layer = Some source ∧
  (l_ref layer = None ∨ l_ref layer = Some "") ∧
  l_visibility layer ≠ Some "none" ∧
  (∀ q, l_minzoom layer = Some q → q == 0 ∨ q <= zoom) ∧
  (∀ q, l_maxzoom layer = Some q → q == 0 ∨ zoom < q).
Proof.
  unfold wanted, belowMinzoom, atOrAboveMaxzoom, truthyString, truthyNumber.
  destruct (bool_decide (l_source layer = Some source)) eqn:Hs;
    [apply bool_decide_eq_true in Hs|apply bool_decide_eq_false in Hs];
    cbn [negb]; [|split; [done|tauto]].
  assert (Href : (match l_ref layer with
                  | Some s' => negb (bool_decide (s' = ""))
                  | None => false
                  end = false) ↔ (l_ref layer = None ∨ l_ref layer = Some "")).
  { destruct (l_ref layer) as [s|]; [|tauto].
    destruct (bool_decide (s = "")) eqn:E;
      [apply bool_decide_eq_true in E|apply bool_decide_eq_false in E]; cbn.
    - subst. tauto.
    - split; [done|]. intros [?|[= ?]]; done. }
  destruct (match l_ref layer with
            | Some s' => negb (bool_decide (s' = ""))
            | None => false
            end); [split; [done|]; intros (_ & H & _); by apply Href in H|].
  assert (Hmin : (match l_minzoom layer with
                  | Some q => negb (Qeq_bool q 0)
                  | None => false
                  end &&
                  match l_minzoom layer with
                  | Some q => Geometry.Qltb zoom q
                  | None => false
                  end = false) ↔ (∀ q, l_minzoom layer = Some q → q == 0 ∨ q <= zoom)).
  { destruct (l_minzoom layer) as [q|]; [|split; [by intros|done]].
    destruct (Qeq_bool q 0) eqn:E; cbn.
    - apply Qeq_bool_iff in E. split; [intros _ ? [= <-]; by left|done].
    - rewrite Qltb_ge. split.
      + intros H ? [= <-]. by right.
      + intros H. destruct (H q eq_refl) as [H0|?]; [|done].
        apply Qeq_bool_iff in H0. congruence. }
  assert (Hmax : (match l_maxzoom layer with
                  | Some q => negb (Qeq_bool q 0)
                  | None => false
                  end &&
                  match l_maxzoom layer with
                  | Some q => Qle_bool q zoom
                  | None => false
                  end = false) ↔ (∀ q, l_maxzoom layer = Some q → q == 0 ∨ zoom < q)).
  { destruct (l_maxzoom layer) as [q|]; [|split; [by intros|done]].
    destruct (Qeq_bool q 0) eqn:E; cbn.
    - apply Qeq_bool_iff in E. split; [intros _ ? [= <-]; by left|done].
    - split.
      + intros H ? [= <-]. right. by apply Qle_bool_false.
      + intros H. destruct (H q eq_refl) as [H0|Hlt].
        * apply Qeq_bool_iff in H0. congruence.
        * apply not_true_is_false. intros Hle. apply Qle_bool_iff in Hle. lra. }
  destruct (_ && _) eqn:E1 in |- *.
  { split; [done|]. intros (_ & _ & _ & H & _). apply Hmin in H. congruence. }
  destruct (_ && _) eqn:E2 in |- *.
  { split; [done|]. intros (_ & _ & _ & _ & H). apply Hmax in H. congruence. }
  destruct (bool_decide (l_visibility layer = Some "none")) eqn:Hv;
    [apply bool_decide_eq_true in Hv|apply bool_decide_eq_false in Hv].
  - split; [done|]. by intros (_ & _ & ? & _).
  - split; [|done]. intros _. split; [done|]. split; [by apply Href|].
    split; [done|]. split; [by apply Hmin|by apply Hmax].
Qed.

Lemma mapLayers_lookup source zoom layers : ∀ acc bucketsById,
  mapLayers source zoom layers acc = Returns bucketsById →
  ∀ id, ownProperty id bucketsById =
    match last (filter (fun l => wanted source zoom l = true ∧ l_id l = id) layers) with
    | Some layer => Some (mkTileBucket layer [id])
    | None => ownProperty id acc
    end.
Proof.
  induction layers as [|layer rest IH]; intros acc bucketsById H id.
  - injection H as <-. done.
  - cbn [mapLayers] in H. destruct (wanted source zoom layer) eqn:Hw.
    + unfold create in H. destruct (bool_decide (l_type layer ∈ _)); [|done].
      destruct (bool_decide (l_id layer = "__proto__")); [done|].
      rewrite (IH _ _ H id).
      destruct (decide (l_id layer = id)) as [<-|Hne].
      * rewrite filter_cons_True by done. rewrite last_cons.
        destruct (last (filter _ rest)); [done|]. by rewrite ownProperty_assign_eq.
      * rewrite filter_cons_False by (intros [_ ?]; done).
        destruct (last (filter _ rest)); [done|]. by rewrite ownProperty_assign_ne.
    + rewrite (IH _ _ H id).
      rewrite filter_cons_False; [done|]. intros [? _]. congruence.
Qed.

Lemma mapLayers_outcome source zoom layers : ∀ acc,
  Forall (fun layer => wanted source zoom layer = true → l_id layer ≠ "__proto__")
         layers →
  mapLayers source zoom layers acc ≠ ReplacesPrototype ∧
  (mapLayers source zoom layers acc = Throws ↔
   ∃ layer, layer ∈ layers ∧ wanted source zoom layer = true ∧ create layer = None).
Proof.
  induction layers as [|layer rest IH]; intros acc Hids.
  - split; [done|]. split; [done|]. intros (layer & H & _). by apply elem_of_nil in H.
  - apply Forall_cons in Hids as [Hid Hids]. cbn [mapLayers].
    destruct (wanted source zoom layer) eqn:Hw.
    + destruct (create layer) as [b|] eqn:Hc.
      * rewrite bool_decide_eq_false_2 by auto.
        destruct (IH (assign (l_id layer) b acc) Hids) as [H1 H2].
        split; [done|]. rewrite H2. split.
        -- intros (l & Hl & H). exists l. split; [by right|done].
        -- intros (l & Hl & Hlw & Hlc). apply elem_of_cons in Hl as [->|Hl].
           ++ congruence.
           ++ eauto.
      * split; [done|]. split; [|done]. intros _. exists layer. split; [by left|done].
    + destruct (IH acc Hids) as [H1 H2]. split; [done|]. rewrite H2. split.
      * intros (l & Hl & H). exists l. split; [by right|done].
      * intros (l & Hl & Hlw & Hlc). apply elem_of_cons in Hl as [->|Hl].
        -- congruence.
        -- eauto.
Qed.

Lemma refOf_Some source layer ref :
  refOf source layer = Some ref ↔
  l_source layer = Some source ∧ truthyString (l_ref layer) = true ∧
  l_ref layer = Some ref.
Proof.
  unfold refOf.
  destruct (bool_decide (l_source layer = Some source)) eqn:Hsrc;
    [apply bool_decide_eq_true in Hsrc|apply bool_decide_eq_false in Hsrc];
    cbn [andb]; [|split; [done|by intros (? & _)]].
  destruct (truthyString (l_ref layer)) eqn:Href; [|split; [done|by intros (_ & ? & _)]].
  split; [done|]. by intros (_ & _ & ?).
Qed.

(** What a lookup finds depends on the names of the own properties only. *)
Lemma get_cases {V} ref (o : Properties V) :
  match get ref o with
  | Own v => ownProperty ref o = Some v
  | Inherited => ref ∈ inherited ∧ ref ∉ o.*1
  | Undefined => (ref ∉ inherited) ∧ (ref ∉ o.*1)
  end.
Proof.
  unfold get. destruct (ownProperty ref o) as [v|] eqn:Hown; [done|].
  apply ownProperty_None in Hown.
  destruct (bool_decide (ref ∈ inherited)) eqn:Hin;
    [apply bool_decide_eq_true in Hin|apply bool_decide_eq_false in Hin]; done.
Qed.

(** The second loop leaves the names and the style layers of the buckets
    alone and appends to [layers]; it raises at the first ref to an inherited
    name. *)
Lemma indexRefLayers_spec source layers : ∀ bucketsById,
  indexRefLayers source layers bucketsById ≠ ReplacesPrototype ∧
  (indexRefLayers source layers bucketsById = Throws ↔
   ∃ layer ref, layer ∈ layers ∧ refOf source layer = Some ref ∧
                ref ∈ inherited ∧ ref ∉ bucketsById.*1) ∧
  (∀ final, indexRefLayers source layers bucketsById = Returns final →
     final.*1 = bucketsById.*1 ∧
     ∀ id, ownProperty id final =
       (fun b => mkTileBucket (tb_layer b)
                   (tb_layers b ++ (l_id <$> refsTo source id layers)))
       <$> ownProperty id bucketsById).
Proof.
  assert (Hskip : ∀ layer rest id,
            (∀ ref, refOf source layer = Some ref → ref ≠ id) →
            refsTo source id (layer :: rest) = refsTo source id rest).
  { intros layer rest id H. unfold refsTo. rewrite filter_cons_False; [done|].
    intros Hl. by apply (H id); [apply refOf_Some|]. }
  induction layers as [|layer rest IH]; intros bucketsById.
  - cbn. split; [done|]. split.
    + split; [done|]. intros (l & r & H & _). by apply elem_of_nil in H.
    + intros final [= <-]. split; [done|]. intros id.
      destruct (ownProperty id bucketsById) as [[l ls]|]; [|done].
      cbn. by rewrite app_nil_r.
  - cbn [indexRefLayers].
    assert (Hrest : indexRefLayers source rest bucketsById ≠ ReplacesPrototype ∧
      (indexRefLayers source rest bucketsById = Throws ↔
       ∃ layer' ref, layer' ∈ layer :: rest ∧ refOf source layer' = Some ref ∧
                     ref ∈ inherited ∧ ref ∉ bucketsById.*1) ∧
      (∀ final, indexRefLayers source rest bucketsById = Returns final →
         final.*1 = bucketsById.*1 ∧
         ∀ id, ownProperty id final =
           (fun b => mkTileBucket (tb_layer b)
                       (tb_layers b ++ (l_id <$> refsTo source id (layer :: rest))))
           <$> ownProperty id bucketsById) ∨
      ∃ ref, refOf source layer = Some ref ∧
             (ref ∈ inherited ∨ ref ∈ bucketsById.*1)).
    { destruct (refOf source layer) as [ref|] eqn:Href.
      - destruct (decide (ref ∈ inherited ∨ ref ∈ bucketsById.*1)) as [?|Hno];
          [right; eauto|left].
        destruct (IH bucketsById) as (H1 & H2 & H3). split; [done|]. split.
        + rewrite H2. split.
          * intros (l & r & Hl & H). exists l, r. split; [by right|done].
          * intros (l & r & Hl & Hlr & Hri & Hrn).
            apply elem_of_cons in Hl as [->|Hl]; [|by eauto 10].
            rewrite Href in Hlr. injection Hlr as <-. tauto.
        + intros final Hfinal. destruct (H3 final Hfinal) as [Hn Hl].
          split; [done|]. intros id. rewrite Hl.
          destruct (ownProperty id bucketsById) as [b|] eqn:Hown; [|done].
          rewrite Hskip; [done|]. intros r Hr. rewrite Href in Hr.
          injection Hr as <-. intros ->. apply Hno. right.
          apply ownProperty_names. eauto.
      - left. destruct (IH bucketsById) as (H1 & H2 & H3). split; [done|]. split.
        + rewrite H2. split.
          * intros (l & r & Hl & H). exists l, r. split; [by right|done].
          * intros (l & r & Hl & Hlr & Hri & Hrn).
            apply elem_of_cons in Hl as [->|Hl]; [congruence|by eauto 10].
        + intros final Hfinal. destruct (H3 final Hfinal) as [Hn Hl].
          split; [done|]. intros id. rewrite Hl. rewrite Hskip; [done|].
          intros r Hr. congruence. }
    destruct (refOf source layer) as [ref|] eqn:Href;
      [|by destruct Hrest as [?|(? & ? & _)]].
    pose proof (get_cases ref bucketsById) as Hc.
    destruct (get ref bucketsById) as [bucket| |].
    + assert (Hin : ref ∈ bucketsById.*1) by (apply ownProperty_names; eauto).
      destruct (IH (assign ref (pushLayer (l_id layer) bucket) bucketsById))
        as (H1 & H2 & H3).
      rewrite assign_names in H2, H3 by done.
      split; [done|]. split.
      * rewrite H2. split.
        -- intros (l & r & Hl & H). exists l, r. split; [by right|done].
        -- intros (l & r & Hl & Hlr & Hri & Hrn).
           apply elem_of_cons in Hl as [->|Hl]; [|by eauto 10].
           rewrite Href in Hlr. injection Hlr as <-. done.
      * intros final Hfinal. destruct (H3 final Hfinal) as [Hn Hl].
        split; [done|]. intros id. rewrite Hl.
        destruct (decide (ref = id)) as [->|Hne].
        -- rewrite ownProperty_assign_eq, Hc. unfold refsTo.
           rewrite filter_cons_True by (by apply refOf_Some).
           cbn. by rewrite <- app_assoc.
        -- rewrite ownProperty_assign_ne by done.
           rewrite Hskip; [done|]. intros r Hr. congruence.
    + destruct Hc as [Hin Hnot].
      split; [done|]. split; [|done]. split; [|done]. intros _.
      exists layer, ref. split; [by left|done].
    + destruct Hc as [Hin Hnot].
      destruct Hrest as [?|(r & [= <-] & [?|?])]; done.
Qed.

Lemma last_filter_None {A} (P : A → Prop) `{∀ x, Decision (P x)} (l : list A) :
  last (filter P l) = None ↔ ∀ x, x ∈ l → ¬ P x.
Proof.
  rewrite last_None. split.
  - intros Hnil x Hin HP.
    assert (Hx : x ∈ filter P l) by (by apply list_elem_of_filter).
    rewrite Hnil in Hx. by apply elem_of_nil in Hx.
  - intros Hall. destruct (filter P l) as [|a rest] eqn:E; [done|].
    assert (Ha : a ∈ filter P l) by (rewrite E; by left).
    apply list_elem_of_filter in Ha as [HP Hin]. by destruct (Hall a Hin).
Qed.

(** With ids that differ, every bucket is created after those of the layers
    declared before. *)
Lemma mapLayers_distinct source zoom layers : ∀ acc bucketsById,
  mapLayers source zoom layers acc = Returns bucketsById →
  NoDup (acc.*1 ++ (l_id <$> wantedLayers source zoom layers)) →
  bucketsById =
    acc ++ ((fun layer => (l_id layer, mkTileBucket layer [l_id layer]))
            <$> wantedLayers source zoom layers).
Proof.
  unfold wantedLayers.
  induction layers as [|layer rest IH]; intros acc bucketsById H Hnd.
  - injection H as <-. cbn. by rewrite app_nil_r.
  - cbn [mapLayers] in H. destruct (wanted source zoom layer) eqn:Hw.
    + rewrite filter_cons_True in Hnd |- * by done.
      unfold create in H. destruct (bool_decide (l_type layer ∈ _)); [|done].
      destruct (bool_decide (l_id layer = "__proto__")); [done|].
      cbn [fmap list_fmap] in Hnd |- *.
      assert (Hnew : l_id layer ∉ acc.*1).
      { apply NoDup_app in Hnd as (_ & Hdis & _). intros Hin.
        apply (Hdis _ Hin). by left. }
      rewrite assign_new in H by done.
      rewrite (IH _ _ H).
      * by rewrite <- app_assoc.
      * rewrite fmap_app. cbn. by rewrite <- app_assoc.
    + rewrite filter_cons_False in Hnd |- * by congruence. by apply IH.
Qed.

Lemma assign_layers k b b' (o : Properties TileBucket) :
  ownProperty k o = Some b → tb_layer b' = tb_layer b →
  (fun kv => (kv.1, tb_layer kv.2)) <$> assign k b' o =
  (fun kv => (kv.1, tb_layer kv.2)) <$> o.
Proof.
  intros Hown Hl. induction o as [|[k0 b0] o IH]; [done|].
  cbn in Hown |- *. destruct (bool_decide (k0 = k)) eqn:E.
  - apply bool_decide_eq_true in E as ->. injection Hown as ->. cbn. by rewrite Hl.
  - cbn. f_equal. by apply IH.
Qed.

(** The second loop keeps the buckets in place. *)
Lemma indexRefLayers_layers source layers : ∀ bucketsById final,
  indexRefLayers source layers bucketsById = Returns final →
  (fun kv => (kv.1, tb_layer kv.2)) <$> final =
  (fun kv => (kv.1, tb_layer kv.2)) <$> bucketsById.
Proof.
  induction layers as [|layer rest IH]; intros bucketsById final H.
  - by injection H as <-.
  - cbn [indexRefLayers] in H.
    destruct (refOf source layer) as [ref|]; [|by apply IH].
    pose proof (get_cases ref bucketsById) as Hc.
    destruct (get ref bucketsById) as [bucket| |]; [|done|by apply IH].
    rewrite (IH _ _ H). by apply assign_layers with bucket.
Qed.

Lemma forIn_layers (o o' : Properties TileBucket) sorted :
  (fun kv => (kv.1, tb_layer kv.2)) <$> o = (fun kv => (kv.1, tb_layer kv.2)) <$> o' →
  Forall (fun kv => arrayIndex kv.1 = None) o' →
  enumerated sorted o = (fun kv => bucketOfLayer sorted (tb_layer kv.2)) <$> o'.
Proof.
  intros Heq Hnamed. unfold enumerated.
  assert (Hnamed' : Forall (fun kv : string * TileBucket => arrayIndex kv.1 = None) o).
  { apply Forall_fmap with (f := fst) (P := fun k => arrayIndex k = None).
    apply (Forall_fmap fst (fun k => arrayIndex k = None)) in Hnamed.
    assert (Hk : o.*1 = o'.*1).
    { apply (f_equal (fmap fst)) in Heq. by rewrite <- !list_fmap_compose in Heq. }
    by rewrite Hk. }
  rewrite forIn_named by done.
  apply (f_equal (fmap (fun kl : string * Layer => bucketOfLayer sorted kl.2))) in Heq.
  by rewrite <- !list_fmap_compose in Heq.
Qed.

(** With ids that differ and none of which is an array index, the
    enumeration of [bucketsById] is the declaration order of the layers. *)
Lemma enumerated_declared source zoom layers bucketsById sorted :
  bucketsOf source zoom layers = Returns bucketsById →
  NoDup (l_id <$> wantedLayers source zoom layers) →
  Forall (fun layer => arrayIndex (l_id layer) = None)
         (wantedLayers source zoom layers) →
  enumerated sorted bucketsById =
    bucketOfLayer sorted <$> wantedLayers source zoom layers.
Proof.
  unfold bucketsOf. intros H Hnd Hnamed.
  destruct (mapLayers source zoom layers []) as [b0| |] eqn:Hmap; [|done..].
  apply mapLayers_distinct in Hmap; [|done]. cbn [app] in Hmap.
  rewrite (forIn_layers bucketsById b0).
  - rewrite Hmap. by rewrite <- list_fmap_compose.
  - by apply indexRefLayers_layers with source layers.
  - rewrite Hmap. apply Forall_fmap. by apply (Forall_impl _ _ _ Hnamed).
Qed.

Lemma inherited_truthy ref : ref ∈ inherited → truthyString (Some ref) = true.
Proof.
  unfold inherited. intros H.
  repeat (apply elem_of_cons in H as [->|H]; [done|]). by apply elem_of_nil in H.
Qed.

(** X25.  The two loops at the head of [parse], for layers none of which
    gets a bucket under the id [__proto__].  They give a bucket to exactly
    the layers of the tile's source that are no ref layers, are not hidden,
    and whose zoom range holds the zoom of the tile ([minzoom <= zoom <
    maxzoom], where a bound that is [undefined] or 0 is no bound); of several
    such layers with one id the last wins.  The [layers] of a bucket are its
    own id followed by the ids, in declaration order, of all layers of the
    source that refer to it, whatever the zoom range and the visibility of
    those layers.  The loops raise exactly when a layer that gets a bucket
    has a type without a bucket class, or a layer of the source refers to a
    name that [bucketsById] inherits from [Object.prototype] and that is the
    id of no bucket. *)
Theorem parse_maps_layers_to_buckets source zoom layers :
  Forall (fun layer => wanted source zoom layer = true → l_id layer ≠ "__proto__")
         layers →
  (∀ bucketsById, bucketsOf source zoom layers = Returns bucketsById →
     ∀ id, ownProperty id bucketsById =
       (fun layer => mkTileBucket layer
                       (id :: (l_id <$> refsTo source id layers)))
       <$> last (filter (fun l => wanted source zoom l = true ∧ l_id l = id) layers)) ∧
  (bucketsOf source zoom layers = Throws ↔
   (∃ layer, layer ∈ layers ∧ wanted source zoom layer = true ∧
             l_type layer ∉ ["fill"; "line"; "circle"; "symbol"]) ∨
   (∃ layer ref, layer ∈ layers ∧ l_source layer = Some source ∧
                 l_ref layer = Some ref ∧ ref ∈ inherited ∧
                 ∀ target, target ∈ layers → wanted source zoom target = true →
                           l_id target ≠ ref)) ∧
  bucketsOf source zoom layers ≠ ReplacesPrototype ∧
  (∀ layer,
     wanted source zoom layer = true ↔
     l_source layer = Some source ∧
     (l_ref layer = None ∨ l_ref layer = Some "") ∧
     l_visibility layer ≠ Some "none" ∧
     (∀ q, l_minzoom layer = Some q → q == 0 ∨ q <= zoom) ∧
     (∀ q, l_maxzoom layer = Some q → q == 0 ∨ zoom < q)).
Proof.
  intros Hids.
  destruct (mapLayers_outcome source zoom layers [] Hids) as [Hproto Hthrows].
  assert (Hbad : (∃ layer, layer ∈ layers ∧ wanted source zoom layer = true ∧
                           create layer = None) ↔
                 (∃ layer, layer ∈ layers ∧ wanted source zoom layer = true ∧
                           l_type layer ∉ ["fill"; "line"; "circle"; "symbol"])).
  { split; intros (layer & Hl & Hw & Hc); exists layer; (split; [done|]);
      (split; [done|]); unfold create in *.
    - destruct (bool_decide _) eqn:E; [done|]. by apply bool_decide_eq_false in E.
    - by rewrite bool_decide_eq_false_2. }
  assert (Hnames : ∀ b0 ref, mapLayers source zoom layers [] = Returns b0 →
            ref ∉ b0.*1 ↔
            ∀ target, target ∈ layers → wanted source zoom target = true →
                      l_id target ≠ ref).
  { intros b0 ref Hmap. rewrite <- ownProperty_None.
    rewrite (mapLayers_lookup _ _ _ _ _ Hmap ref). cbn [ownProperty].
    destruct (last _) as [l|] eqn:Hlast.
    - split; [done|]. intros Hall. exfalso.
      assert (Hl : l ∈ filter (fun l => wanted source zoom l = true ∧ l_id l = ref) layers).
      { apply last_Some in Hlast as [l' ->]. apply elem_of_app. right. by left. }
      apply list_elem_of_filter in Hl as [[Hw Hid] Hin]. by apply (Hall l).
    - split; [intros _|done]. intros target Hin Hw Hid.
      apply last_filter_None with (x := target) in Hlast; [|done]. by apply Hlast. }
  split; [|split; [|split; [|intros layer; apply wanted_iff]]]; unfold bucketsOf.
  - intros bucketsById H.
    destruct (mapLayers source zoom layers []) as [b0| |] eqn:Hmap; [|done..].
    destruct (indexRefLayers_spec source layers b0) as (_ & _ & H3).
    destruct (H3 _ H) as [_ Hl]. intros id. rewrite Hl.
    rewrite (mapLayers_lookup _ _ _ _ _ Hmap id). cbn [ownProperty].
    by destruct (last _).
  - destruct (mapLayers source zoom layers []) as [b0| |] eqn:Hmap; [| |done].
    + destruct (indexRefLayers_spec source layers b0) as (_ & H2 & _).
      rewrite H2. split.
      * intros (layer & ref & Hl & Href & Hin & Hnot). right.
        apply refOf_Some in Href as (Hs & Ht & Hr).
        exists layer, ref. repeat (split; [done|]). by apply (Hnames b0).
      * intros [Hex|(layer & ref & Hl & Hs & Hr & Hin & Hnot)].
        -- apply Hbad, Hthrows in Hex. congruence.
        -- exists layer, ref. split; [done|]. split.
           { apply refOf_Some. split; [done|]. split; [|done].
             rewrite Hr. by apply inherited_truthy. }
           split; [done|]. by apply (Hnames b0).
    + split; [|done]. intros _. left. by apply Hbad, Hthrows.
  - destruct (mapLayers source zoom layers []) as [b0| |] eqn:Hmap; [|done..].
    by destruct (indexRefLayers_spec source layers b0) as (? & _).
Qed.

Lemma parse_maps_layers_to_buckets_witness :
  (∃ bucketsById,
     bucketsOf "streets" 8 [casingLayer; roadLayer; hillLayer] = Returns bucketsById ∧
     ownProperty "road" bucketsById =
       Some (mkTileBucket roadLayer ["road"; "road-casing"]) ∧
     ownProperty "road-casing" bucketsById = None ∧
     ownProperty "hills" bucketsById = None) ∧
  bucketsOf "streets" 8 [roadLayer; strayLayer] = Throws.
Proof.
  split.
  - destruct (bucketsOf "streets" 8 [casingLayer; roadLayer; hillLayer])
      as [bucketsById| |] eqn:E.
    + exists bucketsById. split; [done|].
      assert (Hids : Forall (fun layer => wanted "streets" 8 layer = true →
                                          l_id layer ≠ "__proto__")
                       [casingLayer; roadLayer; hillLayer])
        by (repeat constructor; by intros _).
      pose proof (proj1 (parse_maps_layers_to_buckets "streets" 8
                           [casingLayer; roadLayer; hillLayer] Hids) bucketsById E) as H.
      rewrite !H. repeat split.
    + vm_compute in E. discriminate.
    + vm_compute in E. discriminate.
  - apply (parse_maps_layers_to_buckets "streets" 8 [roadLayer; strayLayer]).
    + repeat constructor; by intros _.
    + right. exists strayLayer, "toString". split; [right; by left|].
      split; [done|]. split; [done|]. split.
      * unfold inherited. right. by left.
      * intros target Hin Hw.
        apply elem_of_cons in Hin as [->|Hin]; [done|].
        apply elem_of_cons in Hin as [->|Hin]; [done|]. by apply elem_of_nil in Hin.
Defined.

End TileLayerFacts.

(** ** The worker tile: the order of the symbol buckets *)

Section ParseOrderFacts.
Import WorkerTile TileLayers PlainObject.
Local Open Scope Q_scope.

(** C2.  In a parse with at least one non-empty symbol bucket, under the
    callback contract of the actor, every [populateBuffers] of a symbol
    bucket comes after the completion of the glyph request and of the icon
    request.  The completions counted are the successful answers plus one
    counted by [parse] itself when no icon is asked for (no icon request is
    sent then); the symbol buckets are tessellated exactly when that count is
    two, and then once each, in the reverse of the order in which
    [for (var id in bucketsById)] visits them.  When the ids of the layers
    that get a bucket differ from one another and none of them is an array
    index, this is the reverse of the order in which those layers are
    declared. *)
Theorem symbol_buckets_wait_for_two_completions bucketsById t evs :
  symbolsOf bucketsById ≠ [] →
  respectsContract (parse bucketsById t) evs →
  gated (log (run (parse bucketsById t) evs)) ∧
  completions (log (run (parse bucketsById t) evs)) =
    (immediateCompletions bucketsById + countb succeeds evs)%nat ∧
  (completions (log (run (parse bucketsById t) evs)) <= 2)%nat ∧
  symbolPopulates (log (run (parse bucketsById t) evs)) =
    (if (completions (log (run (parse bucketsById t) evs)) =? 2)%nat
     then rev (symbolsOf bucketsById) else []) ∧
  (collectIcons (symbolsOf bucketsById) = [] →
     sent Icons (log (parse bucketsById t)) = 0%nat ∧
     GotDependency Icons None ∈ log (parse bucketsById t)) ∧
  (∀ source zoom layers object sorted,
     bucketsOf source zoom layers = Returns object →
     bucketsById = enumerated sorted object →
     NoDup (l_id <$> wantedLayers source zoom layers) →
     Forall (fun layer => arrayIndex (l_id layer) = None)
            (wantedLayers source zoom layers) →
     symbolPopulates (log (run (parse bucketsById t) evs)) =
       (if (completions (log (run (parse bucketsById t) evs)) =? 2)%nat
        then rev (symbolsOf (bucketOfLayer sorted <$> wantedLayers source zoom layers))
        else [])).
Proof.
  intros Hne Hcontract.
  destruct (parse_gates_symbol_buckets bucketsById t evs Hne Hcontract)
    as (H1 & H2 & H3 & H4 & H5).
  repeat (split; [done|]).
  intros source zoom layers object sorted Hobj Henum Hnd Hnamed.
  rewrite H4. by rewrite Henum, (enumerated_declared source zoom layers).
Qed.

Lemma symbol_buckets_wait_for_two_completions_witness :
  symbolPopulates
    (log (run (parse [labels; roads; shields] fresh) [IconsResponse None])) = [] ∧
  symbolPopulates
    (log (run (parse [labels; roads; shields] fresh)
            [IconsResponse None; GlyphsResponse None])) = [shields; labels] ∧
  (∃ object,
     bucketsOf "streets" 8 [peakLabel; roadLayer; townLabel] = Returns object ∧
     symbolPopulates
       (log (run (parse (enumerated oneEach object) fresh) [GlyphsResponse None])) =
       bucketOfLayer oneEach <$> [townLabel; peakLabel]).
Proof.
  assert (Hc : ∀ bs evs, sent Glyphs (log (parse bs fresh)) = 1%nat →
               (countb (answers Glyphs) evs <= 1)%nat →
               (countb (answers Icons) evs <= sent Icons (log (parse bs fresh)))%nat →
               respectsContract (parse bs fresh) evs).
  { intros bs evs H1 H2 H3. split; [unfold answered; rewrite H1; exact H2|exact H3]. }
  split; [|split].
  - destruct (symbol_buckets_wait_for_two_completions
                [labels; roads; shields] fresh [IconsResponse None])
      as (_ & Hcount & _ & -> & _); [done|apply Hc; vm_compute; lia|].
    rewrite Hcount. reflexivity.
  - destruct (symbol_buckets_wait_for_two_completions
                [labels; roads; shields] fresh [IconsResponse None; GlyphsResponse None])
      as (_ & Hcount & _ & -> & _); [done|apply Hc; vm_compute; lia|].
    rewrite Hcount. reflexivity.
  - destruct (bucketsOf "streets" 8 [peakLabel; roadLayer; townLabel])
      as [object| |] eqn:E; [|vm_compute in E; discriminate..].
    exists object. split; [done|].
    assert (Hobj : object =
              [("peak", mkTileBucket peakLabel ["peak"]);
               ("road", mkTileBucket roadLayer ["road"]);
               ("label", mkTileBucket townLabel ["label"])])
      by (vm_compute in E; by injection E as <-).
    destruct (symbol_buckets_wait_for_two_completions
                (enumerated oneEach object) fresh [GlyphsResponse None])
      as (_ & Hcount & _ & _ & _ & Horder).
    + rewrite Hobj. vm_compute. discriminate.
    + rewrite Hobj. apply Hc; vm_compute; lia.
    + assert (Hw : wantedLayers "streets" 8 [peakLabel; roadLayer; townLabel] =
                     [peakLabel; roadLayer; townLabel]) by reflexivity.
      rewrite (Horder "streets" 8 [peakLabel; roadLayer; townLabel] object oneEach
                 E eq_refl).
      * rewrite Hcount, Hobj. reflexivity.
      * rewrite Hw. cbn. repeat constructor; rewrite ?elem_of_cons, ?elem_of_nil;
          intros H; repeat destruct H as [H|H]; try discriminate; done.
      * rewrite Hw. repeat (constructor; [reflexivity|]). constructor.
Defined.

(** C2 as stated fails for ids that are array indices and for an id that is
    declared more than once.  Of the symbol layers ["10"] and ["9"], declared
    in this order, the bucket of ["10"] is tessellated first; of the symbol
    layers [label], [peak], [label], the bucket of [peak] is tessellated
    before that of the second [label]: in both cases the order is that of the
    declaration, not its reverse. *)
Lemma symbol_buckets_in_declaration_order :
  (∃ object,
     bucketsOf "streets" 8 [stopTen; stopNine] = Returns object ∧
     symbolPopulates
       (log (run (parse (enumerated oneEach object) fresh) [GlyphsResponse None])) =
       bucketOfLayer oneEach <$> [stopTen; stopNine] ∧
     symbolPopulates
       (log (run (parse (enumerated oneEach object) fresh) [GlyphsResponse None])) ≠
       rev (bucketOfLayer oneEach <$> [stopTen; stopNine])) ∧
  (∃ object,
     bucketsOf "streets" 8 [townLabel; peakLabel; townLabelBold] = Returns object ∧
     ownProperty "label" object = Some (mkTileBucket townLabelBold ["label"]) ∧
     symbolPopulates
       (log (run (parse (enumerated oneEach object) fresh) [GlyphsResponse None])) =
       bucketOfLayer oneEach <$> [peakLabel; townLabelBold] ∧
     symbolPopulates
       (log (run (parse (enumerated oneEach object) fresh) [GlyphsResponse None])) ≠
       rev (bucketOfLayer oneEach <$> [peakLabel; townLabelBold])).
Proof.
  split.
  - eexists. split; [vm_compute; reflexivity|]. split; [vm_compute; reflexivity|].
    vm_compute. discriminate.
  - eexists. split; [vm_compute; reflexivity|]. split; [vm_compute; reflexivity|].
    split; [vm_compute; reflexivity|]. vm_compute. discriminate.
Qed.

End ParseOrderFacts.

(** ** Buffer names and the layout of element groups *)

Section BufferNameFacts.
Import Bucket.
Local Open Scope nat_scope.

Lemma string_length_append (s t : string) :
  String.length (s +:+ t) = String.length s + String.length t.
Proof. induction s as [|a s IH]; [done|]. simpl. f_equal. exact IH. Qed.

Lemma append_inj_l (s s' t : string) : s +:+ t = s' +:+ t → s = s'.
Proof.
  revert s'. induction s as [|a s IH]; intros s' H.
  - destruct s' as [|a' s']; [done|]. exfalso.
    apply (f_equal String.length) in H.
    rewrite !string_length_append in H. simpl in H. lia.
  - destruct s' as [|a' s'].
    + exfalso. apply (f_equal String.length) in H.
      rewrite !string_length_append in H. simpl in H. lia.
    + simpl in H. injection H as -> H. f_equal. by apply IH.
Qed.

(** The last character of [s +:+ String a t] is the last character of
    [String a t]. *)
Lemma get_last_append (s t : string) (n : nat) :
  String.get (n + String.length s) (s +:+ t) = String.get n t.
Proof. symmetry. apply append_correct2. Qed.

Lemma vertex_name_inj name name' :
  getBufferName name "vertex" = getBufferName name' "vertex" → name = name'.
Proof. unfold getBufferName. cbn [capitalize]. apply append_inj_l. Qed.

Lemma element_name_inj name name' :
  getBufferName name "element" = getBufferName name' "element" → name = name'.
Proof. unfold getBufferName. cbn [capitalize]. apply append_inj_l. Qed.

Lemma vertex_name_not_element name name' :
  getBufferName name "vertex" ≠ getBufferName name' "element".
Proof.
  unfold getBufferName. intros H.
  assert (Hlen : String.length name + 6 = String.length name' + 7).
  { apply (f_equal String.length) in H.
    rewrite !string_length_append in H. exact H. }
  pose proof (get_last_append name (capitalize "vertex") 5) as H1.
  pose proof (get_last_append name' (capitalize "element") 6) as H2.
  rewrite H in H1. replace (5 + String.length name) with (6 + String.length name')
    in H1 by lia.
  rewrite H2 in H1. discriminate H1.
Qed.

Lemma vertex_name_not_secondElement name name' :
  getBufferName name "vertex" ≠ getBufferName name' "secondElement".
Proof.
  unfold getBufferName. intros H.
  assert (Hlen : String.length name + 6 = String.length name' + 13).
  { apply (f_equal String.length) in H.
    rewrite !string_length_append in H. exact H. }
  pose proof (get_last_append name (capitalize "vertex") 5) as H1.
  pose proof (get_last_append name' (capitalize "secondElement") 12) as H2.
  rewrite H in H1. replace (5 + String.length name) with (12 + String.length name')
    in H1 by lia.
  rewrite H2 in H1. discriminate H1.
Qed.

End BufferNameFacts.

Section GroupLayoutFacts.
Import Bucket GroupLayout.
Local Open Scope Z_scope.

Lemma tilesVertices_snoc groups : ∀ start total fresh,
  tilesVertices start groups total →
  vertexStartIndex fresh = total → vertexLength fresh = 0 →
  tilesVertices start (groups ++ [fresh]) total.
Proof.
  induction groups as [|g groups IH]; intros start total fresh H Hs Hl.
  - cbn in *. subst. split; [done|]. lia.
  - destruct H as [Hg H]. cbn. split; [done|]. by apply IH.
Qed.

Lemma tilesElements_snoc groups : ∀ start total fresh,
  tilesElements start groups total →
  elementStartIndex fresh = Some total → elementLength fresh = 0 →
  tilesElements start (groups ++ [fresh]) total.
Proof.
  induction groups as [|g groups IH]; intros start total fresh H Hs Hl.
  - cbn in *. subst. split; [done|]. lia.
  - destruct H as [Hg H]. cbn. split; [done|]. by apply IH.
Qed.

Lemma tilesVertices_grow groups nv ne : ∀ start total,
  groups ≠ [] → tilesVertices start groups total →
  tilesVertices start (alter (growGroup nv ne) (pred (length groups)) groups)
                (total + nv).
Proof.
  induction groups as [|g groups IH]; intros start total Hne H; [done|].
  destruct H as [Hg H]. destruct groups as [|g' groups].
  - cbn in *. split; [done|]. lia.
  - change (pred (length (g :: g' :: groups))) with (S (pred (length (g' :: groups)))).
    cbn [alter list_alter]. split; [done|]. by apply IH.
Qed.

Lemma tilesElements_grow groups nv ne : ∀ start total,
  groups ≠ [] → tilesElements start groups total →
  tilesElements start (alter (growGroup nv ne) (pred (length groups)) groups)
                (total + ne).
Proof.
  induction groups as [|g groups IH]; intros start total Hne H; [done|].
  destruct H as [Hg H]. destruct groups as [|g' groups].
  - cbn in *. split; [done|]. lia.
  - change (pred (length (g :: g' :: groups))) with (S (pred (length (g' :: groups)))).
    cbn [alter list_alter]. split; [done|]. by apply IH.
Qed.

(** What [makeRoomFor] hands back is the last group of the list it leaves,
    and that list still covers the buffers. *)
Lemma makeRoomFor_contiguous rev name n b idx b1 :
  contiguous b → makeRoomFor rev name n b = Some (idx, b1) →
  contiguous b1 ∧ buffers b1 = buffers b ∧
  ∃ groups, elementGroups b1 !! name = Some groups ∧ groups ≠ [] ∧
            idx = pred (length groups).
Proof.
  intros Hc H. unfold makeRoomFor in H.
  destruct (elementGroups b !! name) as [groups|] eqn:Hg; [|done].
  cbn [mbind option_bind] in H.
  destruct (needsNewGroup groups n) eqn:Hnew.
  - destruct (buffers b !! getBufferName name "vertex") as [vb|] eqn:Hvb; [|done].
    cbn [mbind option_bind] in H. injection H as <- <-.
    cbn [elementGroups buffers]. split; [|split; [done|]].
    + intros name' groups' Hg'. cbn [elementGroups buffers] in *.
      destruct (decide (name' = name)) as [->|Hne].
      * rewrite lookup_insert_eq in Hg'. injection Hg' as <-.
        destruct (Hc name groups Hg) as [Hv He]. split.
        -- intros vb' Hvb'. rewrite Hvb in Hvb'. injection Hvb' as <-.
           apply tilesVertices_snoc; [by apply Hv|by destruct rev..].
        -- intros eb Heb. apply tilesElements_snoc; [by apply He| |by destruct rev].
           rewrite Heb. by destruct rev.
      * rewrite lookup_insert_ne in Hg' by done. by apply Hc.
    + exists (groups ++ [openGroup rev vb
                 (buffers b !! getBufferName name "element")
                 (buffers b !! getBufferName name "secondElement")]).
      rewrite lookup_insert_eq. split; [done|]. split.
      * by destruct groups.
      * rewrite length_app. cbn. lia.
  - injection H as <- <-. split; [done|]. split; [done|].
    exists groups. split; [done|]. split; [|done].
    apply needsNewGroup_false in Hnew as (g & Hlast & _). by destruct groups.
Qed.

Lemma step_contiguous rev o b b' :
  contiguous b → step rev o b = Some b' → contiguous b'.
Proof.
  intros Hc H. unfold step in H.
  destruct (makeRoomFor rev (op_shader o) (op_vertices o) b) as [[idx b1]|] eqn:Hroom;
    [|done].
  cbn [mbind option_bind] in H. injection H as <-.
  destruct (makeRoomFor_contiguous _ _ _ _ _ _ Hc Hroom)
    as (Hc1 & Hbuf & groups & Hg & Hne & ->).
  set (name := op_shader o) in *. set (nv := op_vertices o). set (ne := op_elements o).
  intros name' groups' Hg'. unfold addToGroup in *. cbn [elementGroups buffers] in *.
  destruct (decide (name' = name)) as [->|Hname].
  - rewrite lookup_alter_eq, Hg in Hg'. injection Hg' as <-.
    destruct (Hc1 name groups Hg) as [Hv He]. split.
    + intros vb Hvb.
      rewrite lookup_alter_ne in Hvb
        by (intros Heq; symmetry in Heq; by apply vertex_name_not_element in Heq).
      rewrite lookup_alter_eq in Hvb.
      destruct (buffers b1 !! getBufferName name "vertex") as [vb0|] eqn:Hvb0; [|done].
      injection Hvb as <-. cbn [pushItems buf_length].
      apply tilesVertices_grow; [done|]. by apply Hv.
    + intros eb Heb. rewrite lookup_alter_eq in Heb.
      rewrite lookup_alter_ne in Heb by apply vertex_name_not_element.
      destruct (buffers b1 !! getBufferName name "element") as [eb0|] eqn:Heb0; [|done].
      injection Heb as <-. cbn [pushItems buf_length].
      apply tilesElements_grow; [done|]. by apply He.
  - rewrite lookup_alter_ne in Hg' by done.
    destruct (Hc1 name' groups' Hg') as [Hv He]. split.
    + intros vb Hvb. apply Hv.
      rewrite lookup_alter_ne in Hvb
        by (intros Heq; symmetry in Heq; by apply vertex_name_not_element in Heq).
      rewrite lookup_alter_ne in Hvb; [done|].
      intros Heq. apply vertex_name_inj in Heq. done.
    + intros eb Heb. apply He.
      rewrite lookup_alter_ne in Heb
        by (intros Heq; apply element_name_inj in Heq; done).
      rewrite lookup_alter_ne in Heb by apply vertex_name_not_element. done.
Qed.

Lemma run_contiguous rev ops : ∀ b b',
  contiguous b → run rev ops b = Some b' → contiguous b'.
Proof.
  induction ops as [|o ops IH]; intros b b' Hc H.
  - by injection H as <-.
  - cbn [run] in H. destruct (step rev o b) as [b1|] eqn:Hstep; [|done].
    cbn [mbind option_bind] in H. eapply IH; [|exact H].
    by eapply step_contiguous.
Qed.

(** Every buffer that [createBuffers] makes is empty. *)
Lemma createBuffers_empty shaderInterfaces k buf :
  buffers (createBuffers shaderInterfaces) !! k = Some buf → buf_length buf = 0.
Proof.
  cbn [createBuffers buffers]. revert k buf.
  apply (map_fold_weak_ind (fun r (_ : gmap string ShaderInterface) =>
           ∀ k buf, r !! k = Some buf → buf_length buf = 0)).
  - intros k buf H. by rewrite lookup_empty in H.
  - intros name si m r _ IH k buf. unfold createBuffersFor.
    assert (Hins : ∀ (bufs : gmap string Buffer) k' size,
      (∀ k buf, bufs !! k = Some buf → buf_length buf = 0) →
      ∀ k buf, <[k' := mkBuffer 0 size]> bufs !! k = Some buf → buf_length buf = 0).
    { intros bufs k' size Hb k0 buf0 H.
      destruct (decide (k' = k0)) as [->|Hne].
      - rewrite lookup_insert_eq in H. by injection H as <-.
      - rewrite lookup_insert_ne in H by done. by eapply Hb. }
    destruct (vertexBuffer si), (elementBuffer si), (secondElementBuffer si);
      eauto 10.
Qed.

Lemma createBuffers_contiguous shaderInterfaces :
  contiguous (createBuffers shaderInterfaces).
Proof.
  intros name groups Hg. cbn [createBuffers elementGroups] in Hg.
  rewrite lookup_fmap in Hg.
  destruct (shaderInterfaces !! name); [|done]. injection Hg as <-.
  split; intros buf Hbuf; apply createBuffers_empty in Hbuf; cbn; lia.
Qed.

End GroupLayoutFacts.

Section GroupLayoutProperties.
Import Bucket GroupLayout.
Local Open Scope Z_scope.

Lemma createBuffers_no_vertex shaderInterfaces name :
  (∀ si, shaderInterfaces !! name = Some si → vertexBuffer si = false) →
  buffers (createBuffers shaderInterfaces) !! getBufferName name "vertex" = None.
Proof.
  cbn [createBuffers buffers].
  apply (map_fold_weak_ind (fun r (m : gmap string ShaderInterface) =>
           (∀ si, m !! name = Some si → vertexBuffer si = false) →
           r !! getBufferName name "vertex" = None)).
  - intros _. apply lookup_empty.
  - intros name' si m r Hfresh IH Hflag.
    assert (Hr : r !! getBufferName name "vertex" = None).
    { apply IH. intros si' Hsi'. apply Hflag.
      destruct (decide (name' = name)) as [->|Hne]; [congruence|].
      by rewrite lookup_insert_ne. }
    unfold createBuffersFor.
    assert (H1 : (if vertexBuffer si
                  then <[getBufferName name' "vertex" := mkBuffer 0 (vertexItemSize si)]> r
                  else r) !! getBufferName name "vertex" = None).
    { destruct (vertexBuffer si) eqn:Hv; [|done].
      rewrite lookup_insert_ne; [done|]. intros Heq.
      apply vertex_name_inj in Heq as ->.
      rewrite (Hflag si) in Hv; [done|]. by rewrite lookup_insert_eq. }
    assert (H2 : (if elementBuffer si
                  then <[getBufferName name' "element" := mkBuffer 0 (elementItemSize si)]>
                         (if vertexBuffer si
                          then <[getBufferName name' "vertex" :=
                                   mkBuffer 0 (vertexItemSize si)]> r
                          else r)
                  else (if vertexBuffer si
                        then <[getBufferName name' "vertex" :=
                                 mkBuffer 0 (vertexItemSize si)]> r
                        else r)) !! getBufferName name "vertex" = None).
    { destruct (elementBuffer si); [|done].
      rewrite lookup_insert_ne; [done|]. intros Heq. symmetry in Heq.
      by apply vertex_name_not_element in Heq. }
    destruct (secondElementBuffer si); [|done].
    rewrite lookup_insert_ne; [done|]. intros Heq. symmetry in Heq.
    by apply vertex_name_not_secondElement in Heq.
Qed.

(** X26.  [makeRoomFor] raises a [TypeError] in two cases only: the bucket
    has no group list for the shader, or a new group is needed (the list is
    empty or its last group lacks room) and the shader has no vertex buffer.
    After [createBuffers] it therefore raises for a shader that is not among
    the shader interfaces, and for one whose interface declares no vertex
    buffer; a missing element buffer never makes it raise. *)
Theorem makeRoomFor_raises rev name n b :
  (makeRoomFor rev name n b = None ↔
   elementGroups b !! name = None ∨
   ∃ groups, elementGroups b !! name = Some groups ∧
             (last groups = None ∨
              ∃ g, last groups = Some g ∧ vertexLength g + n > 65535) ∧
             buffers b !! getBufferName name "vertex" = None) ∧
  (∀ shaderInterfaces,
     shaderInterfaces !! name = None →
     makeRoomFor rev name n (createBuffers shaderInterfaces) = None) ∧
  (∀ shaderInterfaces si,
     shaderInterfaces !! name = Some si → vertexBuffer si = false →
     makeRoomFor rev name n (createBuffers shaderInterfaces) = None).
Proof.
  assert (Hiff : makeRoomFor rev name n b = None ↔
    elementGroups b !! name = None ∨
    ∃ groups, elementGroups b !! name = Some groups ∧
              (last groups = None ∨
               ∃ g, last groups = Some g ∧ vertexLength g + n > 65535) ∧
              buffers b !! getBufferName name "vertex" = None).
  { unfold makeRoomFor, needsNewGroup.
    destruct (elementGroups b !! name) as [groups|]; cbn [mbind option_bind];
      [|split; [by left|done]].
    destruct (last groups) as [g|] eqn:Hlast.
    - destruct (bool_decide (vertexLength g + n > 65535)) eqn:E;
        [apply bool_decide_eq_true in E|apply bool_decide_eq_false in E].
      + destruct (buffers b !! getBufferName name "vertex"); cbn [mbind option_bind].
        * split; [done|]. by intros [?|(? & _ & _ & ?)].
        * split; [|done]. intros _. right. exists groups. eauto 10.
      + split; [done|].
        intros [?|(groups' & Hg' & Hcase & _)]; [done|].
        injection Hg' as <-. rewrite Hlast in Hcase.
        destruct Hcase as [?|(g' & [= <-] & ?)]; done.
    - destruct (buffers b !! getBufferName name "vertex"); cbn [mbind option_bind].
      + split; [done|]. by intros [?|(? & _ & _ & ?)].
      + split; [|done]. intros _. right. exists groups. eauto. }
  split; [exact Hiff|]. split.
  - intros shaderInterfaces Hnone. unfold makeRoomFor.
    cbn [createBuffers elementGroups]. by rewrite lookup_fmap, Hnone.
  - intros shaderInterfaces si Hsi Hflag. unfold makeRoomFor.
    cbn [createBuffers elementGroups buffers]. rewrite lookup_fmap, Hsi.
    cbn [fmap option_fmap option_map mbind option_bind needsNewGroup last].
    pose proof (createBuffers_no_vertex shaderInterfaces name) as Hno.
    cbn [createBuffers buffers] in Hno. rewrite Hno; [done|].
    intros si' Hsi'. congruence.
Qed.

Lemma makeRoomFor_raises_witness :
  makeRoomFor Constructor "line" 4 (createBuffers twoInterfaces) = None ∧
  makeRoomFor ObjectLiteral "outline" 4
    (createBuffers {[ "outline" := mkShaderInterface false true false 0 6 0 ]}) = None.
Proof.
  split.
  - apply (makeRoomFor_raises Constructor "line" 4 (createBuffers twoInterfaces)).
    reflexivity.
  - apply (proj2 (proj2 (makeRoomFor_raises ObjectLiteral "outline" 4
                           (createBuffers twoInterfaces)))
             {[ "outline" := mkShaderInterface false true false 0 6 0 ]}
             (mkShaderInterface false true false 0 6 0)); reflexivity.
Defined.

(** X27.  The element groups of a shader cover its buffers without gap or
    overlap: after [createBuffers] and any sequence of [makeRoomFor] calls
    each followed by the caller's additions to the returned group, the first
    group of every shader starts at vertex 0, each next group starts where
    its predecessor ends, and the last one ends at the length of the vertex
    buffer; the same holds of the element start indices and the element
    buffer when the shader has one. *)
Theorem element_groups_cover_the_buffers :
  (∀ shaderInterfaces, contiguous (createBuffers shaderInterfaces)) ∧
  (∀ rev o b b', contiguous b → step rev o b = Some b' → contiguous b') ∧
  (∀ rev shaderInterfaces ops b',
     run rev ops (createBuffers shaderInterfaces) = Some b' → contiguous b').
Proof.
  split; [apply createBuffers_contiguous|]. split; [apply step_contiguous|].
  intros rev shaderInterfaces ops b'. apply run_contiguous.
  apply createBuffers_contiguous.
Qed.

Lemma element_groups_cover_the_buffers_witness :
  ∃ b' groups vb,
    run Constructor threeSteps (createBuffers twoInterfaces) = Some b' ∧
    elementGroups b' !! "fill" = Some groups ∧
    buffers b' !! "fillVertex" = Some vb ∧
    tilesVertices 0 groups (buf_length vb) ∧
    vertexStartIndex <$> groups = [0; 65000] ∧ buf_length vb = 66000.
Proof.
  destruct (run Constructor threeSteps (createBuffers twoInterfaces)) as [b'|] eqn:E.
  - pose proof (proj2 (proj2 element_groups_cover_the_buffers)
                  Constructor twoInterfaces threeSteps b' E) as Hc.
    vm_compute in E. injection E as <-.
    eexists _, _, _. split; [reflexivity|].
    split; [vm_compute; reflexivity|]. split; [vm_compute; reflexivity|].
    split; [|split; vm_compute; reflexivity].
    exact (proj1 (Hc "fill" _ eq_refl) _ eq_refl).
  - vm_compute in E. discriminate.
Defined.

End GroupLayoutProperties.

(** ** Circle bucket: the triangles index their quad *)

Section CircleLayoutFacts.
Import CircleBucket CircleLayout.
Local Open Scope Z_scope.

Lemma last_alter_last {A} (f : A → A) (l : list A) (a : A) :
  last l = Some a → last (alter f (pred (length l)) l) = Some (f a).
Proof.
  rewrite !last_lookup, length_alter. intros H.
  by rewrite list_lookup_alter_eq, H.
Qed.

Lemma toUint16_small v : 0 <= v < 65536 → toUint16 v = v.
Proof. intros H. unfold toUint16. by apply Z.mod_small. Qed.

(** The group that [makeRoomFor] hands back is the last one, and it ends
    where the vertex array ends. *)
Lemma Reserved_last s groups idx groups' g :
  aligned s → elementGroups s !! "circle" = Some groups →
  Reserved s groups idx groups' g →
  last groups' = Some g ∧ idx = pred (length groups') ∧
  0 <= Bucket.vertexLength g ∧ Bucket.vertexLength g + 4 <= 65535 ∧
  Bucket.vertexStartIndex g + Bucket.vertexLength g =
    Z.of_nat (length (circleVertex s)).
Proof.
  intros Ha Hg Hres. destruct Hres as [g Hlast Hroom|g Hv He Hs Hes].
  - destruct (Ha groups g Hg Hlast) as [H0 Hend]. done.
  - split; [by rewrite last_snoc|]. split.
    + rewrite length_app. cbn. lia.
    + lia.
Qed.

Lemma addPoint_aligned p s groups :
  insideTile p = true →
  elementGroups s !! "circle" = Some groups →
  aligned s →
  ∃ idx groups' g s',
    Reserved s groups idx groups' g ∧
    addPoint p s = Some s' ∧
    0 <= Bucket.vertexLength g ∧ Bucket.vertexLength g + 4 <= 65535 ∧
    Bucket.vertexStartIndex g + Bucket.vertexLength g =
      Z.of_nat (length (circleVertex s)) ∧
    circleElement s' = circleElement s ++
      [ (Bucket.vertexLength g, Bucket.vertexLength g + 1, Bucket.vertexLength g + 2);
        (Bucket.vertexLength g, Bucket.vertexLength g + 3, Bucket.vertexLength g + 2) ] ∧
    is_Some (elementGroups s' !! "circle") ∧
    aligned s'.
Proof.
  intros Hin Hg Ha.
  destruct (addPoint_inside p s groups Hin Hg) as (idx & groups' & g & Hres & Hadd).
  destruct (Reserved_last s groups idx groups' g Ha Hg Hres)
    as (Hlast & -> & H0 & Hroom & Hend).
  eexists _, groups', g, _. split; [exact Hres|]. split; [exact Hadd|].
  split; [done|]. split; [done|]. split; [done|].
  cbn [circleElement elementGroups circleVertex]. split; [|split].
  - f_equal. unfold triangles.
    replace (Z.of_nat (length (circleVertex s)) - Bucket.vertexStartIndex g)
      with (Bucket.vertexLength g) by lia.
    rewrite !toUint16_small by lia. done.
  - rewrite lookup_insert_eq. eauto.
  - intros groups1 g1 Hg1 Hlast1. cbn [elementGroups circleVertex] in *.
    rewrite lookup_insert_eq in Hg1. injection Hg1 as <-.
    rewrite (last_alter_last _ _ _ Hlast) in Hlast1. injection Hlast1 as <-.
    cbn [Bucket.growGroup Bucket.vertexLength Bucket.vertexStartIndex].
    rewrite length_app. cbn [quad length]. lia.
Qed.

Lemma fitsUint16_quad i :
  0 <= i → i + 4 <= 65535 →
  Forall fitsUint16 [(i, i + 1, i + 2); (i, i + 3, i + 2)].
Proof. intros. repeat constructor; lia. Qed.

Lemma addRing_aligned ring : ∀ s,
  is_Some (elementGroups s !! "circle") → aligned s →
  Forall fitsUint16 (circleElement s) →
  ∃ s', addRing ring s = Some s' ∧ is_Some (elementGroups s' !! "circle") ∧
        aligned s' ∧ Forall fitsUint16 (circleElement s').
Proof.
  induction ring as [|p ring IH]; intros s Hs Ha Hfit.
  - exists s. done.
  - cbn [addRing]. destruct (insideTile p) eqn:Hin.
    + destruct Hs as [groups Hg].
      destruct (addPoint_aligned p s groups Hin Hg Ha)
        as (idx & groups' & g & s1 & _ & -> & H0 & Hroom & _ & Hel & Hs1 & Ha1).
      cbn [mbind option_bind]. apply IH; [done..|].
      rewrite Hel. apply Forall_app. split; [done|]. by apply fitsUint16_quad.
    + unfold insideTile in Hin. apply negb_false_iff in Hin.
      rewrite (addPoint_outside p s Hin). cbn [mbind option_bind]. by apply IH.
Qed.

Lemma addRings_aligned geometries : ∀ s,
  is_Some (elementGroups s !! "circle") → aligned s →
  Forall fitsUint16 (circleElement s) →
  ∃ s', addRings geometries s = Some s' ∧ is_Some (elementGroups s' !! "circle") ∧
        aligned s' ∧ Forall fitsUint16 (circleElement s').
Proof.
  induction geometries as [|ring rest IH]; intros s Hs Ha Hfit.
  - exists s. done.
  - cbn [addRings].
    destruct (addRing_aligned ring s Hs Ha Hfit) as (s1 & -> & Hs1 & Ha1 & Hfit1).
    cbn [mbind option_bind]. by apply IH.
Qed.

(** X28.  In a circle bucket whose last group ends where the vertex array
    ends, as it does after [createBuffers] and after every [addFeature], the
    two triangles written for a point are [(i, i + 1, i + 2)] and
    [(i, i + 3, i + 2)] where [i] is the number of vertices the group held
    before: [i] plus the start of the group is the position of the first
    vertex of the quad in the vertex array, and [i + 3 < 65535], so the
    indices are stored in the unsigned 16-bit element array without
    wrapping.  Every element that [addFeature] stores fits 16 bits. *)
Theorem circle_triangles_index_their_quad :
  aligned created ∧
  (∀ p s groups,
     insideTile p = true →
     elementGroups s !! "circle" = Some groups →
     aligned s →
     ∃ idx groups' g s',
       Reserved s groups idx groups' g ∧
       addPoint p s = Some s' ∧
       0 <= Bucket.vertexLength g ∧ Bucket.vertexLength g + 4 <= 65535 ∧
       Bucket.vertexStartIndex g + Bucket.vertexLength g =
         Z.of_nat (length (circleVertex s)) ∧
       circleElement s' = circleElement s ++
         [ (Bucket.vertexLength g, Bucket.vertexLength g + 1, Bucket.vertexLength g + 2);
           (Bucket.vertexLength g, Bucket.vertexLength g + 3, Bucket.vertexLength g + 2) ] ∧
       aligned s') ∧
  (∀ geometries s,
     is_Some (elementGroups s !! "circle") → aligned s →
     Forall fitsUint16 (circleElement s) →
     ∃ s', addFeature geometries s = Some s' ∧
           is_Some (elementGroups s' !! "circle") ∧
           aligned s' ∧ Forall fitsUint16 (circleElement s')).
Proof.
  split; [|split].
  - intros groups g Hg Hlast. vm_compute in Hg. injection Hg as <-. done.
  - intros p s groups Hin Hg Ha.
    destruct (addPoint_aligned p s groups Hin Hg Ha)
      as (idx & groups' & g & s' & H1 & H2 & H3 & H4 & H5 & H6 & _ & H7).
    eauto 12.
  - intros geometries s Hs Ha Hfit. unfold addFeature.
    destruct (addRings_aligned geometries s Hs Ha Hfit) as (s1 & -> & Hs1 & Ha1 & Hfit1).
    cbn [mbind option_bind]. eexists. split; [reflexivity|].
    cbn [elementGroups circleElement]. split; [done|]. split; [|done].
    intros groups g Hg Hlast. cbn [elementGroups circleVertex] in *.
    by apply (Ha1 groups g).
Qed.

Lemma circle_triangles_index_their_quad_witness :
  ∃ s', addFeature [[mkPoint 1 1; mkPoint (-5) 3; mkPoint 7 7]] created = Some s' ∧
        Forall fitsUint16 (circleElement s') ∧
        circleElement s' = [(0, 1, 2); (0, 3, 2); (4, 5, 6); (4, 7, 6)].
Proof.
  destruct (proj2 (proj2 circle_triangles_index_their_quad)
              [[mkPoint 1 1; mkPoint (-5) 3; mkPoint 7 7]] created)
    as (s' & Hs' & _ & _ & Hfit).
  - by eexists.
  - apply circle_triangles_index_their_quad.
  - constructor.
  - exists s'. split; [exact Hs'|]. split; [exact Hfit|].
    vm_compute in Hs'. injection Hs' as <-. reflexivity.
Defined.

End CircleLayoutFacts.


(** ** Style functions *)

Section StyleFunctionFacts.
Import StyleFunction.
Local Open Scope Z_scope.

Context {A B V : Type}.

Lemma toInt32_small q :
  - 2 ^ 31 <= truncate q < 2 ^ 31 → toInt32 q = truncate q.
Proof. intros H. unfold toInt32. rewrite Z.mod_small by lia. lia. Qed.

Lemma truncate_nonneg q : (0 <= q)%Q → truncate q = wholePart q ∧ 0 <= truncate q.
Proof.
  intros H. destruct q as [n d]. unfold truncate, wholePart, Qle in *. cbn in *.
  assert (0 <= n) by lia.
  rewrite Z.quot_div_nonneg by lia. split; [done|]. apply Z.div_pos; lia.
Qed.

Lemma truncate_fraction q : (- 1 < q)%Q → (q < 0)%Q → truncate q = 0.
Proof.
  intros H1 H0. destruct q as [n d]. unfold truncate, Qlt in *. cbn in *.
  replace n with (- (- n)) by lia. rewrite Z.quot_opp_l by lia.
  rewrite Z.quot_small; lia.
Qed.

Lemma truncate_negative q : (q <= - 1)%Q → truncate q <= - 1.
Proof.
  intros H. destruct q as [n d]. unfold truncate, Qle in *. cbn in *.
  replace n with (- (- n)) by lia. rewrite Z.quot_opp_l by lia.
  assert (0 < (- n) ÷ Z.pos d); [|lia].
  apply Z.quot_str_pos. lia.
Qed.


Lemma wholePart_bounds q (n : Z) :
  (0 <= q)%Q → (q < inject_Z n)%Q → 0 <= wholePart q < n.
Proof.
  intros H0 Hn. destruct q as [a d]. unfold wholePart, Qle, Qlt in *. cbn in *.
  split; [apply Z.div_pos; lia|].
  apply Z.div_lt_upper_bound; lia.
Qed.

(** X29.  [categorical] returns the output of the stop whose index is the
    feature property truncated towards zero: the output of stop 0 when the
    property is [undefined] or lies strictly between -1 and 1, the output of
    stop [floor(q)] for a property [q] from 0 up to the number of stops; and
    it raises a [TypeError] for a property of -1 or below or of the number
    of stops or above (within the 32-bit range), and for every property when
    there is no stop. *)
Theorem categorical_picks_stop_by_truncation (stops : list (A * B)) :
  categorical stops None = snd <$> head stops ∧
  (∀ q, (0 <= q)%Q → (q < inject_Z (Z.of_nat (length stops)))%Q →
        Z.of_nat (length stops) <= 2 ^ 31 →
        ∃ stop, stops !! Z.to_nat (wholePart q) = Some stop ∧
                categorical stops (Some q) = Some stop.2) ∧
  (∀ q, (- 1 < q)%Q → (q < 0)%Q → categorical stops (Some q) = snd <$> head stops) ∧
  (∀ q, (- inject_Z (2 ^ 31) <= q)%Q → (q <= - 1)%Q → categorical stops (Some q) = None) ∧
  (∀ q, (inject_Z (Z.of_nat (length stops)) <= q)%Q → (q < inject_Z (2 ^ 31))%Q →
        categorical stops (Some q) = None) ∧
  (stops = [] → ∀ input, categorical stops input = None).
Proof.
  assert (Hhead : ∀ l : list (A * B), l !! Z.to_nat 0 = head l) by (by intros []).
  split; [|split; [|split; [|split; [|split]]]].
  - unfold categorical. cbn. by rewrite Hhead.
  - intros q H0 Hlen Hmax.
    destruct (truncate_nonneg q H0) as [Ht Ht0].
    destruct (wholePart_bounds q _ H0 Hlen) as [Hw0 Hw].
    unfold categorical. rewrite toInt32_small by lia. rewrite Ht.
    destruct (wholePart q <? 0) eqn:E; [apply Z.ltb_lt in E; lia|].
    destruct (lookup_lt_is_Some_2 stops (Z.to_nat (wholePart q))) as [stop Hstop];
      [lia|].
    exists stop. by rewrite Hstop.
  - intros q H1 H0. unfold categorical.
    rewrite toInt32_small by (rewrite truncate_fraction by done; lia).
    rewrite truncate_fraction by done. cbn. by rewrite Hhead.
  - intros q Hmin H1. unfold categorical.
    pose proof (truncate_negative q H1) as Ht.
    assert (- 2 ^ 31 <= truncate q).
    { destruct q as [n d]. unfold truncate, Qle in *. cbn in *.
      replace n with (- (- n)) by lia. rewrite Z.quot_opp_l by lia.
      assert ((- n) ÷ Z.pos d <= 2 ^ 31); [|lia].
      rewrite Z.quot_div_nonneg by lia.
      apply Z.div_le_upper_bound; lia. }
    rewrite toInt32_small by lia.
    destruct (truncate q <? 0) eqn:E; [done|]. apply Z.ltb_ge in E. lia.
  - intros q Hlen Hmax. unfold categorical.
    assert (H0 : (0 <= q)%Q).
    { eapply Qle_trans; [|exact Hlen]. unfold Qle. cbn. lia. }
    destruct (truncate_nonneg q H0) as [Ht Ht0].
    destruct (wholePart_bounds q _ H0 Hmax) as [_ Hw].
    rewrite toInt32_small by lia. rewrite Ht.
    destruct (wholePart q <? 0) eqn:E; [done|].
    rewrite lookup_ge_None_2; [done|].
    assert (Z.of_nat (length stops) <= wholePart q); [|lia].
    destruct q as [n d]. unfold wholePart, Qle in *. cbn in *.
    apply Z.div_le_lower_bound; lia.
  - intros -> input. unfold categorical.
    destruct (_ <? 0); [done|]. by rewrite lookup_nil.
Qed.

(** X30.  [migrate] hands back unchanged every value that is no function
    definition with stops.  For a definition with stops, [range] lists the
    outputs of the stops in order, and [base] and [property] are carried
    over; for an interpolated reference the type is ['exponential'] and
    [domain] lists the inputs of the stops, so that domain and range pair up
    to the stops again; for any other reference the type is ['interval'] and
    the first input is dropped, so that [domain] has one entry fewer than
    [range] (none for no stops) and its entry of index [i] is the input of
    stop [i + 1]. *)
Theorem migrate_splits_the_stops (fn : option string) (p : Parameters A B)
    (st : list (A * B)) (v : V) :
  migrate (A:=A) (B:=B) fn (Other v) = Unchanged (Other v) ∧
  (stops p = None → migrate (V:=V) fn (Definitions p) = Unchanged (Definitions p)) ∧
  (stops p = Some st → fn = Some "interpolated" →
   ∃ domain range,
     migrate (V:=V) fn (Definitions p) =
       Output (base p) (property p) domain range "exponential" ∧
     zip domain range = st ∧ length domain = length st ∧ length range = length st) ∧
  (stops p = Some st → fn ≠ Some "interpolated" →
   ∃ domain range,
     migrate (V:=V) fn (Definitions p) =
       Output (base p) (property p) domain range "interval" ∧
     range = snd <$> st ∧ length domain = pred (length st) ∧
     ∀ i, domain !! i = fst <$> st !! S i).
Proof.
  split; [done|]. split; [|split].
  - intros H. unfold migrate. by rewrite H.
  - intros H Hfn. unfold migrate. rewrite H, bool_decide_eq_true_2 by done.
    eexists _, _. split; [reflexivity|]. rewrite !length_fmap.
    split; [|done]. clear H. induction st as [|[a b] st IH]; [done|].
    cbn. by rewrite IH.
  - intros H Hfn. unfold migrate. rewrite H, bool_decide_eq_false_2 by done.
    eexists _, _. split; [reflexivity|]. split; [done|].
    destruct st as [|s0 st]; [done|]. cbn [fmap list_fmap tail length pred].
    split; [by rewrite length_fmap|]. intros i. by rewrite list_lookup_fmap.
Qed.

End StyleFunctionFacts.

Lemma categorical_picks_stop_by_truncation_witness :
  StyleFunction.categorical [(0%Z, "red"); (1%Z, "green"); (2%Z, "blue")]
    (Some (5 # 2)) = Some "blue" ∧
  StyleFunction.categorical [(0%Z, "red"); (1%Z, "green"); (2%Z, "blue")]
    (Some (- (1 # 2))%Q) = Some "red" ∧
  StyleFunction.categorical [(0%Z, "red"); (1%Z, "green"); (2%Z, "blue")]
    (Some 3%Q) = None.
Proof.
  pose proof (categorical_picks_stop_by_truncation
                [(0%Z, "red"); (1%Z, "green"); (2%Z, "blue")])
    as (_ & Hin & Hfrac & _ & Hout & _).
  split; [|split].
  - destruct (Hin (5 # 2)) as (stop & Hstop & ->).
    + vm_compute. discriminate.
    + reflexivity.
    + vm_compute. discriminate.
    + vm_compute in Hstop. by injection Hstop as <-.
  - rewrite (Hfrac (- (1 # 2))%Q); reflexivity.
  - apply Hout; [vm_compute; discriminate|reflexivity].
Defined.

Lemma migrate_splits_the_stops_witness :
  ∃ domain range,
    StyleFunction.migrate (V:=unit) (Some "piecewise-constant")
      (StyleFunction.Definitions
         (StyleFunction.mkParameters (Some [(0%Z, "a"); (5%Z, "b"); (9%Z, "c")])
            None None)) =
      StyleFunction.Output None None domain range "interval" ∧
    domain !! 0%nat = Some 5%Z ∧ length domain = 2%nat.
Proof.
  destruct (migrate_splits_the_stops (V:=unit) (Some "piecewise-constant")
              (StyleFunction.mkParameters (Some [(0%Z, "a"); (5%Z, "b"); (9%Z, "c")])
                 None None)
              [(0%Z, "a"); (5%Z, "b"); (9%Z, "c")] tt)
    as (_ & _ & _ & H).
  destruct H as (domain & range & Hm & _ & Hlen & Hdom); [reflexivity|discriminate|].
  exists domain, range. split; [exact Hm|]. split; [|exact Hlen].
  by rewrite Hdom.
Defined.

(** ** Binary64 arithmetic *)

Section DoubleFacts.
Import Double.
Local Open Scope Q_scope.

Lemma pow2_pos (k : Z) : 0 < 2 ^ k.
Proof. by apply Qpower_0_lt. Qed.

Lemma pow2_Z (k : Z) : (0 <= k)%Z → 2 ^ k == inject_Z (2 ^ k).
Proof. intros H. by rewrite Zpower_Qpower. Qed.

Lemma pow2_plus (a b : Z) : 2 ^ (a + b) == 2 ^ a * 2 ^ b.
Proof. by apply Qpower_plus. Qed.

Lemma pow2_opp (a : Z) : 2 ^ (- a) == / 2 ^ a.
Proof. apply Qpower_opp. Qed.

Lemma pow2_le (a b : Z) : (a <= b)%Z → 2 ^ a <= 2 ^ b.
Proof. intros H. by apply Qpower_le_compat_l. Qed.

Lemma inject_Z_le (a b : Z) : inject_Z a <= inject_Z b ↔ (a <= b)%Z.
Proof. by rewrite Zle_Qle. Qed.

Lemma inject_Z_lt (a b : Z) : inject_Z a < inject_Z b ↔ (a < b)%Z.
Proof. by rewrite Zlt_Qlt. Qed.

(** The exponent is not too large. *)
Lemma exponent_le (q : Q) : ¬ q == 0 → 2 ^ exponent q <= Qabs q.
Proof.
  intros Hq. unfold exponent.
  set (a := Z.abs (Qnum q)). set (d := Z.pos (Qden q)).
  destruct (Qle_bool (2 ^ (Z.log2 a - Z.log2 d)) (Qabs q)) eqn:E.
  - by apply Qle_bool_iff.
  - clear E.
    assert (Ha : (0 < a)%Z).
    { unfold a. destruct q as [n dd]. unfold Qeq in Hq. cbn in *. lia. }
    assert (Hd : (0 < d)%Z) by done.
    destruct (Z.log2_spec a Ha) as [Ha1 _].
    destruct (Z.log2_spec d Hd) as [_ Hd2].
    pose proof (Z.log2_nonneg a) as Hla. pose proof (Z.log2_nonneg d) as Hld.
    assert (Habs : Qabs q == inject_Z a / inject_Z d).
    { destruct q as [n dd]. unfold a, d. cbn [Qnum Qden].
      rewrite <- Zabs_Qabs. unfold Qeq, Qdiv, Qmult, Qinv, inject_Z. cbn. lia. }
    rewrite Habs.
    replace (Z.log2 a - Z.log2 d - 1)%Z with (Z.log2 a + - Z.succ (Z.log2 d))%Z by lia.
    rewrite pow2_plus, pow2_opp, !pow2_Z by lia.
    apply inject_Z_le in Ha1. apply Z.lt_le_incl, inject_Z_le in Hd2.
    assert (H0 : 0 < inject_Z d) by (by apply (inject_Z_lt 0)).
    assert (H1 : 0 < inject_Z (2 ^ Z.succ (Z.log2 d))) by lra.
    assert (H2 : 0 <= inject_Z (2 ^ Z.log2 a)).
    { apply (inject_Z_le 0). apply Z.pow_nonneg. lia. }
    apply Qle_shift_div_l; [done|].
    assert (Hre : inject_Z (2 ^ Z.log2 a) * / inject_Z (2 ^ Z.succ (Z.log2 d)) *
                  inject_Z d ==
                  inject_Z (2 ^ Z.log2 a) *
                  (inject_Z d / inject_Z (2 ^ Z.succ (Z.log2 d)))) by (field; lra).
    rewrite Hre. clear Hre.
    assert (H3 : inject_Z d / inject_Z (2 ^ Z.succ (Z.log2 d)) <= 1).
    { apply Qle_shift_div_r; [done|]. lra. }
    assert (H4 : 0 <= inject_Z d / inject_Z (2 ^ Z.succ (Z.log2 d))).
    { apply Qle_shift_div_l; [done|]. lra. }
    pose proof (Qmult_le_compat_nonneg
                  (inject_Z (2 ^ Z.log2 a)) (inject_Z (2 ^ Z.log2 a))
                  (inject_Z d / inject_Z (2 ^ Z.succ (Z.log2 d))) 1) as H5.
    lra.
Qed.

Lemma nearestEven_cases (q : Q) :
  nearestEven q = Qfloor q ∨
  (nearestEven q = (Qfloor q + 1)%Z ∧ inject_Z (Qfloor q) < q).
Proof.
  unfold nearestEven. destruct (Qcompare_spec (q - inject_Z (Qfloor q)) (1 # 2)) as [H|H|H].
  - destruct (Z.even (Qfloor q)); [by left|]. right. split; [done|]. lra.
  - by left.
  - right. split; [done|]. lra.
Qed.

Lemma nearestEven_le (q : Q) (m : Z) : q <= inject_Z m → (nearestEven q <= m)%Z.
Proof.
  intros H. pose proof (Qfloor_le q) as Hf.
  destruct (nearestEven_cases q) as [->|[-> Hlt]].
  - apply inject_Z_le. lra.
  - assert (Qfloor q < m)%Z by (apply inject_Z_lt; lra). lia.
Qed.

Lemma nearestEven_ge (q : Q) (m : Z) : inject_Z m <= q → (m <= nearestEven q)%Z.
Proof.
  intros H. pose proof (Qlt_floor q) as Hf.
  assert (m < Qfloor q + 1)%Z by (apply inject_Z_lt; lra).
  destruct (nearestEven_cases q) as [->|[-> Hlt]]; lia.
Qed.

Lemma Qred_inject_Z (z : Z) : Qred (inject_Z z) = inject_Z z.
Proof.
  unfold inject_Z, Qred.
  pose proof (Z.ggcd_gcd z 1) as Hg. pose proof (Z.ggcd_correct_divisors z 1) as Hd.
  destruct (Z.ggcd z 1) as [g [aa bb]]. cbn in Hg. rewrite Z.gcd_1_r in Hg. subst g.
  destruct Hd as [-> Hb]. f_equal; [lia|]. assert (bb = 1%Z) as -> by lia. done.
Qed.

(** A multiple of the unit in the last place that lies on one side of [q]
    lies on the same side of the rounded value. *)
Lemma scaled_le (r : Q) (k m : Z) :
  r <= inject_Z m * 2 ^ k →
  inject_Z (nearestEven (r / 2 ^ k)) * 2 ^ k <= inject_Z m * 2 ^ k.
Proof.
  intros H. pose proof (pow2_pos k) as Hk.
  apply Qmult_le_compat_r; [|lra]. apply inject_Z_le, nearestEven_le.
  apply Qle_shift_div_r; [done|]. done.
Qed.

Lemma scaled_ge (r : Q) (k m : Z) :
  inject_Z m * 2 ^ k <= r →
  inject_Z m * 2 ^ k <= inject_Z (nearestEven (r / 2 ^ k)) * 2 ^ k.
Proof.
  intros H. pose proof (pow2_pos k) as Hk.
  apply Qmult_le_compat_r; [|lra]. apply inject_Z_le, nearestEven_ge.
  apply Qle_shift_div_l; [done|]. done.
Qed.

(** An integer below [2 ^ 53] in magnitude is a multiple of the unit in the
    last place of every number that is not larger in magnitude; a number that
    is larger lies beyond a power of two. *)
Lemma integer_multiple (b k : Z) :
  (k <= 0)%Z → inject_Z b == inject_Z (b * 2 ^ (- k)) * 2 ^ k.
Proof.
  intros Hk. rewrite inject_Z_mult, <- pow2_Z by lia.
  rewrite <- Qmult_assoc, <- pow2_plus.
  replace (- k + k)%Z with 0%Z by lia. cbn. ring.
Qed.

Lemma round_between (q : Q) (a b : Z) :
  inject_Z a <= q → q <= inject_Z b →
  (Z.abs a < 2 ^ 53)%Z → (Z.abs b < 2 ^ 53)%Z →
  ∃ v, round q = Finite v ∧ inject_Z a <= v ∧ v <= inject_Z b ∧ Qred v = v.
Proof.
  intros Ha Hb Hab Hbb. unfold round.
  destruct (Qeq_bool q 0) eqn:E0.
  { apply Qeq_bool_iff in E0. exists 0. split; [done|]. split; [lra|]. split; [lra|done]. }
  apply Qeq_bool_neq in E0.
  pose proof (Qred_correct q) as Hr. set (r := Qred q) in *.
  assert (Hr0 : ¬ r == 0) by (rewrite Hr; done).
  set (k := ulp r). set (n := nearestEven (r / 2 ^ k)).
  pose proof (pow2_pos k) as Hk.
  assert (Hbounds : inject_Z a <= inject_Z n * 2 ^ k ∧ inject_Z n * 2 ^ k <= inject_Z b).
  { destruct (Z_le_gt_dec k 0) as [Hk0|Hk0].
    - split.
      + rewrite (integer_multiple a k Hk0). apply scaled_ge.
        rewrite <- integer_multiple by done. lra.
      + rewrite (integer_multiple b k Hk0). apply scaled_le.
        rewrite <- integer_multiple by done. lra.
    - (* the numbers around [q] are multiples of a power of two above 1:
         [q] is at least [2 ^ 53] in magnitude *)
      pose proof (exponent_le r Hr0) as He.
      assert (Hek : exponent r = (k + 52)%Z) by (unfold k, ulp in *; lia).
      rewrite Hek in He.
      assert (H53 : 2 ^ 53 <= 2 ^ (k + 52)) by (apply pow2_le; lia).
      assert (Hsplit : 2 ^ (k + 52) == inject_Z (2 ^ 52) * 2 ^ k).
      { rewrite <- pow2_Z by lia. rewrite <- pow2_plus. by rewrite Z.add_comm. }
      assert (Ha' : - 2 ^ 53 < inject_Z a).
      { rewrite pow2_Z by lia. rewrite <- inject_Z_opp. apply inject_Z_lt. lia. }
      assert (Hb' : inject_Z b < 2 ^ 53).
      { rewrite pow2_Z by lia. apply inject_Z_lt. lia. }
      destruct (Qlt_le_dec r 0) as [Hneg|Hpos].
      + (* [q <= - 2 ^ e]: impossible, [a] is larger *)
        exfalso. rewrite Qabs_neg in He by lra. lra.
      + exfalso. rewrite Qabs_pos in He by lra. lra. }
  destruct Hbounds as [Hlo Hhi].
  set (v := Qred (inject_Z n * 2 ^ k)).
  assert (Hv : v == inject_Z n * 2 ^ k) by apply Qred_correct.
  assert (Hfinite : Qle_bool (2 ^ 1024) (Qabs v) = false).
  { apply not_true_is_false. intros Hle. apply Qle_bool_iff in Hle.
    assert (H1024 : 2 ^ 53 <= 2 ^ 1024) by (apply pow2_le; lia).
    assert (Ha' : - 2 ^ 53 < inject_Z a).
    { rewrite pow2_Z by lia. rewrite <- inject_Z_opp. apply inject_Z_lt. lia. }
    assert (Hb' : inject_Z b < 2 ^ 53).
    { rewrite pow2_Z by lia. apply inject_Z_lt. lia. }
    assert (Habs : Qabs v < 2 ^ 53).
    { apply Qabs_case; intros; lra. }
    lra. }
  rewrite Hfinite. exists v. split; [done|]. split; [lra|]. split; [lra|].
  unfold v. apply Qred_complete, Qred_correct.
Qed.

(** Integers below [2 ^ 53] in magnitude are numbers, and a sum, difference
    or product that is such an integer is computed exactly. *)
Lemma round_exact (q : Q) (z : Z) :
  q == inject_Z z → (Z.abs z < 2 ^ 53)%Z → round q = ofZ z.
Proof.
  intros Hq Hz.
  destruct (round_between q z z) as (v & -> & Hlo & Hhi & Hred); [lra..|done|done|].
  unfold ofZ. f_equal. rewrite <- Hred, <- Qred_inject_Z.
  apply Qred_complete. lra.
Qed.

Lemma add_ofZ (a b : Z) :
  (Z.abs (a + b) < 2 ^ 53)%Z → add (ofZ a) (ofZ b) = ofZ (a + b).
Proof. intros H. cbn. apply round_exact; [|done]. by rewrite inject_Z_plus. Qed.

Lemma sub_ofZ (a b : Z) :
  (Z.abs (a - b) < 2 ^ 53)%Z → sub (ofZ a) (ofZ b) = ofZ (a - b).
Proof.
  intros H. cbn. apply round_exact; [|done].
  unfold Z.sub. by rewrite inject_Z_plus, inject_Z_opp.
Qed.

Lemma mul_ofZ (a b : Z) :
  (Z.abs (a * b) < 2 ^ 53)%Z → mul (ofZ a) (ofZ b) = ofZ (a * b).
Proof. intros H. cbn. apply round_exact; [|done]. by rewrite inject_Z_mult. Qed.

Lemma Qltb_inject_Z (a b : Z) :
  Geometry.Qltb (inject_Z a) (inject_Z b) = (a <? b)%Z.
Proof.
  destruct (a <? b)%Z eqn:E; [apply Z.ltb_lt in E|apply Z.ltb_ge in E].
  - apply Qltb_lt. by apply inject_Z_lt.
  - apply Qltb_ge. by apply inject_Z_le.
Qed.

Lemma lt_ofZ (a b : Z) : lt (ofZ a) (ofZ b) = (a <? b)%Z.
Proof. apply Qltb_inject_Z. Qed.

Lemma gt_ofZ (a b : Z) : gt (ofZ a) (ofZ b) = (b <? a)%Z.
Proof. apply Qltb_inject_Z. Qed.

Lemma equals_ofZ (a b : Z) : equals (ofZ a) (ofZ b) = (a =? b)%Z.
Proof.
  cbn. destruct (a =? b)%Z eqn:E; [apply Z.eqb_eq in E|apply Z.eqb_neq in E].
  - subst. apply Qeq_bool_iff. reflexivity.
  - apply not_true_is_false. intros H. apply Qeq_bool_iff in H.
    apply E. unfold Qeq in H. cbn in H. lia.
Qed.

End DoubleFacts.

(** ** The narrow phase in binary64 *)

Section RoundedFacts.
Import Double Rounded.

Lemma abs_mul_le (a b A B : Z) :
  Z.abs a <= A → Z.abs b <= B → Z.abs (a * b) <= A * B.
Proof.
  intros Ha Hb. rewrite Z.abs_mul.
  apply Z.mul_le_mono_nonneg; lia.
Qed.

(** Differences, products of differences and sums of two such products of
    coordinates up to [2 ^ 24] are computed exactly. *)
Lemma sub_within (a b : Z) :
  Z.abs a <= 2 ^ 24 → Z.abs b <= 2 ^ 24 →
  sub (ofZ a) (ofZ b) = ofZ (a - b) ∧ Z.abs (a - b) <= 2 ^ 25.
Proof.
  intros Ha Hb. change (2 ^ 24) with 16777216 in *. change (2 ^ 25) with 33554432.
  split; [|lia]. apply sub_ofZ. change (2 ^ 53) with 9007199254740992. lia.
Qed.

Lemma mul_within (a b : Z) :
  Z.abs a <= 2 ^ 25 → Z.abs b <= 2 ^ 25 →
  mul (ofZ a) (ofZ b) = ofZ (a * b) ∧ Z.abs (a * b) <= 2 ^ 50.
Proof.
  intros Ha Hb. pose proof (abs_mul_le a b _ _ Ha Hb) as H.
  change (2 ^ 25 * 2 ^ 25) with (2 ^ 50) in H. split; [|done].
  apply mul_ofZ. change (2 ^ 50) with 1125899906842624 in H.
  change (2 ^ 53) with 9007199254740992. lia.
Qed.

Lemma add_within (a b : Z) :
  Z.abs a <= 2 ^ 50 → Z.abs b <= 2 ^ 50 →
  add (ofZ a) (ofZ b) = ofZ (a + b) ∧ Z.abs (a + b) <= 2 ^ 51.
Proof.
  intros Ha Hb. change (2 ^ 50) with 1125899906842624 in *.
  change (2 ^ 51) with 2251799813685248. split; [|lia].
  apply add_ofZ. change (2 ^ 53) with 9007199254740992. lia.
Qed.

(** The product of two differences of coordinates. *)
Lemma cross_within (a b c d : Z) :
  Z.abs a <= 2 ^ 24 → Z.abs b <= 2 ^ 24 → Z.abs c <= 2 ^ 24 → Z.abs d <= 2 ^ 24 →
  mul (sub (ofZ a) (ofZ b)) (sub (ofZ c) (ofZ d)) = ofZ ((a - b) * (c - d)) ∧
  Z.abs ((a - b) * (c - d)) <= 2 ^ 50.
Proof.
  intros Ha Hb Hc Hd.
  destruct (sub_within a b Ha Hb) as [-> H1].
  destruct (sub_within c d Hc Hd) as [-> H2].
  by apply mul_within.
Qed.

Lemma distSqr_exact (p q : Z * Z) :
  within (2 ^ 24) p → within (2 ^ 24) q →
  distSqr (rounded p) (rounded q) =
    ofZ ((q.1 - p.1) * (q.1 - p.1) + (q.2 - p.2) * (q.2 - p.2)).
Proof.
  intros [Hp1 Hp2] [Hq1 Hq2]. unfold distSqr, rounded, integral. cbn [x y].
  destruct (cross_within q.1 p.1 q.1 p.1) as [-> H1]; [done..|].
  destruct (cross_within q.2 p.2 q.2 p.2) as [-> H2]; [done..|].
  by apply add_within.
Qed.

Lemma exact_distSqr (p q : Z * Z) :
  (Geometry.distSqr (exact p) (exact q) ==
   inject_Z ((q.1 - p.1) * (q.1 - p.1) + (q.2 - p.2) * (q.2 - p.2)))%Q.
Proof.
  unfold Geometry.distSqr, exact. cbn.
  rewrite inject_Z_plus, !inject_Z_mult. unfold Z.sub.
  rewrite !inject_Z_plus, !inject_Z_opp. ring.
Qed.

(** On such coordinates the orientation test is the exact one. *)
Lemma isCounterClockwise_exact (a b c : Z * Z) :
  within (2 ^ 24) a → within (2 ^ 24) b → within (2 ^ 24) c →
  isCounterClockwise (rounded a) (rounded b) (rounded c) =
  Geometry.isCounterClockwise (exact a) (exact b) (exact c).
Proof.
  intros [Ha1 Ha2] [Hb1 Hb2] [Hc1 Hc2].
  unfold isCounterClockwise, Geometry.isCounterClockwise, rounded, integral, exact.
  cbn [x y Geometry.x Geometry.y].
  destruct (cross_within c.2 a.2 b.1 a.1) as [-> _]; [done..|].
  destruct (cross_within b.2 a.2 c.1 a.1) as [-> _]; [done..|].
  rewrite gt_ofZ, <- Qltb_inject_Z.
  apply Qltb_proper; rewrite inject_Z_mult; unfold Z.sub;
    rewrite !inject_Z_plus, !inject_Z_opp; ring.
Qed.

Lemma lineSegmentIntersectsLineSegment_exact (a0 a1 b0 b1 : Z * Z) :
  within (2 ^ 24) a0 → within (2 ^ 24) a1 →
  within (2 ^ 24) b0 → within (2 ^ 24) b1 →
  lineSegmentIntersectsLineSegment (rounded a0) (rounded a1) (rounded b0) (rounded b1) =
  Geometry.lineSegmentIntersectsLineSegment (exact a0) (exact a1) (exact b0) (exact b1).
Proof.
  intros Ha0 Ha1 Hb0 Hb1.
  unfold lineSegmentIntersectsLineSegment, Geometry.lineSegmentIntersectsLineSegment.
  by rewrite !isCounterClockwise_exact.
Qed.

Lemma segments_exact (a0 a1 : Z * Z) (lineB : list (Z * Z)) :
  within (2 ^ 24) a0 → within (2 ^ 24) a1 → Forall (within (2 ^ 24)) lineB →
  existsb (fun b => lineSegmentIntersectsLineSegment (rounded a0) (rounded a1) b.1 b.2)
          (segments (rounded <$> lineB)) =
  existsb (fun b => Geometry.lineSegmentIntersectsLineSegment
                      (exact a0) (exact a1) b.1 b.2)
          (Geometry.segments (exact <$> lineB)).
Proof.
  intros Ha0 Ha1. induction lineB as [|b lineB IH]; intros HB; [done|].
  apply Forall_cons in HB as [Hb HB]. destruct lineB as [|b' lineB]; [done|].
  pose proof HB as HB'. apply Forall_cons in HB' as [Hb' _].
  cbn [fmap list_fmap segments Geometry.segments existsb fst snd] in IH |- *.
  rewrite IH by done. by rewrite lineSegmentIntersectsLineSegment_exact.
Qed.

Lemma lineIntersectsLine_exact (lineA lineB : list (Z * Z)) :
  Forall (within (2 ^ 24)) lineA → Forall (within (2 ^ 24)) lineB →
  lineIntersectsLine (rounded <$> lineA) (rounded <$> lineB) =
  Geometry.lineIntersectsLine (exact <$> lineA) (exact <$> lineB).
Proof.
  intros HA HB. unfold lineIntersectsLine, Geometry.lineIntersectsLine.
  induction lineA as [|a lineA IH]; [done|].
  apply Forall_cons in HA as [Ha HA]. destruct lineA as [|a' lineA]; [done|].
  pose proof HA as HA'. apply Forall_cons in HA' as [Ha' _].
  cbn [fmap list_fmap segments Geometry.segments existsb fst snd] in IH |- *.
  rewrite IH by done. by rewrite segments_exact.
Qed.





End RoundedFacts.

Section RoundedProperties.
Import Double Rounded.




(** X2.  For end points with integer coordinates up to [2 ^ 24] the
    products of [isCounterClockwise] are exact.  Then: when
    [lineSegmentIntersectsLineSegment(a0, a1, b0, b1)] is true the two closed
    segments have a point in common; the test gives the same answer when the
    two segments change places; it is false for parallel segments, also for
    collinear ones that overlap; and it is true for two segments that are
    not parallel and meet at a point interior to both. *)
Theorem lineSegmentIntersectsLineSegment_sound_and_proper (a0 a1 b0 b1 : Z * Z) :
  within (2 ^ 24) a0 → within (2 ^ 24) a1 →
  within (2 ^ 24) b0 → within (2 ^ 24) b1 →
  (lineSegmentIntersectsLineSegment (rounded a0) (rounded a1) (rounded b0) (rounded b1) =
     true →
   ∃ q, Geometry.onSegment (exact a0) (exact a1) q ∧
        Geometry.onSegment (exact b0) (exact b1) q) ∧
  lineSegmentIntersectsLineSegment (rounded a0) (rounded a1) (rounded b0) (rounded b1) =
    lineSegmentIntersectsLineSegment (rounded b0) (rounded b1) (rounded a0) (rounded a1) ∧
  (Shapes.parallel (exact a0) (exact a1) (exact b0) (exact b1) →
   lineSegmentIntersectsLineSegment (rounded a0) (rounded a1) (rounded b0) (rounded b1) =
     false) ∧
  (∀ s t, (0 < s)%Q → (s < 1)%Q → (0 < t)%Q → (t < 1)%Q →
          ¬ Shapes.parallel (exact a0) (exact a1) (exact b0) (exact b1) →
          Shapes.samePoint (Shapes.along (exact a0) (exact a1) s)
                           (Shapes.along (exact b0) (exact b1) t) →
          lineSegmentIntersectsLineSegment
            (rounded a0) (rounded a1) (rounded b0) (rounded b1) = true).
Proof.
  intros Ha0 Ha1 Hb0 Hb1.
  rewrite !lineSegmentIntersectsLineSegment_exact by done.
  split; [apply lineSegmentIntersectsLineSegment_meet|].
  split; [apply lineSegmentIntersectsLineSegment_swap|]. split.
  - apply lineSegmentIntersectsLineSegment_parallel.
  - intros s t. apply lineSegmentIntersectsLineSegment_crossing.
Qed.

Lemma lineSegmentIntersectsLineSegment_sound_and_proper_witness :
  (∃ q, Geometry.onSegment (exact (0, 0)) (exact (2, 2)) q ∧
        Geometry.onSegment (exact (0, 2)) (exact (2, 0)) q) ∧
  lineSegmentIntersectsLineSegment
    (integral 0 0) (integral 2 0) (integral 1 0) (integral 3 0) = false ∧
  lineSegmentIntersectsLineSegment
    (integral 0 0) (integral 2 2) (integral 0 2) (integral 2 0) = true.
Proof.
  assert (Hw : ∀ a b, Z.abs a <= 3 → Z.abs b <= 3 → within (2 ^ 24) (a, b)).
  { intros a b Ha Hb. split; cbn; change (2 ^ 24) with 16777216; lia. }
  split; [|split].
  - apply (lineSegmentIntersectsLineSegment_sound_and_proper
             (0, 0) (2, 2) (0, 2) (2, 0)); try (apply Hw; lia).
    vm_compute. reflexivity.
  - apply (lineSegmentIntersectsLineSegment_sound_and_proper
             (0, 0) (2, 0) (1, 0) (3, 0)); try (apply Hw; lia).
    vm_compute. reflexivity.
  - apply (proj2 (proj2 (proj2 (lineSegmentIntersectsLineSegment_sound_and_proper
             (0, 0) (2, 2) (0, 2) (2, 0)
             (Hw 0 0 ltac:(lia) ltac:(lia)) (Hw 2 2 ltac:(lia) ltac:(lia))
             (Hw 0 2 ltac:(lia) ltac:(lia)) (Hw 2 0 ltac:(lia) ltac:(lia)))))
             (1 # 2)%Q (1 # 2)%Q); try reflexivity.
    + vm_compute. discriminate.
    + split; vm_compute; reflexivity.
Defined.

(** X3.  For lines with integer coordinates up to [2 ^ 24],
    [lineIntersectsLine(lineA, lineB)] does not depend on the order of its
    arguments; when it is true some segment of [lineA] and some segment of
    [lineB] have a point in common; and it is false as soon as one of the
    lines has fewer than two points. *)
Theorem lineIntersectsLine_symmetric_and_sound (lineA lineB : list (Z * Z)) :
  Forall (within (2 ^ 24)) lineA → Forall (within (2 ^ 24)) lineB →
  lineIntersectsLine (rounded <$> lineA) (rounded <$> lineB) =
    lineIntersectsLine (rounded <$> lineB) (rounded <$> lineA) ∧
  (lineIntersectsLine (rounded <$> lineA) (rounded <$> lineB) = true →
     ∃ a0 a1 b0 b1 q,
       Geometry.segmentOf (exact <$> lineA) a0 a1 ∧
       Geometry.segmentOf (exact <$> lineB) b0 b1 ∧
       Geometry.onSegment a0 a1 q ∧ Geometry.onSegment b0 b1 q) ∧
  ((length lineA <= 1)%nat ∨ (length lineB <= 1)%nat →
     lineIntersectsLine (rounded <$> lineA) (rounded <$> lineB) = false).
Proof.
  intros HA HB. rewrite !lineIntersectsLine_exact by done.
  split; [apply lineIntersectsLine_swap|]. split.
  - intros H. apply lineIntersectsLine_segments in H
      as (a0 & a1 & b0 & b1 & Ha & Hb & H).
    destruct (lineSegmentIntersectsLineSegment_meet _ _ _ _ H) as (q & Hqa & Hqb).
    eauto 10.
  - intros H. apply lineIntersectsLine_short. by rewrite !length_fmap.
Qed.

Lemma lineIntersectsLine_symmetric_and_sound_witness :
  (∃ a0 a1 b0 b1 q,
     Geometry.segmentOf (exact <$> [(0, 0); (2, 2); (4, 2)]) a0 a1 ∧
     Geometry.segmentOf (exact <$> [(0, 2); (2, 0)]) b0 b1 ∧
     Geometry.onSegment a0 a1 q ∧ Geometry.onSegment b0 b1 q) ∧
  lineIntersectsLine [integral 1 1] [integral 0 2; integral 2 0] = false.
Proof.
  assert (Hw : ∀ a b, Z.abs a <= 4 → Z.abs b <= 4 → within (2 ^ 24) (a, b)).
  { intros a b Ha Hb. split; cbn; change (2 ^ 24) with 16777216; lia. }
  split.
  - apply (lineIntersectsLine_symmetric_and_sound
             [(0, 0); (2, 2); (4, 2)] [(0, 2); (2, 0)]).
    + repeat constructor; apply Hw; lia.
    + repeat constructor; apply Hw; lia.
    + vm_compute. reflexivity.
  - apply (lineIntersectsLine_symmetric_and_sound [(1, 1)] [(0, 2); (2, 0)]).
    + repeat constructor; apply Hw; lia.
    + repeat constructor; apply Hw; lia.
    + left. simpl. lia.
Defined.

Lemma rounded_polygonContainsPoint_single q p : polygonContainsPoint [q] p = false.
Proof.
  unfold polygonContainsPoint, ringCrossings. cbn [last crossings].
  unfold edgeCrosses. by destruct (gt (y q) (y p)).
Qed.

(** X9.  For a query geometry of a single point [q], a feature with
    integer coordinates up to [2 ^ 24] and an integer radius up to [2 ^ 24],
    [polygonIntersectsBufferedMultiPoint] is true exactly when some point of
    the feature lies at a squared distance from [q] strictly below the
    square of the radius. *)
Theorem point_query_hits_points_within_radius
    (q : Z * Z) (rings : list (list (Z * Z))) (radius : Z) :
  within (2 ^ 24) q → Forall (Forall (within (2 ^ 24))) rings →
  Z.abs radius <= 2 ^ 24 →
  (polygonIntersectsBufferedMultiPoint [rounded q] (fmap (M:=list) (fmap (M:=list) rounded) rings) (ofZ radius) =
     true ↔
   ∃ ring c, ring ∈ rings ∧ c ∈ ring ∧
     (q.1 - c.1) * (q.1 - c.1) + (q.2 - c.2) * (q.2 - c.2) < radius * radius).
Proof.
  intros Hq Hrings Hr.
  assert (Hr' : Z.abs radius <= 2 ^ 25)
    by (change (2 ^ 24) with 16777216 in Hr; change (2 ^ 25) with 33554432; lia).
  assert (Hpoint : ∀ c, within (2 ^ 24) c →
            polygonContainsPoint [rounded q] (rounded c) ||
            pointIntersectsBufferedLine (rounded c) [rounded q] (ofZ radius) = true ↔
            (q.1 - c.1) * (q.1 - c.1) + (q.2 - c.2) * (q.2 - c.2) < radius * radius).
  { intros c Hc. rewrite rounded_polygonContainsPoint_single. cbn [orb].
    unfold pointIntersectsBufferedLine. rewrite distSqr_exact by done.
    destruct (mul_within radius radius Hr' Hr') as [-> _].
    rewrite lt_ofZ. apply Z.ltb_lt. }
  unfold polygonIntersectsBufferedMultiPoint. rewrite existsb_elem_of. split.
  - intros (ring' & Hring & H). apply list_elem_of_fmap in Hring as (ring & -> & Hring).
    apply existsb_elem_of in H as (c' & Hc & H).
    apply list_elem_of_fmap in Hc as (c & -> & Hc).
    exists ring, c. split; [done|]. split; [done|]. apply Hpoint; [|done].
    rewrite Forall_forall in Hrings. specialize (Hrings ring Hring).
    rewrite Forall_forall in Hrings. by apply Hrings.
  - intros (ring & c & Hring & Hc & H). exists (rounded <$> ring).
    split; [apply list_elem_of_fmap; eauto|].
    apply existsb_elem_of. exists (rounded c).
    split; [apply list_elem_of_fmap; eauto|]. apply Hpoint; [|done].
    rewrite Forall_forall in Hrings. specialize (Hrings ring Hring).
    rewrite Forall_forall in Hrings. by apply Hrings.
Qed.

Lemma point_query_hits_points_within_radius_witness :
  polygonIntersectsBufferedMultiPoint
    [integral 0 0] [[integral 9 9]; [integral 3 4]] (ofZ 6) = true ∧
  polygonIntersectsBufferedMultiPoint
    [integral 0 0] [[integral 9 9]; [integral 3 4]] (ofZ 5) = false.
Proof.
  assert (Hw : ∀ a b, Z.abs a <= 9 → Z.abs b <= 9 → within (2 ^ 24) (a, b)).
  { intros a b Ha Hb. split; cbn; change (2 ^ 24) with 16777216; lia. }
  assert (Hrings : Forall (Forall (within (2 ^ 24))) [[(9, 9)]; [(3, 4)]])
    by (repeat constructor; apply Hw; lia).
  split.
  - apply (point_query_hits_points_within_radius (0, 0) [[(9, 9)]; [(3, 4)]] 6);
      [apply Hw; lia|done|vm_compute; discriminate|].
    exists [(3, 4)], (3, 4).
    split; [right; left|]. split; [left|]. vm_compute. reflexivity.
  - apply not_true_is_false. intros H.
    apply (point_query_hits_points_within_radius (0, 0) [[(9, 9)]; [(3, 4)]] 5)
      in H as (ring & c & Hring & Hc & H);
      [|apply Hw; lia|done|vm_compute; discriminate].
    apply elem_of_cons in Hring as [->|Hring].
    + apply elem_of_cons in Hc as [->|Hc]; [|by apply elem_of_nil in Hc].
      vm_compute in H. discriminate.
    + apply elem_of_cons in Hring as [->|Hring]; [|by apply elem_of_nil in Hring].
      apply elem_of_cons in Hc as [->|Hc]; [|by apply elem_of_nil in Hc].
      vm_compute in H. discriminate.
Defined.

(** X4.  For lines with integer coordinates up to [2 ^ 24] and any radius,
    [lineIntersectsBufferedLine(lineA, lineB, radius)] does not depend on the
    order of the two lines when both have at least two points or both have
    at most one.  When [lineA] has at most one point, a true answer stays
    true when the lines change places; the converse would compare the
    distance to an end point with the rounded distance to a segment. *)
Theorem lineIntersectsBufferedLine_symmetric (lineA lineB : list (Z * Z)) radius :
  Forall (within (2 ^ 24)) lineA → Forall (within (2 ^ 24)) lineB →
  (((length lineA <= 1)%nat ↔ (length lineB <= 1)%nat) →
   lineIntersectsBufferedLine (rounded <$> lineA) (rounded <$> lineB) radius =
   lineIntersectsBufferedLine (rounded <$> lineB) (rounded <$> lineA) radius) ∧
  ((length lineA <= 1)%nat →
   lineIntersectsBufferedLine (rounded <$> lineA) (rounded <$> lineB) radius = true →
   lineIntersectsBufferedLine (rounded <$> lineB) (rounded <$> lineA) radius = true).
Proof.
  intros HA HB.
  assert (Hsym : ((length lineA <= 1)%nat ↔ (length lineB <= 1)%nat) →
    lineIntersectsBufferedLine (rounded <$> lineA) (rounded <$> lineB) radius =
    lineIntersectsBufferedLine (rounded <$> lineB) (rounded <$> lineA) radius).
  { intros Hlen. unfold lineIntersectsBufferedLine. rewrite !length_fmap.
    destruct (1 <? length lineA)%nat eqn:EA;
      [apply Nat.ltb_lt in EA|apply Nat.ltb_ge in EA].
    - assert (EB : (1 <? length lineB)%nat = true) by (apply Nat.ltb_lt; lia).
      rewrite EB, lineIntersectsLine_exact by done.
      rewrite (lineIntersectsLine_exact lineB lineA) by done.
      rewrite (lineIntersectsLine_swap (exact <$> lineA)).
      destruct (Geometry.lineIntersectsLine _ _), (existsb _ (rounded <$> lineB)),
        (existsb _ (rounded <$> lineA)); done.
    - assert (EB : (1 <? length lineB)%nat = false) by (apply Nat.ltb_ge; lia).
      rewrite EB. cbn [orb].
      destruct lineA as [|a [|a' lineA]]; [| |cbn in EA; lia];
        (destruct lineB as [|b [|b' lineB]]; [| |cbn in EB; done]); try done.
      cbn [fmap list_fmap existsb orb]. rewrite !orb_false_r.
      apply Forall_cons in HA as [Ha _]. apply Forall_cons in HB as [Hb _].
      unfold pointIntersectsBufferedLine. rewrite !distSqr_exact by done.
      do 2 f_equal. ring. }
  split; [done|]. intros HlenA.
  destruct (le_lt_dec (length lineB) 1) as [HlenB|HlenB].
  { intros H. by rewrite <- Hsym. }
  unfold lineIntersectsBufferedLine. rewrite !length_fmap.
  replace (1 <? length lineA)%nat with false by (symmetry; apply Nat.ltb_ge; lia).
  replace (1 <? length lineB)%nat with true by (symmetry; apply Nat.ltb_lt; lia).
  cbn [orb]. intros ->. by rewrite orb_true_r.
Qed.

Lemma lineIntersectsBufferedLine_symmetric_witness :
  lineIntersectsBufferedLine (rounded <$> [(0, 0); (4, 0)]) (rounded <$> [(2, 1); (2, 5)])
    (ofZ 2) =
  lineIntersectsBufferedLine (rounded <$> [(2, 1); (2, 5)]) (rounded <$> [(0, 0); (4, 0)])
    (ofZ 2) ∧
  lineIntersectsBufferedLine (rounded <$> [(2, 5); (0, 0); (4, 0)]) (rounded <$> [(2, 1)])
    (ofZ 2) = true.
Proof.
  assert (Hw : ∀ a b, Z.abs a <= 5 → Z.abs b <= 5 → within (2 ^ 24) (a, b)).
  { intros a b Ha Hb. split; cbn; change (2 ^ 24) with 16777216; lia. }
  split.
  - apply (proj1 (lineIntersectsBufferedLine_symmetric
                    [(0, 0); (4, 0)] [(2, 1); (2, 5)] (ofZ 2)
                    ltac:(repeat constructor; apply Hw; lia)
                    ltac:(repeat constructor; apply Hw; lia))).
    cbn. lia.
  - apply (proj2 (lineIntersectsBufferedLine_symmetric
                    [(2, 1)] [(2, 5); (0, 0); (4, 0)] (ofZ 2)
                    ltac:(repeat constructor; apply Hw; lia)
                    ltac:(repeat constructor; apply Hw; lia))).
    + cbn. lia.
    + vm_compute. reflexivity.
Defined.

End RoundedProperties.

Section RoundedRingFacts.
Import Double Rounded.

(** The quotient of an edge that the horizontal through [p] meets lies
    between 0 and the difference of the abscissas of its ends. *)
Lemma quotient_between (dx dyp dy : Z) :
  (0 < dy ∧ 0 <= dyp <= dy) ∨ (dy < 0 ∧ dy <= dyp <= 0) →
  (inject_Z (Z.min 0 dx) <= inject_Z (dx * dyp) / inject_Z dy ∧
   inject_Z (dx * dyp) / inject_Z dy <= inject_Z (Z.max 0 dx))%Q.
Proof.
  intros [[Hdy Hp]|[Hdy Hp]].
  - assert (H0 : (0 < inject_Z dy)%Q) by (by apply (inject_Z_lt 0)).
    split.
    + apply Qle_shift_div_l; [done|]. rewrite <- inject_Z_mult. apply inject_Z_le.
      destruct (Z.min_spec 0 dx) as [[? ->]|[? ->]]; nia.
    + apply Qle_shift_div_r; [done|]. rewrite <- inject_Z_mult. apply inject_Z_le.
      destruct (Z.max_spec 0 dx) as [[? ->]|[? ->]]; nia.
  - assert (H0 : (0 < inject_Z (- dy))%Q) by (apply (inject_Z_lt 0); lia).
    assert (Hq : (inject_Z (dx * dyp) / inject_Z dy ==
                  inject_Z (dx * - dyp) / inject_Z (- dy))%Q).
    { rewrite !inject_Z_mult, !inject_Z_opp. rewrite inject_Z_opp in H0.
      field. lra. }
    rewrite Hq. split.
    + apply Qle_shift_div_l; [done|]. rewrite <- inject_Z_mult. apply inject_Z_le.
      destruct (Z.min_spec 0 dx) as [[? ->]|[? ->]]; nia.
    + apply Qle_shift_div_r; [done|]. rewrite <- inject_Z_mult. apply inject_Z_le.
      destruct (Z.max_spec 0 dx) as [[? ->]|[? ->]]; nia.
Qed.

Lemma exact_guard (p p1 p2 : Z * Z) :
  Geometry.Qltb (Geometry.y (exact p)) (Geometry.y (exact p1)) = (p.2 <? p1.2).
Proof. apply Qltb_inject_Z. Qed.

(** Where the point lies on one side of both ends of an edge, the rounding
    of the quotient does not change the answer of the edge test. *)
Lemma edgeCrosses_outside (p p1 p2 : Z * Z) :
  within (2 ^ 24) p → within (2 ^ 24) p1 → within (2 ^ 24) p2 →
  (p1.1 <= p.1 ∧ p2.1 <= p.1) ∨ (p.1 < p1.1 ∧ p.1 < p2.1) ∨
  (p1.2 <= p.2 ∧ p2.2 <= p.2) ∨ (p.2 < p1.2 ∧ p.2 < p2.2) →
  edgeCrosses (rounded p) (rounded p1) (rounded p2) =
  Geometry.edgeCrosses (exact p) (exact p1) (exact p2).
Proof.
  intros [Hp1 Hp2] [Hq1 Hq2] [Hr1 Hr2] Hside.
  assert (Hexact : Geometry.edgeCrosses (exact p) (exact p1) (exact p2) =
            if negb (eqb (p.2 <? p1.2) (p.2 <? p2.2))
            then bool_decide (p.1 < p1.1 ∧ p.1 < p2.1) else false).
  { destruct (eqb (p.2 <? p1.2) (p.2 <? p2.2)) eqn:E; cbn [negb].
    - apply edgeCrosses_same_side. rewrite !exact_guard by exact p. by apply eqb_prop.
    - apply eqb_false_iff in E.
      destruct Hside as [[H1 H2]|[[H1 H2]|[[H1 H2]|[H1 H2]]]].
      + rewrite bool_decide_eq_false_2 by lia.
        apply edgeCrosses_left; cbn; by apply inject_Z_le.
      + rewrite bool_decide_eq_true_2 by done.
        rewrite edgeCrosses_right by (cbn; by apply inject_Z_lt).
        rewrite !exact_guard by exact p.
        by destruct (p.2 <? p1.2), (p.2 <? p2.2).
      + exfalso. apply E.
        transitivity false; [|symmetry]; apply Z.ltb_ge; lia.
      + exfalso. apply E.
        transitivity true; [|symmetry]; apply Z.ltb_lt; lia. }
  rewrite Hexact. clear Hexact. unfold edgeCrosses, rounded, integral. cbn [x y].
  rewrite !gt_ofZ.
  destruct (eqb (p.2 <? p1.2) (p.2 <? p2.2)) eqn:E; cbn [negb]; [done|].
  apply eqb_false_iff in E.
  assert (Hx : (p1.1 <= p.1 ∧ p2.1 <= p.1) ∨ (p.1 < p1.1 ∧ p.1 < p2.1)).
  { destruct Hside as [?|[?|[[H1 H2]|[H1 H2]]]]; [by left|by right|..];
      exfalso; apply E.
    - transitivity false; [|symmetry]; apply Z.ltb_ge; lia.
    - transitivity true; [|symmetry]; apply Z.ltb_lt; lia. }
  clear Hside.
  destruct (cross_within p2.1 p1.1 p.2 p1.2) as [-> Hn]; [done..|].
  destruct (sub_within p2.2 p1.2) as [-> Hd]; [done..|].
  assert (Hratio : (0 < p2.2 - p1.2 ∧ 0 <= p.2 - p1.2 <= p2.2 - p1.2) ∨
                   (p2.2 - p1.2 < 0 ∧ p2.2 - p1.2 <= p.2 - p1.2 <= 0)).
  { destruct (p.2 <? p1.2) eqn:E1, (p.2 <? p2.2) eqn:E2; try done;
      try apply Z.ltb_lt in E1; try apply Z.ltb_lt in E2;
      try apply Z.ltb_ge in E1; try apply Z.ltb_ge in E2; lia. }
  assert (Hnz : isZero (ofZ (p2.2 - p1.2)) = false).
  { cbn. apply not_true_is_false. intros H. apply Qeq_bool_iff in H.
    unfold Qeq in H. cbn in H. lia. }
  unfold div. rewrite Hnz. cbn [ofZ].
  destruct (quotient_between (p2.1 - p1.1) (p.2 - p1.2) (p2.2 - p1.2) Hratio)
    as [Hlo Hhi].
  change (2 ^ 24) with 16777216 in *.
  destruct (round_between _ _ _ Hlo Hhi) as (v & -> & Hv1 & Hv2 & _);
    [change (2 ^ 53) with 9007199254740992; lia..|].
  cbn [add ofZ].
  assert (Hlo' : (inject_Z (Z.min p1.1 p2.1) <= v + inject_Z p1.1)%Q).
  { replace (Z.min p1.1 p2.1) with (Z.min 0 (p2.1 - p1.1) + p1.1) by lia.
    rewrite inject_Z_plus. lra. }
  assert (Hhi' : (v + inject_Z p1.1 <= inject_Z (Z.max p1.1 p2.1))%Q).
  { replace (Z.max p1.1 p2.1) with (Z.max 0 (p2.1 - p1.1) + p1.1) by lia.
    rewrite inject_Z_plus. lra. }
  destruct (round_between _ _ _ Hlo' Hhi') as (v' & -> & Hv1' & Hv2' & _);
    [change (2 ^ 53) with 9007199254740992; lia..|].
  cbn [lt].
  destruct (bool_decide (p.1 < p1.1 ∧ p.1 < p2.1)) eqn:Eb;
    [apply bool_decide_eq_true in Eb|apply bool_decide_eq_false in Eb].
  - apply Qltb_lt. eapply Qlt_le_trans; [|exact Hv1'].
    apply inject_Z_lt. lia.
  - apply Qltb_ge.
    destruct Hx as [[H1 H2]|?]; [|done].
    eapply Qle_trans; [exact Hv2'|]. apply inject_Z_le. lia.
Qed.

Lemma crossings_outside (p : Z * Z) (ring : list (Z * Z)) : ∀ prev c,
  within (2 ^ 24) p → Forall (within (2 ^ 24)) (prev :: ring) →
  Forall (fun q => q.1 <= p.1) (prev :: ring) ∨
  Forall (fun q => p.1 < q.1) (prev :: ring) ∨
  Forall (fun q => q.2 <= p.2) (prev :: ring) ∨
  Forall (fun q => p.2 < q.2) (prev :: ring) →
  crossings (rounded p) (rounded prev) (rounded <$> ring) c =
  Geometry.crossings (exact p) (exact prev) (exact <$> ring) c.
Proof.
  induction ring as [|p1 ring IH]; intros prev c Hp Hring Hside; [done|].
  cbn [fmap list_fmap crossings Geometry.crossings].
  apply Forall_cons in Hring as [Hprev Hring].
  pose proof Hring as Hring'. apply Forall_cons in Hring' as [Hp1 _].
  rewrite edgeCrosses_outside; [|done..|].
  - apply IH; [done|done|].
    destruct Hside as [H|[H|[H|H]]]; apply Forall_cons in H as [_ H]; auto.
  - destruct Hside as [H|[H|[H|H]]]; apply Forall_cons in H as [H0 H];
      apply Forall_cons in H as [H1 _]; auto.
Qed.

(** X5.  For a ring and a point with integer coordinates up to [2 ^ 24],
    [polygonContainsPoint(ring, p)] is false for every point outside the
    bounding box of the ring: on or right of its largest abscissa, strictly
    left of its smallest, on or above its largest ordinate, or strictly
    below its smallest.  The quotient of an edge is rounded, but to a value
    between the abscissas of the ends of the edge. *)
Theorem polygonContainsPoint_outside_bounding_box (ring : list (Z * Z)) (p : Z * Z) :
  within (2 ^ 24) p → Forall (within (2 ^ 24)) ring →
  Forall (fun q => q.1 <= p.1) ring ∨ Forall (fun q => p.1 < q.1) ring ∨
  Forall (fun q => q.2 <= p.2) ring ∨ Forall (fun q => p.2 < q.2) ring →
  polygonContainsPoint (rounded <$> ring) (rounded p) = false.
Proof.
  intros Hp Hring Hside.
  transitivity (Geometry.polygonContainsPoint (exact <$> ring) (exact p)).
  - unfold polygonContainsPoint, Geometry.polygonContainsPoint,
      ringCrossings, Geometry.ringCrossings.
    rewrite !fmap_last. destruct (last ring) as [prev|] eqn:Hlast; [|done].
    cbn [fmap option_fmap option_map].
    pose proof (last_elem_of _ _ Hlast) as Hprev.
    apply crossings_outside; [done|..].
    + apply Forall_cons. split; [|done]. rewrite Forall_forall in Hring. auto.
    + destruct Hside as [H|[H|[H|H]]]; [left|right; left|right; right; left|
                                        right; right; right];
        (apply Forall_cons; split; [|done]); rewrite Forall_forall in H; auto.
  - apply polygonContainsPoint_outside.
    destruct Hside as [H|[H|[H|H]]]; [left|right; left|right; right; left|
                                      right; right; right];
      apply Forall_fmap; eapply Forall_impl; try exact H; intros q Hq; cbn.
    + by apply inject_Z_le.
    + by apply inject_Z_lt.
    + by apply inject_Z_le.
    + by apply inject_Z_lt.
Qed.

Lemma polygonContainsPoint_outside_bounding_box_witness :
  polygonContainsPoint (rounded <$> [(0, 0); (4, 0); (2, 3)]) (rounded (-1, 1)) = false ∧
  polygonContainsPoint (rounded <$> [(0, 0); (4, 0); (2, 3)]) (rounded (4, 0)) = false.
Proof.
  assert (Hw : ∀ a b, Z.abs a <= 4 → Z.abs b <= 4 → within (2 ^ 24) (a, b)).
  { intros a b Ha Hb. split; cbn; change (2 ^ 24) with 16777216; lia. }
  split.
  - apply polygonContainsPoint_outside_bounding_box.
    + apply Hw; lia.
    + repeat constructor; apply Hw; lia.
    + right. left. repeat constructor.
  - apply polygonContainsPoint_outside_bounding_box.
    + apply Hw; lia.
    + repeat constructor; apply Hw; lia.
    + left. repeat constructor; cbn; lia.
Defined.

End RoundedRingFacts.

Section RoundedSegmentFacts.
Import Double Rounded.

Lemma canonical_Z (v : Q) (z : Z) : Qred v = v → (v == inject_Z z)%Q → v = inject_Z z.
Proof.
  intros Hred Heq. rewrite <- Hred, <- Qred_inject_Z. by apply Qred_complete.
Qed.

Lemma mul_zero (a : Z) : mul (ofZ a) (Finite 0) = Finite 0.
Proof.
  cbn. unfold round.
  replace (Qeq_bool (inject_Z a * 0) 0) with true; [done|].
  symmetry. apply Qeq_bool_iff. ring.
Qed.

Lemma mul_one (a : Z) : Z.abs a < 2 ^ 53 → mul (ofZ a) (Finite 1) = ofZ a.
Proof. intros H. cbn. apply round_exact; [ring|done]. Qed.

Lemma add_zero (a : Z) : Z.abs a < 2 ^ 53 → add (Finite 0) (ofZ a) = ofZ a.
Proof. intros H. cbn. apply round_exact; [ring|done]. Qed.

(** The squared distance, over the integers. *)
Lemma exact_onSegment_start (p v w : Z * Z) q :
  (p.1 - v.1) * (w.1 - v.1) + (p.2 - v.2) * (w.2 - v.2) <= 0 →
  Geometry.onSegment (exact v) (exact w) q →
  (inject_Z ((v.1 - p.1) * (v.1 - p.1) + (v.2 - p.2) * (v.2 - p.2)) <=
   Geometry.distSqr (exact p) q)%Q.
Proof.
  intros Hnum (s & Hs0 & Hs1 & Hqx & Hqy).
  rewrite (distSqr_onSegment (exact p) (exact v) (exact w) q s Hqx Hqy).
  rewrite <- exact_distSqr.
  assert (Hpv : (Geometry.distSqr (exact p) (exact v) ==
                 (Geometry.x (exact p) - Geometry.x (exact v)) *
                 (Geometry.x (exact p) - Geometry.x (exact v)) +
                 (Geometry.y (exact p) - Geometry.y (exact v)) *
                 (Geometry.y (exact p) - Geometry.y (exact v)))%Q).
  { unfold Geometry.distSqr. cbv zeta. ring. }
  rewrite Hpv. apply before_start_min; [|done].
  apply inject_Z_le in Hnum. rewrite inject_Z_plus, !inject_Z_mult in Hnum.
  unfold Z.sub in Hnum. rewrite !inject_Z_plus, !inject_Z_opp in Hnum.
  change (inject_Z 0) with 0%Q in Hnum.
  cbn [Geometry.x Geometry.y exact]. lra.
Qed.

Lemma exact_onSegment_end (p v w : Z * Z) q :
  (w.1 - v.1) * (w.1 - v.1) + (w.2 - v.2) * (w.2 - v.2) <=
  (p.1 - v.1) * (w.1 - v.1) + (p.2 - v.2) * (w.2 - v.2) →
  Geometry.onSegment (exact v) (exact w) q →
  (inject_Z ((w.1 - p.1) * (w.1 - p.1) + (w.2 - p.2) * (w.2 - p.2)) <=
   Geometry.distSqr (exact p) q)%Q.
Proof.
  intros Hnum (s & Hs0 & Hs1 & Hqx & Hqy).
  rewrite (distSqr_onSegment (exact p) (exact v) (exact w) q s Hqx Hqy).
  rewrite <- exact_distSqr.
  assert (Hpw : (Geometry.distSqr (exact p) (exact w) ==
                 ((Geometry.x (exact w) - Geometry.x (exact v)) -
                  (Geometry.x (exact p) - Geometry.x (exact v))) *
                 ((Geometry.x (exact w) - Geometry.x (exact v)) -
                  (Geometry.x (exact p) - Geometry.x (exact v))) +
                 ((Geometry.y (exact w) - Geometry.y (exact v)) -
                  (Geometry.y (exact p) - Geometry.y (exact v))) *
                 ((Geometry.y (exact w) - Geometry.y (exact v)) -
                  (Geometry.y (exact p) - Geometry.y (exact v))))%Q).
  { unfold Geometry.distSqr. cbv zeta. ring. }
  rewrite Hpw. apply past_end_min; [|done].
  apply inject_Z_le in Hnum.
  rewrite !inject_Z_plus, !inject_Z_mult in Hnum.
  unfold Z.sub in Hnum. rewrite !inject_Z_plus, !inject_Z_opp in Hnum.
  cbn [Geometry.x Geometry.y exact]. lra.
Qed.

(** The computation up to the quotient. *)
Lemma numerator_exact (p v w : Z * Z) :
  within (2 ^ 24) p → within (2 ^ 24) v → within (2 ^ 24) w →
  add (mul (sub (x (rounded p)) (x (rounded v))) (sub (x (rounded w)) (x (rounded v))))
      (mul (sub (y (rounded p)) (y (rounded v))) (sub (y (rounded w)) (y (rounded v)))) =
    ofZ ((p.1 - v.1) * (w.1 - v.1) + (p.2 - v.2) * (w.2 - v.2)) ∧
  Z.abs ((p.1 - v.1) * (w.1 - v.1) + (p.2 - v.2) * (w.2 - v.2)) <= 2 ^ 51.
Proof.
  intros [Hp1 Hp2] [Hv1 Hv2] [Hw1 Hw2]. unfold rounded, integral. cbn [x y].
  destruct (cross_within p.1 v.1 w.1 v.1) as [-> H1]; [done..|].
  destruct (cross_within p.2 v.2 w.2 v.2) as [-> H2]; [done..|].
  by apply add_within.
Qed.

Lemma parameter_exact (p v w : Z * Z) :
  within (2 ^ 24) p → within (2 ^ 24) v → within (2 ^ 24) w →
  let num := (p.1 - v.1) * (w.1 - v.1) + (p.2 - v.2) * (w.2 - v.2) in
  let l2 := (w.1 - v.1) * (w.1 - v.1) + (w.2 - v.2) * (w.2 - v.2) in
  distToSegmentSquared (rounded p) (rounded v) (rounded w) =
    if (l2 =? 0) then Some (distSqr (rounded p) (rounded v))
    else
      let t := round (inject_Z num / inject_Z l2) in
      if lt t (ofZ 0) then Some (distSqr (rounded p) (rounded v))
      else if gt t (ofZ 1) then Some (distSqr (rounded p) (rounded w))
      else Some (distSqr (rounded p)
                   (padd (pmult (psub (rounded w) (rounded v)) t) (rounded v))).
Proof.
  intros Hp Hv Hw num l2. unfold distToSegmentSquared.
  rewrite (distSqr_exact v w) by done. fold l2. rewrite equals_ofZ.
  destruct (numerator_exact p v w Hp Hv Hw) as [-> _]. fold num.
  destruct (l2 =? 0) eqn:El2; [done|]. apply Z.eqb_neq in El2.
  unfold div. replace (isZero (ofZ l2)) with false; [done|].
  symmetry. cbn. apply not_true_is_false. intros H. apply Qeq_bool_iff in H.
  unfold Qeq in H. cbn in H. lia.
Qed.

(** X1.  For integer coordinates up to [2 ^ 24],
    [distToSegmentSquared(p, v, w)] is exact where the projection of [p] on
    the line through [v] and [w] does not fall inside the segment: when
    [(p - v) . (w - v) <= 0], which covers the segment of length zero, it
    returns the squared distance from [p] to [v], and when
    [(p - v) . (w - v) >= |w - v|^2] the squared distance from [p] to [w];
    in both cases no point of the segment is nearer to [p]. *)
Theorem distToSegmentSquared_exact_at_the_ends (p v w : Z * Z) :
  within (2 ^ 24) p → within (2 ^ 24) v → within (2 ^ 24) w →
  ((p.1 - v.1) * (w.1 - v.1) + (p.2 - v.2) * (w.2 - v.2) <= 0 →
   distToSegmentSquared (rounded p) (rounded v) (rounded w) =
     Some (ofZ ((v.1 - p.1) * (v.1 - p.1) + (v.2 - p.2) * (v.2 - p.2))) ∧
   ∀ q, Geometry.onSegment (exact v) (exact w) q →
        (inject_Z ((v.1 - p.1) * (v.1 - p.1) + (v.2 - p.2) * (v.2 - p.2)) <=
         Geometry.distSqr (exact p) q)%Q) ∧
  ((w.1 - v.1) * (w.1 - v.1) + (w.2 - v.2) * (w.2 - v.2) <=
   (p.1 - v.1) * (w.1 - v.1) + (p.2 - v.2) * (w.2 - v.2) →
   distToSegmentSquared (rounded p) (rounded v) (rounded w) =
     Some (ofZ ((w.1 - p.1) * (w.1 - p.1) + (w.2 - p.2) * (w.2 - p.2))) ∧
   ∀ q, Geometry.onSegment (exact v) (exact w) q →
        (inject_Z ((w.1 - p.1) * (w.1 - p.1) + (w.2 - p.2) * (w.2 - p.2)) <=
         Geometry.distSqr (exact p) q)%Q).
Proof.
  intros Hp Hv Hw.
  pose proof (parameter_exact p v w Hp Hv Hw) as Hd. cbv zeta in Hd.
  destruct (numerator_exact p v w Hp Hv Hw) as [_ Hnum].
  set (num := (p.1 - v.1) * (w.1 - v.1) + (p.2 - v.2) * (w.2 - v.2)) in *.
  set (l2 := (w.1 - v.1) * (w.1 - v.1) + (w.2 - v.2) * (w.2 - v.2)) in *.
  pose proof (Z.square_nonneg (w.1 - v.1)) as Hsq1.
  pose proof (Z.square_nonneg (w.2 - v.2)) as Hsq2.
  assert (Hl2 : 0 <= l2) by (unfold l2; lia).
  change (2 ^ 51) with 2251799813685248 in Hnum.
  assert (Hwithin : ∀ a b, Z.abs a <= 2 ^ 24 → Z.abs b <= 2 ^ 24 →
                           Z.abs (a - b) < 2 ^ 53 ∧ Z.abs a < 2 ^ 53).
  { intros a b Ha Hb. change (2 ^ 24) with 16777216 in *.
    change (2 ^ 53) with 9007199254740992. lia. }
  split.
  - intros Hle. split; [|intros q; by apply exact_onSegment_start].
    rewrite Hd, <- distSqr_exact by done.
    destruct (l2 =? 0) eqn:El2; [done|]. apply Z.eqb_neq in El2.
    assert (H0 : (0 < inject_Z l2)%Q) by (apply (inject_Z_lt 0); lia).
    destruct (round_between (inject_Z num / inject_Z l2) num 0)
      as (t & -> & Ht1 & Ht2 & Hred).
    + apply Qle_shift_div_l; [done|]. rewrite <- inject_Z_mult.
      apply inject_Z_le. nia.
    + apply Qle_shift_div_r; [done|]. rewrite <- inject_Z_mult.
      apply inject_Z_le. lia.
    + change (2 ^ 53) with 9007199254740992. lia.
    + done.
    + cbn [lt ofZ]. destruct (Geometry.Qltb t (inject_Z 0)) eqn:Et; [done|].
      apply Qltb_ge in Et.
      assert (t = inject_Z 0) as -> by (apply canonical_Z; [done|lra]).
      cbn [gt lt]. replace (Geometry.Qltb (inject_Z 1) (inject_Z 0)) with false by done.
      do 2 f_equal. unfold padd, pmult, psub, rounded, integral. cbn [x y].
      destruct Hv as [Hv1 Hv2], Hw as [Hw1 Hw2].
      rewrite !sub_ofZ by (by apply Hwithin).
      change (Finite (inject_Z 0)) with (Finite 0). rewrite !mul_zero.
      by rewrite !add_zero by (by apply (Hwithin _ 0)).
  - intros Hle. split; [|intros q; by apply exact_onSegment_end].
    rewrite Hd, <- (distSqr_exact p w) by done.
    destruct (l2 =? 0) eqn:El2.
    { apply Z.eqb_eq in El2.
      assert (w.1 = v.1 ∧ w.2 = v.2) as [H1 H2] by (unfold l2 in El2; nia).
      unfold rounded, integral. by rewrite H1, H2. }
    apply Z.eqb_neq in El2.
    assert (H0 : (0 < inject_Z l2)%Q) by (apply (inject_Z_lt 0); lia).
    destruct (round_between (inject_Z num / inject_Z l2) 1 num)
      as (t & -> & Ht1 & Ht2 & Hred).
    + apply Qle_shift_div_l; [done|]. rewrite <- inject_Z_mult.
      apply inject_Z_le. lia.
    + apply Qle_shift_div_r; [done|]. rewrite <- inject_Z_mult.
      apply inject_Z_le. nia.
    + done.
    + change (2 ^ 53) with 9007199254740992. lia.
    + cbn [lt ofZ]. destruct (Geometry.Qltb t (inject_Z 0)) eqn:Et.
      { apply Qltb_lt in Et. change (inject_Z 0) with 0%Q in Et.
        change (inject_Z 1) with 1%Q in Ht1. lra. }
      unfold gt. cbn [lt ofZ]. destruct (Geometry.Qltb (inject_Z 1) t) eqn:Et1; [done|].
      apply Qltb_ge in Et1.
      assert (t = inject_Z 1) as -> by (apply canonical_Z; [done|lra]).
      do 2 f_equal. unfold padd, pmult, psub, rounded, integral. cbn [x y].
      destruct Hv as [Hv1 Hv2], Hw as [Hw1 Hw2].
      rewrite !sub_ofZ by (by apply Hwithin).
      change (Finite (inject_Z 1)) with (Finite 1).
      rewrite !mul_one by (by apply Hwithin).
      rewrite !add_ofZ.
      * f_equal; f_equal; lia.
      * replace (w.2 - v.2 + v.2) with w.2 by lia. by apply (Hwithin _ 0).
      * replace (w.1 - v.1 + v.1) with w.1 by lia. by apply (Hwithin _ 0).
Qed.

Lemma distToSegmentSquared_exact_at_the_ends_witness :
  distToSegmentSquared (integral (-2) 1) (integral 0 0) (integral 4 0) = Some (ofZ 5) ∧
  distToSegmentSquared (integral 6 1) (integral 0 0) (integral 4 0) = Some (ofZ 5).
Proof.
  assert (Hw : ∀ a b, Z.abs a <= 6 → Z.abs b <= 6 → within (2 ^ 24) (a, b)).
  { intros a b Ha Hb. split; cbn; change (2 ^ 24) with 16777216; lia. }
  split.
  - apply (proj1 (distToSegmentSquared_exact_at_the_ends (-2, 1) (0, 0) (4, 0)
                    (Hw (-2) 1 ltac:(lia) ltac:(lia)) (Hw 0 0 ltac:(lia) ltac:(lia))
                    (Hw 4 0 ltac:(lia) ltac:(lia)))).
    vm_compute. discriminate.
  - apply (proj2 (distToSegmentSquared_exact_at_the_ends (6, 1) (0, 0) (4, 0)
                    (Hw 6 1 ltac:(lia) ltac:(lia)) (Hw 0 0 ltac:(lia) ltac:(lia))
                    (Hw 4 0 ltac:(lia) ltac:(lia)))).
    vm_compute. discriminate.
Defined.

End RoundedSegmentFacts.

(** ** The markers layer with keys in binary64 *)

Section RoundedKeyFacts.
Import Double MarkerSearch MarkerLayer RoundedKeys.

Lemma number_exact (z : Z) : Z.abs z < 2 ^ 53 → number (Some z) = ofZ z.
Proof. intros H. cbn. by apply round_exact. Qed.

Lemma exactKey_number color time :
  exactKey color time →
  add (number (Some time)) (mul (number (Some color)) (number (Some COLOR_OFFSET))) =
    ofZ (time + color * COLOR_OFFSET).
Proof.
  intros [H1 H2]. unfold COLOR_OFFSET in *.
  change (2 ^ 52) with 4503599627370496 in *.
  rewrite !number_exact by (change (2 ^ 53) with 9007199254740992; lia).
  rewrite mul_ofZ by (change (2 ^ 53) with 9007199254740992; lia).
  apply add_ofZ. change (2 ^ 53) with 9007199254740992. lia.
Qed.

Lemma compositeKey_exact color time :
  exactKey color time →
  compositeKey (Some color) (Some time) = ofZ (time + color * COLOR_OFFSET).
Proof. apply exactKey_number. Qed.

Lemma keyBelow_exact f k :
  exactFeature f → Z.abs k < 2 ^ 52 →
  keyBelow f (ofZ k) = MarkerSearch.keyBelow f (Some k).
Proof.
  intros Hf Hk. unfold keyBelow, MarkerSearch.keyBelow.
  rewrite exactKey_number by done. destruct Hf as [_ Hf].
  rewrite sub_ofZ.
  - apply lt_ofZ.
  - change (2 ^ 52) with 4503599627370496 in *.
    change (2 ^ 53) with 9007199254740992. lia.
Qed.

Lemma featuresFindLoop_exact layer k :
  Forall exactFeature layer → Z.abs k < 2 ^ 52 →
  ∀ fuel low high,
    featuresFindLoop fuel layer (ofZ k) low high =
    MarkerSearch.featuresFindLoop fuel layer (Some k) low high.
Proof.
  intros Hlayer Hk. induction fuel as [|fuel IH]; intros low high; [done|].
  cbn [featuresFindLoop MarkerSearch.featuresFindLoop].
  destruct (low =? high)%nat; [done|].
  destruct (layer !! ((low + high) / 2)%nat) as [f|] eqn:Hf; [|done].
  cbn [mbind option_bind].
  rewrite keyBelow_exact; [|by eapply Forall_lookup_1|done].
  by rewrite !IH.
Qed.

(** With exact keys the search is the one on the integer keys. *)
Lemma featuresFind_exact layer color time :
  Forall exactFeature layer → exactKey color time →
  featuresFind layer (Some color) (Some time) =
  MarkerSearch.featuresFind layer (Some color) (Some time).
Proof.
  intros Hlayer Hkey. unfold featuresFind, MarkerSearch.featuresFind.
  rewrite compositeKey_exact by done. cbn [MarkerSearch.compositeKey].
  rewrite featuresFindLoop_exact; [done..|]. by destruct Hkey.
Qed.

Lemma bucketFeatures_exact layer spec cl s e :
  Forall exactFeature layer →
  colorIdx (getFilters spec) = Some cl →
  startTime (getFilters spec) = Some s →
  endTime (getFilters spec) = Some e →
  exactKey cl s → exactKey cl e →
  bucketFeatures layer spec = MarkerSearch.bucketFeatures layer spec.
Proof.
  intros Hlayer Hc Hs He Hks Hke. unfold bucketFeatures, MarkerSearch.bucketFeatures.
  rewrite Hc, Hs, He. by rewrite !featuresFind_exact.
Qed.

End RoundedKeyFacts.

Section RoundedKeyProperties.
Import Double MarkerSearch MarkerLayer RoundedKeys.
Local Open Scope nat_scope.

(** X11.  On a layer in ascending order of key whose keys are computed
    exactly (the key and the product [c * COLOR_OFFSET] below [2 ^ 52] in
    magnitude), [featuresFind] with a colour and a time of such a key returns
    the index of the first feature whose key is not below the searched key:
    the features before that index are those with a smaller key; it returns
    [null] when every key is smaller.  Beyond that range keys collapse: of
    two features of colour 1000000 and times 0 and 1, the search for time 1
    returns the first. *)
Theorem featuresFind_finds_first_not_below layer color time :
  sortedByKey layer = true → Forall exactFeature layer → exactKey color time →
  (∃ n, n <= length layer ∧
        featuresFind layer (Some color) (Some time) =
          Some (if n =? length layer then None else Some n) ∧
        ∀ i f, layer !! i = Some f →
               (i < n ↔ (keyOf f < time + color * COLOR_OFFSET)%Z)) ∧
  featuresFind farMarkers (Some 1000000%Z) (Some 1%Z) = Some (Some 0).
Proof.
  intros Hsorted Hlayer Hkey. split; [|by vm_compute].
  rewrite featuresFind_exact by done. by apply featuresFind_sorted.
Qed.

Lemma featuresFind_finds_first_not_below_witness :
  ∃ n, n <= 3 ∧
       featuresFind threeMarkers (Some 1%Z) (Some 10%Z) =
         Some (if n =? 3 then None else Some n) ∧
       ∀ i f, threeMarkers !! i = Some f →
         (i < n ↔ (keyOf f < 10 + 1 * COLOR_OFFSET)%Z).
Proof.
  apply (featuresFind_finds_first_not_below threeMarkers 1%Z 10%Z).
  - reflexivity.
  - repeat constructor; vm_compute; reflexivity.
  - split; vm_compute; reflexivity.
Defined.

(** X13.  On a layer in ascending order of key whose keys are computed
    exactly, a bucket whose filter gives a colour, a start time and an end
    time not before the start, with keys that are computed exactly, receives
    exactly the features whose key lies in the window from the start key
    (included) to the end key (excluded), in layer order, with the one
    exception of a layer all of whose features lie in the window, where it
    receives none. *)
Theorem bucketFeatures_time_window layer spec cl s e :
  sortedByKey layer = true →
  Forall exactFeature layer →
  colorIdx (getFilters spec) = Some cl →
  startTime (getFilters spec) = Some s →
  endTime (getFilters spec) = Some e →
  exactKey cl s → exactKey cl e →
  (s <= e)%Z →
  bucketFeatures layer spec =
    Some (if negb (bool_decide (layer = [])) &&
             forallb (inWindow (s + cl * COLOR_OFFSET) (e + cl * COLOR_OFFSET)) layer
          then []
          else filter (fun f => inWindow (s + cl * COLOR_OFFSET)
                                         (e + cl * COLOR_OFFSET) f = true) layer).
Proof.
  intros Hsorted Hlayer Hc Hst Het Hks Hke Hse.
  rewrite (bucketFeatures_exact layer spec cl s e) by done.
  by apply bucketFeatures_window_slice.
Qed.

Lemma bucketFeatures_time_window_witness :
  bucketFeatures threeMarkers fromDayTen =
    Some [mkFeature 1 20 1; mkFeature 1 30 2].
Proof.
  rewrite (bucketFeatures_time_window threeMarkers fromDayTen 1 10 100);
    try reflexivity.
  - repeat constructor; vm_compute; reflexivity.
  - split; vm_compute; reflexivity.
  - split; vm_compute; reflexivity.
  - vm_compute. discriminate.
Defined.

(** X14.  On a layer in ascending order of key whose keys are computed
    exactly, a filter whose end time lies before its start time, with keys
    that are computed exactly, makes the slice length negative, and
    [new Array(n)] raises a [RangeError], as soon as the layer has a feature
    below the end key, one from the end key up to the start key, and one
    from the start key on. *)
Theorem bucketFeatures_inverted_window_raises layer spec cl s e f1 f2 f3 :
  sortedByKey layer = true →
  Forall exactFeature layer →
  colorIdx (getFilters spec) = Some cl →
  startTime (getFilters spec) = Some s →
  endTime (getFilters spec) = Some e →
  exactKey cl s → exactKey cl e →
  f1 ∈ layer → f2 ∈ layer → f3 ∈ layer →
  (keyOf f1 < e + cl * COLOR_OFFSET)%Z →
  (e + cl * COLOR_OFFSET <= keyOf f2)%Z → (keyOf f2 < s + cl * COLOR_OFFSET)%Z →
  (s + cl * COLOR_OFFSET <= keyOf f3)%Z →
  bucketFeatures layer spec = None.
Proof.
  intros Hsorted Hlayer Hc Hst Het Hks Hke H1 H2 H3 Hk1 Hk2 Hk2' Hk3.
  rewrite (bucketFeatures_exact layer spec cl s e) by done.
  by apply (bucketFeatures_inverted layer spec cl s e f1 f2 f3).
Qed.

Lemma bucketFeatures_inverted_window_raises_witness :
  bucketFeatures threeMarkers lateToEarly = None.
Proof.
  apply (bucketFeatures_inverted_window_raises threeMarkers lateToEarly 1 25 10
           (mkFeature 1 5 0) (mkFeature 1 20 1) (mkFeature 1 30 2));
    try reflexivity.
  - repeat constructor; vm_compute; reflexivity.
  - split; vm_compute; reflexivity.
  - split; vm_compute; reflexivity.
  - by left.
  - right. by left.
  - right. right. by left.
  - vm_compute. discriminate.
  - vm_compute. discriminate.
Defined.

End RoundedKeyProperties.
